(** * A shallow embedding of the song codec and of the synthesizer's scalar laws

    Source: [src/synth/synth.ts].  The development follows the file top to
    bottom: JavaScript numbers as the codec uses them, the base64 tables,
    [BitFieldReader] / [BitFieldWriter], [clamp] / [validateRange], the song
    data model, the legacy filter translator, [Song.toBase64String],
    [Song.fromBase64String], the master limiter loop of [Synth.synthesize] and
    [Synth.computeEnvelope].  Theorems come after all definitions. *)

From Stdlib Require Import ZArith List String Ascii Bool Lia Floats Uint63 Reals Lra.
Import ListNotations.

Set Warnings "-inexact-float".

Local Open Scope Z_scope.

(* ================================================================== *)
(** * JavaScript numbers *)
(* ================================================================== *)

(** The codec only ever handles integer-valued numbers (all far below 2^53,
    so that the double arithmetic of the source is exact on them), [NaN] and
    [undefined].  [undefined] appears when a table or a string is indexed out
    of range, [NaN] when [undefined] enters an addition. *)
Module JS.

Inductive value : Type :=
  | Num (z : Z)
  | NaN
  | Undefined.

(** [ToInt32] and [ToUint32] on integers. *)
Definition wrap32 (z : Z) : Z := (z + 2 ^ 31) mod 2 ^ 32 - 2 ^ 31.
Definition uwrap32 (z : Z) : Z := z mod 2 ^ 32.

Definition toInt32 (v : value) : Z :=
  match v with Num z => wrap32 z | _ => 0 end.

(** [a << k], [a >> k], [a >>> k]: the shift count is taken modulo 32, the
    left operand is converted to a 32-bit integer first. *)
Definition shl (a k : Z) : Z := wrap32 (Z.shiftl (wrap32 a) (k mod 32)).
Definition sar (a k : Z) : Z := Z.shiftr (wrap32 a) (k mod 32).
Definition shr (a k : Z) : Z := Z.shiftr (uwrap32 a) (k mod 32).

Definition vshl (a : value) (k : Z) : Z := shl (toInt32 a) k.
Definition vsar (a : value) (k : Z) : Z := sar (toInt32 a) k.
Definition vor (a b : value) : Z := Z.lor (toInt32 a) (toInt32 b).
Definition vand (a b : value) : Z := Z.land (toInt32 a) (toInt32 b).

(** [a + b], [a - b], [a * b] on numbers: anything that is not a number
    makes the result [NaN]. *)
Definition add (a b : value) : value :=
  match a, b with Num x, Num y => Num (x + y) | _, _ => NaN end.
Definition sub (a b : value) : value :=
  match a, b with Num x, Num y => Num (x - y) | _, _ => NaN end.
Definition mul (a b : value) : value :=
  match a, b with Num x, Num y => Num (x * y) | _, _ => NaN end.

(** Relational operators: false as soon as one side is not a number. *)
Definition le (a b : value) : bool :=
  match a, b with Num x, Num y => x <=? y | _, _ => false end.
Definition lt (a b : value) : bool :=
  match a, b with Num x, Num y => x <? y | _, _ => false end.
Definition ge (a b : value) : bool := le b a.
Definition gt (a b : value) : bool := lt b a.

(** [a == n] for a number literal [n]. *)
Definition eqz (a : value) (n : Z) : bool :=
  match a with Num x => x =? n | _ => false end.

(** [Math.max(a, Math.min(b, v))] style helpers on numbers; [NaN] is
    contagious, [undefined] converts to [NaN]. *)
Definition min (a b : value) : value :=
  match a, b with Num x, Num y => Num (Z.min x y) | _, _ => NaN end.
Definition max (a b : value) : value :=
  match a, b with Num x, Num y => Num (Z.max x y) | _, _ => NaN end.

(** [table[i]] for an array of numbers: [undefined] outside the array and for
    an index that is not a number. *)
Definition index (table : list Z) (i : value) : value :=
  match i with
  | Num z => if z <? 0 then Undefined
             else match nth_error table (Z.to_nat z) with
                  | Some x => Num x
                  | None => Undefined
                  end
  | _ => Undefined
  end.

(** [s.charCodeAt(i)]: [NaN] outside the string.  Strings are sequences of
    8-bit characters here; to the codec a code unit above 255 is what one in
    128..255 is, a character outside the base64 table that is no tag. *)
Definition charCodeAt (s : string) (i : value) : value :=
  match i with
  | Num z => if z <? 0 then NaN
             else match String.get (Z.to_nat z) s with
                  | Some c => Num (Z.of_nat (nat_of_ascii c))
                  | None => NaN
                  end
  | _ => NaN
  end.

Definition length (s : string) : Z := Z.of_nat (String.length s).

End JS.

Import JS.

(** Outcome of a call: a value, a thrown error, or fuel exhausted (the model
    of a loop that has not finished within the given number of turns). *)
Inductive Err : Type :=
  | RangeError (min max val : value)      (* validateRange *)
  | ValueOutOfBounds                      (* writeLongTail *)
  | TypeError                             (* property access on undefined *)
  | InvalidArrayLength                    (* [a.length = n] for a bad [n] *)
  | UnrecognizedTag (command : value) (index : value)
  | UnhandledSpectrumInstrument
  | UnrecognizedInstrumentType
  | UnknownInstrumentType.

Inductive Result (A : Type) : Type :=
  | Ok (a : A)
  | Throw (e : Err)
  | OutOfFuel.
Arguments Ok {A} a.
Arguments Throw {A} e.
Arguments OutOfFuel {A}.

Definition rbind {A B : Type} (r : Result A) (k : A -> Result B) : Result B :=
  match r with
  | Ok a => k a
  | Throw e => Throw e
  | OutOfFuel => OutOfFuel
  end.

Notation "'let*' x ':=' r 'in' k" := (rbind r (fun x => k))
  (at level 10, x pattern, r at level 100, k at level 200).

(* ================================================================== *)
(** * base64 tables, [clamp], [validateRange] *)
(* ================================================================== *)

Definition base64IntToCharCode : list Z :=
  [48;49;50;51;52;53;54;55;56;57;97;98;99;100;101;102;103;104;105;106;107;108;
   109;110;111;112;113;114;115;116;117;118;119;120;121;122;65;66;67;68;69;70;
   71;72;73;74;75;76;77;78;79;80;81;82;83;84;85;86;87;88;89;90;45;95].

Definition base64CharCodeToInt : list Z :=
  [0;0;0;0;0;0;0;0;0;0;0;0;0;0;0;0;0;0;0;0;0;0;0;0;0;0;0;0;0;0;0;0;0;0;0;0;0;0;
   0;0;0;0;0;0;0;62;62;0;0;1;2;3;4;5;6;7;8;9;0;0;0;0;0;0;0;36;37;38;39;40;41;
   42;43;44;45;46;47;48;49;50;51;52;53;54;55;56;57;58;59;60;61;0;0;0;0;63;0;10;
   11;12;13;14;15;16;17;18;19;20;21;22;23;24;25;26;27;28;29;30;31;32;33;34;35;
   0;0;0;0;0].

(** [clamp(min, max, val)]: [max] is decremented first. *)
Definition clamp (min max : Z) (val : value) : value :=
  let max := max - 1 in
  if JS.le val (Num max) then
    if JS.ge val (Num min) then val else Num min
  else Num max.

Definition validateRange (min max val : value) : Result value :=
  if JS.le min val && JS.le val max then Ok val
  else Throw (RangeError min max val).

(* ================================================================== *)
(** * Bit fields *)
(* ================================================================== *)

(** Every element the source stores into a [_bits] array is the number 0 or
    1 ([(v >> k) & 0x1], [(v >>> k) & 1], a literal, or a copy of another
    [_bits] element): the arrays are lists of booleans here. *)

Module BitFieldReader.

Record t : Type := mk { _bits : list bool; _readIndex : nat }.

(** [(value >> k) & 0x1] *)
Definition bitOf (v : value) (k : Z) : bool :=
  negb (Z.land (JS.vsar v k) 1 =? 0).

Definition symbolBits (v : value) : list bool :=
  [bitOf v 5; bitOf v 4; bitOf v 3; bitOf v 2; bitOf v 1; bitOf v 0].

(** The constructor's loop body for [i = start, start + 1, ...]. *)
Fixpoint collect (source : string) (i : Z) (count : nat) : list bool :=
  match count with
  | O => []
  | S n =>
      symbolBits (JS.index base64CharCodeToInt (JS.charCodeAt source (Num i)))
        ++ collect source (i + 1) n
  end.

(** [new BitFieldReader(source, startIndex, stopIndex)]; the loop
    [for (i = startIndex; i < stopIndex; i++)] runs no turn when a bound is
    [NaN]. *)
Definition make (source : string) (startIndex stopIndex : value) : t :=
  match startIndex, stopIndex with
  | Num a, Num b => mk (collect source a (Z.to_nat (b - a))) 0
  | _, _ => mk [] 0
  end.

(** [this._bits[this._readIndex++]]: [None] is [undefined]. *)
Definition next (r : t) : option bool * t :=
  (nth_error (_bits r) (_readIndex r), mk (_bits r) (S (_readIndex r))).

Fixpoint read_loop (bitCount : nat) (r : t) (result : value) : value * t :=
  match bitCount with
  | O => (result, r)
  | S n =>
      let result := Num (JS.vshl result 1) in
      let (b, r) := next r in
      let result := JS.add result
                      (match b with Some b => Num (Z.b2z b) | None => Undefined end) in
      read_loop n r result
  end.

Definition read (bitCount : Z) (r : t) : value * t :=
  read_loop (Z.to_nat bitCount) r (Num 0).

(** First loop of [readLongTail]: [while (this._bits[this._readIndex++])],
    by recursion on the bits not yet read; [n] counts the reads.  [result]
    is a whole number: [result += 1 << numBits] is the sum of the source as
    long as the numbers stay within [2^53] in magnitude, where doubles add
    whole numbers without rounding. *)
Fixpoint unaryPrefix (rest : list bool) (result numBits : Z) (n : nat)
  : Z * Z * nat :=
  match rest with
  | true :: rest' =>
      unaryPrefix rest' (result + JS.shl 1 numBits) (numBits + 1) (S n)
  | _ => (result, numBits, S n)
  end.

(** Second loop: [while (numBits > 0) { numBits--; if (bit) result += 1 << numBits }]. *)
Fixpoint tailBits (numBits : nat) (r : t) (result : Z) : Z * t :=
  match numBits with
  | O => (result, r)
  | S k =>
      let (b, r) := next r in
      tailBits k r (if match b with Some true => true | _ => false end
                    then result + JS.shl 1 (Z.of_nat k) else result)
  end.

Definition readLongTail (minValue minBits : Z) (r : t) : Z * t :=
  let '(result, numBits, n) :=
    unaryPrefix (skipn (_readIndex r) (_bits r)) minValue minBits 0 in
  tailBits (Z.to_nat numBits) (mk (_bits r) (_readIndex r + n)) result.

Definition readPartDuration := readLongTail 1 3.
Definition readLegacyPartDuration := readLongTail 1 2.
Definition readPinCount := readLongTail 1 0.

Definition readPitchInterval (r : t) : Z * t :=
  let (s, r) := read 1 r in
  let (v, r) := readLongTail 1 3 r in
  (* [if (this.read(1))]: a [NaN] sign bit is falsy *)
  if match s with Num z => negb (z =? 0) | _ => false end then (- v, r) else (v, r).

End BitFieldReader.

Module BitFieldWriter.

Record t : Type := mk { _index : nat; _bits : list bool }.

Definition empty : t := mk 0 [].

Definition clear (w : t) : t := mk 0 (_bits w).

(** [this._bits[this._index++] = b]; an array shorter than the index is
    extended (its holes read as [undefined], which every use treats as 0). *)
Definition push (b : bool) (w : t) : t :=
  let padded := _bits w ++ repeat false (_index w - List.length (_bits w)) in
  mk (S (_index w)) (firstn (_index w) padded ++ b :: skipn (S (_index w)) (_bits w)).

(** [(value >>> k) & 1] *)
Definition bitOf (v : value) (k : Z) : bool :=
  negb (Z.land (JS.shr (match v with Num z => z | _ => 0 end) k) 1 =? 0).

(** [bitCount--; while (bitCount >= 0) { push((value >>> bitCount) & 1); bitCount-- }] *)
Fixpoint write_loop (bitCount : nat) (v : value) (w : t) : t :=
  match bitCount with
  | O => w
  | S k => write_loop k v (push (bitOf v (Z.of_nat k)) w)
  end.

Definition write (bitCount : Z) (v : value) (w : t) : t :=
  write_loop (Z.to_nat bitCount) v w.

(** [while (value >= (1 << numBits)) { push(1); value -= 1 << numBits; numBits++ }] *)
Fixpoint writeLongTail_prefix (fuel : nat) (v : value) (numBits : Z) (w : t)
  : Result (value * Z * t) :=
  match fuel with
  | O => OutOfFuel
  | S f =>
      if JS.ge v (Num (JS.shl 1 numBits))
      then writeLongTail_prefix f (JS.sub v (Num (JS.shl 1 numBits))) (numBits + 1)
             (push true w)
      else Ok (v, numBits, w)
  end.

Definition writeLongTail (fuel : nat) (minValue minBits : Z) (v : value) (w : t)
  : Result t :=
  if JS.lt v (Num minValue) then Throw ValueOutOfBounds
  else
    match writeLongTail_prefix fuel (JS.sub v (Num minValue)) minBits w with
    | Ok (v, numBits, w) => Ok (write_loop (Z.to_nat numBits) v (push false w))
    | Throw e => Throw e
    | OutOfFuel => OutOfFuel
    end.

Definition writePartDuration (fuel : nat) := writeLongTail fuel 1 3.
Definition writePinCount (fuel : nat) := writeLongTail fuel 1 0.

Definition writePitchInterval (fuel : nat) (v : value) (w : t) : Result t :=
  if JS.lt v (Num 0)
  then writeLongTail fuel 1 3 (JS.sub (Num 0) v) (write 1 (Num 1) w)
  else writeLongTail fuel 1 3 v (write 1 (Num 0) w).

(** [for (i = 0; i < other._index; i++) this._bits[this._index++] = other._bits[i]] *)
Definition concat (other : t) (w : t) : t :=
  fold_left (fun w i => push (nth i (_bits other) false) w) (seq 0 (_index other)) w.

(** One turn of [encodeBase64]: the symbol of the six bits from [i]. *)
Definition group (w : t) (i : nat) : Z :=
  let b k := Z.b2z (nth (i + k) (_bits w) false) in
  Z.lor (Z.lor (Z.lor (Z.lor (Z.lor (JS.shl (b 0%nat) 5) (JS.shl (b 1%nat) 4))
    (JS.shl (b 2%nat) 3)) (JS.shl (b 3%nat) 2)) (JS.shl (b 4%nat) 1)) (b 5%nat).

Definition lengthBase64 (w : t) : nat := (_index w + 5) / 6.

Definition encodeBase64 (buffer : list value) (w : t) : list value :=
  buffer ++ map (fun j => JS.index base64IntToCharCode (Num (group w (6 * j))))
              (seq 0 (lengthBase64 w)).

End BitFieldWriter.

(** [String.fromCharCode.apply(null, codes)]: a code that is not a number
    yields the character 0, as [ToUint16] does. *)
Definition fromCharCodes (codes : list value) : string :=
  string_of_list_ascii
    (map (fun c => ascii_of_nat (Z.to_nat (match c with Num z => z | _ => 0 end))) codes).

(* ================================================================== *)
(** * Configuration *)
(* ================================================================== *)

(** [EnvelopeType], as [Synth.computeEnvelope] and
    [FilterSettings.convertLegacySettings] enumerate it. *)
Inductive EnvelopeType : Type :=
  | custom | steady | punch | flare | twang | swell | tremolo | tremolo2 | decay.

(** An entry of [Config.envelopes]. *)
Module Envelope.
Record t : Type := mk { type : EnvelopeType; speed : R }.
End Envelope.

(** The constants of [./SynthConfig] that [synth.ts] imports and the codec
    reads.  [SynthConfig] is not among the sources at hand, so the constants
    are parameters of the development: an enumeration ([InstrumentType],
    [EffectType], [FilterType]) is given by the number of each of its members,
    a table by its length or by the column the codec reads, a dictionary entry
    by its index. *)
Record Config : Type := {
  (* InstrumentType *)
  InstrumentType_chip : Z;
  InstrumentType_fm : Z;
  InstrumentType_noise : Z;
  InstrumentType_spectrum : Z;
  InstrumentType_drumset : Z;
  InstrumentType_harmonics : Z;
  InstrumentType_pwm : Z;
  InstrumentType_guitar : Z;
  InstrumentType_length : Z;
  (* EffectType *)
  EffectType_reverb : Z;
  EffectType_chorus : Z;
  EffectType_panning : Z;
  EffectType_distortion : Z;
  EffectType_bitcrusher : Z;
  EffectType_length : Z;
  (* FilterType *)
  FilterType_lowPass : Z;
  FilterType_highPass : Z;
  FilterType_peak : Z;
  FilterType_length : Z;
  (* song *)
  keys_length : Z;
  tempoMin : Z;
  tempoMax : Z;
  beatsPerBarMin : Z;
  beatsPerBarMax : Z;
  barCountMin : Z;
  barCountMax : Z;
  instrumentsPerChannelMin : Z;
  instrumentsPerChannelMax : Z;
  pitchChannelCountMin : Z;
  pitchChannelCountMax : Z;
  noiseChannelCountMin : Z;
  noiseChannelCountMax : Z;
  scrollableOctaves : Z;
  partsPerBeat : Z;
  rhythms_stepsPerBeat : list Z;     (* Config.rhythms[i].stepsPerBeat *)
  maxChordSize : Z;
  (* instruments *)
  volumeRange : Z;
  panCenter : Z;
  panMax : Z;
  reverbRange : Z;
  distortionRange : Z;
  bitcrusherFreqRange : Z;
  bitcrusherQuantizationRange : Z;
  sustainRange : Z;
  pulseWidthRange : Z;
  filterFreqRange : Z;
  filterGainRange : Z;
  filterGainCenter : Z;
  filterMaxPoints : Z;
  chipWaves_length : Z;
  chipNoises_length : Z;
  transitions_length : Z;
  transitions_hard_index : Z;        (* Config.transitions.dictionary["hard"].index *)
  vibratos_length : Z;
  intervals_length : Z;
  chords_length : Z;
  envelopes : list Envelope.t;
  envelopes_steady_index : Z;        (* Config.envelopes.dictionary["steady"].index *)
  envelopes_twang2_index : Z;        (* Config.envelopes.dictionary["twang 2"].index *)
  algorithms_length : Z;
  feedbacks_length : Z;
  operatorCount : Z;
  operatorAmplitudeMax : Z;
  operatorFrequencies_length : Z;
  drumCount : Z;
  spectrumControlPoints : Z;
  spectrumControlPointBits : Z;
  spectrumMax : Z;
  harmonicsControlPoints : Z;
  harmonicsControlPointBits : Z;
  harmonicsMax : Z
}.

Definition envelopes_length (cfg : Config) : Z :=
  Z.of_nat (List.length (envelopes cfg)).

(** Modelled from the spec: [effectsIncludeReverb] and its siblings are
    imported from [./SynthConfig]; the spec calls [effects] a bitmask, and
    [synth.ts] itself sets and clears the bit [1 << EffectType.x]. *)
Definition effectsInclude (effectType : Z) (effects : value) : bool :=
  negb (JS.vand effects (Num (JS.shl 1 effectType)) =? 0).

(* ================================================================== *)
(** * Data model *)
(* ================================================================== *)

(** An element of [Note.pins] ([makeNotePin]). *)
Module NotePin.
Record t : Type := mk {
  interval : value;
  time : value;
  expression : value
}.
Definition set_interval (x : value) (r : t) : t :=
  mk x (time r) (expression r).
Definition set_time (x : value) (r : t) : t :=
  mk (interval r) x (expression r).
Definition set_expression (x : value) (r : t) : t :=
  mk (interval r) (time r) x.
End NotePin.

(** [class Note]; [end_] is the source's [end]. *)
Module Note.
Record t : Type := mk {
  pitches : list value;
  pins : list NotePin.t;
  start : value;
  end_ : value
}.
Definition set_pitches (x : list value) (r : t) : t :=
  mk x (pins r) (start r) (end_ r).
Definition set_pins (x : list NotePin.t) (r : t) : t :=
  mk (pitches r) x (start r) (end_ r).
Definition set_start (x : value) (r : t) : t :=
  mk (pitches r) (pins r) x (end_ r).
Definition set_end_ (x : value) (r : t) : t :=
  mk (pitches r) (pins r) (start r) x.
End Note.

(** [class Pattern]. *)
Module Pattern.
Record t : Type := mk {
  notes : list Note.t;
  instrument : value
}.
Definition set_notes (x : list Note.t) (r : t) : t :=
  mk x (instrument r).
Definition set_instrument (x : value) (r : t) : t :=
  mk (notes r) x.
End Pattern.

(** [class Operator]. *)
Module Operator.
Record t : Type := mk {
  frequency : value;
  amplitude : value;
  envelope : value
}.
Definition set_frequency (x : value) (r : t) : t :=
  mk x (amplitude r) (envelope r).
Definition set_amplitude (x : value) (r : t) : t :=
  mk (frequency r) x (envelope r).
Definition set_envelope (x : value) (r : t) : t :=
  mk (frequency r) (amplitude r) x.
End Operator.

(** [class FilterControlPoint]; [type] holds the number of a [FilterType]. *)
Module FilterControlPoint.
Record t : Type := mk {
  freq : value;
  gain : value;
  type : value
}.
Definition set_freq (x : value) (r : t) : t :=
  mk x (gain r) (type r).
Definition set_gain (x : value) (r : t) : t :=
  mk (freq r) x (type r).
Definition set_type (x : value) (r : t) : t :=
  mk (freq r) (gain r) x.
End FilterControlPoint.

(** [class FilterSettings]. *)
Module FilterSettings.
Record t : Type := mk {
  controlPoints : list FilterControlPoint.t;
  controlPointCount : value
}.
Definition set_controlPoints (x : list FilterControlPoint.t) (r : t) : t :=
  mk x (controlPointCount r).
Definition set_controlPointCount (x : value) (r : t) : t :=
  mk (controlPoints r) x.
End FilterSettings.

(** [class Instrument]; [type] holds the number of an [InstrumentType].  The
    cached waves of [SpectrumWave] and [HarmonicsWave] are left out: the arrays
    [spectrum] and [harmonics] are what the codec reads and writes. *)
Module Instrument.
Record t : Type := mk {
  type : value;
  preset : value;
  chipWave : value;
  chipNoise : value;
  filter : FilterSettings.t;
  distortionFilter : FilterSettings.t;
  filterEnvelope : value;
  transition : value;
  vibrato : value;
  interval : value;
  effects : value;
  chord : value;
  volume : value;
  pan : value;
  pulseWidth : value;
  pulseEnvelope : value;
  sustain : value;
  distortion : value;
  bitcrusherFreq : value;
  bitcrusherQuantization : value;
  reverb : value;
  algorithm : value;
  feedbackType : value;
  feedbackAmplitude : value;
  feedbackEnvelope : value;
  operators : list Operator.t;
  spectrumWave : list value;
  harmonicsWave : list value;
  drumsetEnvelopes : list value;
  drumsetSpectrumWaves : list (list value)
}.
Definition set_type (x : value) (r : t) : t :=
  mk x (preset r) (chipWave r) (chipNoise r) (filter r) (distortionFilter r)
    (filterEnvelope r) (transition r) (vibrato r) (interval r) (effects r)
    (chord r) (volume r) (pan r) (pulseWidth r) (pulseEnvelope r) (sustain r)
    (distortion r) (bitcrusherFreq r) (bitcrusherQuantization r) (reverb r)
    (algorithm r) (feedbackType r) (feedbackAmplitude r) (feedbackEnvelope r)
    (operators r) (spectrumWave r) (harmonicsWave r) (drumsetEnvelopes r)
    (drumsetSpectrumWaves r).
Definition set_preset (x : value) (r : t) : t :=
  mk (type r) x (chipWave r) (chipNoise r) (filter r) (distortionFilter r)
    (filterEnvelope r) (transition r) (vibrato r) (interval r) (effects r)
    (chord r) (volume r) (pan r) (pulseWidth r) (pulseEnvelope r) (sustain r)
    (distortion r) (bitcrusherFreq r) (bitcrusherQuantization r) (reverb r)
    (algorithm r) (feedbackType r) (feedbackAmplitude r) (feedbackEnvelope r)
    (operators r) (spectrumWave r) (harmonicsWave r) (drumsetEnvelopes r)
    (drumsetSpectrumWaves r).
Definition set_chipWave (x : value) (r : t) : t :=
  mk (type r) (preset r) x (chipNoise r) (filter r) (distortionFilter r)
    (filterEnvelope r) (transition r) (vibrato r) (interval r) (effects r)
    (chord r) (volume r) (pan r) (pulseWidth r) (pulseEnvelope r) (sustain r)
    (distortion r) (bitcrusherFreq r) (bitcrusherQuantization r) (reverb r)
    (algorithm r) (feedbackType r) (feedbackAmplitude r) (feedbackEnvelope r)
    (operators r) (spectrumWave r) (harmonicsWave r) (drumsetEnvelopes r)
    (drumsetSpectrumWaves r).
Definition set_chipNoise (x : value) (r : t) : t :=
  mk (type r) (preset r) (chipWave r) x (filter r) (distortionFilter r)
    (filterEnvelope r) (transition r) (vibrato r) (interval r) (effects r)
    (chord r) (volume r) (pan r) (pulseWidth r) (pulseEnvelope r) (sustain r)
    (distortion r) (bitcrusherFreq r) (bitcrusherQuantization r) (reverb r)
    (algorithm r) (feedbackType r) (feedbackAmplitude r) (feedbackEnvelope r)
    (operators r) (spectrumWave r) (harmonicsWave r) (drumsetEnvelopes r)
    (drumsetSpectrumWaves r).
Definition set_filter (x : FilterSettings.t) (r : t) : t :=
  mk (type r) (preset r) (chipWave r) (chipNoise r) x (distortionFilter r)
    (filterEnvelope r) (transition r) (vibrato r) (interval r) (effects r)
    (chord r) (volume r) (pan r) (pulseWidth r) (pulseEnvelope r) (sustain r)
    (distortion r) (bitcrusherFreq r) (bitcrusherQuantization r) (reverb r)
    (algorithm r) (feedbackType r) (feedbackAmplitude r) (feedbackEnvelope r)
    (operators r) (spectrumWave r) (harmonicsWave r) (drumsetEnvelopes r)
    (drumsetSpectrumWaves r).
Definition set_distortionFilter (x : FilterSettings.t) (r : t) : t :=
  mk (type r) (preset r) (chipWave r) (chipNoise r) (filter r) x
    (filterEnvelope r) (transition r) (vibrato r) (interval r) (effects r)
    (chord r) (volume r) (pan r) (pulseWidth r) (pulseEnvelope r) (sustain r)
    (distortion r) (bitcrusherFreq r) (bitcrusherQuantization r) (reverb r)
    (algorithm r) (feedbackType r) (feedbackAmplitude r) (feedbackEnvelope r)
    (operators r) (spectrumWave r) (harmonicsWave r) (drumsetEnvelopes r)
    (drumsetSpectrumWaves r).
Definition set_filterEnvelope (x : value) (r : t) : t :=
  mk (type r) (preset r) (chipWave r) (chipNoise r) (filter r)
    (distortionFilter r) x (transition r) (vibrato r) (interval r) (effects r)
    (chord r) (volume r) (pan r) (pulseWidth r) (pulseEnvelope r) (sustain r)
    (distortion r) (bitcrusherFreq r) (bitcrusherQuantization r) (reverb r)
    (algorithm r) (feedbackType r) (feedbackAmplitude r) (feedbackEnvelope r)
    (operators r) (spectrumWave r) (harmonicsWave r) (drumsetEnvelopes r)
    (drumsetSpectrumWaves r).
Definition set_transition (x : value) (r : t) : t :=
  mk (type r) (preset r) (chipWave r) (chipNoise r) (filter r)
    (distortionFilter r) (filterEnvelope r) x (vibrato r) (interval r)
    (effects r) (chord r) (volume r) (pan r) (pulseWidth r) (pulseEnvelope r)
    (sustain r) (distortion r) (bitcrusherFreq r) (bitcrusherQuantization r)
    (reverb r) (algorithm r) (feedbackType r) (feedbackAmplitude r)
    (feedbackEnvelope r) (operators r) (spectrumWave r) (harmonicsWave r)
    (drumsetEnvelopes r) (drumsetSpectrumWaves r).
Definition set_vibrato (x : value) (r : t) : t :=
  mk (type r) (preset r) (chipWave r) (chipNoise r) (filter r)
    (distortionFilter r) (filterEnvelope r) (transition r) x (interval r)
    (effects r) (chord r) (volume r) (pan r) (pulseWidth r) (pulseEnvelope r)
    (sustain r) (distortion r) (bitcrusherFreq r) (bitcrusherQuantization r)
    (reverb r) (algorithm r) (feedbackType r) (feedbackAmplitude r)
    (feedbackEnvelope r) (operators r) (spectrumWave r) (harmonicsWave r)
    (drumsetEnvelopes r) (drumsetSpectrumWaves r).
Definition set_interval (x : value) (r : t) : t :=
  mk (type r) (preset r) (chipWave r) (chipNoise r) (filter r)
    (distortionFilter r) (filterEnvelope r) (transition r) (vibrato r) x
    (effects r) (chord r) (volume r) (pan r) (pulseWidth r) (pulseEnvelope r)
    (sustain r) (distortion r) (bitcrusherFreq r) (bitcrusherQuantization r)
    (reverb r) (algorithm r) (feedbackType r) (feedbackAmplitude r)
    (feedbackEnvelope r) (operators r) (spectrumWave r) (harmonicsWave r)
    (drumsetEnvelopes r) (drumsetSpectrumWaves r).
Definition set_effects (x : value) (r : t) : t :=
  mk (type r) (preset r) (chipWave r) (chipNoise r) (filter r)
    (distortionFilter r) (filterEnvelope r) (transition r) (vibrato r)
    (interval r) x (chord r) (volume r) (pan r) (pulseWidth r) (pulseEnvelope
    r) (sustain r) (distortion r) (bitcrusherFreq r) (bitcrusherQuantization
    r) (reverb r) (algorithm r) (feedbackType r) (feedbackAmplitude r)
    (feedbackEnvelope r) (operators r) (spectrumWave r) (harmonicsWave r)
    (drumsetEnvelopes r) (drumsetSpectrumWaves r).
Definition set_chord (x : value) (r : t) : t :=
  mk (type r) (preset r) (chipWave r) (chipNoise r) (filter r)
    (distortionFilter r) (filterEnvelope r) (transition r) (vibrato r)
    (interval r) (effects r) x (volume r) (pan r) (pulseWidth r)
    (pulseEnvelope r) (sustain r) (distortion r) (bitcrusherFreq r)
    (bitcrusherQuantization r) (reverb r) (algorithm r) (feedbackType r)
    (feedbackAmplitude r) (feedbackEnvelope r) (operators r) (spectrumWave r)
    (harmonicsWave r) (drumsetEnvelopes r) (drumsetSpectrumWaves r).
Definition set_volume (x : value) (r : t) : t :=
  mk (type r) (preset r) (chipWave r) (chipNoise r) (filter r)
    (distortionFilter r) (filterEnvelope r) (transition r) (vibrato r)
    (interval r) (effects r) (chord r) x (pan r) (pulseWidth r) (pulseEnvelope
    r) (sustain r) (distortion r) (bitcrusherFreq r) (bitcrusherQuantization
    r) (reverb r) (algorithm r) (feedbackType r) (feedbackAmplitude r)
    (feedbackEnvelope r) (operators r) (spectrumWave r) (harmonicsWave r)
    (drumsetEnvelopes r) (drumsetSpectrumWaves r).
Definition set_pan (x : value) (r : t) : t :=
  mk (type r) (preset r) (chipWave r) (chipNoise r) (filter r)
    (distortionFilter r) (filterEnvelope r) (transition r) (vibrato r)
    (interval r) (effects r) (chord r) (volume r) x (pulseWidth r)
    (pulseEnvelope r) (sustain r) (distortion r) (bitcrusherFreq r)
    (bitcrusherQuantization r) (reverb r) (algorithm r) (feedbackType r)
    (feedbackAmplitude r) (feedbackEnvelope r) (operators r) (spectrumWave r)
    (harmonicsWave r) (drumsetEnvelopes r) (drumsetSpectrumWaves r).
Definition set_pulseWidth (x : value) (r : t) : t :=
  mk (type r) (preset r) (chipWave r) (chipNoise r) (filter r)
    (distortionFilter r) (filterEnvelope r) (transition r) (vibrato r)
    (interval r) (effects r) (chord r) (volume r) (pan r) x (pulseEnvelope r)
    (sustain r) (distortion r) (bitcrusherFreq r) (bitcrusherQuantization r)
    (reverb r) (algorithm r) (feedbackType r) (feedbackAmplitude r)
    (feedbackEnvelope r) (operators r) (spectrumWave r) (harmonicsWave r)
    (drumsetEnvelopes r) (drumsetSpectrumWaves r).
Definition set_pulseEnvelope (x : value) (r : t) : t :=
  mk (type r) (preset r) (chipWave r) (chipNoise r) (filter r)
    (distortionFilter r) (filterEnvelope r) (transition r) (vibrato r)
    (interval r) (effects r) (chord r) (volume r) (pan r) (pulseWidth r) x
    (sustain r) (distortion r) (bitcrusherFreq r) (bitcrusherQuantization r)
    (reverb r) (algorithm r) (feedbackType r) (feedbackAmplitude r)
    (feedbackEnvelope r) (operators r) (spectrumWave r) (harmonicsWave r)
    (drumsetEnvelopes r) (drumsetSpectrumWaves r).
Definition set_sustain (x : value) (r : t) : t :=
  mk (type r) (preset r) (chipWave r) (chipNoise r) (filter r)
    (distortionFilter r) (filterEnvelope r) (transition r) (vibrato r)
    (interval r) (effects r) (chord r) (volume r) (pan r) (pulseWidth r)
    (pulseEnvelope r) x (distortion r) (bitcrusherFreq r)
    (bitcrusherQuantization r) (reverb r) (algorithm r) (feedbackType r)
    (feedbackAmplitude r) (feedbackEnvelope r) (operators r) (spectrumWave r)
    (harmonicsWave r) (drumsetEnvelopes r) (drumsetSpectrumWaves r).
Definition set_distortion (x : value) (r : t) : t :=
  mk (type r) (preset r) (chipWave r) (chipNoise r) (filter r)
    (distortionFilter r) (filterEnvelope r) (transition r) (vibrato r)
    (interval r) (effects r) (chord r) (volume r) (pan r) (pulseWidth r)
    (pulseEnvelope r) (sustain r) x (bitcrusherFreq r) (bitcrusherQuantization
    r) (reverb r) (algorithm r) (feedbackType r) (feedbackAmplitude r)
    (feedbackEnvelope r) (operators r) (spectrumWave r) (harmonicsWave r)
    (drumsetEnvelopes r) (drumsetSpectrumWaves r).
Definition set_bitcrusherFreq (x : value) (r : t) : t :=
  mk (type r) (preset r) (chipWave r) (chipNoise r) (filter r)
    (distortionFilter r) (filterEnvelope r) (transition r) (vibrato r)
    (interval r) (effects r) (chord r) (volume r) (pan r) (pulseWidth r)
    (pulseEnvelope r) (sustain r) (distortion r) x (bitcrusherQuantization r)
    (reverb r) (algorithm r) (feedbackType r) (feedbackAmplitude r)
    (feedbackEnvelope r) (operators r) (spectrumWave r) (harmonicsWave r)
    (drumsetEnvelopes r) (drumsetSpectrumWaves r).
Definition set_bitcrusherQuantization (x : value) (r : t) : t :=
  mk (type r) (preset r) (chipWave r) (chipNoise r) (filter r)
    (distortionFilter r) (filterEnvelope r) (transition r) (vibrato r)
    (interval r) (effects r) (chord r) (volume r) (pan r) (pulseWidth r)
    (pulseEnvelope r) (sustain r) (distortion r) (bitcrusherFreq r) x (reverb
    r) (algorithm r) (feedbackType r) (feedbackAmplitude r) (feedbackEnvelope
    r) (operators r) (spectrumWave r) (harmonicsWave r) (drumsetEnvelopes r)
    (drumsetSpectrumWaves r).
Definition set_reverb (x : value) (r : t) : t :=
  mk (type r) (preset r) (chipWave r) (chipNoise r) (filter r)
    (distortionFilter r) (filterEnvelope r) (transition r) (vibrato r)
    (interval r) (effects r) (chord r) (volume r) (pan r) (pulseWidth r)
    (pulseEnvelope r) (sustain r) (distortion r) (bitcrusherFreq r)
    (bitcrusherQuantization r) x (algorithm r) (feedbackType r)
    (feedbackAmplitude r) (feedbackEnvelope r) (operators r) (spectrumWave r)
    (harmonicsWave r) (drumsetEnvelopes r) (drumsetSpectrumWaves r).
Definition set_algorithm (x : value) (r : t) : t :=
  mk (type r) (preset r) (chipWave r) (chipNoise r) (filter r)
    (distortionFilter r) (filterEnvelope r) (transition r) (vibrato r)
    (interval r) (effects r) (chord r) (volume r) (pan r) (pulseWidth r)
    (pulseEnvelope r) (sustain r) (distortion r) (bitcrusherFreq r)
    (bitcrusherQuantization r) (reverb r) x (feedbackType r)
    (feedbackAmplitude r) (feedbackEnvelope r) (operators r) (spectrumWave r)
    (harmonicsWave r) (drumsetEnvelopes r) (drumsetSpectrumWaves r).
Definition set_feedbackType (x : value) (r : t) : t :=
  mk (type r) (preset r) (chipWave r) (chipNoise r) (filter r)
    (distortionFilter r) (filterEnvelope r) (transition r) (vibrato r)
    (interval r) (effects r) (chord r) (volume r) (pan r) (pulseWidth r)
    (pulseEnvelope r) (sustain r) (distortion r) (bitcrusherFreq r)
    (bitcrusherQuantization r) (reverb r) (algorithm r) x (feedbackAmplitude
    r) (feedbackEnvelope r) (operators r) (spectrumWave r) (harmonicsWave r)
    (drumsetEnvelopes r) (drumsetSpectrumWaves r).
Definition set_feedbackAmplitude (x : value) (r : t) : t :=
  mk (type r) (preset r) (chipWave r) (chipNoise r) (filter r)
    (distortionFilter r) (filterEnvelope r) (transition r) (vibrato r)
    (interval r) (effects r) (chord r) (volume r) (pan r) (pulseWidth r)
    (pulseEnvelope r) (sustain r) (distortion r) (bitcrusherFreq r)
    (bitcrusherQuantization r) (reverb r) (algorithm r) (feedbackType r) x
    (feedbackEnvelope r) (operators r) (spectrumWave r) (harmonicsWave r)
    (drumsetEnvelopes r) (drumsetSpectrumWaves r).
Definition set_feedbackEnvelope (x : value) (r : t) : t :=
  mk (type r) (preset r) (chipWave r) (chipNoise r) (filter r)
    (distortionFilter r) (filterEnvelope r) (transition r) (vibrato r)
    (interval r) (effects r) (chord r) (volume r) (pan r) (pulseWidth r)
    (pulseEnvelope r) (sustain r) (distortion r) (bitcrusherFreq r)
    (bitcrusherQuantization r) (reverb r) (algorithm r) (feedbackType r)
    (feedbackAmplitude r) x (operators r) (spectrumWave r) (harmonicsWave r)
    (drumsetEnvelopes r) (drumsetSpectrumWaves r).
Definition set_operators (x : list Operator.t) (r : t) : t :=
  mk (type r) (preset r) (chipWave r) (chipNoise r) (filter r)
    (distortionFilter r) (filterEnvelope r) (transition r) (vibrato r)
    (interval r) (effects r) (chord r) (volume r) (pan r) (pulseWidth r)
    (pulseEnvelope r) (sustain r) (distortion r) (bitcrusherFreq r)
    (bitcrusherQuantization r) (reverb r) (algorithm r) (feedbackType r)
    (feedbackAmplitude r) (feedbackEnvelope r) x (spectrumWave r)
    (harmonicsWave r) (drumsetEnvelopes r) (drumsetSpectrumWaves r).
Definition set_spectrumWave (x : list value) (r : t) : t :=
  mk (type r) (preset r) (chipWave r) (chipNoise r) (filter r)
    (distortionFilter r) (filterEnvelope r) (transition r) (vibrato r)
    (interval r) (effects r) (chord r) (volume r) (pan r) (pulseWidth r)
    (pulseEnvelope r) (sustain r) (distortion r) (bitcrusherFreq r)
    (bitcrusherQuantization r) (reverb r) (algorithm r) (feedbackType r)
    (feedbackAmplitude r) (feedbackEnvelope r) (operators r) x (harmonicsWave
    r) (drumsetEnvelopes r) (drumsetSpectrumWaves r).
Definition set_harmonicsWave (x : list value) (r : t) : t :=
  mk (type r) (preset r) (chipWave r) (chipNoise r) (filter r)
    (distortionFilter r) (filterEnvelope r) (transition r) (vibrato r)
    (interval r) (effects r) (chord r) (volume r) (pan r) (pulseWidth r)
    (pulseEnvelope r) (sustain r) (distortion r) (bitcrusherFreq r)
    (bitcrusherQuantization r) (reverb r) (algorithm r) (feedbackType r)
    (feedbackAmplitude r) (feedbackEnvelope r) (operators r) (spectrumWave r)
    x (drumsetEnvelopes r) (drumsetSpectrumWaves r).
Definition set_drumsetEnvelopes (x : list value) (r : t) : t :=
  mk (type r) (preset r) (chipWave r) (chipNoise r) (filter r)
    (distortionFilter r) (filterEnvelope r) (transition r) (vibrato r)
    (interval r) (effects r) (chord r) (volume r) (pan r) (pulseWidth r)
    (pulseEnvelope r) (sustain r) (distortion r) (bitcrusherFreq r)
    (bitcrusherQuantization r) (reverb r) (algorithm r) (feedbackType r)
    (feedbackAmplitude r) (feedbackEnvelope r) (operators r) (spectrumWave r)
    (harmonicsWave r) x (drumsetSpectrumWaves r).
Definition set_drumsetSpectrumWaves (x : list (list value)) (r : t) : t :=
  mk (type r) (preset r) (chipWave r) (chipNoise r) (filter r)
    (distortionFilter r) (filterEnvelope r) (transition r) (vibrato r)
    (interval r) (effects r) (chord r) (volume r) (pan r) (pulseWidth r)
    (pulseEnvelope r) (sustain r) (distortion r) (bitcrusherFreq r)
    (bitcrusherQuantization r) (reverb r) (algorithm r) (feedbackType r)
    (feedbackAmplitude r) (feedbackEnvelope r) (operators r) (spectrumWave r)
    (harmonicsWave r) (drumsetEnvelopes r) x.
End Instrument.

(** [class Channel]. *)
Module Channel.
Record t : Type := mk {
  octave : value;
  instruments : list Instrument.t;
  patterns : list Pattern.t;
  bars : list value;
  muted : bool
}.
Definition set_octave (x : value) (r : t) : t :=
  mk x (instruments r) (patterns r) (bars r) (muted r).
Definition set_instruments (x : list Instrument.t) (r : t) : t :=
  mk (octave r) x (patterns r) (bars r) (muted r).
Definition set_patterns (x : list Pattern.t) (r : t) : t :=
  mk (octave r) (instruments r) x (bars r) (muted r).
Definition set_bars (x : list value) (r : t) : t :=
  mk (octave r) (instruments r) (patterns r) x (muted r).
Definition set_muted (x : bool) (r : t) : t :=
  mk (octave r) (instruments r) (patterns r) (bars r) x.
End Channel.

(** [class Song]; a field never assigned is [Undefined]. *)
Module Song.
Record t : Type := mk {
  scale : value;
  key : value;
  tempo : value;
  beatsPerBar : value;
  barCount : value;
  patternsPerChannel : value;
  rhythm : value;
  instrumentsPerChannel : value;
  loopStart : value;
  loopLength : value;
  pitchChannelCount : value;
  noiseChannelCount : value;
  channels : list Channel.t
}.
Definition set_scale (x : value) (r : t) : t :=
  mk x (key r) (tempo r) (beatsPerBar r) (barCount r) (patternsPerChannel r)
    (rhythm r) (instrumentsPerChannel r) (loopStart r) (loopLength r)
    (pitchChannelCount r) (noiseChannelCount r) (channels r).
Definition set_key (x : value) (r : t) : t :=
  mk (scale r) x (tempo r) (beatsPerBar r) (barCount r) (patternsPerChannel r)
    (rhythm r) (instrumentsPerChannel r) (loopStart r) (loopLength r)
    (pitchChannelCount r) (noiseChannelCount r) (channels r).
Definition set_tempo (x : value) (r : t) : t :=
  mk (scale r) (key r) x (beatsPerBar r) (barCount r) (patternsPerChannel r)
    (rhythm r) (instrumentsPerChannel r) (loopStart r) (loopLength r)
    (pitchChannelCount r) (noiseChannelCount r) (channels r).
Definition set_beatsPerBar (x : value) (r : t) : t :=
  mk (scale r) (key r) (tempo r) x (barCount r) (patternsPerChannel r) (rhythm
    r) (instrumentsPerChannel r) (loopStart r) (loopLength r)
    (pitchChannelCount r) (noiseChannelCount r) (channels r).
Definition set_barCount (x : value) (r : t) : t :=
  mk (scale r) (key r) (tempo r) (beatsPerBar r) x (patternsPerChannel r)
    (rhythm r) (instrumentsPerChannel r) (loopStart r) (loopLength r)
    (pitchChannelCount r) (noiseChannelCount r) (channels r).
Definition set_patternsPerChannel (x : value) (r : t) : t :=
  mk (scale r) (key r) (tempo r) (beatsPerBar r) (barCount r) x (rhythm r)
    (instrumentsPerChannel r) (loopStart r) (loopLength r) (pitchChannelCount
    r) (noiseChannelCount r) (channels r).
Definition set_rhythm (x : value) (r : t) : t :=
  mk (scale r) (key r) (tempo r) (beatsPerBar r) (barCount r)
    (patternsPerChannel r) x (instrumentsPerChannel r) (loopStart r)
    (loopLength r) (pitchChannelCount r) (noiseChannelCount r) (channels r).
Definition set_instrumentsPerChannel (x : value) (r : t) : t :=
  mk (scale r) (key r) (tempo r) (beatsPerBar r) (barCount r)
    (patternsPerChannel r) (rhythm r) x (loopStart r) (loopLength r)
    (pitchChannelCount r) (noiseChannelCount r) (channels r).
Definition set_loopStart (x : value) (r : t) : t :=
  mk (scale r) (key r) (tempo r) (beatsPerBar r) (barCount r)
    (patternsPerChannel r) (rhythm r) (instrumentsPerChannel r) x (loopLength
    r) (pitchChannelCount r) (noiseChannelCount r) (channels r).
Definition set_loopLength (x : value) (r : t) : t :=
  mk (scale r) (key r) (tempo r) (beatsPerBar r) (barCount r)
    (patternsPerChannel r) (rhythm r) (instrumentsPerChannel r) (loopStart r)
    x (pitchChannelCount r) (noiseChannelCount r) (channels r).
Definition set_pitchChannelCount (x : value) (r : t) : t :=
  mk (scale r) (key r) (tempo r) (beatsPerBar r) (barCount r)
    (patternsPerChannel r) (rhythm r) (instrumentsPerChannel r) (loopStart r)
    (loopLength r) x (noiseChannelCount r) (channels r).
Definition set_noiseChannelCount (x : value) (r : t) : t :=
  mk (scale r) (key r) (tempo r) (beatsPerBar r) (barCount r)
    (patternsPerChannel r) (rhythm r) (instrumentsPerChannel r) (loopStart r)
    (loopLength r) (pitchChannelCount r) x (channels r).
Definition set_channels (x : list Channel.t) (r : t) : t :=
  mk (scale r) (key r) (tempo r) (beatsPerBar r) (barCount r)
    (patternsPerChannel r) (rhythm r) (instrumentsPerChannel r) (loopStart r)
    (loopLength r) (pitchChannelCount r) (noiseChannelCount r) x.
End Song.

(* ================================================================== *)
(** * Arrays and doubles *)
(* ================================================================== *)

(** [a[i] = x] on a JavaScript array: an index past the end extends the
    array, the skipped positions being holes ([hole]). *)
Definition setAt {A : Type} (hole : A) (i : nat) (x : A) (l : list A) : list A :=
  firstn i (l ++ repeat hole (i - List.length l)) ++ x :: skipn (S i) l.

(** [a.length = n] after a loop has filled [a] up to [n]: drops the elements
    from [n] on. *)
Definition setLength {A : Type} (n : nat) (l : list A) : list A := firstn n l.

(** Grows [l] to [n] elements with [fresh] ones, the loop
    [for (i = l.length; i < n; i++) l[i] = fresh]. *)
Definition growTo {A : Type} (n : nat) (fresh : A) (l : list A) : list A :=
  l ++ repeat fresh (n - List.length l).

(** Number of turns of [for (i = 0; i < bound; i++)]. *)
Definition turns (bound : value) : nat :=
  match bound with Num z => Z.to_nat z | _ => 0%nat end.

(** [a[i]] for an array of objects: [None] ([undefined]) outside. *)
Definition at_ {A : Type} (l : list A) (i : value) : option A :=
  match i with
  | Num z => if z <? 0 then None else nth_error l (Z.to_nat z)
  | _ => None
  end.

(** Doubles are Rocq's binary64 floats.  [Math.pow], [Math.log2] and
    [Math.asin] are approximations the language leaves to the platform, and
    [FilterCoefficients] / [FrequencyResponse] come from [./filtering], which
    is not among the sources: they are parameters. *)
Record Numerics : Type := {
  Math_pow : float -> float -> float;
  Math_log2 : float -> float;
  Math_asin : float -> float;
  (** [f.lowPass1stOrderSimplified(r); response.analyze(f, at); response.magnitude()] *)
  lowPass1stOrderSimplified_magnitude : float -> float -> float;
  (** [f.lowPass2ndOrderSimplified(r, gain); response.analyze(f, at); response.magnitude()] *)
  lowPass2ndOrderSimplified_magnitude : float -> float -> float -> float;
  (** [Config.filterFreqMaxHz], [Config.filterFreqStep], [Config.filterGainStep] *)
  filterFreqMaxHz : float;
  filterFreqStep : float;
  filterGainStep : float
}.

Module Double.

Local Open Scope float_scope.

Definition Math_PI : float := 0x1.921fb54442d18p+1.

Definition ofZ (z : Z) : float :=
  if (z <? 0)%Z then - PrimFloat.of_uint63 (Uint63.of_Z (- z))
  else PrimFloat.of_uint63 (Uint63.of_Z z).

(** A number of the codec as a double. *)
Definition ofValue (v : value) : float :=
  match v with Num z => ofZ z | _ => nan end.

(** [Math.floor] of a finite double, as an integer. *)
Definition floorZ (f : float) : option Z :=
  match Prim2SF f with
  | S754_zero _ => Some 0%Z
  | S754_finite s m e =>
      let n := if s then Z.neg m else Z.pos m in
      Some (if (0 <=? e)%Z then n * 2 ^ e else n / 2 ^ (- e))%Z
  | _ => None
  end.

(** An integer-valued double as a number of the codec. *)
Definition toValue (f : float) : value :=
  match floorZ f with Some n => Num n | None => NaN end.

(** [Math.round]: the nearest integer, ties upwards. *)
Definition Math_round (f : float) : float :=
  match floorZ f with
  | Some n => if 0.5 <=? f - ofZ n then ofZ (n + 1) else ofZ n
  | None => f
  end.

Definition Math_floor (f : float) : float :=
  match floorZ f with Some n => ofZ n | None => f end.

Definition Math_min (a b : float) : float :=
  if is_nan a || is_nan b then nan
  else if a <? b then a else if b <? a then b
  else if get_sign a then a else b.

Definition Math_max (a b : float) : float :=
  if is_nan a || is_nan b then nan
  else if a <? b then b else if b <? a then a
  else if get_sign a then b else a.

End Double.

(* ================================================================== *)
(** * Tags, decoder state and its steps *)
(* ================================================================== *)

(** [SongTagCode]: the tags with the character codes the enumeration gives
    them ([CharCode.a] = 97, ...). *)
Module SongTagCode.
Inductive t : Type :=
  | beatCount | bars | vibrato | transition | loopEnd | filter | barCount
  | interval | instrumentCount | patternCount | key | loopStart | reverb
  | channelCount | channelOctave | patterns | effects | rhythm | scale
  | tempo | preset | volume | wave | filterResonance | filterEnvelope
  | algorithm | feedbackAmplitude | chord | distortion | operatorEnvelopes
  | feedbackType | distortionFilter | harmonics | pan | operatorAmplitudes
  | operatorFrequencies | bitcrusher | spectrum | startInstrument | sustain
  | feedbackEnvelope | pulseWidth.

Definition code (tag : t) : Z :=
  match tag with
  | beatCount => 97             (* CharCode.a *)
  | bars => 98                  (* CharCode.b *)
  | vibrato => 99               (* CharCode.c *)
  | transition => 100           (* CharCode.d *)
  | loopEnd => 101              (* CharCode.e *)
  | filter => 102               (* CharCode.f *)
  | barCount => 103             (* CharCode.g *)
  | interval => 104             (* CharCode.h *)
  | instrumentCount => 105      (* CharCode.i *)
  | patternCount => 106         (* CharCode.j *)
  | key => 107                  (* CharCode.k *)
  | loopStart => 108            (* CharCode.l *)
  | reverb => 109               (* CharCode.m *)
  | channelCount => 110         (* CharCode.n *)
  | channelOctave => 111        (* CharCode.o *)
  | patterns => 112             (* CharCode.p *)
  | effects => 113              (* CharCode.q *)
  | rhythm => 114               (* CharCode.r *)
  | scale => 115                (* CharCode.s *)
  | tempo => 116                (* CharCode.t *)
  | preset => 117               (* CharCode.u *)
  | volume => 118               (* CharCode.v *)
  | wave => 119                 (* CharCode.w *)
  | filterResonance => 121      (* CharCode.y *)
  | filterEnvelope => 122       (* CharCode.z *)
  | algorithm => 65             (* CharCode.A *)
  | feedbackAmplitude => 66     (* CharCode.B *)
  | chord => 67                 (* CharCode.C *)
  | distortion => 68            (* CharCode.D *)
  | operatorEnvelopes => 69     (* CharCode.E *)
  | feedbackType => 70          (* CharCode.F *)
  | distortionFilter => 71      (* CharCode.G *)
  | harmonics => 72             (* CharCode.H *)
  | pan => 76                   (* CharCode.L *)
  | operatorAmplitudes => 80    (* CharCode.P *)
  | operatorFrequencies => 81   (* CharCode.Q *)
  | bitcrusher => 82            (* CharCode.R *)
  | spectrum => 83              (* CharCode.S *)
  | startInstrument => 84       (* CharCode.T *)
  | sustain => 85               (* CharCode.U *)
  | feedbackEnvelope => 86      (* CharCode.V *)
  | pulseWidth => 87            (* CharCode.W *)
  end.

Definition all : list t :=
  [beatCount; bars; vibrato; transition; loopEnd; filter; barCount; interval;
   instrumentCount; patternCount; key; loopStart; reverb; channelCount;
   channelOctave; patterns; effects; rhythm; scale; tempo; preset; volume;
   wave; filterResonance; filterEnvelope; algorithm; feedbackAmplitude;
   chord; distortion; operatorEnvelopes; feedbackType; distortionFilter;
   harmonics; pan; operatorAmplitudes; operatorFrequencies; bitcrusher;
   spectrum; startInstrument; sustain; feedbackEnvelope; pulseWidth].
End SongTagCode.

(** The tag a character stands for, [None] for a character the [switch]
    sends to [default]. *)
Definition tagOfCharCode (command : value) : option SongTagCode.t :=
  match command with
  | Num c => find (fun tag => SongTagCode.code tag =? c) SongTagCode.all
  | _ => None
  end.

(** [interface LegacyFilterSettings { cutoff?: number; resonance?: number; }] *)
Record LegacyFilterSettings : Type := {
  cutoff : value;
  resonance : value
}.

(** The locals of [fromBase64String] that live across tags, with the song
    under construction. *)
Record Decoder : Type := {
  song : Song.t;
  charIndex : value;
  legacyFilterSettings : list (list LegacyFilterSettings);
  legacyGlobalReverb : value;
  instrumentChannelIterator : Z;
  instrumentIndexIterator : Z
}.

Definition set_song (x : Song.t) (d : Decoder) : Decoder :=
  Build_Decoder x (charIndex d) (legacyFilterSettings d) (legacyGlobalReverb d)
    (instrumentChannelIterator d) (instrumentIndexIterator d).
Definition set_charIndex (x : value) (d : Decoder) : Decoder :=
  Build_Decoder (song d) x (legacyFilterSettings d) (legacyGlobalReverb d)
    (instrumentChannelIterator d) (instrumentIndexIterator d).
Definition set_legacyFilterSettings (x : list (list LegacyFilterSettings))
  (d : Decoder) : Decoder :=
  Build_Decoder (song d) (charIndex d) x (legacyGlobalReverb d)
    (instrumentChannelIterator d) (instrumentIndexIterator d).
Definition set_legacyGlobalReverb (x : value) (d : Decoder) : Decoder :=
  Build_Decoder (song d) (charIndex d) (legacyFilterSettings d) x
    (instrumentChannelIterator d) (instrumentIndexIterator d).
Definition set_iterators (channel index : Z) (d : Decoder) : Decoder :=
  Build_Decoder (song d) (charIndex d) (legacyFilterSettings d)
    (legacyGlobalReverb d) channel index.

(** A step of the decoder: reads and updates the locals, may throw.  A throw
    ends the call and the locals with it, so an access to an object that is
    not there raises its [TypeError] where the model updates the object,
    also when the source evaluates the reference a few reads earlier. *)
Definition M (A : Type) : Type := Decoder -> Result (A * Decoder).

Definition ret {A : Type} (a : A) : M A := fun d => Ok (a, d).

Definition bind {A B : Type} (m : M A) (k : A -> M B) : M B :=
  fun d =>
    match m d with
    | Ok (a, d') => k a d'
    | Throw e => Throw e
    | OutOfFuel => OutOfFuel
    end.

Notation "x <- m ;; k" := (bind m (fun x => k))
  (at level 61, m at level 100, k at level 200, right associativity).
Notation "m ;;; k" := (bind m (fun _ => k))
  (at level 61, k at level 200, right associativity).

Definition throw {A : Type} (e : Err) : M A := fun _ => Throw e.

Definition lift {A : Type} (r : Result A) : M A :=
  fun d =>
    match r with
    | Ok a => Ok (a, d)
    | Throw e => Throw e
    | OutOfFuel => OutOfFuel
    end.

Definition gets {A : Type} (f : Decoder -> A) : M A := fun d => Ok (f d, d).

Definition modify (f : Decoder -> Decoder) : M unit := fun d => Ok (tt, f d).

(** Updates the song by a function that may throw. *)
Definition modifySong (f : Song.t -> Result Song.t) : M unit :=
  fun d =>
    match f (song d) with
    | Ok s => Ok (tt, set_song s d)
    | Throw e => Throw e
    | OutOfFuel => OutOfFuel
    end.

Fixpoint forEach {A : Type} (l : list A) (body : A -> M unit) : M unit :=
  match l with
  | [] => ret tt
  | x :: rest => body x ;;; forEach rest body
  end.

(** [for (i = 0; i < bound; i++) body(i)], for a bound the body leaves alone. *)
Definition forRange (bound : value) (body : Z -> M unit) : M unit :=
  forEach (map Z.of_nat (seq 0 (turns bound))) body.

(** [a.length = n]: a [RangeError] unless [n] is an integer in 0 .. 2^32 - 1. *)
Definition arrayLength (n : value) : Result nat :=
  match n with
  | Num z => if (z <? 0) || (2 ^ 32 <=? z) then Throw InvalidArrayLength
             else Ok (Z.to_nat z)
  | _ => Throw InvalidArrayLength
  end.

(** [this.channels[channel]] updated by [f]; a channel that is not there is a
    [TypeError]. *)
Definition updChannel (channel : value) (f : Channel.t -> Result Channel.t)
  (s : Song.t) : Result Song.t :=
  match at_ (Song.channels s) channel with
  | Some c =>
      let* c' := f c in
      Ok (Song.set_channels (setAt c' (turns channel) c' (Song.channels s)) s)
  | None => Throw TypeError
  end.

(** [this.channels[channel].instruments[index]] updated by [f]. *)
Definition updInstrument (channel index : value)
  (f : Instrument.t -> Result Instrument.t) (s : Song.t) : Result Song.t :=
  updChannel channel
    (fun c =>
       match at_ (Channel.instruments c) index with
       | Some ins =>
           let* ins' := f ins in
           Ok (Channel.set_instruments
                 (setAt ins' (turns index) ins' (Channel.instruments c)) c)
       | None => Throw TypeError
       end) s.

(** Reads [this.channels[channel].instruments[index]]. *)
Definition getInstrument (channel index : value) (s : Song.t) : Result Instrument.t :=
  match at_ (Song.channels s) channel with
  | Some c =>
      match at_ (Channel.instruments c) index with
      | Some ins => Ok ins
      | None => Throw TypeError
      end
  | None => Throw TypeError
  end.

(** [legacyFilterSettings![channel][index]] read and updated. *)
Definition getLegacy (channel index : value) (l : list (list LegacyFilterSettings))
  : Result LegacyFilterSettings :=
  match at_ l channel with
  | Some row =>
      match at_ row index with
      | Some x => Ok x
      | None => Throw TypeError
      end
  | None => Throw TypeError
  end.

Definition setLegacy (channel index : value) (x : LegacyFilterSettings)
  (l : list (list LegacyFilterSettings)) : list (list LegacyFilterSettings) :=
  match at_ l channel with
  | Some row => setAt row (turns channel) (setAt x (turns index) x row) l
  | None => l
  end.

Definition emptyLegacy : LegacyFilterSettings :=
  Build_LegacyFilterSettings Undefined Undefined.

(** [for (i = l.length; i < channelCount; i++) { l[i] = []; for (j = 0; j <
    instrumentsPerChannel; j++) l[i][j] = {}; }] *)
Definition growLegacy (channelCount instrumentsPerChannel : value)
  (l : list (list LegacyFilterSettings)) : list (list LegacyFilterSettings) :=
  growTo (turns channelCount) (repeat emptyLegacy (turns instrumentsPerChannel)) l.

(* ================================================================== *)
(** * Instruments, filters and the default song *)
(* ================================================================== *)

Section Model.

Variable cfg : Config.
Variable num : Numerics.

(** [Operator.reset(index)] *)
Definition Operator_reset (index : Z) : Operator.t :=
  Operator.mk (Num 0)
    (if index <=? 1 then Num (operatorAmplitudeMax cfg) else Num 0)
    (if index =? 0 then Num 0 else Num 1).

(** The value [SpectrumWave.reset] stores at [i]. *)
Definition SpectrumWave_default (isNoiseChannel : bool) (i : Z) : value :=
  let fi := Double.ofZ i in
  let fmax := Double.ofZ (spectrumMax cfg) in
  if isNoiseChannel then
    Double.toValue (Double.Math_round (fmax * (1 / PrimFloat.sqrt (1 + fi / 3))))%float
  else
    let isHarmonic :=
      (i =? 0) || (i =? 7) || (i =? 11) || (i =? 14) || (i =? 16) || (i =? 18)
      || (i =? 21) || (i =? 23) || (i >=? 25) in
    if isHarmonic
    then Double.toValue
           (Double.Math_max 0 (Double.Math_round (fmax * (1 - fi / 30))))%float
    else Num 0.

(** [SpectrumWave.reset(isNoiseChannel)] on the array [spectrum]. *)
Definition SpectrumWave_reset (isNoiseChannel : bool) (spectrum : list value)
  : list value :=
  fold_left
    (fun l i => setAt Undefined i (SpectrumWave_default isNoiseChannel (Z.of_nat i)) l)
    (seq 0 (Z.to_nat (spectrumControlPoints cfg))) spectrum.

(** [HarmonicsWave.reset()] on the array [harmonics]. *)
Definition HarmonicsWave_reset (harmonics : list value) : list value :=
  let l := fold_left (fun l i => setAt Undefined i (Num 0) l)
             (seq 0 (Z.to_nat (harmonicsControlPoints cfg))) harmonics in
  setAt Undefined 6 (Num (harmonicsMax cfg))
    (setAt Undefined 3 (Num (harmonicsMax cfg))
       (setAt Undefined 0 (Num (harmonicsMax cfg)) l)).

(** [new FilterControlPoint()] *)
Definition FilterControlPoint_new : FilterControlPoint.t :=
  FilterControlPoint.mk (Num 0) (Num (filterGainCenter cfg)) (Num (FilterType_peak cfg)).

(** [FilterControlPoint.getHzFromSettingValue] *)
Definition getHzFromSettingValue (v : float) : float :=
  (filterFreqMaxHz num
   * Math_pow num 2 ((v - (Double.ofZ (filterFreqRange cfg) - 1)) * filterFreqStep num))%float.

Definition getSettingValueFromHz (hz : float) : float :=
  (Math_log2 num (hz / filterFreqMaxHz num) / filterFreqStep num
   + (Double.ofZ (filterFreqRange cfg) - 1))%float.

Definition getRoundedSettingValueFromHz (hz : float) : float :=
  Double.Math_max 0
    (Double.Math_min (Double.ofZ (filterFreqRange cfg) - 1)%float
       (Double.Math_round (getSettingValueFromHz hz))).

Definition getRoundedSettingValueFromLinearGain (linearGain : float) : float :=
  Double.Math_max 0
    (Double.Math_min (Double.ofZ (filterGainRange cfg) - 1)%float
       (Double.Math_round
          (Math_log2 num linearGain / filterGainStep num
           + Double.ofZ (filterGainCenter cfg))%float)).

(** [new FilterSettings()] *)
Definition FilterSettings_new : FilterSettings.t := FilterSettings.mk [] (Num 0).

Definition FilterSettings_reset (f : FilterSettings.t) : FilterSettings.t :=
  FilterSettings.set_controlPointCount (Num 0) f.

(** [FilterSettings.addPoint]: the point at [controlPointCount] is created
    when the array ends before it and reused otherwise; writing to a point
    that is not there is a [TypeError]. *)
Definition addPoint (type : Z) (freqSetting gainSetting : value)
  (f : FilterSettings.t) : Result FilterSettings.t :=
  let count := FilterSettings.controlPointCount f in
  let points := FilterSettings.controlPoints f in
  let points :=
    if JS.le (Num (Z.of_nat (List.length points))) count
    then setAt FilterControlPoint_new (turns count) FilterControlPoint_new points
    else points in
  match at_ points count with
  | Some _ =>
      Ok (FilterSettings.mk
            (setAt FilterControlPoint_new (turns count)
               (FilterControlPoint.mk freqSetting gainSetting (Num type)) points)
            (JS.add count (Num 1)))
  | None => Throw TypeError
  end.

(** [FilterSettings.convertLegacySettings].  [legacyEnv] is
    [Config.envelopes[instrument.filterEnvelope]] at the call sites, [None]
    when that index is outside the table. *)
Definition convertLegacySettings
  (legacyCutoffSetting legacyResonanceSetting : value)
  (legacyEnv : option Envelope.t) (instrumentType : value)
  (f : FilterSettings.t) : Result FilterSettings.t :=
  let f := FilterSettings_reset f in
  (* legacy defaults: *)
  let legacyCutoffSetting :=
    match legacyCutoffSetting with
    | Undefined => if JS.eqz instrumentType (InstrumentType_chip cfg) then Num 6 else Num 10
    | v => v
    end in
  let legacyResonanceSetting :=
    match legacyResonanceSetting with Undefined => Num 0 | v => v end in
  let legacyFilterCutoffMaxHz := 8000%float in
  let legacyFilterMax := 0.95%float in
  let legacyFilterMaxRadians := (Math_asin num (legacyFilterMax / 2) * 2)%float in
  let legacyFilterMaxResonance := 0.95%float in
  let legacyFilterCutoffRange := 11 in
  let legacyFilterResonanceRange := 8 in
  let resonant := JS.gt legacyResonanceSetting (Num 1) in
  let firstOrder := JS.eqz legacyResonanceSetting 0 in
  let cutoffAtMax := JS.eqz legacyCutoffSetting (legacyFilterCutoffRange - 1) in
  match legacyEnv with
  | None => Throw TypeError
  | Some legacyEnv =>
  let envDecays :=
    match Envelope.type legacyEnv with
    | flare | twang | decay | custom => true
    | _ => false
    end in
  let standardSampleRate := 48000%float in
  let legacyHz :=
    (legacyFilterCutoffMaxHz
     * Math_pow num 2
         ((Double.ofValue legacyCutoffSetting
           - (Double.ofZ legacyFilterCutoffRange - 1)) * 0.5))%float in
  let legacyRadians :=
    Double.Math_min legacyFilterMaxRadians
      (2 * Double.Math_PI * legacyHz / standardSampleRate)%float in
  if negb envDecays && negb resonant && cutoffAtMax then
    (* The response is flat and there's no envelopes, so don't even bother
       adding any control points. *)
    Ok f
  else if firstOrder then
    let extraOctaves := 3.5%float in
    let targetRadians := (legacyRadians * Math_pow num 2 extraOctaves)%float in
    let curvedRadians :=
      (targetRadians / (1 + targetRadians / (Double.Math_PI * 0.8)))%float in
    let curvedHz := (standardSampleRate * curvedRadians / (2 * Double.Math_PI))%float in
    let freqSetting := getRoundedSettingValueFromHz curvedHz in
    let finalHz := getHzFromSettingValue freqSetting in
    let finalRadians := (2 * Double.Math_PI * finalHz / standardSampleRate)%float in
    let legacyFilterGainAtNewRadians :=
      lowPass1stOrderSimplified_magnitude num legacyRadians finalRadians in
    let logGain := Math_log2 num legacyFilterGainAtNewRadians in
    (* Bias slightly toward 2^(-extraOctaves): *)
    let logGain := (- extraOctaves + (logGain + extraOctaves) * 0.82)%float in
    let logGain := if envDecays then Double.Math_min logGain (-2)%float else logGain in
    let convertedGain := Math_pow num 2 logGain in
    let gainSetting := getRoundedSettingValueFromLinearGain convertedGain in
    addPoint (FilterType_lowPass cfg)
      (Double.toValue freqSetting) (Double.toValue gainSetting) f
  else
    let intendedGain :=
      (0.5 / (1 - legacyFilterMaxResonance
                  * PrimFloat.sqrt
                      (Double.Math_max 0 (Double.ofValue legacyResonanceSetting - 1)
                       / (Double.ofZ legacyFilterResonanceRange - 2))))%float in
    let invertedGain := (0.5 / intendedGain)%float in
    let maxRadians :=
      (2 * Double.Math_PI * legacyFilterCutoffMaxHz / standardSampleRate)%float in
    let freqRatio := (legacyRadians / maxRadians)%float in
    let targetRadians :=
      (legacyRadians * (freqRatio * Math_pow num invertedGain 0.9 + 1))%float in
    let curvedRadians :=
      (legacyRadians + (targetRadians - legacyRadians) * invertedGain)%float in
    let curvedHz :=
      if envDecays then
        (standardSampleRate
         * Double.Math_min curvedRadians (legacyRadians * Math_pow num 2 0.25)
         / (2 * Double.Math_PI))%float
      else (standardSampleRate * curvedRadians / (2 * Double.Math_PI))%float in
    let freqSetting := getRoundedSettingValueFromHz curvedHz in
    let legacyFilterGain :=
      if envDecays then intendedGain
      else lowPass2ndOrderSimplified_magnitude num legacyRadians intendedGain curvedRadians in
    let legacyFilterGain :=
      if negb resonant then Double.Math_min legacyFilterGain (PrimFloat.sqrt 0.5)
      else legacyFilterGain in
    let gainSetting := getRoundedSettingValueFromLinearGain legacyFilterGain in
    addPoint (FilterType_lowPass cfg)
      (Double.toValue freqSetting) (Double.toValue gainSetting) f
  end.

(** [new Instrument(isNoiseChannel)] *)
Definition Instrument_new (isNoiseChannel : bool) : Instrument.t :=
  Instrument.mk
    (Num (InstrumentType_chip cfg))           (* type *)
    (Num 0)                                   (* preset *)
    (Num 2)                                   (* chipWave *)
    (Num 1)                                   (* chipNoise *)
    FilterSettings_new                        (* filter *)
    FilterSettings_new                        (* distortionFilter *)
    (Num 1)                                   (* filterEnvelope *)
    (Num 1)                                   (* transition *)
    (Num 0)                                   (* vibrato *)
    (Num 0)                                   (* interval *)
    (Num 0)                                   (* effects *)
    (Num 1)                                   (* chord *)
    (Num 0)                                   (* volume *)
    (Num (panCenter cfg))                     (* pan *)
    (Num (pulseWidthRange cfg - 1))           (* pulseWidth *)
    (Num 1)                                   (* pulseEnvelope *)
    (Num 6)                                   (* sustain *)
    (Num 0)                                   (* distortion *)
    (Num 0)                                   (* bitcrusherFreq *)
    (Num 0)                                   (* bitcrusherQuantization *)
    (Num 0)                                   (* reverb *)
    (Num 0)                                   (* algorithm *)
    (Num 0)                                   (* feedbackType *)
    (Num 0)                                   (* feedbackAmplitude *)
    (Num 1)                                   (* feedbackEnvelope *)
    (map (fun i => Operator_reset (Z.of_nat i)) (seq 0 (Z.to_nat (operatorCount cfg))))
    (SpectrumWave_reset isNoiseChannel [])    (* spectrumWave *)
    (HarmonicsWave_reset [])                  (* harmonicsWave *)
    (map (fun _ => Num (envelopes_twang2_index cfg)) (seq 0 (Z.to_nat (drumCount cfg))))
    (map (fun _ => SpectrumWave_reset true []) (seq 0 (Z.to_nat (drumCount cfg)))).

(** The loop [for (i = 0; i < Config.drumCount; i++)] of [setTypeAndReset]'s
    drumset case; a missing [drumsetSpectrumWaves[i]] is a [TypeError]. *)
Fixpoint resetDrumset (isNoiseChannel : bool) (count : nat) (i : nat)
  (ins : Instrument.t) : Result Instrument.t :=
  match count with
  | O => Ok ins
  | S n =>
      let ins :=
        Instrument.set_drumsetEnvelopes
          (setAt Undefined i (Num (envelopes_twang2_index cfg))
             (Instrument.drumsetEnvelopes ins)) ins in
      match nth_error (Instrument.drumsetSpectrumWaves ins) i with
      | Some w =>
          resetDrumset isNoiseChannel n (S i)
            (Instrument.set_drumsetSpectrumWaves
               (setAt [] i (SpectrumWave_reset isNoiseChannel w)
                  (Instrument.drumsetSpectrumWaves ins)) ins)
      | None => Throw TypeError
      end
  end.

(** [Instrument.setTypeAndReset(type, isNoiseChannel)] *)
Definition setTypeAndReset (type : value) (isNoiseChannel : bool)
  (ins : Instrument.t) : Result Instrument.t :=
  let ins := Instrument.set_type type ins in
  let ins := Instrument.set_preset type ins in
  let ins := Instrument.set_volume (Num 0) ins in
  let ins := Instrument.set_reverb (Num 2) ins in
  let ins := Instrument.set_distortionFilter
               (FilterSettings_reset (Instrument.distortionFilter ins)) ins in
  let ins := Instrument.set_distortion (Num ((distortionRange cfg - 1) * 3 / 4)) ins in
  let ins := Instrument.set_bitcrusherFreq (Num ((bitcrusherFreqRange cfg - 1) / 2)) ins in
  let ins := Instrument.set_bitcrusherQuantization
               (Num ((bitcrusherQuantizationRange cfg - 1) / 2)) ins in
  let ins := Instrument.set_pan (Num (panCenter cfg)) ins in
  let ins := Instrument.set_filter (FilterSettings_reset (Instrument.filter ins)) ins in
  let ins := Instrument.set_vibrato (Num 0) ins in
  let ins := Instrument.set_interval (Num 0) ins in
  let ins := Instrument.set_transition (Num (transitions_hard_index cfg)) ins in
  let ins := Instrument.set_filterEnvelope (Num (envelopes_steady_index cfg)) ins in
  if JS.eqz type (InstrumentType_chip cfg) then
    Ok (Instrument.set_chord (Num 2)
          (Instrument.set_effects (Num 1) (Instrument.set_chipWave (Num 2) ins)))
  else if JS.eqz type (InstrumentType_fm cfg) then
    let ins := Instrument.set_effects (Num 1) ins in
    let ins := Instrument.set_chord (Num 3) ins in
    let ins := Instrument.set_algorithm (Num 0) ins in
    let ins := Instrument.set_feedbackType (Num 0) ins in
    let ins := Instrument.set_feedbackAmplitude (Num 0) ins in
    let ins := Instrument.set_feedbackEnvelope (Num (envelopes_steady_index cfg)) ins in
    Ok (Instrument.set_operators
          (map (fun i => Operator_reset (Z.of_nat i))
             (seq 0 (List.length (Instrument.operators ins)))) ins)
  else if JS.eqz type (InstrumentType_noise cfg) then
    Ok (Instrument.set_chord (Num 2)
          (Instrument.set_effects (Num 0) (Instrument.set_chipNoise (Num 1) ins)))
  else if JS.eqz type (InstrumentType_spectrum cfg) then
    let ins := Instrument.set_effects (Num 1) ins in
    let ins := Instrument.set_chord (Num 0) ins in
    Ok (Instrument.set_spectrumWave
          (SpectrumWave_reset isNoiseChannel (Instrument.spectrumWave ins)) ins)
  else if JS.eqz type (InstrumentType_drumset cfg) then
    resetDrumset isNoiseChannel (Z.to_nat (drumCount cfg)) 0
      (Instrument.set_effects (Num 0) ins)
  else if JS.eqz type (InstrumentType_harmonics cfg) then
    let ins := Instrument.set_effects (Num 1) ins in
    let ins := Instrument.set_chord (Num 0) ins in
    Ok (Instrument.set_harmonicsWave
          (HarmonicsWave_reset (Instrument.harmonicsWave ins)) ins)
  else if JS.eqz type (InstrumentType_pwm cfg) then
    let ins := Instrument.set_effects (Num 1) ins in
    let ins := Instrument.set_chord (Num 2) ins in
    let ins := Instrument.set_pulseWidth (Num (pulseWidthRange cfg - 1)) ins in
    Ok (Instrument.set_pulseEnvelope (Num (envelopes_twang2_index cfg)) ins)
  else if JS.eqz type (InstrumentType_guitar cfg) then
    let ins := Instrument.set_effects (Num 1) ins in
    let ins := Instrument.set_chord (Num 3) ins in
    let ins := Instrument.set_pulseWidth (Num (pulseWidthRange cfg - 3)) ins in
    Ok (Instrument.set_sustain (Num 6) ins)
  else Throw UnrecognizedInstrumentType.

(** [new Pattern()], [Pattern.reset()], [new Channel()] *)
Definition Pattern_new : Pattern.t := Pattern.mk [] (Num 0).
Definition Pattern_reset (p : Pattern.t) : Pattern.t := Pattern.mk [] (Num 0).
Definition Channel_new : Channel.t := Channel.mk (Num 0) [] [] [] false.

(** [new Song] before its constructor has assigned anything. *)
Definition Song_blank : Song.t :=
  Song.mk Undefined Undefined Undefined Undefined Undefined Undefined Undefined
    Undefined Undefined Undefined Undefined Undefined [].

Definition getChannelCount (song : Song.t) : value :=
  JS.add (Song.pitchChannelCount song) (Song.noiseChannelCount song).

Definition getChannelIsNoise (song : Song.t) (channel : value) : bool :=
  JS.ge channel (Song.pitchChannelCount song).

(** The body of [initToDefault]'s loop over the channels. *)
Definition initChannel (channelIndex : nat) (channel : Channel.t) : Result Channel.t :=
  let channel := Channel.set_octave (Num (3 - Z.of_nat channelIndex)) channel in
  (* patterns: existing ones are reset, missing ones created, length 8 *)
  let patterns :=
    setLength 8 (growTo 8 Pattern_new (map Pattern_reset (Channel.patterns channel))) in
  let channel := Channel.set_patterns patterns channel in
  let isNoiseChannel := (3 <=? channelIndex)%nat in
  (* instruments: one instrument, created when missing, then reset *)
  let instruments := growTo 1 (Instrument_new isNoiseChannel) (Channel.instruments channel) in
  match instruments with
  | [] => Throw TypeError
  | ins :: rest =>
      match setTypeAndReset
              (Num (if isNoiseChannel then InstrumentType_noise cfg
                    else InstrumentType_chip cfg)) isNoiseChannel ins with
      | Ok ins =>
          let channel := Channel.set_instruments (setLength 1 (ins :: rest)) channel in
          let bars :=
            fold_left (fun l bar => setAt Undefined bar (Num (if (bar <? 4)%nat then 1 else 0)) l)
              (seq 0 16) (Channel.bars channel) in
          Ok (Channel.set_bars (setLength 16 bars) channel)
      | Throw e => Throw e
      | OutOfFuel => OutOfFuel
      end
  end.

Fixpoint initChannels (channelIndex : nat) (channels : list Channel.t)
  : Result (list Channel.t) :=
  match channels with
  | [] => Ok []
  | c :: rest =>
      match initChannel channelIndex c with
      | Ok c =>
          match initChannels (S channelIndex) rest with
          | Ok rest => Ok (c :: rest)
          | Throw e => Throw e
          | OutOfFuel => OutOfFuel
          end
      | Throw e => Throw e
      | OutOfFuel => OutOfFuel
      end
  end.

(** [Song.initToDefault(andResetChannels)] *)
Definition initToDefault (andResetChannels : bool) (song : Song.t) : Result Song.t :=
  let song := Song.set_scale (Num 0) song in
  let song := Song.set_key (Num 0) song in
  let song := Song.set_loopStart (Num 0) song in
  let song := Song.set_loopLength (Num 4) song in
  let song := Song.set_tempo (Num 150) song in
  let song := Song.set_beatsPerBar (Num 8) song in
  let song := Song.set_barCount (Num 16) song in
  let song := Song.set_patternsPerChannel (Num 8) song in
  let song := Song.set_rhythm (Num 1) song in
  let song := Song.set_instrumentsPerChannel (Num 1) song in
  if andResetChannels then
    let song := Song.set_pitchChannelCount (Num 3) song in
    let song := Song.set_noiseChannelCount (Num 1) song in
    match initChannels 0 (firstn 4 (growTo 4 Channel_new (Song.channels song))) with
    | Ok channels => Ok (Song.set_channels channels song)
    | Throw e => Throw e
    | OutOfFuel => OutOfFuel
    end
  else Ok song.

(* ================================================================== *)
(** * [Song.fromBase64String] *)
(* ================================================================== *)

Section Decode.

Variable compressed : string.
Variables beforeThree beforeFour beforeFive beforeSix beforeSeven beforeEight
  beforeNine : bool.

(** [base64CharCodeToInt[compressed.charCodeAt(charIndex++)]] *)
Definition readSymbol : M value :=
  fun d =>
    Ok (JS.index base64CharCodeToInt (JS.charCodeAt compressed (charIndex d)),
        set_charIndex (JS.add (charIndex d) (Num 1)) d).

Fixpoint readSymbols (n : nat) : M (list value) :=
  match n with
  | O => ret []
  | S k => x <- readSymbol ;; rest <- readSymbols k ;; ret (x :: rest)
  end.

(** [charIndex += n] *)
Definition skip (n : value) : M unit :=
  modify (fun d => set_charIndex (JS.add (charIndex d) n) d).

(** The instrument under the cursor,
    [this.channels[instrumentChannelIterator].instruments[instrumentIndexIterator]]. *)
Definition updCurrent (f : Instrument.t -> Result Instrument.t) : M unit :=
  fun d =>
    modifySong
      (updInstrument (Num (instrumentChannelIterator d))
         (Num (instrumentIndexIterator d)) f) d.

Definition getCurrent : M Instrument.t :=
  fun d =>
    lift (getInstrument (Num (instrumentChannelIterator d))
            (Num (instrumentIndexIterator d)) (song d)) d.

Definition setCurrent (f : Instrument.t -> Instrument.t) : M unit :=
  updCurrent (fun ins => Ok (f ins)).

(** [for (channel ...) for (i ...)] over every instrument of every channel,
    as the tags of versions before 6 do. *)
Definition forAllInstruments (body : Z -> Z -> M unit) : M unit :=
  channelCount <- gets (fun d => getChannelCount (song d)) ;;
  instrumentsPerChannel <- gets (fun d => Song.instrumentsPerChannel (song d)) ;;
  forRange channelCount (fun channel =>
    forRange instrumentsPerChannel (fun i => body channel i)).

(** [instrument.filter.convertLegacySettings(legacySettings.cutoff,
    legacySettings.resonance, Config.envelopes[instrument.filterEnvelope],
    instrument.type)] *)
Definition convertLegacy (legacySettings : LegacyFilterSettings)
  (ins : Instrument.t) : Result Instrument.t :=
  let* f := convertLegacySettings (cutoff legacySettings) (resonance legacySettings)
              (at_ (envelopes cfg) (Instrument.filterEnvelope ins))
              (Instrument.type ins) (Instrument.filter ins) in
  Ok (Instrument.set_filter f ins).

(** ** Song-wide tags *)

(** [case SongTagCode.channelCount] *)
Definition tag_channelCount : M unit :=
  p <- readSymbol ;;
  n <- readSymbol ;;
  p <- lift (validateRange (Num (pitchChannelCountMin cfg)) (Num (pitchChannelCountMax cfg)) p) ;;
  n <- lift (validateRange (Num (noiseChannelCountMin cfg)) (Num (noiseChannelCountMax cfg)) n) ;;
  modifySong (fun s =>
    let s := Song.set_noiseChannelCount n (Song.set_pitchChannelCount p s) in
    let* len := arrayLength (getChannelCount s) in
    Ok (Song.set_channels (setLength len (growTo len Channel_new (Song.channels s))) s)) ;;;
  if beforeNine then
    modify (fun d =>
      set_legacyFilterSettings
        (growLegacy (getChannelCount (song d)) (Song.instrumentsPerChannel (song d))
           (legacyFilterSettings d)) d)
  else ret tt.

(** [case SongTagCode.scale] *)
Definition tag_scale : M unit :=
  v <- readSymbol ;;
  modifySong (fun s =>
    Ok (Song.set_scale (if beforeThree && JS.eqz v 10 then Num 11 else v) s)).

(** [case SongTagCode.key] *)
Definition tag_key : M unit :=
  v <- readSymbol ;;
  modifySong (fun s =>
    Ok (Song.set_key
          (if beforeSeven then clamp 0 (keys_length cfg) (JS.sub (Num 11) v)
           else clamp 0 (keys_length cfg) v) s)).

(** [case SongTagCode.loopStart] *)
Definition tag_loopStart : M unit :=
  if beforeFive then
    v <- readSymbol ;;
    modifySong (fun s => Ok (Song.set_loopStart v s))
  else
    a <- readSymbol ;;
    b <- readSymbol ;;
    modifySong (fun s => Ok (Song.set_loopStart (JS.add (Num (JS.vshl a 6)) b) s)).

(** [case SongTagCode.loopEnd] *)
Definition tag_loopEnd : M unit :=
  if beforeFive then
    v <- readSymbol ;;
    modifySong (fun s => Ok (Song.set_loopLength v s))
  else
    a <- readSymbol ;;
    b <- readSymbol ;;
    modifySong (fun s =>
      Ok (Song.set_loopLength (JS.add (JS.add (Num (JS.vshl a 6)) b) (Num 1)) s)).

(** [case SongTagCode.tempo] *)
Definition tag_tempo : M unit :=
  t <- (if beforeFour then
          v <- readSymbol ;; ret (JS.index [95; 120; 151; 190] v)
        else if beforeSeven then
          v <- readSymbol ;;
          ret (JS.index [88; 95; 103; 111; 120; 130; 140; 151; 163; 176; 190;
                         206; 222; 240; 259] v)
        else
          a <- readSymbol ;;
          b <- readSymbol ;;
          ret (Num (Z.lor (JS.vshl a 6) (JS.toInt32 b)))) ;;
  modifySong (fun s =>
    Ok (Song.set_tempo (clamp (tempoMin cfg) (tempoMax cfg + 1) t) s)).

(** [case SongTagCode.reverb] *)
Definition tag_reverb : M unit :=
  if beforeNine then
    v <- readSymbol ;;
    modify (set_legacyGlobalReverb (clamp 0 4 v))
  else
    v <- readSymbol ;;
    setCurrent (Instrument.set_reverb (clamp 0 (reverbRange cfg) v)).

(** [case SongTagCode.beatCount] *)
Definition tag_beatCount : M unit :=
  v <- readSymbol ;;
  let b := if beforeThree then JS.index [6; 7; 8; 9; 10] v else JS.add v (Num 1) in
  modifySong (fun s =>
    Ok (Song.set_beatsPerBar
          (JS.max (Num (beatsPerBarMin cfg)) (JS.min (Num (beatsPerBarMax cfg)) b)) s)).

(** The body of a loop [for (channel = 0; channel < this.getChannelCount();
    channel++)] that updates [this.channels[channel]]. *)
Definition forChannels (f : Z -> Channel.t -> Result Channel.t) : M unit :=
  channelCount <- gets (fun d => getChannelCount (song d)) ;;
  forRange channelCount (fun channel => modifySong (updChannel (Num channel) (f channel))).

(** [case SongTagCode.barCount] *)
Definition tag_barCount : M unit :=
  a <- readSymbol ;;
  b <- readSymbol ;;
  let barCount := JS.add (JS.add (Num (JS.vshl a 6)) b) (Num 1) in
  barCount <- lift (validateRange (Num (barCountMin cfg)) (Num (barCountMax cfg)) barCount) ;;
  modifySong (fun s => Ok (Song.set_barCount barCount s)) ;;;
  forChannels (fun _ c =>
    let* len := arrayLength barCount in
    Ok (Channel.set_bars (setLength len (growTo len (Num 1) (Channel.bars c))) c)).

(** [case SongTagCode.patternCount] *)
Definition tag_patternCount : M unit :=
  n <- (if beforeEight then
          v <- readSymbol ;; ret (JS.add v (Num 1))
        else
          a <- readSymbol ;;
          b <- readSymbol ;;
          ret (JS.add (JS.add (Num (JS.vshl a 6)) b) (Num 1))) ;;
  n <- lift (validateRange (Num 1) (Num (barCountMax cfg)) n) ;;
  modifySong (fun s => Ok (Song.set_patternsPerChannel n s)) ;;;
  forChannels (fun _ c =>
    let* len := arrayLength n in
    Ok (Channel.set_patterns (setLength len (growTo len Pattern_new (Channel.patterns c))) c)).

(** The reset of every instrument of a channel, in [instrumentCount] before
    version 6. *)
Fixpoint resetInstruments (type : value) (isNoiseChannel : bool)
  (l : list Instrument.t) : Result (list Instrument.t) :=
  match l with
  | [] => Ok []
  | ins :: rest =>
      let* ins := setTypeAndReset type isNoiseChannel ins in
      let* rest := resetInstruments type isNoiseChannel rest in
      Ok (ins :: rest)
  end.

(** [case SongTagCode.instrumentCount] *)
Definition tag_instrumentCount : M unit :=
  v <- readSymbol ;;
  n <- lift (validateRange (Num (instrumentsPerChannelMin cfg))
               (Num (instrumentsPerChannelMax cfg)) (JS.add v (Num 1))) ;;
  modifySong (fun s => Ok (Song.set_instrumentsPerChannel n s)) ;;;
  channelCount <- gets (fun d => getChannelCount (song d)) ;;
  pitchChannelCount <- gets (fun d => Song.pitchChannelCount (song d)) ;;
  forRange channelCount (fun channel =>
    let isNoiseChannel := JS.ge (Num channel) pitchChannelCount in
    modifySong (updChannel (Num channel) (fun c =>
      let* len := arrayLength n in
      let instruments :=
        setLength len (growTo len (Instrument_new isNoiseChannel) (Channel.instruments c)) in
      let* instruments :=
        if beforeSix then
          resetInstruments
            (Num (if isNoiseChannel then InstrumentType_noise cfg
                  else InstrumentType_chip cfg)) isNoiseChannel instruments
        else Ok instruments in
      Ok (Channel.set_instruments instruments c))) ;;;
    if beforeNine then
      fun d =>
        match at_ (legacyFilterSettings d) (Num channel) with
        | Some row =>
            Ok (tt, set_legacyFilterSettings
                      (setAt row (Z.to_nat channel)
                         (growTo (turns n) emptyLegacy row) (legacyFilterSettings d)) d)
        | None => Throw TypeError
        end
    else ret tt).

(** [case SongTagCode.rhythm] *)
Definition tag_rhythm : M unit :=
  v <- readSymbol ;;
  modifySong (fun s => Ok (Song.set_rhythm v s)).

(** [case SongTagCode.channelOctave] *)
Definition tag_channelOctave : M unit :=
  if beforeThree then
    channel <- readSymbol ;;
    v <- readSymbol ;;
    modifySong (updChannel channel (fun c =>
      Ok (Channel.set_octave (clamp 0 (scrollableOctaves cfg + 1) v) c)))
  else
    channelCount <- gets (fun d => getChannelCount (song d)) ;;
    forRange channelCount (fun channel =>
      v <- readSymbol ;;
      modifySong (updChannel (Num channel) (fun c =>
        Ok (Channel.set_octave (clamp 0 (scrollableOctaves cfg + 1) v) c)))).

(** ** Instrument tags *)

Definition updAt (channel index : value) (f : Instrument.t -> Result Instrument.t)
  : M unit :=
  modifySong (updInstrument channel index f).

(** Runs [body] on the instrument cursor. *)
Definition atCurrent (body : value -> value -> M unit) : M unit :=
  fun d => body (Num (instrumentChannelIterator d)) (Num (instrumentIndexIterator d)) d.

(** The three shapes of a per-instrument tag: before version 3 the channel is
    in the payload and the instrument is the first one, before version 6 the
    payload lists every instrument of every channel, from version 6 on the
    tag belongs to the instrument cursor. *)
Definition perInstrument (body : value -> value -> M unit) : M unit :=
  if beforeThree then
    channel <- readSymbol ;; body channel (Num 0)
  else if beforeSix then
    forAllInstruments (fun channel i => body (Num channel) (Num i))
  else atCurrent body.

(** [case SongTagCode.startInstrument] *)
Definition tag_startInstrument : M unit :=
  instrumentsPerChannel <- gets (fun d => Song.instrumentsPerChannel (song d)) ;;
  modify (fun d =>
    let index := instrumentIndexIterator d + 1 in
    if JS.ge (Num index) instrumentsPerChannel
    then set_iterators (instrumentChannelIterator d + 1) 0 d
    else set_iterators (instrumentChannelIterator d) index d) ;;;
  channel <- gets instrumentChannelIterator ;;
  channelsLength <- gets (fun d => Z.of_nat (List.length (Song.channels (song d)))) ;;
  _ <- lift (validateRange (Num 0) (Num (channelsLength - 1)) (Num channel)) ;;
  v <- readSymbol ;;
  instrumentType <- lift (validateRange (Num 0) (Num (InstrumentType_length cfg - 1)) v) ;;
  pitchChannelCount <- gets (fun d => Song.pitchChannelCount (song d)) ;;
  legacyGlobalReverb <- gets legacyGlobalReverb ;;
  let isNoise := JS.ge (Num channel) pitchChannelCount in
  atCurrent (fun c i => updAt c i (fun ins =>
    let* ins := setTypeAndReset instrumentType isNoise ins in
    if beforeSeven then
      (* the reverb effect was applied to all pitched instruments if nonzero
         but never explicitly enabled if beforeSeven, so enable it here. *)
      if JS.gt legacyGlobalReverb (Num 0) && negb isNoise
      then Ok (Instrument.set_reverb legacyGlobalReverb
                 (Instrument.set_effects (Num (JS.shl 1 (EffectType_reverb cfg))) ins))
      else Ok (Instrument.set_effects (Num 0) ins)
    else Ok ins)).

(** [case SongTagCode.preset] *)
Definition tag_preset : M unit :=
  a <- readSymbol ;;
  b <- readSymbol ;;
  atCurrent (fun c i => updAt c i (fun ins =>
    Ok (Instrument.set_preset (Num (Z.lor (JS.vshl a 6) (JS.toInt32 b))) ins))).

Definition legacyWaves : list Z := [1; 2; 3; 4; 5; 6; 7; 8; 0].

(** [case SongTagCode.wave] *)
Definition tag_wave : M unit :=
  pitchChannelCount <- gets (fun d => Song.pitchChannelCount (song d)) ;;
  if beforeThree then
    channel <- readSymbol ;;
    v <- readSymbol ;;
    updAt channel (Num 0) (fun ins =>
      let ins :=
        Instrument.set_chipWave
          (clamp 0 (chipWaves_length cfg) (Num (JS.toInt32 (JS.index legacyWaves v)))) ins in
      (* Version 2 didn't save any settings for settings for filters, just
         waves, so initialize the filters here I guess. *)
      convertLegacy emptyLegacy ins)
  else
    let body legacy channel i :=
      v <- readSymbol ;;
      updAt channel i (fun ins =>
        Ok (if JS.ge channel pitchChannelCount
            then Instrument.set_chipNoise (clamp 0 (chipNoises_length cfg) v) ins
            else Instrument.set_chipWave
                   (clamp 0 (chipWaves_length cfg)
                      (if legacy : bool
                       then Num (JS.toInt32 (JS.index legacyWaves v)) else v)) ins)) in
    if beforeSix then forAllInstruments (fun channel i => body true (Num channel) (Num i))
    else if beforeSeven then atCurrent (body true)
    else atCurrent (body false).

(** Stores into [legacyFilterSettings![channel][index]] what [g] makes of it,
    updates the instrument by [pre] and converts its filter. *)
Definition legacyFilterAt (channel index : value)
  (g : LegacyFilterSettings -> LegacyFilterSettings)
  (pre : Instrument.t -> Instrument.t) : M unit :=
  l <- gets legacyFilterSettings ;;
  legacySettings <- lift (getLegacy channel index l) ;;
  let legacySettings := g legacySettings in
  modify (fun d =>
    set_legacyFilterSettings (setLegacy channel index legacySettings
                                (legacyFilterSettings d)) d) ;;;
  updAt channel index (fun ins => convertLegacy legacySettings (pre ins)).

Definition legacyToCutoff : list Z := [10; 6; 3; 0; 8; 5; 2].
Definition legacyToEnvelope : list Z := [1; 1; 1; 1; 18; 19; 20].
(** [filterNames.length] *)
Definition filterNames_length : Z := 7.

(** The modern payload of [filter] and [distortionFilter]: the points of
    [f] read from the string. *)
Definition readFilterSettings (f : FilterSettings.t) : M FilterSettings.t :=
  originalControlPointCount <- readSymbol ;;
  let count := clamp 0 (filterMaxPoints cfg + 1) originalControlPointCount in
  let points :=
    growTo (turns count) FilterControlPoint_new (FilterSettings.controlPoints f) in
  symbols <- readSymbols (3 * turns count) ;;
  let points :=
    fold_left
      (fun points i =>
         setAt FilterControlPoint_new i
           (FilterControlPoint.mk
              (clamp 0 (filterFreqRange cfg) (nth (3 * i + 1) symbols Undefined))
              (clamp 0 (filterGainRange cfg) (nth (3 * i + 2) symbols Undefined))
              (clamp 0 (FilterType_length cfg) (nth (3 * i) symbols Undefined)))
           points)
      (seq 0 (turns count)) points in
  (* [for (i = count; i < originalControlPointCount; i++) charIndex += 3] *)
  skip (Num (3 * Z.of_nat (turns (JS.sub originalControlPointCount count)))) ;;;
  ret (FilterSettings.mk points count).

(** [case SongTagCode.filter] *)
Definition tag_filter : M unit :=
  pitchChannelCount <- gets (fun d => Song.pitchChannelCount (song d)) ;;
  if beforeNine then
    if beforeSeven then
      if beforeThree then
        channel <- readSymbol ;;
        v <- readSymbol ;;
        let legacyFilter := JS.index [1; 3; 4; 5] (clamp 0 filterNames_length v) in
        legacyFilterAt channel (Num 0)
          (fun _ => Build_LegacyFilterSettings (JS.index legacyToCutoff legacyFilter) (Num 0))
          (Instrument.set_filterEnvelope (JS.index legacyToEnvelope legacyFilter))
      else if beforeSix then
        forAllInstruments (fun channel i =>
          v <- readSymbol ;;
          let legacyFilter := clamp 0 filterNames_length (JS.add v (Num 1)) in
          if JS.lt (Num channel) pitchChannelCount then
            legacyFilterAt (Num channel) (Num i)
              (fun _ => Build_LegacyFilterSettings (JS.index legacyToCutoff legacyFilter) (Num 0))
              (Instrument.set_filterEnvelope (JS.index legacyToEnvelope legacyFilter))
          else
            legacyFilterAt (Num channel) (Num i)
              (fun _ => Build_LegacyFilterSettings (Num 10) (Num 0))
              (Instrument.set_filterEnvelope (Num 1)))
      else
        v <- readSymbol ;;
        let legacyFilter := clamp 0 filterNames_length v in
        atCurrent (fun channel i =>
          legacyFilterAt channel i
            (fun _ => Build_LegacyFilterSettings (JS.index legacyToCutoff legacyFilter) (Num 0))
            (Instrument.set_filterEnvelope (JS.index legacyToEnvelope legacyFilter)))
    else
      let filterCutoffRange := 11 in
      v <- readSymbol ;;
      atCurrent (fun channel i =>
        legacyFilterAt channel i
          (fun l => Build_LegacyFilterSettings (clamp 0 filterCutoffRange v) (resonance l))
          (fun ins => ins))
  else
    ins <- getCurrent ;;
    f <- readFilterSettings (Instrument.filter ins) ;;
    setCurrent (Instrument.set_filter f).

(** [case SongTagCode.filterResonance] *)
Definition tag_filterResonance : M unit :=
  if beforeNine then
    let filterResonanceRange := 8 in
    v <- readSymbol ;;
    atCurrent (fun channel i =>
      legacyFilterAt channel i
        (fun l => Build_LegacyFilterSettings (cutoff l) (clamp 0 filterResonanceRange v))
        (fun ins => ins))
  else
    (* Do nothing? This song tag code is deprecated for now. *)
    ret tt.

(** [case SongTagCode.distortionFilter] *)
Definition tag_distortionFilter : M unit :=
  ins <- getCurrent ;;
  f <- readFilterSettings (Instrument.distortionFilter ins) ;;
  setCurrent (Instrument.set_distortionFilter f).

(** [case SongTagCode.filterEnvelope] *)
Definition tag_filterEnvelope : M unit :=
  ins <- getCurrent ;;
  (if JS.eqz (Instrument.type ins) (InstrumentType_drumset cfg) then
     symbols <- readSymbols (Z.to_nat (drumCount cfg)) ;;
     setCurrent (fun ins =>
       Instrument.set_drumsetEnvelopes
         (fold_left
            (fun l i => setAt Undefined i
                          (clamp 0 (envelopes_length cfg) (nth i symbols Undefined)) l)
            (seq 0 (Z.to_nat (drumCount cfg))) (Instrument.drumsetEnvelopes ins)) ins)
   else
     v <- readSymbol ;;
     setCurrent (Instrument.set_filterEnvelope (clamp 0 (envelopes_length cfg) v))) ;;;
  if beforeNine then
    (* The presence of an envelope affects how convertLegacySettings decides
       the closest possible approximation, so update it. *)
    atCurrent (fun channel i => legacyFilterAt channel i (fun l => l) (fun ins => ins))
  else ret tt.

(** [case SongTagCode.pulseWidth] *)
Definition tag_pulseWidth : M unit :=
  v <- readSymbol ;;
  setCurrent (Instrument.set_pulseWidth (clamp 0 (pulseWidthRange cfg) v)) ;;;
  ins <- getCurrent ;;
  if JS.eqz (Instrument.type ins) (InstrumentType_pwm cfg) then
    (* TODO: The envelope should be saved separately, check beforeNine. *)
    v <- readSymbol ;;
    setCurrent (Instrument.set_pulseEnvelope (clamp 0 (envelopes_length cfg) v))
  else ret tt.

(** [case SongTagCode.distortion] *)
Definition tag_distortion : M unit :=
  v <- readSymbol ;;
  setCurrent (Instrument.set_distortion (clamp 0 (distortionRange cfg) v)).

(** [case SongTagCode.bitcrusher] *)
Definition tag_bitcrusher : M unit :=
  a <- readSymbol ;;
  b <- readSymbol ;;
  setCurrent (fun ins =>
    Instrument.set_bitcrusherQuantization (clamp 0 (bitcrusherQuantizationRange cfg) b)
      (Instrument.set_bitcrusherFreq (clamp 0 (bitcrusherFreqRange cfg) a) ins)).

(** [case SongTagCode.sustain] *)
Definition tag_sustain : M unit :=
  v <- readSymbol ;;
  setCurrent (Instrument.set_sustain (clamp 0 (sustainRange cfg) v)).

(** [case SongTagCode.transition] *)
Definition tag_transition : M unit :=
  perInstrument (fun channel i =>
    v <- readSymbol ;;
    updAt channel i (fun ins =>
      Ok (Instrument.set_transition (clamp 0 (transitions_length cfg) v) ins))).

(** The legacy payload of [vibrato]: an effect that stands for a vibrato and
    a filter envelope. *)
Definition legacyVibrato (legacyEffects legacyEnvelopes : list Z)
  (channel i : value) : M unit :=
  v <- readSymbol ;;
  let effect := clamp 0 (Z.of_nat (List.length legacyEffects)) v in
  updAt channel i (fun ins =>
    let ins := Instrument.set_vibrato (JS.index legacyEffects effect) ins in
    Ok (Instrument.set_filterEnvelope
          (if JS.eqz (Instrument.filterEnvelope ins) 1
           then JS.index legacyEnvelopes effect
           else Instrument.filterEnvelope ins) ins)).

(** [case SongTagCode.vibrato] *)
Definition tag_vibrato : M unit :=
  if beforeThree then
    channel <- readSymbol ;;
    legacyVibrato [0; 3; 2; 0] [1; 1; 1; 13] channel (Num 0)
  else if beforeSix then
    forAllInstruments (fun channel i =>
      legacyVibrato [0; 1; 2; 3; 0; 0] [1; 1; 1; 1; 16; 13] (Num channel) (Num i))
  else if beforeSeven then
    atCurrent (legacyVibrato [0; 1; 2; 3; 0; 0] [1; 1; 1; 1; 16; 13])
  else
    v <- readSymbol ;;
    setCurrent (Instrument.set_vibrato (clamp 0 (vibratos_length cfg) v)).

(** The payload of [interval] in versions 3 to 6. *)
Definition legacyInterval (channel i : value) : M unit :=
  originalValue <- readSymbol ;;
  updAt channel i (fun ins =>
    if JS.eqz originalValue 8
    then (* original "custom harmony" now maps to "hum" and "custom interval". *)
      Ok (Instrument.set_interval (Num 2) (Instrument.set_chord (Num 3) ins))
    else Ok (Instrument.set_interval (clamp 0 (intervals_length cfg) originalValue) ins)).

Definition plainInterval (channel i : value) : M unit :=
  v <- readSymbol ;;
  updAt channel i (fun ins =>
    Ok (Instrument.set_interval (clamp 0 (intervals_length cfg) v) ins)).

(** [case SongTagCode.interval] *)
Definition tag_interval : M unit :=
  if beforeThree then
    channel <- readSymbol ;; plainInterval channel (Num 0)
  else if beforeSix then
    forAllInstruments (fun channel i => legacyInterval (Num channel) (Num i))
  else if beforeSeven then atCurrent legacyInterval
  else atCurrent plainInterval.

(** [case SongTagCode.chord] *)
Definition tag_chord : M unit :=
  v <- readSymbol ;;
  setCurrent (Instrument.set_chord (clamp 0 (chords_length cfg) v)).

(** [(1 << EffectType.length) - 1] *)
Definition effectsMask : value := Num (JS.shl 1 (EffectType_length cfg) - 1).

(** [case SongTagCode.effects] *)
Definition tag_effects : M unit :=
  legacyGlobalReverb <- gets legacyGlobalReverb ;;
  (if beforeNine then
     v <- readSymbol ;;
     setCurrent (fun ins =>
       let ins := Instrument.set_effects (Num (JS.vand v effectsMask)) ins in
       let ins :=
         if JS.eqz legacyGlobalReverb 0 then
           (* Disable reverb if legacy song reverb was zero. *)
           Instrument.set_effects
             (Num (Z.land (JS.toInt32 (Instrument.effects ins))
                     (JS.wrap32 (Z.lnot (JS.shl 1 (EffectType_reverb cfg)))))) ins
         else if effectsInclude (EffectType_reverb cfg) (Instrument.effects ins) then
           Instrument.set_reverb legacyGlobalReverb ins
         else ins in
       if negb (JS.eqz (Instrument.pan ins) (panCenter cfg)) then
         (* Enable panning if panning slider isn't centered. *)
         Instrument.set_effects
           (Num (Z.lor (JS.toInt32 (Instrument.effects ins))
                   (JS.shl 1 (EffectType_panning cfg)))) ins
       else ins)
   else
     a <- readSymbol ;;
     b <- readSymbol ;;
     setCurrent (Instrument.set_effects (Num (Z.lor (JS.vshl a 6) (JS.toInt32 b))))) ;;;
  setCurrent (fun ins =>
    Instrument.set_effects (Num (JS.vand (Instrument.effects ins) effectsMask)) ins).

(** The payload of [volume] before version 7. *)
Definition legacyVolume (channel i : value) : M unit :=
  v <- readSymbol ;;
  updAt channel i (fun ins =>
    let volume := clamp 0 (volumeRange cfg) v in
    (* legacy mute value: *)
    Ok (Instrument.set_volume
          (if JS.eqz volume 5 then Num (volumeRange cfg - 1) else volume) ins)).

(** [case SongTagCode.volume] *)
Definition tag_volume : M unit :=
  if beforeThree then
    channel <- readSymbol ;; legacyVolume channel (Num 0)
  else if beforeSix then
    forAllInstruments (fun channel i => legacyVolume (Num channel) (Num i))
  else if beforeSeven then atCurrent legacyVolume
  else
    v <- readSymbol ;;
    setCurrent (Instrument.set_volume (clamp 0 (volumeRange cfg) v)).

(** [case SongTagCode.pan] *)
Definition tag_pan : M unit :=
  v <- readSymbol ;;
  setCurrent (Instrument.set_pan (clamp 0 (panMax cfg + 1) v)).

(** [case SongTagCode.algorithm] *)
Definition tag_algorithm : M unit :=
  v <- readSymbol ;;
  setCurrent (Instrument.set_algorithm (clamp 0 (algorithms_length cfg) v)).

(** [case SongTagCode.feedbackType] *)
Definition tag_feedbackType : M unit :=
  v <- readSymbol ;;
  setCurrent (Instrument.set_feedbackType (clamp 0 (feedbacks_length cfg) v)).

(** [case SongTagCode.feedbackAmplitude] *)
Definition tag_feedbackAmplitude : M unit :=
  v <- readSymbol ;;
  setCurrent (Instrument.set_feedbackAmplitude (clamp 0 (operatorAmplitudeMax cfg + 1) v)).

(** [case SongTagCode.feedbackEnvelope] *)
Definition tag_feedbackEnvelope : M unit :=
  v <- readSymbol ;;
  setCurrent (Instrument.set_feedbackEnvelope (clamp 0 (envelopes_length cfg) v)).

(** [for (o = 0; o < Config.operatorCount; o++)
      instrument.operators[o].field = clamp(0, max, symbol)] *)
Definition tag_operators (max : Z) (set : value -> Operator.t -> Operator.t) : M unit :=
  forRange (Num (operatorCount cfg)) (fun o =>
    v <- readSymbol ;;
    atCurrent (fun c i => updAt c i (fun ins =>
      match at_ (Instrument.operators ins) (Num o) with
      | Some op =>
          Ok (Instrument.set_operators
                (setAt op (Z.to_nat o) (set (clamp 0 max v) op)
                   (Instrument.operators ins)) ins)
      | None => Throw TypeError
      end))).

(** [case SongTagCode.operatorFrequencies], [operatorAmplitudes],
    [operatorEnvelopes] *)
Definition tag_operatorFrequencies : M unit :=
  tag_operators (operatorFrequencies_length cfg) Operator.set_frequency.
Definition tag_operatorAmplitudes : M unit :=
  tag_operators (operatorAmplitudeMax cfg + 1) Operator.set_amplitude.
Definition tag_operatorEnvelopes : M unit :=
  tag_operators (envelopes_length cfg) Operator.set_envelope.

(** [Math.ceil(n / 6)] for an integer [n] *)
Definition ceilDiv6 (n : Z) : Z := (n + 5) / 6.

(** Reads [count] fields of [bitCount] bits each. *)
Fixpoint readFields (bitCount : Z) (count : nat) (r : BitFieldReader.t)
  : list value * BitFieldReader.t :=
  match count with
  | O => ([], r)
  | S n =>
      let (v, r) := BitFieldReader.read bitCount r in
      let (rest, r) := readFields bitCount n r in
      (v :: rest, r)
  end.

(** [for (i = 0; i < n; i++) a[i] = values[i]] *)
Definition storeFields (values : list value) (a : list value) : list value :=
  fold_left (fun l i => setAt Undefined i (nth i values Undefined) l)
    (seq 0 (List.length values)) a.

(** The drumset case of [spectrum]: one spectrum per drum, read in turn. *)
Fixpoint readDrumSpectra (count : nat) (j : nat) (r : BitFieldReader.t)
  (waves : list (list value)) : Result (list (list value)) :=
  match count with
  | O => Ok waves
  | S n =>
      match nth_error waves j with
      | None => Throw TypeError
      | Some w =>
          let (values, r) :=
            readFields (spectrumControlPointBits cfg)
              (Z.to_nat (spectrumControlPoints cfg)) r in
          readDrumSpectra n (S j) r (setAt w j (storeFields values w) waves)
      end
  end.

(** [case SongTagCode.spectrum] *)
Definition tag_spectrum : M unit :=
  ins <- getCurrent ;;
  start <- gets charIndex ;;
  if JS.eqz (Instrument.type ins) (InstrumentType_spectrum cfg) then
    let byteCount :=
      ceilDiv6 (spectrumControlPoints cfg * spectrumControlPointBits cfg) in
    let bits := BitFieldReader.make compressed start (JS.add start (Num byteCount)) in
    let (values, _) :=
      readFields (spectrumControlPointBits cfg)
        (Z.to_nat (spectrumControlPoints cfg)) bits in
    setCurrent (fun ins =>
      Instrument.set_spectrumWave (storeFields values (Instrument.spectrumWave ins)) ins) ;;;
    skip (Num byteCount)
  else if JS.eqz (Instrument.type ins) (InstrumentType_drumset cfg) then
    let byteCount :=
      ceilDiv6 (drumCount cfg * spectrumControlPoints cfg * spectrumControlPointBits cfg) in
    let bits := BitFieldReader.make compressed start (JS.add start (Num byteCount)) in
    atCurrent (fun c i => updAt c i (fun ins =>
      let* waves := readDrumSpectra (Z.to_nat (drumCount cfg)) 0 bits
                      (Instrument.drumsetSpectrumWaves ins) in
      Ok (Instrument.set_drumsetSpectrumWaves waves ins))) ;;;
    skip (Num byteCount)
  else throw UnhandledSpectrumInstrument.

(** [case SongTagCode.harmonics] *)
Definition tag_harmonics : M unit :=
  start <- gets charIndex ;;
  let byteCount :=
    ceilDiv6 (harmonicsControlPoints cfg * harmonicsControlPointBits cfg) in
  let bits := BitFieldReader.make compressed start (JS.add start (Num byteCount)) in
  let (values, _) :=
    readFields (harmonicsControlPointBits cfg)
      (Z.to_nat (harmonicsControlPoints cfg)) bits in
  setCurrent (fun ins =>
    Instrument.set_harmonicsWave (storeFields values (Instrument.harmonicsWave ins)) ins) ;;;
  skip (Num byteCount).

(** ** Bars and patterns *)

(** [n = 0; while ((1 << n) < bound) n++]: [1 << n] has period 32 in [n], so
    a loop that has not ended after 32 turns never ends. *)
Fixpoint neededBits_loop (fuel : nat) (n : Z) (bound : value) : Result Z :=
  match fuel with
  | O => OutOfFuel
  | S f =>
      if JS.lt (Num (JS.shl 1 n)) bound then neededBits_loop f (n + 1) bound
      else Ok n
  end.

Definition neededBitsFor (bound : value) : Result Z := neededBits_loop 32 0 bound.

(** [Math.ceil(v / 6)] and [Math.ceil(v * 0.5)] *)
Definition ceilSixth (v : value) : value :=
  match v with Num n => Num (ceilDiv6 n) | _ => NaN end.
Definition ceilHalf (v : value) : value :=
  match v with Num n => Num ((n + 1) / 2) | _ => NaN end.

(** Stores [values] (each increased by [offset]) into [bars] from index 0. *)
Definition storeBars (offset : Z) (values : list value) (bars : list value)
  : list value :=
  storeFields (map (fun v => JS.add v (Num offset)) values) bars.

(** The loop over the channels of [bars] from version 3 on. *)
Fixpoint readAllBars (offset neededBits : Z) (barCount : value)
  (channels : list Z) (r : BitFieldReader.t) (s : Song.t) : Result Song.t :=
  match channels with
  | [] => Ok s
  | channel :: rest =>
      let (values, r') := readFields neededBits (turns barCount) r in
      let* s :=
        (* with no bar to store [this.channels[channel]] is not evaluated *)
        if (turns barCount =? 0)%nat then Ok s
        else updChannel (Num channel)
               (fun c => Ok (Channel.set_bars (storeBars offset values (Channel.bars c)) c)) s in
      readAllBars offset neededBits barCount rest r' s
  end.

(** [case SongTagCode.bars] *)
Definition tag_bars : M unit :=
  if beforeThree then
    channel <- readSymbol ;;
    barCount <- readSymbol ;;
    let subStringLength := ceilHalf barCount in
    start <- gets charIndex ;;
    let bits := BitFieldReader.make compressed start (JS.add start subStringLength) in
    let (values, _) := readFields 3 (turns barCount) bits in
    (if (turns barCount =? 0)%nat then ret tt
     else modifySong (updChannel channel (fun c =>
            Ok (Channel.set_bars (storeBars 1 values (Channel.bars c)) c)))) ;;;
    skip subStringLength
  else
    s <- gets song ;;
    neededBits <- lift (neededBitsFor
                          (if beforeFive then Song.patternsPerChannel s
                           else JS.add (Song.patternsPerChannel s) (Num 1))) ;;
    let subStringLength :=
      ceilSixth (JS.mul (JS.mul (getChannelCount s) (Song.barCount s)) (Num neededBits)) in
    start <- gets charIndex ;;
    let bits := BitFieldReader.make compressed start (JS.add start subStringLength) in
    modifySong (readAllBars (if beforeFive then 1 else 0) neededBits (Song.barCount s)
                  (map Z.of_nat (seq 0 (turns (getChannelCount s)))) bits) ;;;
    skip subStringLength.

(** A pin of a shape, and a shape: the objects [pinObj] and [shape] of the
    [patterns] case. *)
Record ShapePin : Type := {
  pitchBend : bool;
  pin_time : Z;
  pin_expression : value
}.

Record Shape : Type := {
  pitchCount : Z;
  pinCount : Z;
  initialExpression : value;
  shape_pins : list ShapePin;
  shape_length : Z;
  bendCount : Z
}.

(** What the decoding of one channel's patterns threads along. *)
Record Cursor : Type := {
  bits : BitFieldReader.t;
  lastPitch : value;
  recentPitches : list value;
  recentShapes : list Shape
}.

(** [===] on numbers and [undefined], and [a.indexOf(x) != -1]. *)
Definition strictEq (a b : value) : bool :=
  match a, b with
  | Num x, Num y => x =? y
  | Undefined, Undefined => true
  | _, _ => false
  end.

Definition includes (l : list value) (x : value) : bool := existsb (strictEq x) l.

(** [a.splice(i, 1)] *)
Definition removeAt {A : Type} (i : nat) (l : list A) : list A :=
  firstn i l ++ skipn (S i) l.

(** [a.unshift(x); if (a.length > limit) a.pop();] *)
Definition unshiftCapped {A : Type} (limit : nat) (x : A) (l : list A) : list A :=
  let l := x :: l in
  if (limit <? List.length l)%nat then removelast l else l.

(** [while (recentPitches.indexOf(pitch) != -1) pitch += step]: among
    [length recent + 1] pitches in a row one is not in [recent], which bounds
    the turns. *)
Fixpoint skipRecent (fuel : nat) (recent : list value) (step : Z) (pitch : value)
  : value :=
  match fuel with
  | O => pitch
  | S f =>
      if includes recent pitch
      then skipRecent f recent step (JS.add pitch (Num step))
      else pitch
  end.

(** [while (intervalIter != 0) { pitch += step; skip the recent pitches }] *)
Fixpoint stepPitch (n : nat) (recent : list value) (step : Z) (pitch : value)
  : value :=
  match n with
  | O => pitch
  | S k =>
      stepPitch k recent step
        (skipRecent (S (List.length recent)) recent step (JS.add pitch (Num step)))
  end.

(** One pitch of a note: a reference into [recentPitches] or an interval from
    [lastPitch]; the pitch moves to the front of [recentPitches]. *)
Definition readPitch (c : Cursor) : Result (value * Cursor) :=
  let (b, r) := BitFieldReader.read 1 (bits c) in
  let useOldPitch := JS.eqz b 1 in
  let* (pitch, r, recent) :=
    if negb useOldPitch then
      let (interval, r) := BitFieldReader.readPitchInterval r in
      let recent := recentPitches c in
      Ok (if 0 <? interval then stepPitch (Z.to_nat interval) recent 1 (lastPitch c)
          else stepPitch (Z.to_nat (- interval)) recent (-1) (lastPitch c),
          r, recent)
    else
      let (v, r) := BitFieldReader.read 3 r in
      let* pitchIndex :=
        validateRange (Num 0) (Num (Z.of_nat (List.length (recentPitches c)) - 1)) v in
      Ok (nth (turns pitchIndex) (recentPitches c) Undefined, r,
          removeAt (turns pitchIndex) (recentPitches c)) in
  Ok (pitch, Build_Cursor r (lastPitch c) (unshiftCapped 8 pitch recent) (recentShapes c)).

(** [for (j = 0; j < shape.pitchCount + shape.bendCount; j++)]: the pitches
    and the pitch bends of a note, [j] counting up from the given one. *)
Fixpoint readPitches (count : nat) (j : Z) (shapePitchCount : Z)
  (pitches pitchBends : list value) (c : Cursor)
  : Result (list value * list value * Cursor) :=
  match count with
  | O => Ok (pitches, pitchBends, c)
  | S n =>
      let* (pitch, c) := readPitch c in
      let pitches := if j <? shapePitchCount then pitches ++ [pitch] else pitches in
      let pitchBends := if j <? shapePitchCount then pitchBends else pitchBends ++ [pitch] in
      let last := if j =? shapePitchCount - 1 then nth 0 pitches Undefined else pitch in
      readPitches n (j + 1) shapePitchCount pitches pitchBends
        (Build_Cursor (bits c) last (recentPitches c) (recentShapes c))
  end.

(** [for (const pinObj of shape.pins)]: the pins of the note after the first. *)
Fixpoint makePins (pins : list ShapePin) (pitchBends : list value) (firstPitch : value)
  : list NotePin.t :=
  match pins with
  | [] => []
  | pinObj :: rest =>
      let pitchBends := if pitchBend pinObj then tl pitchBends else pitchBends in
      NotePin.mk (JS.sub (nth 0 pitchBends Undefined) firstPitch)
        (Num (pin_time pinObj)) (pin_expression pinObj)
        :: makePins rest pitchBends firstPitch
  end.

(** A part duration: [bits.readLegacyPartDuration() * Config.partsPerBeat /
    Config.rhythms[this.rhythm].stepsPerBeat] before version 7 (the quotient
    is an integer when [stepsPerBeat] divides [partsPerBeat], which is what
    the integer division here stands for), [bits.readPartDuration()] after. *)
Definition readDuration (rhythm : value) (r : BitFieldReader.t)
  : Result (Z * BitFieldReader.t) :=
  if beforeSeven then
    let (d, r) := BitFieldReader.readLegacyPartDuration r in
    match at_ (rhythms_stepsPerBeat cfg) rhythm with
    | Some stepsPerBeat => Ok (d * partsPerBeat cfg / stepsPerBeat, r)
    | None => Throw TypeError
    end
  else Ok (BitFieldReader.readPartDuration r).

(** [while (shape.pitchCount < Config.maxChordSize && bits.read(1) == 1)
    shape.pitchCount++], at most [maxChordSize - 1] turns. *)
Fixpoint readPitchCount (fuel : nat) (count : Z) (r : BitFieldReader.t)
  : Z * BitFieldReader.t :=
  match fuel with
  | O => (count, r)
  | S f =>
      if count <? maxChordSize cfg then
        let (b, r) := BitFieldReader.read 1 r in
        if JS.eqz b 1 then readPitchCount f (count + 1) r else (count, r)
      else (count, r)
  end.

(** [for (j = 0; j < shape.pinCount; j++)]: the pins of a new shape. *)
Fixpoint readShapePins (count : nat) (rhythm : value) (length bendCount : Z)
  (pins : list ShapePin) (r : BitFieldReader.t)
  : Result (list ShapePin * Z * Z * BitFieldReader.t) :=
  match count with
  | O => Ok (pins, length, bendCount, r)
  | S n =>
      let (b, r) := BitFieldReader.read 1 r in
      let bend := JS.eqz b 1 in
      let bendCount := if bend then bendCount + 1 else bendCount in
      let* (d, r) := readDuration rhythm r in
      let length := length + d in
      let (e, r) := BitFieldReader.read 2 r in
      readShapePins n rhythm length bendCount
        (pins ++ [Build_ShapePin bend length e]) r
  end.

Definition readShape (rhythm : value) (r : BitFieldReader.t)
  : Result (Shape * BitFieldReader.t) :=
  let (pitchCount, r) := readPitchCount (Z.to_nat (maxChordSize cfg - 1)) 1 r in
  let (pinCount, r) := BitFieldReader.readPinCount r in
  let (initialExpression, r) := BitFieldReader.read 2 r in
  let* (pins, length, bendCount, r) :=
    readShapePins (Z.to_nat pinCount) rhythm 0 0 [] r in
  Ok (Build_Shape pitchCount pinCount initialExpression pins length bendCount, r).

(** The note of a shape at [curPart]: [new Note(0, curPart, curPart +
    shape.length, shape.initialExpression)] cut down to its first pin, then
    its pitches and the pins of the shape. *)
Definition readNote (shape : Shape) (curPart : Z) (c : Cursor)
  : Result (Note.t * Cursor) :=
  let* (pitches, pitchBends, c) :=
    readPitches (Z.to_nat (pitchCount shape + bendCount shape)) 0 (pitchCount shape)
      [] [] c in
  let firstPitch := nth 0 pitches Undefined in
  let pitchBends := firstPitch :: pitchBends in
  Ok (Note.mk pitches
        (NotePin.mk (Num 0) (Num 0) (initialExpression shape)
           :: makePins (shape_pins shape) pitchBends firstPitch)
        (Num curPart) (Num (curPart + shape_length shape)),
      c).

(** The integer of a number that is one ([validateRange] has let it pass). *)
Definition curPart0 (v : value) : Z := match v with Num z => z | _ => 0 end.

(** [while (curPart < this.beatsPerBar * Config.partsPerBeat)]: the rests and
    notes of a pattern. *)
Fixpoint readNotes (fuel : nat) (rhythm maxPart : value) (curPart : Z)
  (newNotes : list Note.t) (c : Cursor) : Result (list Note.t * Cursor) :=
  match fuel with
  | O => OutOfFuel
  | S f =>
      if JS.lt (Num curPart) maxPart then
        let (b, r) := BitFieldReader.read 1 (bits c) in
        let useOldShape := JS.eqz b 1 in
        if useOldShape then
          let (v, r) := BitFieldReader.readLongTail 0 0 r in
          let* shapeIndex :=
            validateRange (Num 0) (Num (Z.of_nat (List.length (recentShapes c)) - 1))
              (Num v) in
          match nth_error (recentShapes c) (turns shapeIndex) with
          | None => Throw TypeError
          | Some shape =>
              let shapes := unshiftCapped 10 shape (removeAt (turns shapeIndex) (recentShapes c)) in
              let* (note, c) :=
                readNote shape curPart
                  (Build_Cursor r (lastPitch c) (recentPitches c) shapes) in
              let* curPart := validateRange (Num 0) maxPart (Note.end_ note) in
              readNotes f rhythm maxPart (curPart0 curPart) (newNotes ++ [note]) c
          end
        else
          let (b, r) := BitFieldReader.read 1 r in
          let newNote := JS.eqz b 1 in
          if negb newNote then
            let* (restLength, r) := readDuration rhythm r in
            readNotes f rhythm maxPart (curPart + restLength) newNotes
              (Build_Cursor r (lastPitch c) (recentPitches c) (recentShapes c))
          else
            let* (shape, r) := readShape rhythm r in
            let shapes := unshiftCapped 10 shape (recentShapes c) in
            let* (note, c) :=
              readNote shape curPart
                (Build_Cursor r (lastPitch c) (recentPitches c) shapes) in
            let* curPart := validateRange (Num 0) maxPart (Note.end_ note) in
            readNotes f rhythm maxPart (curPart0 curPart) (newNotes ++ [note]) c
      else Ok (newNotes, c)
  end.

(** [for (i = 0; i < this.patternsPerChannel; i++)]: the patterns of one
    channel, each reset and read anew. *)
Fixpoint readPatterns (fuel : nat) (count i : nat) (neededInstrumentBits : Z)
  (rhythm maxPart : value) (patterns : list Pattern.t) (c : Cursor)
  : Result (list Pattern.t * Cursor) :=
  match count with
  | O => Ok (patterns, c)
  | S n =>
      match nth_error patterns i with
      | None => Throw TypeError
      | Some newPattern =>
          let (instrument, r) := BitFieldReader.read neededInstrumentBits (bits c) in
          let (empty, r) :=
            if beforeThree then (false, r)
            else let (b, r) := BitFieldReader.read 1 r in (JS.eqz b 0, r) in
          let c := Build_Cursor r (lastPitch c) (recentPitches c) (recentShapes c) in
          let* (newNotes, c) :=
            if empty then Ok ([], c)
            else readNotes fuel rhythm maxPart 0 [] c in
          readPatterns fuel n (S i) neededInstrumentBits rhythm maxPart
            (setAt newPattern i (Pattern.mk newNotes instrument) patterns) c
      end
  end.

(** The [while (true)] loop of the [patterns] case over the channels. *)
Fixpoint readChannels (fuel turnsLeft : nat) (neededInstrumentBits : Z)
  (channel : value) (r : BitFieldReader.t) (s : Song.t) : Result Song.t :=
  match turnsLeft with
  | O => OutOfFuel
  | S t =>
      let isNoiseChannel := getChannelIsNoise s channel in
      let* octaveOffset :=
        if isNoiseChannel then Ok (Num 0)
        else match at_ (Song.channels s) channel with
             | Some c => Ok (JS.mul (Channel.octave c) (Num 12))
             | None => Throw TypeError
             end in
      let lastPitch := JS.add (Num (if isNoiseChannel then 4 else 12)) octaveOffset in
      let recentPitches :=
        map (fun p => JS.add (Num p) octaveOffset)
          (if isNoiseChannel then [4; 6; 7; 2; 3; 8; 0; 10]
           else [12; 19; 24; 31; 36; 7; 0]) in
      let c := Build_Cursor r lastPitch recentPitches [] in
      let count := turns (Song.patternsPerChannel s) in
      let maxPart := JS.mul (Song.beatsPerBar s) (Num (partsPerBeat cfg)) in
      let* (s, c) :=
        if (count =? 0)%nat then Ok (s, c)
        else
          match at_ (Song.channels s) channel with
          | None => Throw TypeError
          | Some ch =>
              let* (patterns, c) :=
                readPatterns fuel count 0 neededInstrumentBits (Song.rhythm s) maxPart
                  (Channel.patterns ch) c in
              let* s := updChannel channel (fun ch => Ok (Channel.set_patterns patterns ch)) s in
              Ok (s, c)
          end in
      if beforeThree then Ok s
      else
        let channel := JS.add channel (Num 1) in
        if JS.ge channel (getChannelCount s) then Ok s
        else readChannels fuel t neededInstrumentBits channel (bits c) s
  end.

(** [while (n > 0) { length = length << 6; length += symbol; n--; }] *)
Fixpoint readLength (n : nat) (length : value) : M value :=
  match n with
  | O => ret length
  | S k =>
      v <- readSymbol ;;
      readLength k (JS.add (Num (JS.vshl length 6)) v)
  end.

(** [case SongTagCode.patterns] *)
Definition tag_patterns (fuel : nat) : M unit :=
  header <-
    (if beforeThree then
       channel <- readSymbol ;;
       (* The old format used the next character to represent the number of
          patterns in the channel, which is usually eight, the default. *)
       skip (Num 1) ;;;
       v <- readSymbol ;;
       w <- readSymbol ;;
       ret (channel, JS.add (Num (JS.vshl v 6)) w)
     else
       v <- readSymbol ;;
       bitStringLengthLength <- lift (validateRange (Num 1) (Num 4) v) ;;
       bitStringLength <- readLength (turns bitStringLengthLength) (Num 0) ;;
       ret (Num 0, bitStringLength)) ;;
  let (channel, bitStringLength) := header : value * value in
  start <- gets charIndex ;;
  let bits := BitFieldReader.make compressed start (JS.add start bitStringLength) in
  skip bitStringLength ;;;
  s <- gets song ;;
  neededInstrumentBits <- lift (neededBitsFor (Song.instrumentsPerChannel s)) ;;
  modifySong (readChannels fuel fuel neededInstrumentBits channel bits).

(** The body of the [switch]. *)
Definition dispatch (fuel : nat) (command : SongTagCode.t) : M unit :=
  match command with
  | SongTagCode.channelCount => tag_channelCount
  | SongTagCode.scale => tag_scale
  | SongTagCode.key => tag_key
  | SongTagCode.loopStart => tag_loopStart
  | SongTagCode.loopEnd => tag_loopEnd
  | SongTagCode.tempo => tag_tempo
  | SongTagCode.reverb => tag_reverb
  | SongTagCode.beatCount => tag_beatCount
  | SongTagCode.barCount => tag_barCount
  | SongTagCode.patternCount => tag_patternCount
  | SongTagCode.instrumentCount => tag_instrumentCount
  | SongTagCode.rhythm => tag_rhythm
  | SongTagCode.channelOctave => tag_channelOctave
  | SongTagCode.startInstrument => tag_startInstrument
  | SongTagCode.preset => tag_preset
  | SongTagCode.wave => tag_wave
  | SongTagCode.filter => tag_filter
  | SongTagCode.filterResonance => tag_filterResonance
  | SongTagCode.distortionFilter => tag_distortionFilter
  | SongTagCode.filterEnvelope => tag_filterEnvelope
  | SongTagCode.pulseWidth => tag_pulseWidth
  | SongTagCode.distortion => tag_distortion
  | SongTagCode.bitcrusher => tag_bitcrusher
  | SongTagCode.sustain => tag_sustain
  | SongTagCode.transition => tag_transition
  | SongTagCode.vibrato => tag_vibrato
  | SongTagCode.interval => tag_interval
  | SongTagCode.chord => tag_chord
  | SongTagCode.effects => tag_effects
  | SongTagCode.volume => tag_volume
  | SongTagCode.pan => tag_pan
  | SongTagCode.algorithm => tag_algorithm
  | SongTagCode.feedbackType => tag_feedbackType
  | SongTagCode.feedbackAmplitude => tag_feedbackAmplitude
  | SongTagCode.feedbackEnvelope => tag_feedbackEnvelope
  | SongTagCode.operatorFrequencies => tag_operatorFrequencies
  | SongTagCode.operatorAmplitudes => tag_operatorAmplitudes
  | SongTagCode.operatorEnvelopes => tag_operatorEnvelopes
  | SongTagCode.spectrum => tag_spectrum
  | SongTagCode.harmonics => tag_harmonics
  | SongTagCode.bars => tag_bars
  | SongTagCode.patterns => tag_patterns fuel
  end.

(** One turn of the loop's body,
    [switch (command = compressed.charCodeAt(charIndex++))]; the [default]
    case throws ["Unrecognized song tag code " + String.fromCharCode(command)
    + " at index " + (charIndex - 1)]. *)
Definition tagStep (fuel : nat) : M unit :=
  at_index <- gets charIndex ;;
  let command := JS.charCodeAt compressed at_index in
  modify (set_charIndex (JS.add at_index (Num 1))) ;;;
  match tagOfCharCode command with
  | Some tag => dispatch fuel tag
  | None =>
      index <- gets charIndex ;;
      throw (UnrecognizedTag command (JS.sub index (Num 1)))
  end.

(** [while (charIndex < compressed.length) switch ...] *)
Fixpoint tagLoop (fuel turnsLeft : nat) (d : Decoder) : Result Decoder :=
  match turnsLeft with
  | O => OutOfFuel
  | S t =>
      if JS.lt (charIndex d) (Num (JS.length compressed)) then
        let* (_, d) := tagStep fuel d in
        tagLoop fuel t d
      else Ok d
  end.

End Decode.

(** [JSON.parse] and [Song.fromJsonObject], the other form of a song: outside
    this development, a parameter of the entry point. *)
Variable fromJsonObject : string -> Song.t -> Result Song.t.

(** [while (compressed.charCodeAt(charIndex) <= CharCode.SPACE) charIndex++]:
    the index of the first character above a space, the length when there is
    none. *)
Fixpoint skipBlanks (s : string) (i : Z) : Z :=
  match s with
  | String c rest => if (nat_of_ascii c <=? 32)%nat then skipBlanks rest (i + 1) else i
  | EmptyString => i
  end.

(** [for (const channel of this.channels) channel.instruments[0].transition = 0] *)
Fixpoint seamlessChannels (channels : list Channel.t) : Result (list Channel.t) :=
  match channels with
  | [] => Ok []
  | c :: rest =>
      match Channel.instruments c with
      | [] => Throw TypeError
      | ins :: others =>
          let* rest := seamlessChannels rest in
          Ok (Channel.set_instruments (Instrument.set_transition (Num 0) ins :: others) c
                :: rest)
      end
  end.

(** The index of the version symbol: past the leading blanks and one hash
    mark. *)
Definition versionIndex (compressed : string) : Z :=
  let charIndex := skipBlanks compressed 0 in
  (* skip hash mark. *)
  if JS.eqz (JS.charCodeAt compressed (Num charIndex)) 35
  then charIndex + 1 else charIndex.

(** [version == -1 || version > Song._latestVersion
    || version < Song._oldestVersion] *)
Definition unsupported (version : value) : bool :=
  JS.eqz version (-1) || JS.gt version (Num 9) || JS.lt version (Num 2).

(** From the version test to the tag loop: the song and the locals as the
    loop finds them, [charIndex] being the index after the version symbol. *)
Definition beforeLoop (version : value) (charIndex : Z) (this : Song.t)
  : Result Decoder :=
  let beforeThree := JS.lt version (Num 3) in
  let beforeSix := JS.lt version (Num 6) in
  let beforeNine := JS.lt version (Num 9) in
  let* this := initToDefault beforeSix this in
  let* this :=
    if beforeThree then
      (* Originally, the only instrument transition was "seamless" and
         the only drum wave was "retro". *)
      let* channels := seamlessChannels (Song.channels this) in
      updInstrument (Num 3) (Num 0)
        (fun ins => Ok (Instrument.set_chipNoise (Num 0) ins))
        (Song.set_channels channels this)
    else Ok this in
  let legacyFilterSettings :=
    if beforeNine
    then growLegacy (getChannelCount this) (Song.instrumentsPerChannel this) []
    else [] in
  Ok (Build_Decoder this (Num charIndex) legacyFilterSettings (Num 0) 0 (-1)).

(** The tag loop of a string of the given version. *)
Definition tags (fuel : nat) (compressed : string) (version : value)
  (d : Decoder) : Result Decoder :=
  tagLoop compressed (JS.lt version (Num 3)) (JS.lt version (Num 4))
    (JS.lt version (Num 5)) (JS.lt version (Num 6)) (JS.lt version (Num 7))
    (JS.lt version (Num 8)) (JS.lt version (Num 9)) fuel
    (S (String.length compressed)) d.

(** [Song.fromBase64String(compressed)] on the song [this]; [compressed] is
    [None] for [null].  [fuel] bounds the turns of the loops of the [patterns]
    tag; the tag loop itself moves on by a character or more a turn. *)
Definition fromBase64String (fuel : nat) (compressed : option string)
  (this : Song.t) : Result Song.t :=
  match compressed with
  | None | Some EmptyString => initToDefault true this
  | Some compressed =>
      let charIndex := versionIndex compressed in
      (* if it starts with curly brace, treat it as JSON. *)
      if JS.eqz (JS.charCodeAt compressed (Num charIndex)) 123 then
        fromJsonObject (substring (Z.to_nat charIndex) (String.length compressed) compressed)
          this
      else
        let version :=
          JS.index base64CharCodeToInt (JS.charCodeAt compressed (Num charIndex)) in
        let charIndex := charIndex + 1 in
        if unsupported version then Ok this
        else
          let* d := beforeLoop version charIndex this in
          let* d := tags fuel compressed version d in
          Ok (song d)
  end.

End Model.

(* ================================================================== *)
(** * [Song.toBase64String] *)
(* ================================================================== *)

Section Encode.

Variable cfg : Config.

(** [base64IntToCharCode[v]] *)
Definition b64 (v : value) : value := JS.index base64IntToCharCode v.

(** [base64IntToCharCode[v >> 6], base64IntToCharCode[v & 0x3f]] *)
Definition b64pair (v : value) : list value :=
  [b64 (Num (JS.vsar v 6)); b64 (Num (JS.vand v (Num 63)))].

Definition tag (t : SongTagCode.t) : value := Num (SongTagCode.code t).

(** Collects the results of [f] on the elements of [l], in order. *)
Fixpoint gather {A B : Type} (f : A -> Result (list B)) (l : list A) : Result (list B) :=
  match l with
  | [] => Ok []
  | x :: rest =>
      let* a := f x in
      let* b := gather f rest in
      Ok (a ++ b)
  end.

Definition range (bound : value) : list Z := map Z.of_nat (seq 0 (turns bound)).

(** The payload of [filter] and [distortionFilter]. *)
Definition encodeFilter (t : SongTagCode.t) (f : FilterSettings.t) : Result (list value) :=
  let* points :=
    gather (fun j =>
      match at_ (FilterSettings.controlPoints f) (Num j) with
      | Some point =>
          Ok [b64 (FilterControlPoint.type point); b64 (FilterControlPoint.freq point);
              b64 (FilterControlPoint.gain point)]
      | None => Throw TypeError
      end) (range (FilterSettings.controlPointCount f)) in
  Ok (tag t :: b64 (FilterSettings.controlPointCount f) :: points).

(** [for (o = 0; o < Config.operatorCount; o++)
      buffer.push(base64IntToCharCode[instrument.operators[o].field])] *)
Definition encodeOperators (field : Operator.t -> value) (ins : Instrument.t)
  : Result (list value) :=
  gather (fun o =>
    match at_ (Instrument.operators ins) (Num o) with
    | Some op => Ok [b64 (field op)]
    | None => Throw TypeError
    end) (range (Num (operatorCount cfg))).

(** [for (i = 0; i < n; i++) bits.write(bitCount, a[i])] *)
Definition writeFields (bitCount : Z) (n : Z) (a : list value) (w : BitFieldWriter.t)
  : BitFieldWriter.t :=
  fold_left (fun w i => BitFieldWriter.write bitCount (nth i a Undefined) w)
    (seq 0 (Z.to_nat n)) w.

(** The spectra of a drumset, one drum after the other. *)
Fixpoint writeDrumSpectra (count j : nat) (waves : list (list value))
  (w : BitFieldWriter.t) : Result BitFieldWriter.t :=
  match count with
  | O => Ok w
  | S n =>
      match nth_error waves j with
      | Some wave =>
          writeDrumSpectra n (S j) waves
            (writeFields (spectrumControlPointBits cfg) (spectrumControlPoints cfg) wave w)
      | None =>
          if 0 <? spectrumControlPoints cfg then Throw TypeError
          else writeDrumSpectra n (S j) waves w
      end
  end.

(** The tags of one instrument. *)
Definition encodeInstrument (ins : Instrument.t) : Result (list value) :=
  let type := Instrument.type ins in
  let effects := Instrument.effects ins in
  let head :=
    [tag SongTagCode.startInstrument; b64 type;
     tag SongTagCode.volume; b64 (Instrument.volume ins)]
    ++ tag SongTagCode.preset :: b64pair (Instrument.preset ins)
    ++ tag SongTagCode.effects :: b64pair effects in
  let* filter := encodeFilter SongTagCode.filter (Instrument.filter ins) in
  let* distortion :=
    if effectsInclude (EffectType_distortion cfg) effects then
      let* f := encodeFilter SongTagCode.distortionFilter (Instrument.distortionFilter ins) in
      Ok ([tag SongTagCode.distortion; b64 (Instrument.distortion ins)] ++ f)
    else Ok [] in
  let bitcrusher :=
    if effectsInclude (EffectType_bitcrusher cfg) effects
    then [tag SongTagCode.bitcrusher; b64 (Instrument.bitcrusherFreq ins);
          b64 (Instrument.bitcrusherQuantization ins)]
    else [] in
  let pan :=
    if effectsInclude (EffectType_panning cfg) effects
    then [tag SongTagCode.pan; b64 (Instrument.pan ins)] else [] in
  let reverb :=
    if effectsInclude (EffectType_reverb cfg) effects
    then [tag SongTagCode.reverb; b64 (Instrument.reverb ins)] else [] in
  let common :=
    if negb (JS.eqz type (InstrumentType_drumset cfg))
    then [tag SongTagCode.transition; b64 (Instrument.transition ins);
          tag SongTagCode.filterEnvelope; b64 (Instrument.filterEnvelope ins);
          tag SongTagCode.chord; b64 (Instrument.chord ins)]
    else [] in
  let* specific :=
    if JS.eqz type (InstrumentType_chip cfg) then
      Ok [tag SongTagCode.wave; b64 (Instrument.chipWave ins);
          tag SongTagCode.vibrato; b64 (Instrument.vibrato ins);
          tag SongTagCode.interval; b64 (Instrument.interval ins)]
    else if JS.eqz type (InstrumentType_fm cfg) then
      let* frequencies := encodeOperators Operator.frequency ins in
      let* amplitudes := encodeOperators Operator.amplitude ins in
      let* envelopes := encodeOperators Operator.envelope ins in
      Ok ([tag SongTagCode.vibrato; b64 (Instrument.vibrato ins);
           tag SongTagCode.algorithm; b64 (Instrument.algorithm ins);
           tag SongTagCode.feedbackType; b64 (Instrument.feedbackType ins);
           tag SongTagCode.feedbackAmplitude; b64 (Instrument.feedbackAmplitude ins);
           tag SongTagCode.feedbackEnvelope; b64 (Instrument.feedbackEnvelope ins)]
          ++ tag SongTagCode.operatorFrequencies :: frequencies
          ++ tag SongTagCode.operatorAmplitudes :: amplitudes
          ++ tag SongTagCode.operatorEnvelopes :: envelopes)
    else if JS.eqz type (InstrumentType_noise cfg) then
      Ok [tag SongTagCode.wave; b64 (Instrument.chipNoise ins)]
    else if JS.eqz type (InstrumentType_spectrum cfg) then
      let spectrumBits :=
        writeFields (spectrumControlPointBits cfg) (spectrumControlPoints cfg)
          (Instrument.spectrumWave ins) BitFieldWriter.empty in
      Ok (BitFieldWriter.encodeBase64 [tag SongTagCode.spectrum] spectrumBits)
    else if JS.eqz type (InstrumentType_drumset cfg) then
      let envelopes :=
        map (fun j => b64 (nth j (Instrument.drumsetEnvelopes ins) Undefined))
          (seq 0 (Z.to_nat (drumCount cfg))) in
      let* spectrumBits :=
        writeDrumSpectra (Z.to_nat (drumCount cfg)) 0
          (Instrument.drumsetSpectrumWaves ins) BitFieldWriter.empty in
      Ok (BitFieldWriter.encodeBase64
            (tag SongTagCode.filterEnvelope :: envelopes ++ [tag SongTagCode.spectrum])
            spectrumBits)
    else if JS.eqz type (InstrumentType_harmonics cfg) then
      let harmonicsBits :=
        writeFields (harmonicsControlPointBits cfg) (harmonicsControlPoints cfg)
          (Instrument.harmonicsWave ins) BitFieldWriter.empty in
      Ok (BitFieldWriter.encodeBase64
            [tag SongTagCode.vibrato; b64 (Instrument.vibrato ins);
             tag SongTagCode.interval; b64 (Instrument.interval ins);
             tag SongTagCode.harmonics] harmonicsBits)
    else if JS.eqz type (InstrumentType_pwm cfg) then
      (* TODO: The envelope should be saved separately. *)
      Ok [tag SongTagCode.vibrato; b64 (Instrument.vibrato ins);
          tag SongTagCode.pulseWidth; b64 (Instrument.pulseWidth ins);
          b64 (Instrument.pulseEnvelope ins)]
    else if JS.eqz type (InstrumentType_guitar cfg) then
      Ok [tag SongTagCode.pulseWidth; b64 (Instrument.pulseWidth ins);
          tag SongTagCode.vibrato; b64 (Instrument.vibrato ins);
          tag SongTagCode.sustain; b64 (Instrument.sustain ins)]
    else Throw UnknownInstrumentType in
  Ok (head ++ filter ++ distortion ++ bitcrusher ++ pan ++ reverb ++ common ++ specific).

(** What the encoding of one channel's patterns threads along.  [shapeBits]
    is one writer that [clear] rewinds for every note, keeping its array. *)
Record EncodeCursor : Type := {
  e_bits : BitFieldWriter.t;
  e_shapeBits : BitFieldWriter.t;
  e_lastPitch : value;
  e_recentPitches : list value;
  e_recentShapes : list string
}.

(** [a.indexOf(x)] *)
Fixpoint indexOf {A : Type} (eq : A -> A -> bool) (l : list A) (x : A) : option nat :=
  match l with
  | [] => None
  | y :: rest =>
      if eq y x then Some 0%nat
      else match indexOf eq rest x with Some i => Some (S i) | None => None end
  end.

(** The interval from [lastPitch] to [pitch]: the pitches passed on the way
    that are not recent ones, counted with the sign of the direction.  The
    source walks [pitchIter] to [pitch] by steps of one and never arrives
    when one of the two is not a number. *)
Definition pitchInterval (recent : list value) (lastPitch pitch : value) : Result Z :=
  match lastPitch, pitch with
  | Num a, Num b =>
      if a <? b then
        Ok (Z.of_nat (List.length
              (List.filter (fun p => negb (includes recent (Num p)))
                 (map (fun k => a + 1 + Z.of_nat k) (seq 0 (Z.to_nat (b - a)))))))
      else
        Ok (- Z.of_nat (List.length
                (List.filter (fun p => negb (includes recent (Num p)))
                   (map (fun k => a - 1 - Z.of_nat k) (seq 0 (Z.to_nat (a - b)))))))
  | Undefined, Undefined => Ok 0
  | _, _ => OutOfFuel
  end.

(** One pitch of [allPitches]. *)
Definition encodePitch (fuel : nat) (pitch : value) (c : EncodeCursor)
  : Result EncodeCursor :=
  let recent := e_recentPitches c in
  let* (bits, recent) :=
    match indexOf strictEq recent pitch with
    | None =>
        let* interval := pitchInterval recent (e_lastPitch c) pitch in
        let* bits :=
          BitFieldWriter.writePitchInterval fuel (Num interval)
            (BitFieldWriter.write 1 (Num 0) (e_bits c)) in
        Ok (bits, recent)
    | Some pitchIndex =>
        Ok (BitFieldWriter.write 3 (Num (Z.of_nat pitchIndex))
              (BitFieldWriter.write 1 (Num 1) (e_bits c)),
            removeAt pitchIndex recent)
    end in
  Ok (Build_EncodeCursor bits (e_shapeBits c) (e_lastPitch c)
        (unshiftCapped 8 pitch recent) (e_recentShapes c)).

(** [for (i = 0; i < allPitches.length; i++)] *)
Fixpoint encodePitches (fuel : nat) (allPitches : list value) (i : Z)
  (pitchesLength : Z) (firstPitch : value) (c : EncodeCursor) : Result EncodeCursor :=
  match allPitches with
  | [] => Ok c
  | pitch :: rest =>
      let* c := encodePitch fuel pitch c in
      let last := if i =? pitchesLength - 1 then firstPitch else pitch in
      encodePitches fuel rest (i + 1) pitchesLength firstPitch
        (Build_EncodeCursor (e_bits c) (e_shapeBits c) last (e_recentPitches c)
           (e_recentShapes c))
  end.

(** [for (i = 1; i < note.pins.length; i++)]: the pins after the first,
    written to [shapeBits]; returns the pitch bends met. *)
Fixpoint encodePins (fuel : nat) (pins : list NotePin.t)
  (startPitch currentPitch shapePart : value) (pitchBends : list value)
  (shapeBits : BitFieldWriter.t) : Result (list value * BitFieldWriter.t) :=
  match pins with
  | [] => Ok (pitchBends, shapeBits)
  | pin :: rest =>
      let nextPitch := JS.add startPitch (NotePin.interval pin) in
      (* [currentPitch != nextPitch] *)
      let bend := negb (strictEq currentPitch nextPitch) in
      let shapeBits := BitFieldWriter.write 1 (Num (if bend then 1 else 0)) shapeBits in
      let* shapeBits :=
        BitFieldWriter.writePartDuration fuel (JS.sub (NotePin.time pin) shapePart)
          shapeBits in
      let shapeBits := BitFieldWriter.write 2 (NotePin.expression pin) shapeBits in
      encodePins fuel rest startPitch (if bend then nextPitch else currentPitch)
        (NotePin.time pin) (if bend then pitchBends ++ [nextPitch] else pitchBends)
        shapeBits
  end.

(** One note of a pattern; [curPart] is where the previous one ended. *)
Definition encodeNote (fuel : nat) (note : Note.t) (curPart : value)
  (c : EncodeCursor) : Result EncodeCursor :=
  let* bits :=
    if JS.gt (Note.start note) curPart then
      (* rest *)
      BitFieldWriter.writePartDuration fuel (JS.sub (Note.start note) curPart)
        (BitFieldWriter.write 2 (Num 0) (e_bits c))
    else Ok (e_bits c) in
  let shapeBits := BitFieldWriter.clear (e_shapeBits c) in
  let pitchesLength := Z.of_nat (List.length (Note.pitches note)) in
  (* 0: 1 pitch, 10: 2 pitches, 110: 3 pitches, 111: 4 pitches *)
  let shapeBits :=
    fold_left (fun w _ => BitFieldWriter.write 1 (Num 1) w)
      (seq 1 (List.length (Note.pitches note) - 1)) shapeBits in
  let shapeBits :=
    if pitchesLength <? maxChordSize cfg
    then BitFieldWriter.write 1 (Num 0) shapeBits else shapeBits in
  let* shapeBits :=
    BitFieldWriter.writePinCount fuel
      (Num (Z.of_nat (List.length (Note.pins note)) - 1)) shapeBits in
  match Note.pins note with
  | [] => Throw TypeError
  | pin0 :: pins =>
      let shapeBits := BitFieldWriter.write 2 (NotePin.expression pin0) shapeBits in
      let startPitch := nth 0 (Note.pitches note) Undefined in
      let* (pitchBends, shapeBits) :=
        encodePins fuel pins startPitch startPitch (Num 0) [] shapeBits in
      let shapeString := fromCharCodes (BitFieldWriter.encodeBase64 [] shapeBits) in
      let* (bits, shapes) :=
        match indexOf String.eqb (e_recentShapes c) shapeString with
        | None =>
            (* new shape *)
            Ok (BitFieldWriter.concat shapeBits (BitFieldWriter.write 2 (Num 1) bits),
                e_recentShapes c)
        | Some shapeIndex =>
            (* old shape *)
            let* bits :=
              BitFieldWriter.writeLongTail fuel 0 0 (Num (Z.of_nat shapeIndex))
                (BitFieldWriter.write 1 (Num 1) bits) in
            Ok (bits, removeAt shapeIndex (e_recentShapes c))
        end in
      let shapes := unshiftCapped 10 shapeString shapes in
      encodePitches fuel (Note.pitches note ++ pitchBends) 0 pitchesLength startPitch
        (Build_EncodeCursor bits shapeBits (e_lastPitch c) (e_recentPitches c) shapes)
  end.

(** [for (const note of pattern.notes)] *)
Fixpoint encodeNotes (fuel : nat) (notes : list Note.t) (curPart : value)
  (c : EncodeCursor) : Result (value * EncodeCursor) :=
  match notes with
  | [] => Ok (curPart, c)
  | note :: rest =>
      let* c := encodeNote fuel note curPart c in
      encodeNotes fuel rest (Note.end_ note) c
  end.

(** One pattern of a channel. *)
Definition encodePattern (fuel : nat) (neededInstrumentBits : Z) (maxPart : value)
  (pattern : Pattern.t) (c : EncodeCursor) : Result EncodeCursor :=
  let bits := BitFieldWriter.write neededInstrumentBits (Pattern.instrument pattern) (e_bits c) in
  match Pattern.notes pattern with
  | [] =>
      Ok (Build_EncodeCursor (BitFieldWriter.write 1 (Num 0) bits) (e_shapeBits c)
            (e_lastPitch c) (e_recentPitches c) (e_recentShapes c))
  | notes =>
      let bits := BitFieldWriter.write 1 (Num 1) bits in
      let* (curPart, c) :=
        encodeNotes fuel notes (Num 0)
          (Build_EncodeCursor bits (e_shapeBits c) (e_lastPitch c) (e_recentPitches c)
             (e_recentShapes c)) in
      if JS.lt curPart maxPart then
        (* rest *)
        let* bits :=
          BitFieldWriter.writePartDuration fuel (JS.sub maxPart curPart)
            (BitFieldWriter.write 2 (Num 0) (e_bits c)) in
        Ok (Build_EncodeCursor bits (e_shapeBits c) (e_lastPitch c) (e_recentPitches c)
              (e_recentShapes c))
      else Ok c
  end.

Fixpoint encodePatterns (fuel : nat) (neededInstrumentBits : Z) (maxPart : value)
  (patterns : list Pattern.t) (c : EncodeCursor) : Result EncodeCursor :=
  match patterns with
  | [] => Ok c
  | pattern :: rest =>
      let* c := encodePattern fuel neededInstrumentBits maxPart pattern c in
      encodePatterns fuel neededInstrumentBits maxPart rest c
  end.

(** The loop over the channels that writes the patterns. *)
Fixpoint encodeChannels (fuel : nat) (neededInstrumentBits : Z) (song : Song.t)
  (channels : list Z) (bits shapeBits : BitFieldWriter.t) : Result BitFieldWriter.t :=
  match channels with
  | [] => Ok bits
  | channel :: rest =>
      let isNoiseChannel := getChannelIsNoise song (Num channel) in
      match at_ (Song.channels song) (Num channel) with
      | None => Throw TypeError
      | Some ch =>
          let octaveOffset :=
            if isNoiseChannel then Num 0 else JS.mul (Channel.octave ch) (Num 12) in
          let lastPitch := JS.add (Num (if isNoiseChannel then 4 else 12)) octaveOffset in
          let recentPitches :=
            map (fun p => JS.add (Num p) octaveOffset)
              (if isNoiseChannel then [4; 6; 7; 2; 3; 8; 0; 10]
               else [12; 19; 24; 31; 36; 7; 0]) in
          let* c :=
            encodePatterns fuel neededInstrumentBits
              (JS.mul (Song.beatsPerBar song) (Num (partsPerBeat cfg)))
              (Channel.patterns ch)
              (Build_EncodeCursor bits shapeBits lastPitch recentPitches []) in
          encodeChannels fuel neededInstrumentBits song rest (e_bits c) (e_shapeBits c)
      end
  end.

(** [while (stringLength > 0) { digits.unshift(base64IntToCharCode[stringLength
    & 0x3f]); stringLength = stringLength >> 6; }]; a length below 2^31 has at
    most six digits. *)
Fixpoint lengthDigits (fuel : nat) (stringLength : Z) (digits : list value) : list value :=
  match fuel with
  | O => digits
  | S f =>
      if 0 <? stringLength
      then lengthDigits f (JS.sar stringLength 6)
             (b64 (Num (Z.land (JS.wrap32 stringLength) 63)) :: digits)
      else digits
  end.

(** [Song.toBase64String()]; [fuel] bounds the turns of the loops of
    [writeLongTail]. *)
Definition toBase64String (fuel : nat) (song : Song.t) : Result string :=
  let channelCount := getChannelCount song in
  let head :=
    [b64 (Num 9);
     tag SongTagCode.channelCount; b64 (Song.pitchChannelCount song);
     b64 (Song.noiseChannelCount song);
     tag SongTagCode.scale; b64 (Song.scale song);
     tag SongTagCode.key; b64 (Song.key song)]
    ++ tag SongTagCode.loopStart :: b64pair (Song.loopStart song)
    ++ tag SongTagCode.loopEnd :: b64pair (JS.sub (Song.loopLength song) (Num 1))
    ++ tag SongTagCode.tempo :: b64pair (Song.tempo song)
    ++ [tag SongTagCode.beatCount; b64 (JS.sub (Song.beatsPerBar song) (Num 1))]
    ++ tag SongTagCode.barCount :: b64pair (JS.sub (Song.barCount song) (Num 1))
    ++ tag SongTagCode.patternCount
         :: b64pair (JS.sub (Song.patternsPerChannel song) (Num 1))
    ++ [tag SongTagCode.instrumentCount;
        b64 (JS.sub (Song.instrumentsPerChannel song) (Num 1));
        tag SongTagCode.rhythm; b64 (Song.rhythm song);
        tag SongTagCode.channelOctave] in
  let* octaves :=
    gather (fun channel =>
      match at_ (Song.channels song) (Num channel) with
      | Some ch => Ok [b64 (Channel.octave ch)]
      | None => Throw TypeError
      end) (range channelCount) in
  let* instruments :=
    gather (fun channel =>
      gather (fun i =>
        match at_ (Song.channels song) (Num channel) with
        | None => Throw TypeError
        | Some ch =>
            match at_ (Channel.instruments ch) (Num i) with
            | None => Throw TypeError
            | Some ins => encodeInstrument ins
            end
        end) (range (Song.instrumentsPerChannel song))) (range channelCount) in
  (* bars *)
  let* neededBits := neededBitsFor (JS.add (Song.patternsPerChannel song) (Num 1)) in
  let* bits :=
    fold_left
      (fun w channel =>
         let* w := w in
         if (turns (Song.barCount song) =? 0)%nat then Ok w
         else match at_ (Song.channels song) (Num channel) with
              | None => Throw TypeError
              | Some ch =>
                  Ok (writeFields neededBits (Z.of_nat (turns (Song.barCount song)))
                        (Channel.bars ch) w)
              end)
      (range channelCount) (Ok BitFieldWriter.empty) in
  let bars := BitFieldWriter.encodeBase64 [tag SongTagCode.bars] bits in
  (* patterns *)
  let* neededInstrumentBits := neededBitsFor (Song.instrumentsPerChannel song) in
  let* bits :=
    encodeChannels fuel neededInstrumentBits song (range channelCount)
      BitFieldWriter.empty BitFieldWriter.empty in
  let digits := lengthDigits 6 (Z.of_nat (BitFieldWriter.lengthBase64 bits)) [] in
  let patterns :=
    BitFieldWriter.encodeBase64
      (tag SongTagCode.patterns :: b64 (Num (Z.of_nat (List.length digits))) :: digits)
      bits in
  Ok (fromCharCodes (head ++ octaves ++ instruments ++ bars ++ patterns)).

End Encode.

(* ================================================================== *)
(** * A configuration to run the model on *)
(* ================================================================== *)

(** [SynthConfig] is not among the sources.  The general theorems below hold
    for every configuration; to evaluate the model on examples, and to
    discharge the hypotheses of a theorem at a concrete input, this is the
    configuration BeepBox shipped with around the time of this [synth.ts]
    (enumerations numbered in declaration order). *)
Definition referenceEnvelopes : list Envelope.t :=
  [ Envelope.mk custom 0; Envelope.mk steady 0; Envelope.mk punch 0;
    Envelope.mk flare 32; Envelope.mk flare 8; Envelope.mk flare 2;
    Envelope.mk twang 32; Envelope.mk twang 8; Envelope.mk twang 2;
    Envelope.mk swell 32; Envelope.mk swell 8; Envelope.mk swell 2;
    Envelope.mk tremolo 4; Envelope.mk tremolo 2; Envelope.mk tremolo 1;
    Envelope.mk tremolo2 4; Envelope.mk tremolo2 2; Envelope.mk tremolo2 1;
    Envelope.mk decay 10; Envelope.mk decay 7; Envelope.mk decay 4 ]%R.

Definition referenceConfig : Config := {|
  InstrumentType_chip := 0;
  InstrumentType_fm := 1;
  InstrumentType_noise := 2;
  InstrumentType_spectrum := 3;
  InstrumentType_drumset := 4;
  InstrumentType_harmonics := 5;
  InstrumentType_pwm := 6;
  InstrumentType_guitar := 7;
  InstrumentType_length := 8;
  EffectType_reverb := 0;
  EffectType_chorus := 1;
  EffectType_panning := 2;
  EffectType_distortion := 3;
  EffectType_bitcrusher := 4;
  EffectType_length := 5;
  FilterType_lowPass := 0;
  FilterType_highPass := 1;
  FilterType_peak := 2;
  FilterType_length := 3;
  keys_length := 12;
  tempoMin := 30;
  tempoMax := 300;
  beatsPerBarMin := 3;
  beatsPerBarMax := 16;
  barCountMin := 1;
  barCountMax := 128;
  instrumentsPerChannelMin := 1;
  instrumentsPerChannelMax := 10;
  pitchChannelCountMin := 1;
  pitchChannelCountMax := 6;
  noiseChannelCountMin := 0;
  noiseChannelCountMax := 3;
  scrollableOctaves := 4;
  partsPerBeat := 24;
  rhythms_stepsPerBeat := [3; 4; 6; 8; 24];
  maxChordSize := 4;
  volumeRange := 8;
  panCenter := 4;
  panMax := 8;
  reverbRange := 4;
  distortionRange := 8;
  bitcrusherFreqRange := 14;
  bitcrusherQuantizationRange := 8;
  sustainRange := 15;
  pulseWidthRange := 8;
  filterFreqRange := 34;
  filterGainRange := 15;
  filterGainCenter := 7;
  filterMaxPoints := 8;
  chipWaves_length := 9;
  chipNoises_length := 5;
  transitions_length := 8;
  transitions_hard_index := 1;
  vibratos_length := 5;
  intervals_length := 9;
  chords_length := 4;
  envelopes := referenceEnvelopes;
  envelopes_steady_index := 1;
  envelopes_twang2_index := 7;
  algorithms_length := 13;
  feedbacks_length := 18;
  operatorCount := 4;
  operatorAmplitudeMax := 15;
  operatorFrequencies_length := 15;
  drumCount := 12;
  spectrumControlPoints := 30;
  spectrumControlPointBits := 3;
  spectrumMax := 7;
  harmonicsControlPoints := 28;
  harmonicsControlPointBits := 3;
  harmonicsMax := 7
|}.

(** The platform's functions are left coarse: no example below rests on what
    they return. *)
Definition coarseNumerics : Numerics := {|
  Math_pow := fun _ _ => nan;
  Math_log2 := fun _ => nan;
  Math_asin := fun _ => nan;
  lowPass1stOrderSimplified_magnitude := fun _ _ => nan;
  lowPass2ndOrderSimplified_magnitude := fun _ _ _ => nan;
  filterFreqMaxHz := 0x1.294a5ecp+14;
  filterFreqStep := 0.25;
  filterGainStep := 0.5
|}.

(** The JSON form is not modelled: the stand-in returns the song as it is. *)
Definition noJson (s : string) (song : Song.t) : Result Song.t := Ok song.

(** [new Song()], [new Song(string)] *)
Definition defaultSong : Result Song.t :=
  initToDefault referenceConfig true Song_blank.

Definition newSong (fuel : nat) (compressed : string) : Result Song.t :=
  fromBase64String referenceConfig coarseNumerics noJson fuel (Some compressed) Song_blank.

(* ================================================================== *)
(** * The master limiter of [Synth.synthesize] *)
(* ================================================================== *)

Module Limiter.

Local Open Scope float_scope.

(** [const epsilon: number = (1.0e-24)] *)
Definition epsilon : float := 1.0e-24.

(** Storing a double into a [Float32Array] rounds it to single precision. *)
Definition fround (f : float) : float :=
  match Prim2SF f with
  | S754_finite s m e => SF2Prim (binary_round 24 128 s m e)
  | _ => f
  end.

(** [a[i] = x] on a typed array: its length is fixed, a store past the end
    is dropped. *)
Fixpoint store (i : nat) (x : float) (a : list float) : list float :=
  match a, i with
  | [], _ => []
  | _ :: rest, O => fround x :: rest
  | y :: rest, S k => y :: store k x rest
  end.

(** [a[i]] as an operand: [undefined] past the end, [NaN] in arithmetic. *)
Definition load (i : nat) (a : list float) : float := nth i a nan.

(** The locals and arrays the post-processing loop updates. *)
Record Run : Type := {
  limit : float;
  outputDataL : list float;
  outputDataR : list float
}.

(** One turn of [for (let i = bufferIndex; i < runEnd; i++)]. *)
Definition turn (volume limitRise limitDecay : float) (r : Run) (i : nat) : Run :=
  let sampleL := load i (outputDataL r) in
  let sampleR := load i (outputDataR r) in
  let abs := Double.Math_max (PrimFloat.abs sampleL) (PrimFloat.abs sampleR) in
  let limit :=
    limit r + (abs - limit r)
              * (if limit r <? abs then limitRise else limitDecay * (1 + limit r)) in
  let limitedVolume :=
    volume / (if 1 <=? limit then limit * 1.05 else limit * 0.8 + 0.25) in
  {| limit := limit;
     outputDataL := store i (sampleL * limitedVolume) (outputDataL r);
     outputDataR := store i (sampleR * limitedVolume) (outputDataR r) |}.

(** The post-processing loop of one run: [runEnd = bufferIndex + runLength]. *)
Definition postProcess (volume limitRise limitDecay : float)
  (bufferIndex runLength : nat) (r : Run) : Run :=
  fold_left (turn volume limitRise limitDecay) (seq bufferIndex runLength) r.

(** [Number.isFinite] *)
Definition isFinite (f : float) : bool := negb (is_nan f || is_infinity f).

(** [if (!Number.isFinite(limit) || Math.abs(limit) < epsilon) limit = 0.0;]
    the value then stored in [this.limit]. *)
Definition sanitize (limit : float) : float :=
  if negb (isFinite limit) || (PrimFloat.abs limit <? epsilon) then 0 else limit.

(** The law as the specification words it, on the samples of a run in
    order: the greater of the two magnitudes, the follower's update, the gain
    it gives, and the scaled pair.  [peak] is written with the comparison of
    doubles alone, not with the model of [Math.max]. *)
Definition peak (l r : float) : float :=
  if is_nan l || is_nan r then nan
  else if PrimFloat.abs l <? PrimFloat.abs r then PrimFloat.abs r else PrimFloat.abs l.

Definition follow (limitRise limitDecay : float) (limit abs : float) : float :=
  limit + (abs - limit) * (if limit <? abs then limitRise else limitDecay * (1 + limit)).

Definition gain (volume limit : float) : float :=
  if 1 <=? limit then volume / (limit * 1.05) else volume / (limit * 0.8 + 0.25).

Fixpoint law (volume limitRise limitDecay : float) (limit : float)
  (samples : list (float * float)) : float * list (float * float) :=
  match samples with
  | [] => (limit, [])
  | (l, r) :: rest =>
      let abs := peak l r in
      let limit := follow limitRise limitDecay limit abs in
      let g := gain volume limit in
      let (final, out) := law volume limitRise limitDecay limit rest in
      (final, (fround (l * g), fround (r * g)) :: out)
  end.

End Limiter.

(* ================================================================== *)
(** * [Synth.computeEnvelope] *)
(* ================================================================== *)

Module Synth.

Local Open Scope R_scope.

(** [Synth.computeEnvelope(envelope, time, beats, noteExpression)], with the
    real numbers standing for the doubles. *)
Definition computeEnvelope (envelope : Envelope.t) (time beats noteExpression : R) : R :=
  match Envelope.type envelope with
  | custom => noteExpression
  | steady => 1
  | twang => 1 / (1 + time * Envelope.speed envelope)
  | swell => 1 - 1 / (1 + time * Envelope.speed envelope)
  | tremolo => 0.5 - cos (beats * 2 * PI * Envelope.speed envelope) * 0.5
  | tremolo2 => 0.75 - cos (beats * 2 * PI * Envelope.speed envelope) * 0.25
  | punch => Rmax 1 (2 - time * 10)
  | flare =>
      let speed := Envelope.speed envelope in
      let attack := 0.25 / sqrt speed in
      if Rlt_dec time attack then time / attack
      else 1 / (1 + (time - attack) * speed)
  | decay => Rpower 2 (- Envelope.speed envelope * time)
  end.

End Synth.

(* ================================================================== *)
(** * Notions the theorems are stated with *)
(* ================================================================== *)

(** The bits of [v] from position [k - 1] down to 0. *)
Fixpoint msbBits (k : nat) (v : Z) : list bool :=
  match k with
  | O => []
  | S k' => Z.testbit v (Z.of_nat k') :: msbBits k' v
  end.

(** A writer whose array ends at its index, as one that was never cleared. *)
Definition tight (w : BitFieldWriter.t) : Prop :=
  BitFieldWriter._index w = List.length (BitFieldWriter._bits w).

(** The reader built over the base64 symbols the writer emits. *)
Definition readerOf (w : BitFieldWriter.t) : BitFieldReader.t :=
  BitFieldReader.make (fromCharCodes (BitFieldWriter.encodeBase64 [] w))
    (Num 0) (Num (Z.of_nat (BitFieldWriter.lengthBase64 w))).

(** The character code read back from a code the encoder pushed. *)
Definition codeOfChar (c : value) : Z :=
  Z.of_nat (nat_of_ascii (ascii_of_nat (Z.to_nat (match c with Num z => z | _ => 0 end)))).


(** The envelope types that decay. *)
Definition envDecays (t : EnvelopeType) : bool :=
  match t with flare | twang | decay | custom => true | _ => false end.



Section Turns.

Variable cfg : Config.
Variable num : Numerics.
Variable compressed : string.
Variable version : value.
Variable fuel : nat.

(** One completed turn of the tag loop of a string of the given version:
    the loop's test holds and the body returns. *)
Definition turnOf (d d' : Decoder) : Prop :=
  JS.lt (charIndex d) (Num (JS.length compressed)) = true
  /\ tagStep cfg num compressed (JS.lt version (Num 3)) (JS.lt version (Num 4))
       (JS.lt version (Num 5)) (JS.lt version (Num 6)) (JS.lt version (Num 7))
       (JS.lt version (Num 8)) (JS.lt version (Num 9)) fuel d = Ok (tt, d').

(** [d'] is the decoder after [n] completed turns from [d]. *)
Inductive afterTurns : nat -> Decoder -> Decoder -> Prop :=
  | afterTurns_none (d : Decoder) : afterTurns 0 d d
  | afterTurns_more (n : nat) (d d1 d' : Decoder) :
      turnOf d d1 -> afterTurns n d1 d' -> afterTurns (S n) d d'.

End Turns.

(** ** The invariants of a decoded note *)

(** Numbers in strictly increasing order. *)
Fixpoint strictlyIncreasing (times : list value) : bool :=
  match times with
  | a :: (b :: _) as rest => JS.lt a b && strictlyIncreasing rest
  | _ => true
  end.

(** The first pin has time 0 and interval 0, the last pin's time is
    [end - start], the pins' times increase strictly, there are at most
    [maxChordSize] pitches, and [end > start]. *)
Definition noteOk (cfg : Config) (note : Note.t) : bool :=
  match Note.pins note with
  | [] => false
  | first :: _ =>
      strictEq (NotePin.time first) (Num 0) && strictEq (NotePin.interval first) (Num 0)
  end
  && strictEq (NotePin.time (last (Note.pins note) (NotePin.mk Undefined Undefined Undefined)))
       (JS.sub (Note.end_ note) (Note.start note))
  && strictlyIncreasing (map NotePin.time (Note.pins note))
  && (Z.of_nat (List.length (Note.pitches note)) <=? maxChordSize cfg)
  && JS.gt (Note.end_ note) (Note.start note).

Definition patternOk (cfg : Config) (p : Pattern.t) : bool :=
  forallb (noteOk cfg) (Pattern.notes p).

Definition channelOk (cfg : Config) (c : Channel.t) : bool :=
  forallb (patternOk cfg) (Channel.patterns c).

(** Every note of every pattern of every channel of the song. *)
Definition songOk (cfg : Config) (s : Song.t) : bool :=
  forallb (channelOk cfg) (Song.channels s).

(** The string starts with [n] characters ['_'], and has four of them in a
    row somewhere; ['_'] is the symbol of six one-bits. *)
Fixpoint underscores (n : nat) (s : string) : bool :=
  match n with
  | O => true
  | S k =>
      match s with
      | String c rest => Ascii.eqb c "_" && underscores k rest
      | EmptyString => false
      end
  end.

Fixpoint fourUnderscores (s : string) : bool :=
  underscores 4 s
  || match s with
     | String _ rest => fourUnderscores rest
     | EmptyString => false
     end.

(** Every [stepsPerBeat] is positive and divides [Config.partsPerBeat], which
    makes the part durations of the versions before 7 integers. *)
Definition rhythmsOk (cfg : Config) : bool :=
  (0 <? partsPerBeat cfg)
  && forallb (fun stepsPerBeat =>
                (0 <? stepsPerBeat) && (partsPerBeat cfg mod stepsPerBeat =? 0))
       (rhythms_stepsPerBeat cfg).

(** From every position of the bits on, one of the next 29 bits is not set
    (bits past the end are not). *)
Definition runFree (bits : list bool) : Prop :=
  forall i : nat, exists k : nat, (k <= 28)%nat /\ nth (i + k) bits false = false.

(** The pins of a shape rise strictly from [t] and end at [final]. *)
Fixpoint risingFrom (t : Z) (pins : list ShapePin) (final : Z) : Prop :=
  match pins with
  | [] => t = final
  | p :: rest => t < pin_time p /\ risingFrom (pin_time p) rest final
  end.

(** A shape as an intact bit stream gives it: a pin or more, times that rise
    from 0 to the length, from 1 to [maxChordSize] pitches. *)
Definition shapeOk (cfg : Config) (shape : Shape) : Prop :=
  shape_pins shape <> []
  /\ risingFrom 0 (shape_pins shape) (shape_length shape)
  /\ 1 <= pitchCount shape <= maxChordSize cfg
  /\ 0 <= bendCount shape.

(** The cursor reads the bits [bits0] and its recent shapes are intact. *)
Definition cursorOk (cfg : Config) (bits0 : list bool) (c : Cursor) : Prop :=
  BitFieldReader._bits (bits c) = bits0 /\ Forall (shapeOk cfg) (recentShapes c).

(** ** What keeps the notes of the song valid: steps of the decoder, updates
    of the song and of a channel *)

Definition keeps (cfg : Config) {A : Type} (m : M A) : Prop :=
  forall d a d', songOk cfg (song d) = true -> m d = Ok (a, d') ->
                 songOk cfg (song d') = true.

Definition sKeeps (cfg : Config) (f : Song.t -> Result Song.t) : Prop :=
  forall s s', songOk cfg s = true -> f s = Ok s' -> songOk cfg s' = true.

Definition cKeeps (cfg : Config) (f : Channel.t -> Result Channel.t) : Prop :=
  forall c c', channelOk cfg c = true -> f c = Ok c' -> channelOk cfg c' = true.

Definition samePatterns (f : Channel.t -> Result Channel.t) : Prop :=
  forall c c', f c = Ok c' -> Channel.patterns c' = Channel.patterns c.


(** ** Notions of the round trip: bits *)

(** What a writer holds: the bits below its index ([clear] rewinds the index
    and keeps the array). *)
Definition content (w : BitFieldWriter.t) : list bool :=
  firstn (BitFieldWriter._index w) (BitFieldWriter._bits w).

(** The index of the writer is inside its array or at its end. *)
Definition sound (w : BitFieldWriter.t) : Prop :=
  (BitFieldWriter._index w <= List.length (BitFieldWriter._bits w))%nat.

(** The reader stands before the bits [rest]. *)
Definition positioned (r : BitFieldReader.t) (rest : list bool) : Prop :=
  exists pre, r = BitFieldReader.mk (pre ++ rest) (List.length pre).

(** [read] takes the bits [bs] and returns [a], whatever follows them. *)
Definition reads {A : Type} (read : BitFieldReader.t -> A * BitFieldReader.t)
  (bs : list bool) (a : A) : Prop :=
  forall r rest, positioned r (bs ++ rest) ->
                 exists r', read r = (a, r') /\ positioned r' rest.

(** ** Notions of the round trip: notes *)

(** The integer of a number. *)
Definition numberOf (v : value) : Z := match v with Num z => z | _ => 0 end.

(** A number from [lo] to [hi]. *)
Definition numberIn (lo hi : Z) (v : value) : bool :=
  match v with Num z => (lo <=? z) && (z <=? hi) | _ => false end.

(** The pitches the codec is proved for: [lastPitch] and a pitch are less
    than [2^30] apart. *)
Definition pitchOk (v : value) : bool := numberIn (- 2 ^ 29 + 1) (2 ^ 29 - 1) v.

(** The pins of the shape of a note and the pitches of its bends: [current]
    is the pitch the bends have reached. *)
Fixpoint shapePinsOf (startPitch current : value) (pins : list NotePin.t)
  : list ShapePin :=
  match pins with
  | [] => []
  | pin :: rest =>
      let nextPitch := JS.add startPitch (NotePin.interval pin) in
      let bend := negb (strictEq current nextPitch) in
      Build_ShapePin bend (numberOf (NotePin.time pin)) (NotePin.expression pin)
        :: shapePinsOf startPitch (if bend then nextPitch else current) rest
  end.

Fixpoint bendPitches (startPitch current : value) (pins : list NotePin.t)
  : list value :=
  match pins with
  | [] => []
  | pin :: rest =>
      let nextPitch := JS.add startPitch (NotePin.interval pin) in
      if negb (strictEq current nextPitch)
      then nextPitch :: bendPitches startPitch nextPitch rest
      else bendPitches startPitch current rest
  end.

(** The time of the last of the pins, [prev] when there is none. *)
Fixpoint lastTime (prev : Z) (pins : list NotePin.t) : Z :=
  match pins with
  | [] => prev
  | pin :: rest => lastTime (numberOf (NotePin.time pin)) rest
  end.

(** The shape of a note, as the decoder holds it. *)
Definition shapeOf (note : Note.t) : Shape :=
  let startPitch := nth 0 (Note.pitches note) Undefined in
  let pins := tl (Note.pins note) in
  Build_Shape (Z.of_nat (List.length (Note.pitches note)))
    (Z.of_nat (List.length pins))
    (NotePin.expression (nth 0 (Note.pins note) (NotePin.mk Undefined Undefined Undefined)))
    (shapePinsOf startPitch startPitch pins)
    (lastTime 0 pins)
    (Z.of_nat (List.length (bendPitches startPitch startPitch pins))).

(** The pins after the first: numbers, expressions of two bits, times that
    rise strictly from [prev] and stay below [2^30], pitches within bounds. *)
Fixpoint pinsOk (startPitch : value) (prev : Z) (pins : list NotePin.t) : bool :=
  match pins with
  | [] => true
  | pin :: rest =>
      numberIn (prev + 1) (2 ^ 30) (NotePin.time pin)
      && numberIn 0 3 (NotePin.expression pin)
      && pitchOk (JS.add startPitch (NotePin.interval pin))
      && pinsOk startPitch (numberOf (NotePin.time pin)) rest
  end.

(** A note the codec takes and gives back: one pitch or more, at most
    [maxChordSize]; a first pin of interval 0 and time 0 and one pin or more
    after it; a start at or after [curPart] and an end that is the start
    plus the time of the last pin, at or before [maxPart]. *)
Definition noteWf (cfg : Config) (curPart maxPart : Z) (note : Note.t) : bool :=
  match Note.pitches note, Note.pins note with
  | startPitch :: _, pin0 :: pins =>
      negb (Nat.eqb (List.length pins) 0)
      && forallb pitchOk (Note.pitches note)
      && (Z.of_nat (List.length (Note.pitches note)) <=? maxChordSize cfg)
      && strictEq (NotePin.interval pin0) (Num 0)
      && strictEq (NotePin.time pin0) (Num 0)
      && numberIn 0 3 (NotePin.expression pin0)
      && pinsOk startPitch 0 pins
      && numberIn curPart maxPart (Note.start note)
      && strictEq (Note.end_ note)
           (Num (numberOf (Note.start note) + lastTime 0 pins))
      && numberIn 0 maxPart (Note.end_ note)
  | _, _ => false
  end.

(** The notes of a pattern in order, each from where the one before ended. *)
Fixpoint notesWf (cfg : Config) (curPart maxPart : Z) (notes : list Note.t) : bool :=
  match notes with
  | [] => true
  | note :: rest =>
      noteWf cfg curPart maxPart note
      && notesWf cfg (numberOf (Note.end_ note)) maxPart rest
  end.

(** ** Notions of the round trip: chords and pitches *)

(** The bits that tell the number of pitches of a note: a one for every
    pitch after the first, and a zero unless the chord is full. *)
Definition chordBits (cfg : Config) (count : nat) : list bool :=
  repeat true (count - 1)
  ++ (if Z.of_nat count <? maxChordSize cfg then [false] else []).

(** The pitches from [a] on in the direction [s] that are not recent ones,
    among the first [d]. *)
Definition freeCount (recent : list value) (s a : Z) (d : nat) : nat :=
  List.length
    (List.filter (fun p => negb (includes recent (Num p)))
       (map (fun k => a + s * (1 + Z.of_nat k)) (seq 0 d))).

(* ================================================================== *)
(** * [Note.pickMainInterval] *)
(* ================================================================== *)

(** The first loop, over the pairs of pins next to each other:
    [if (pinA.interval == pinB.interval) { duration = pinB.time - pinA.time;
    if (longest < duration) { longest = duration; mainInterval =
    pinA.interval } }]. *)
Fixpoint longestFlatInterval (pins : list NotePin.t) (longest mainInterval : value)
  : value * value :=
  match pins with
  | [] => (longest, mainInterval)
  | pinA :: rest =>
      match rest with
      | [] => (longest, mainInterval)
      | pinB :: _ =>
          if strictEq (NotePin.interval pinA) (NotePin.interval pinB) then
            let duration := JS.sub (NotePin.time pinB) (NotePin.time pinA) in
            if JS.lt longest duration
            then longestFlatInterval rest duration (NotePin.interval pinA)
            else longestFlatInterval rest longest mainInterval
          else longestFlatInterval rest longest mainInterval
      end
  end.

(** The second loop: [if (loudest < pin.expression) { loudest =
    pin.expression; mainInterval = pin.interval }]. *)
Fixpoint loudestInterval (pins : list NotePin.t) (loudest mainInterval : value)
  : value * value :=
  match pins with
  | [] => (loudest, mainInterval)
  | pin :: rest =>
      if JS.lt loudest (NotePin.expression pin)
      then loudestInterval rest (NotePin.expression pin) (NotePin.interval pin)
      else loudestInterval rest loudest mainInterval
  end.

Definition pickMainInterval (note : Note.t) : value :=
  let (longest, mainInterval) := longestFlatInterval (Note.pins note) (Num 0) (Num 0) in
  if JS.eqz longest 0
  then snd (loudestInterval (Note.pins note) (Num 0) mainInterval)
  else mainInterval.

(* ================================================================== *)
(** * The playhead of [Synth] *)
(* ================================================================== *)

Module Player.

(** The fields of [Synth] the navigation reads and writes.  [bar], [beat],
    [part] and [tick] hold integers; [playheadInternal] and
    [tickSampleCountdown] are doubles. *)
Record t : Type := mk {
  song : option Song.t;
  loopRepeatCount : value;
  playheadInternal : float;
  bar : value;
  beat : value;
  part : value;
  tick : value;
  tickSampleCountdown : float
}.

Definition set_bar (b : value) (s : t) : t :=
  mk (song s) (loopRepeatCount s) (playheadInternal s) b (beat s) (part s) (tick s)
    (tickSampleCountdown s).

Definition set_playheadInternal (p : float) (s : t) : t :=
  mk (song s) (loopRepeatCount s) p (bar s) (beat s) (part s) (tick s)
    (tickSampleCountdown s).



(** [Synth.snapToBar()] *)
Definition snapToBar (s : t) : t :=
  mk (song s) (loopRepeatCount s) (Double.ofValue (bar s)) (bar s) (Num 0) (Num 0) (Num 0)
    0%float.

(** [Synth.snapToStart()] *)
Definition snapToStart (s : t) : t := snapToBar (set_bar (Num 0) s).

(** [Synth.goToBar(bar)] *)
Definition goToBar (b : value) (s : t) : t :=
  set_playheadInternal (Double.ofValue b) (set_bar b s).




End Player.

(* ================================================================== *)
(** * [Synth.fittingPowerOfTwo] *)
(* ================================================================== *)

(** [Math.clz32]: the leading zero bits of the argument as an unsigned
    32-bit integer. *)
Definition clz32 (z : Z) : Z :=
  let u := JS.uwrap32 z in
  if u =? 0 then 32 else 31 - Z.log2 u.

(** [Math.ceil] of a finite double, as an integer. *)
Definition ceilZ (x : float) : option Z :=
  match Double.floorZ (PrimFloat.opp x) with
  | Some n => Some (- n)
  | None => None
  end.

(** [1 << (32 - Math.clz32(Math.ceil(x) - 1))]: [clz32] takes [NaN] and the
    infinities for 0. *)
Definition fittingPowerOfTwo (x : float) : Z :=
  JS.shl 1 (32 - clz32 (match ceilZ x with Some c => c - 1 | None => 0 end)).

(* ================================================================== *)
(** * Notions of the further theorems *)
(* ================================================================== *)


(** The bars of a channel of the default song: the first pattern in the first
    four bars, none after. *)
Definition defaultBars : list value :=
  map (fun bar => Num (if (bar <? 4)%nat then 1 else 0)) (seq 0 16).

(** ** Notions of the round trip: notes and patterns *)

(** [read] takes the bits [bs] and returns [a] without throwing, whatever
    follows them. *)
Definition readsOk {A : Type}
  (read : BitFieldReader.t -> Result (A * BitFieldReader.t))
  (bs : list bool) (a : A) : Prop :=
  forall r rest, positioned r (bs ++ rest) ->
                 exists r', read r = Ok (a, r') /\ positioned r' rest.

(** The bits of the symbols of a text. *)
Definition textBits (text : string) : list bool :=
  BitFieldReader._bits (BitFieldReader.make text (Num 0) (Num (JS.length text))).

(** The text of a shape, as the encoder remembers it, and the shape, as the
    decoder does: the bits of the text start with bits that read as the
    shape. *)
Definition shapeText (cfg : Config) (rhythm : value) (text : string) (shape : Shape)
  : Prop :=
  exists bs junk,
    textBits text = bs ++ junk /\ readsOk (readShape cfg false rhythm) bs shape.

(** The encoder and the decoder at the same point of a channel: the same
    last pitch and recent pitches, and recent shapes that correspond. *)
Definition inStep (cfg : Config) (rhythm : value) (e : EncodeCursor) (c : Cursor) : Prop :=
  lastPitch c = e_lastPitch e
  /\ recentPitches c = e_recentPitches e
  /\ Forall2 (shapeText cfg rhythm) (e_recentShapes e) (recentShapes c).

(** What the pitch codec needs of the encoder: a writer whose index is
    inside its array, a last pitch that is one of the recent pitches, of which
    there are at most eight. *)
Definition pitchesWf (e : EncodeCursor) : Prop :=
  sound (e_bits e)
  /\ pitchOk (e_lastPitch e) = true
  /\ (List.length (e_recentPitches e) <= 8)%nat
  /\ includes (e_recentPitches e) (e_lastPitch e) = true.

(** A pattern the codec gives back: an instrument that fits its bits, notes
    in order within the bar, few enough for the turns the decoder's loop may
    take. *)
Definition patternFits (cfg : Config) (maxPart neededInstrumentBits : Z) (dfuel : nat)
  (pattern : Pattern.t) : Prop :=
  numberIn 0 (2 ^ neededInstrumentBits - 1) (Pattern.instrument pattern) = true
  /\ notesWf cfg 0 maxPart (Pattern.notes pattern) = true
  /\ (2 * List.length (Pattern.notes pattern) + 2 <= dfuel)%nat.

(** A channel the codec gives back: an octave that keeps the pitches the
    codec starts from within bounds, the number of patterns the song says,
    and patterns that fit. *)
Definition channelFits (cfg : Config) (maxPart neededInstrumentBits : Z) (dfuel : nat)
  (patternsPerChannel : Z) (ch : Channel.t) : Prop :=
  numberIn (- 2 ^ 20) (2 ^ 20) (Channel.octave ch) = true
  /\ Z.of_nat (List.length (Channel.patterns ch)) = patternsPerChannel
  /\ Forall (patternFits cfg maxPart neededInstrumentBits dfuel) (Channel.patterns ch).

(** A song whose patterns the codec gives back: one channel or more, as many
    as the two counts say; a bar of at most [2^30] parts; one pattern or more
    in every channel; channels that fit. *)
Definition songFits (cfg : Config) (neededInstrumentBits : Z) (dfuel : nat)
  (song : Song.t) : Prop :=
  exists pitchChannels noiseChannels beats patternCount : Z,
    Song.pitchChannelCount song = Num pitchChannels
    /\ Song.noiseChannelCount song = Num noiseChannels
    /\ 0 <= pitchChannels /\ 0 <= noiseChannels /\ 1 <= pitchChannels + noiseChannels
    /\ Z.of_nat (List.length (Song.channels song)) = pitchChannels + noiseChannels
    /\ Song.beatsPerBar song = Num beats
    /\ 0 <= beats * partsPerBeat cfg <= 2 ^ 30
    /\ Song.patternsPerChannel song = Num patternCount /\ 1 <= patternCount
    /\ Forall (channelFits cfg (beats * partsPerBeat cfg) neededInstrumentBits dfuel
                 patternCount)
         (Song.channels song).

(** A song the decoder may start from to arrive at [song]: [song] but for
    what its patterns hold; every channel has as many patterns. *)
Definition samePlan (s0 song : Song.t) : Prop :=
  Song.set_channels (Song.channels song) s0 = song
  /\ Forall2 (fun c0 c => Channel.set_patterns (Channel.patterns c) c0 = c
                          /\ List.length (Channel.patterns c0)
                             = List.length (Channel.patterns c))
       (Song.channels s0) (Song.channels song).

(** A song of one pitch channel and one noise channel with two patterns each:
    a chord with a bend and a later note, a noise hit, and empty patterns.
    [sampleStart] is the same song before its patterns are read. *)
Definition sampleSong : Song.t :=
  Song.mk (Num 0) (Num 0) (Num 150) (Num 8) (Num 16) (Num 2) (Num 1) (Num 2) (Num 0)
    (Num 4) (Num 1) (Num 1)
    [ Channel.mk (Num 3) []
        [ Pattern.mk
            [ Note.mk [Num 48; Num 52]
                [ NotePin.mk (Num 0) (Num 0) (Num 3); NotePin.mk (Num 2) (Num 12) (Num 3);
                  NotePin.mk (Num 2) (Num 24) (Num 0) ]
                (Num 0) (Num 24);
              Note.mk [Num 55]
                [ NotePin.mk (Num 0) (Num 0) (Num 3); NotePin.mk (Num 0) (Num 12) (Num 3) ]
                (Num 48) (Num 60) ]
            (Num 1);
          Pattern.mk
            [ Note.mk [Num 48; Num 52]
                [ NotePin.mk (Num 0) (Num 0) (Num 3); NotePin.mk (Num 2) (Num 12) (Num 3);
                  NotePin.mk (Num 2) (Num 24) (Num 0) ]
                (Num 96) (Num 120) ]
            (Num 0) ]
        [] false;
      Channel.mk (Num 0) []
        [ Pattern.mk
            [ Note.mk [Num 4]
                [ NotePin.mk (Num 0) (Num 0) (Num 3); NotePin.mk (Num 0) (Num 6) (Num 3) ]
                (Num 6) (Num 12) ]
            (Num 0);
          Pattern.mk [] (Num 0) ]
        [] false ].

Definition sampleStart : Song.t :=
  Song.set_channels
    (map (Channel.set_patterns [Pattern_new; Pattern_new]) (Song.channels sampleSong))
    sampleSong.

(** The song of the decoder's loop over the channels when the patterns of
    the first [k] channels of [song] are read and the others are still those
    of [s0]. *)
Definition channelsRead (song s0 : Song.t) (k : nat) : Song.t :=
  Song.set_channels (firstn k (Song.channels song) ++ skipn k (Song.channels s0)) s0.

(* ================================================================== *)
(** * Theorems: 32-bit shifts *)
(* ================================================================== *)

Lemma wrap32_small (z : Z) : - 2 ^ 31 <= z < 2 ^ 31 -> wrap32 z = z.
Proof.
  intros H. unfold wrap32. rewrite Z.mod_small; lia.
Qed.

Lemma shl_1_small (k : Z) : 0 <= k <= 30 -> JS.shl 1 k = 2 ^ k.
Proof.
  intros H. unfold JS.shl.
  rewrite (wrap32_small 1) by lia.
  rewrite (Z.mod_small k 32) by lia.
  rewrite Z.shiftl_1_l.
  apply wrap32_small.
  assert (0 < 2 ^ k) by (apply Z.pow_pos_nonneg; lia).
  assert (2 ^ k <= 2 ^ 30) by (apply Z.pow_le_mono_r; lia).
  lia.
Qed.

(* ================================================================== *)
(** * Theorems: [clamp] *)
(* ================================================================== *)




(* ================================================================== *)
(** * Theorems: bit fields *)
(* ================================================================== *)

Section BitFields.

Import BitFieldReader BitFieldWriter.

Lemma msbBits_length k v : List.length (msbBits k v) = k.
Proof. induction k; simpl; auto. Qed.

Lemma writer_bitOf_testbit (v k : Z) :
  0 <= v < 2 ^ 32 -> 0 <= k < 32 ->
  BitFieldWriter.bitOf (Num v) k = Z.testbit v k.
Proof.
  intros Hv Hk. unfold BitFieldWriter.bitOf, JS.shr, uwrap32.
  rewrite (Z.mod_small v) by lia.
  rewrite (Z.mod_small k 32) by lia.
  change 1 with (Z.ones 1). rewrite Z.land_ones by lia.
  rewrite Z.testbit_odd.
  change (2 ^ 1) with 2.
  rewrite Zmod_odd.
  destruct (Z.odd (Z.shiftr v k)); reflexivity.
Qed.


Lemma push_tight b w :
  tight w ->
  push b w = BitFieldWriter.mk (S (BitFieldWriter._index w)) (BitFieldWriter._bits w ++ [b]).
Proof.
  unfold tight, push. intros ->.
  rewrite Nat.sub_diag. change (repeat false 0) with (@nil bool).
  rewrite app_nil_r, firstn_all.
  rewrite skipn_all2 by lia. reflexivity.
Qed.

Lemma push_tight_tight b w : tight w -> tight (push b w).
Proof.
  intros H. rewrite push_tight by assumption. unfold tight in *. simpl.
  rewrite length_app. simpl. lia.
Qed.

Lemma write_loop_tight k v w :
  tight w -> 0 <= v < 2 ^ 32 -> (k <= 32)%nat ->
  write_loop k (Num v) w =
  BitFieldWriter.mk (BitFieldWriter._index w + k) (BitFieldWriter._bits w ++ msbBits k v).
Proof.
  revert w. induction k as [|k IH]; intros w Ht Hv Hk; simpl.
  - rewrite Nat.add_0_r, app_nil_r. destruct w; reflexivity.
  - rewrite IH; [|apply push_tight_tight; assumption|assumption|lia].
    rewrite push_tight by assumption. simpl.
    rewrite writer_bitOf_testbit by lia.
    rewrite <- app_assoc. simpl. f_equal. lia.
Qed.

(** The unary prefix the writer emits: it stops at a width [numBits + k <= 30]
    with a remainder below [2 ^ (numBits + k)]. *)
Lemma writeLongTail_prefix_spec (m : nat) :
  forall fuel rem numBits w,
    Z.of_nat m = 31 - numBits -> 0 <= numBits -> 0 <= rem ->
    rem + 2 ^ numBits < 2 ^ 31 -> (m <= fuel)%nat -> tight w ->
    exists (k : nat) (rem' : Z),
      writeLongTail_prefix fuel (Num rem) numBits w
      = Ok (Num rem', numBits + Z.of_nat k,
            BitFieldWriter.mk (BitFieldWriter._index w + k)
              (BitFieldWriter._bits w ++ repeat true k))
      /\ 0 <= rem' < 2 ^ (numBits + Z.of_nat k)
      /\ numBits + Z.of_nat k <= 30
      /\ rem = rem' + 2 ^ (numBits + Z.of_nat k) - 2 ^ numBits.
Proof.
  induction m as [|m IH]; intros fuel rem numBits w Hm Hnb Hrem Hlt Hfuel Ht.
  - exfalso.
    assert (numBits = 31) by lia. subst.
    assert (0 < 2 ^ 31) by (apply Z.pow_pos_nonneg; lia). lia.
  - assert (Hnb30 : numBits <= 30).
    { destruct (Z_le_gt_dec numBits 30); [assumption|].
      assert (2 ^ 31 <= 2 ^ numBits) by (apply Z.pow_le_mono_r; lia). lia. }
    destruct fuel as [|fuel]; [lia|]. simpl.
    rewrite shl_1_small by lia.
    destruct (Z.leb_spec (2 ^ numBits) rem) as [Hge | Hsmall].
    + assert (Hpow : 2 ^ (numBits + 1) = 2 * 2 ^ numBits).
      { rewrite Z.pow_add_r by lia. lia. }
      destruct (IH fuel (rem - 2 ^ numBits) (numBits + 1) (push true w))
        as (k & rem' & Heq & Hr & Hk & Hsum); try lia.
      { apply push_tight_tight; assumption. }
      exists (S k), rem'.
      rewrite Heq. rewrite push_tight by assumption. simpl BitFieldWriter._index.
      simpl BitFieldWriter._bits.
      replace (numBits + 1 + Z.of_nat k) with (numBits + Z.of_nat (S k)) in * by lia.
      repeat split; try lia.
      f_equal. f_equal. f_equal; [lia|].
      rewrite <- app_assoc. reflexivity.
    + exists 0%nat, rem. rewrite Nat.add_0_r, Z.add_0_r, app_nil_r.
      destruct w. simpl. repeat split; try lia.
Qed.

Lemma unaryPrefix_ones (k : nat) :
  forall rest result numBits n,
    0 <= numBits -> numBits + Z.of_nat k <= 31 ->
    unaryPrefix (repeat true k ++ false :: rest) result numBits n
    = (result + 2 ^ (numBits + Z.of_nat k) - 2 ^ numBits,
       numBits + Z.of_nat k, (n + k + 1)%nat).
Proof.
  induction k as [|k IH]; intros rest result numBits n H0 H31; simpl repeat; simpl app.
  - simpl. rewrite Z.add_0_r. f_equal; [f_equal; lia | lia].
  - simpl unaryPrefix. rewrite IH by lia.
    rewrite shl_1_small by lia.
    assert (2 ^ (numBits + 1) = 2 * 2 ^ numBits).
    { rewrite Z.pow_add_r by lia. lia. }
    replace (numBits + 1 + Z.of_nat k) with (numBits + Z.of_nat (S k)) by lia.
    f_equal; [f_equal; lia | lia].
Qed.

Lemma mod_pow2_succ (v : Z) (k : nat) :
  0 <= v ->
  v mod 2 ^ Z.of_nat (S k)
  = (if Z.testbit v (Z.of_nat k) then 2 ^ Z.of_nat k else 0) + v mod 2 ^ Z.of_nat k.
Proof.
  intros Hv.
  replace (Z.of_nat (S k)) with (Z.of_nat k + 1) by lia.
  rewrite Z.pow_add_r by lia. change (2 ^ 1) with 2.
  assert (0 < 2 ^ Z.of_nat k) by (apply Z.pow_pos_nonneg; lia).
  rewrite Z.rem_mul_r by lia.
  rewrite Z.testbit_odd, Z.shiftr_div_pow2 by lia.
  rewrite Zmod_odd.
  destruct (Z.odd (v / 2 ^ Z.of_nat k)); lia.
Qed.

Lemma tailBits_msb (k : nat) :
  forall pre post v result,
    0 <= v -> (k <= 31)%nat ->
    tailBits k (BitFieldReader.mk (pre ++ msbBits k v ++ post) (List.length pre)) result
    = (result + v mod 2 ^ Z.of_nat k,
       BitFieldReader.mk (pre ++ msbBits k v ++ post) (List.length pre + k)).
Proof.
  induction k as [|k IH]; intros pre post v result Hv Hk.
  - simpl. rewrite Z.mod_1_r, Z.add_0_r, Nat.add_0_r. reflexivity.
  - simpl tailBits. unfold next. simpl BitFieldReader._bits. simpl BitFieldReader._readIndex.
    simpl msbBits.
    rewrite nth_error_app2 by lia. rewrite Nat.sub_diag. simpl nth_error.
    specialize (IH (pre ++ [Z.testbit v (Z.of_nat k)]) post v).
    rewrite <- app_assoc in IH. simpl app in IH.
    rewrite length_app in IH. simpl List.length in IH.
    replace (S (List.length pre)) with (List.length pre + 1)%nat by lia.
    rewrite IH by lia.
    rewrite shl_1_small by lia.
    rewrite (mod_pow2_succ v k) by lia.
    f_equal; [|f_equal; lia].
    destruct (Z.testbit v (Z.of_nat k)); lia.
Qed.


Lemma get_string_of_list (l : list ascii) (i : nat) :
  String.get i (string_of_list_ascii l) = nth_error l i.
Proof.
  revert i. induction l as [|c l IH]; intros [|i]; simpl; auto.
Qed.


Lemma charCodeAt_fromCharCodes (codes : list value) (i : nat) :
  (i < List.length codes)%nat ->
  JS.charCodeAt (fromCharCodes codes) (Num (Z.of_nat i))
  = Num (codeOfChar (nth i codes Undefined)).
Proof.
  intros Hi. unfold JS.charCodeAt, fromCharCodes.
  destruct (Z.ltb_spec (Z.of_nat i) 0); [lia|].
  rewrite Nat2Z.id, get_string_of_list, nth_error_map.
  rewrite (nth_error_nth' codes Undefined) by assumption.
  reflexivity.
Qed.

Lemma symbol_roundtrip (b0 b1 b2 b3 b4 b5 : bool) :
  let b := Z.b2z in
  symbolBits
    (JS.index base64CharCodeToInt
       (Num (codeOfChar
               (JS.index base64IntToCharCode
                  (Num (Z.lor (Z.lor (Z.lor (Z.lor (Z.lor (JS.shl (b b0) 5) (JS.shl (b b1) 4))
                     (JS.shl (b b2) 3)) (JS.shl (b b3) 2)) (JS.shl (b b4) 1)) (b b5)))))))
  = [b0; b1; b2; b3; b4; b5].
Proof.
  destruct b0, b1, b2, b3, b4, b5; vm_compute; reflexivity.
Qed.

Lemma collect_flat_map (s : string) (n : nat) :
  forall i : nat,
    collect s (Z.of_nat i) n
    = flat_map
        (fun j => symbolBits (JS.index base64CharCodeToInt
                                (JS.charCodeAt s (Num (Z.of_nat j)))))
        (seq i n).
Proof.
  induction n as [|n IH]; intros i; [reflexivity|].
  cbn [BitFieldReader.collect flat_map seq].
  f_equal. replace (Z.of_nat i + 1) with (Z.of_nat (S i)) by lia. apply IH.
Qed.

Lemma nth_block (l : list bool) (n : nat) :
  forall i,
    flat_map (fun j => [nth (6 * j) l false; nth (6 * j + 1) l false;
                        nth (6 * j + 2) l false; nth (6 * j + 3) l false;
                        nth (6 * j + 4) l false; nth (6 * j + 5) l false])
      (seq i n)
    = map (fun p => nth p l false) (seq (6 * i) (6 * n)).
Proof.
  induction n as [|n IH]; intros i; [reflexivity|].
  replace (6 * S n)%nat with (S (S (S (S (S (S (6 * n))))))) by lia.
  cbn [seq flat_map map app]. rewrite IH.
  replace (6 * S i)%nat with (S (S (S (S (S (S (6 * i))))))) by lia.
  repeat f_equal; lia.
Qed.

Lemma map_nth_pad (l : list bool) (n : nat) :
  (List.length l <= n)%nat ->
  map (fun p => nth p l false) (seq 0 n) = l ++ repeat false (n - List.length l).
Proof.
  intros H. apply nth_ext with (d := false) (d' := false).
  - rewrite length_map, length_seq, length_app, repeat_length. lia.
  - intros i Hi. rewrite length_map, length_seq in Hi.
    rewrite (nth_indep _ false (nth 0 l false)) by (rewrite length_map, length_seq; lia).
    rewrite (map_nth (fun p => nth p l false)).
    rewrite seq_nth by lia. simpl.
    destruct (Nat.lt_ge_cases i (List.length l)).
    + rewrite app_nth1 by lia. reflexivity.
    + rewrite app_nth2 by lia. rewrite nth_overflow by lia.
      symmetry. apply nth_repeat.
Qed.

(** The bits a reader sees are the writer's, padded with zeros to whole
    symbols. *)
Lemma readerOf_bits (w : BitFieldWriter.t) :
  tight w ->
  readerOf w
  = BitFieldReader.mk
      (BitFieldWriter._bits w
         ++ repeat false (6 * lengthBase64 w - BitFieldWriter._index w)) 0.
Proof.
  intros Ht. unfold readerOf, make.
  rewrite Z.sub_0_r, Nat2Z.id. f_equal.
  change 0 with (Z.of_nat 0). rewrite collect_flat_map.
  transitivity
    (flat_map (fun j => [nth (6 * j) (BitFieldWriter._bits w) false;
                         nth (6 * j + 1) (BitFieldWriter._bits w) false;
                         nth (6 * j + 2) (BitFieldWriter._bits w) false;
                         nth (6 * j + 3) (BitFieldWriter._bits w) false;
                         nth (6 * j + 4) (BitFieldWriter._bits w) false;
                         nth (6 * j + 5) (BitFieldWriter._bits w) false])
       (seq 0 (lengthBase64 w))).
  - rewrite !flat_map_concat_map. f_equal.
    apply map_ext_in. intros j Hj. apply in_seq in Hj.
    rewrite charCodeAt_fromCharCodes.
    2:{ unfold encodeBase64. simpl. rewrite length_map, length_seq. lia. }
    unfold encodeBase64. simpl app.
    rewrite (nth_indep _ Undefined
               (JS.index base64IntToCharCode (Num (group w (6 * 0)))))
      by (rewrite length_map, length_seq; lia).
    rewrite (map_nth (fun j => JS.index base64IntToCharCode (Num (group w (6 * j))))).
    rewrite seq_nth by lia. simpl Nat.add.
    unfold group. rewrite Nat.add_0_r. apply symbol_roundtrip.
  - rewrite nth_block. simpl Nat.mul at 1.
    rewrite map_nth_pad.
    + unfold tight in Ht. rewrite Ht. reflexivity.
    + unfold tight in Ht. rewrite <- Ht. unfold lengthBase64.
      pose proof (Nat.div_mod_eq (BitFieldWriter._index w + 5) 6).
      pose proof (Nat.mod_upper_bound (BitFieldWriter._index w + 5) 6). lia.
Qed.

(** C2, amended.  For whole numbers [minValue] and [value] that doubles
    hold and add without rounding (at most [2^53 - 1] in magnitude), within
    the range of the 32-bit shifts ([minBits <= 30] and
    [value - minValue + 2^minBits < 2^31]) the writer returns, a reader over
    the symbols it emitted reads [value] back, and the reader ends where the
    writer did. *)
Theorem longTail_roundtrip (fuel : nat) (minValue minBits value : Z) :
  - (2 ^ 53 - 1) <= minValue -> value <= 2 ^ 53 - 1 ->
  0 <= minBits <= 30 -> minValue <= value ->
  value - minValue + 2 ^ minBits < 2 ^ 31 -> (32 <= fuel)%nat ->
  exists w,
    writeLongTail fuel minValue minBits (Num value) BitFieldWriter.empty = Ok w
    /\ fst (readLongTail minValue minBits (readerOf w)) = value
    /\ BitFieldReader._readIndex (snd (readLongTail minValue minBits (readerOf w)))
       = BitFieldWriter._index w.
Proof.
  intros _ _ Hbits Hle Hsmall Hfuel.
  unfold writeLongTail. cbn [JS.lt JS.sub].
  destruct (Z.ltb_spec value minValue) as [|_]; [lia|].
  destruct (writeLongTail_prefix_spec (Z.to_nat (31 - minBits)) fuel
              (value - minValue) minBits BitFieldWriter.empty)
    as (k & rem & Heq & Hrem & Hk & Hsum); try lia.
  { reflexivity. }
  rewrite Heq. cbn [BitFieldWriter._index BitFieldWriter._bits BitFieldWriter.empty app Nat.add].
  set (W := Z.to_nat (minBits + Z.of_nat k)).
  assert (HW : Z.of_nat W = minBits + Z.of_nat k) by (unfold W; lia).
  assert (Hpow : 2 ^ (minBits + Z.of_nat k) <= 2 ^ 30) by (apply Z.pow_le_mono_r; lia).
  assert (Htight : tight (BitFieldWriter.mk k (repeat true k))).
  { unfold tight. simpl. rewrite repeat_length. reflexivity. }
  rewrite push_tight by assumption.
  cbn [BitFieldWriter._index BitFieldWriter._bits].
  rewrite write_loop_tight; try lia.
  2:{ unfold tight. simpl. rewrite length_app, repeat_length. simpl. lia. }
  cbn [BitFieldWriter._index BitFieldWriter._bits].
  eexists. split; [reflexivity|].
  rewrite readerOf_bits.
  2:{ unfold tight. simpl. rewrite !length_app, repeat_length, msbBits_length. simpl. lia. }
  cbn [BitFieldWriter._index BitFieldWriter._bits].
  set (pad := repeat false _).
  unfold readLongTail. cbn [BitFieldReader._readIndex BitFieldReader._bits skipn].
  rewrite <- !app_assoc. cbn [app].
  rewrite unaryPrefix_ones by lia.
  fold W.
  pose proof (tailBits_msb W (repeat true k ++ [false]) pad rem
                (minValue + 2 ^ (minBits + Z.of_nat k) - 2 ^ minBits)) as Htail.
  rewrite <- app_assoc in Htail. cbn [app] in Htail.
  rewrite length_app, repeat_length in Htail. simpl List.length in Htail.
  replace (0 + (0 + k + 1))%nat with (k + 1)%nat by lia.
  rewrite Htail by lia.
  cbn [fst snd BitFieldReader._readIndex].
  rewrite HW, Z.mod_small by lia.
  split; lia.
Qed.

Lemma longTail_roundtrip_witness :
  exists w,
    writeLongTail 32 1 3 (Num 192) BitFieldWriter.empty = Ok w
    /\ fst (readLongTail 1 3 (readerOf w)) = 192
    /\ BitFieldReader._readIndex (snd (readLongTail 1 3 (readerOf w)))
       = BitFieldWriter._index w.
Proof.
  apply (longTail_roundtrip 32 1 3 192);
    [vm_compute; discriminate | vm_compute; discriminate | lia | lia | reflexivity | lia].
Defined.

(** C2 as stated fails outside that range: written with [minBits = 32], the
    value 2 is read back as 3. *)
Lemma longTail_roundtrip_counterexample :
  exists w,
    writeLongTail 64 0 32 (Num 2) BitFieldWriter.empty = Ok w
    /\ fst (readLongTail 0 32 (readerOf w)) = 3.
Proof.
  eexists. split; [vm_compute; reflexivity | vm_compute; reflexivity].
Qed.

End BitFields.

(* ================================================================== *)
(** * Theorems: the legacy filter translator *)
(* ================================================================== *)

Section LegacyFilter.

Variable cfg : Config.
Variable num : Numerics.



End LegacyFilter.


(* ================================================================== *)
(** * Theorems: envelopes *)
(* ================================================================== *)

Section Envelopes.

Local Open Scope R_scope.

Variable s : R.
Hypothesis s_pos : 0 < s.

Lemma twang_at_0 beats e :
  Synth.computeEnvelope (Envelope.mk twang s) 0 beats e = 1.
Proof. unfold Synth.computeEnvelope; simpl. replace (1 + 0 * s) with 1 by ring. lra. Qed.

Lemma swell_limit beats e (eps : R) :
  0 < eps ->
  exists T, forall t, T < t ->
    Rabs (Synth.computeEnvelope (Envelope.mk swell s) t beats e - 1) < eps.
Proof.
  intros Heps. exists (1 / (eps * s)). intros t Ht.
  unfold Synth.computeEnvelope; simpl.
  assert (Hes : 0 < eps * s) by (apply Rmult_lt_0_compat; assumption).
  assert (HT : 0 < 1 / (eps * s)) by (apply Rdiv_lt_0_compat; lra).
  assert (Hts : 1 / eps < t * s).
  { replace (1 / eps) with (1 / (eps * s) * s) by (field; lra).
    apply Rmult_lt_compat_r; assumption. }
  assert (Hinv : 0 < 1 / eps) by (apply Rdiv_lt_0_compat; lra).
  assert (Hden : 0 < 1 + t * s) by lra.
  replace (1 - 1 / (1 + t * s) - 1) with (- (1 / (1 + t * s))) by ring.
  rewrite Rabs_Ropp, Rabs_pos_eq.
  2:{ apply Rlt_le, Rdiv_lt_0_compat; lra. }
  apply (Rmult_lt_reg_r (1 + t * s)); [assumption|].
  replace (1 / (1 + t * s) * (1 + t * s)) with 1 by (field; lra).
  assert (eps * (1 / eps) = 1) by (field; lra).
  nra.
Qed.

Lemma punch_at_0 beats e :
  Synth.computeEnvelope (Envelope.mk punch s) 0 beats e = 2.
Proof. unfold Synth.computeEnvelope; simpl. rewrite Rmax_right; lra. Qed.

Lemma flare_at_attack beats e :
  Synth.computeEnvelope (Envelope.mk flare s) (0.25 / sqrt s) beats e = 1.
Proof.
  unfold Synth.computeEnvelope; simpl.
  destruct (Rlt_dec (0.25 / sqrt s) (0.25 / sqrt s)) as [H | _]; [lra|].
  replace (0.25 / sqrt s - 0.25 / sqrt s) with 0 by ring.
  replace (1 + 0 * s) with 1 by ring. lra.
Qed.

Lemma decay_at_0 beats e :
  Synth.computeEnvelope (Envelope.mk decay s) 0 beats e = 1.
Proof.
  unfold Synth.computeEnvelope; simpl.
  replace (- s * 0) with 0 by ring. apply Rpower_O. lra.
Qed.

Lemma tremolo_at_0 time e :
  Synth.computeEnvelope (Envelope.mk tremolo s) time 0 e = 0.
Proof.
  unfold Synth.computeEnvelope; simpl.
  replace (0 * 2 * PI * s) with 0 by ring. rewrite cos_0. lra.
Qed.

Lemma tremolo2_at_0 time e :
  Synth.computeEnvelope (Envelope.mk tremolo2 s) time 0 e = 0.5.
Proof.
  unfold Synth.computeEnvelope; simpl.
  replace (0 * 2 * PI * s) with 0 by ring. rewrite cos_0. lra.
Qed.

(** C7.  The boundary values of the envelopes, for a positive speed [s]. *)
Theorem envelope_boundary_values (time beats e : R) :
  Synth.computeEnvelope (Envelope.mk twang s) 0 beats e = 1
  /\ (forall eps, 0 < eps ->
        exists T, forall t, T < t ->
          Rabs (Synth.computeEnvelope (Envelope.mk swell s) t beats e - 1) < eps)
  /\ Synth.computeEnvelope (Envelope.mk punch s) 0 beats e = 2
  /\ Synth.computeEnvelope (Envelope.mk flare s) (0.25 / sqrt s) beats e = 1
  /\ Synth.computeEnvelope (Envelope.mk decay s) 0 beats e = 1
  /\ Synth.computeEnvelope (Envelope.mk tremolo s) time 0 e = 0
  /\ Synth.computeEnvelope (Envelope.mk tremolo2 s) time 0 e = 0.5
  /\ Synth.computeEnvelope (Envelope.mk steady s) time beats e = 1.
Proof.
  repeat split.
  - apply twang_at_0.
  - apply swell_limit.
  - apply punch_at_0.
  - apply flare_at_attack.
  - apply decay_at_0.
  - apply tremolo_at_0.
  - apply tremolo2_at_0.
Qed.

End Envelopes.

Lemma envelope_boundary_values_witness :
  (Synth.computeEnvelope (Envelope.mk twang 8) 0 0 0 = 1
  /\ (forall eps, 0 < eps ->
        exists T, forall t, T < t ->
          Rabs (Synth.computeEnvelope (Envelope.mk swell 8) t 0 0 - 1) < eps)
  /\ Synth.computeEnvelope (Envelope.mk punch 8) 0 0 0 = 2
  /\ Synth.computeEnvelope (Envelope.mk flare 8) (0.25 / sqrt 8) 0 0 = 1
  /\ Synth.computeEnvelope (Envelope.mk decay 8) 0 0 0 = 1
  /\ Synth.computeEnvelope (Envelope.mk tremolo 8) 0 0 0 = 0
  /\ Synth.computeEnvelope (Envelope.mk tremolo2 8) 0 0 0 = 0.5
  /\ Synth.computeEnvelope (Envelope.mk steady 8) 0 0 0 = 1)%R.
Proof.
  apply (envelope_boundary_values 8); lra.
Defined.

(* ================================================================== *)
(** * Theorems: the master limiter *)
(* ================================================================== *)

(** Comparison of doubles, from its specification on [spec_float]. *)
Lemma SFcompare_refl (x : spec_float) : x <> S754_nan -> SFcompare x x = Some Eq.
Proof.
  destruct x as [s|s| |s m e]; intros H; try congruence; cbn.
  - reflexivity.
  - destruct s; reflexivity.
  - rewrite Z.compare_refl.
    change (Pos.compare_cont Eq m m) with (Pos.compare m m).
    rewrite Pos.compare_refl. destruct s; reflexivity.
Qed.

Lemma SFcompare_antisym (x y : spec_float) (c : comparison) :
  SFcompare x y = Some c -> SFcompare y x = Some (CompOpp c).
Proof.
  destruct x as [s1|s1| |s1 m1 e1], y as [s2|s2| |s2 m2 e2]; cbn;
    try discriminate; intros [= <-]; try (destruct s1; try destruct s2; reflexivity);
    try (destruct s2; reflexivity).
  rewrite (Z.compare_antisym e1 e2).
  change (Pos.compare_cont Eq m2 m1) with (Pos.compare m2 m1).
  change (Pos.compare_cont Eq m1 m2) with (Pos.compare m1 m2).
  rewrite (Pos.compare_antisym m1 m2).
  destruct s1, s2, (e1 ?= e2)%Z, (m1 ?= m2)%positive; reflexivity.
Qed.

Lemma SFcompare_total (x y : spec_float) :
  x <> S754_nan -> y <> S754_nan -> exists c, SFcompare x y = Some c.
Proof.
  destruct x as [s1|s1| |s1 m1 e1], y as [s2|s2| |s2 m2 e2]; intros Hx Hy;
    try congruence; cbn; eexists; reflexivity.
Qed.

Lemma double_is_nan_spec (x : float) :
  is_nan x = match Prim2SF x with S754_nan => true | _ => false end.
Proof.
  unfold is_nan. rewrite FloatAxioms.eqb_spec. unfold SFeqb.
  destruct (Prim2SF x) as [s|s| |s m e] eqn:E; try reflexivity;
    rewrite SFcompare_refl by discriminate; reflexivity.
Qed.

Lemma double_is_infinity_spec (x : float) :
  is_infinity x = match Prim2SF x with S754_infinity _ => true | _ => false end.
Proof.
  unfold is_infinity. rewrite FloatAxioms.eqb_spec, FloatAxioms.abs_spec.
  change (Prim2SF infinity) with (S754_infinity false).
  destruct (Prim2SF x) as [s|s| |s m e]; reflexivity.
Qed.

Lemma double_is_nan_abs (x : float) : is_nan (PrimFloat.abs x) = is_nan x.
Proof. rewrite !double_is_nan_spec, FloatAxioms.abs_spec. destruct (Prim2SF x); reflexivity. Qed.

Lemma double_not_nan (x : float) : is_nan x = false -> Prim2SF x <> S754_nan.
Proof. rewrite double_is_nan_spec. intros H E. rewrite E in H. discriminate. Qed.

(** A magnitude has the sign [+]. *)
Lemma double_get_sign_abs (x : float) : is_nan x = false -> get_sign (PrimFloat.abs x) = false.
Proof.
  rewrite double_is_nan_spec. intros H. unfold PrimFloat.get_sign, PrimFloat.is_zero.
  rewrite FloatAxioms.eqb_spec, FloatAxioms.abs_spec. change (Prim2SF zero) with (S754_zero false).
  destruct (Prim2SF x) as [s|s| |s m e] eqn:E; try discriminate; cbn.
  - rewrite FloatAxioms.ltb_spec, FloatAxioms.div_spec, FloatAxioms.abs_spec, E. reflexivity.
  - rewrite FloatAxioms.ltb_spec, FloatAxioms.abs_spec, E. reflexivity.
  - rewrite FloatAxioms.ltb_spec, FloatAxioms.abs_spec, E. reflexivity.
Qed.

Lemma double_leb_refl (x : float) : is_nan x = false -> (x <=? x)%float = true.
Proof.
  intros H. rewrite FloatAxioms.leb_spec. unfold SFleb.
  now rewrite SFcompare_refl by now apply double_not_nan.
Qed.

Lemma double_ltb_leb (x y : float) : (x <? y)%float = true -> (x <=? y)%float = true.
Proof.
  rewrite FloatAxioms.ltb_spec, FloatAxioms.leb_spec. unfold SFltb, SFleb.
  destruct (SFcompare (Prim2SF x) (Prim2SF y)) as [[| |]|]; congruence.
Qed.

Lemma double_nltb_leb (x y : float) :
  is_nan x = false -> is_nan y = false -> (x <? y)%float = false -> (y <=? x)%float = true.
Proof.
  intros Hx Hy. rewrite FloatAxioms.ltb_spec, FloatAxioms.leb_spec. unfold SFltb, SFleb.
  destruct (SFcompare_total _ _ (double_not_nan x Hx) (double_not_nan y Hy)) as (c & E).
  rewrite E, (SFcompare_antisym _ _ _ E). destruct c; cbn; congruence.
Qed.

(** [Math.max] of two magnitudes is the greater one as the comparison of
    doubles has it. *)
Lemma Math_max_abs (l r : float) :
  Double.Math_max (PrimFloat.abs l) (PrimFloat.abs r) = Limiter.peak l r.
Proof.
  unfold Double.Math_max, Limiter.peak. rewrite !double_is_nan_abs.
  destruct (is_nan l) eqn:Hl; [reflexivity|].
  destruct (is_nan r) eqn:Hr; [reflexivity|]. cbn [orb].
  destruct (PrimFloat.abs l <? PrimFloat.abs r)%float; [reflexivity|].
  destruct (PrimFloat.abs r <? PrimFloat.abs l)%float; [reflexivity|].
  now rewrite double_get_sign_abs.
Qed.

Lemma peak_greatest (l r : float) :
  is_nan l = false -> is_nan r = false ->
  (PrimFloat.abs l <=? Limiter.peak l r)%float = true
  /\ (PrimFloat.abs r <=? Limiter.peak l r)%float = true
  /\ (Limiter.peak l r = PrimFloat.abs l \/ Limiter.peak l r = PrimFloat.abs r).
Proof.
  intros Hl Hr. unfold Limiter.peak. rewrite Hl, Hr. cbn [orb].
  destruct (PrimFloat.abs l <? PrimFloat.abs r)%float eqn:E.
  - split; [now apply double_ltb_leb|]. split; [|now right].
    apply double_leb_refl. now rewrite double_is_nan_abs.
  - split; [apply double_leb_refl; now rewrite double_is_nan_abs|]. split; [|now left].
    apply double_nltb_leb; [now rewrite double_is_nan_abs | now rewrite double_is_nan_abs | exact E].
Qed.

Lemma peak_nan (l r : float) :
  is_nan l = true \/ is_nan r = true -> Limiter.peak l r = nan.
Proof.
  intros [H | H]; unfold Limiter.peak; rewrite H; [reflexivity|].
  now rewrite orb_true_r.
Qed.

Section LimiterLaw.

Import Limiter.

Variables volume limitRise limitDecay : float.

Lemma store_at (pre : list float) (y x : float) (rest : list float) :
  store (List.length pre) x (pre ++ y :: rest) = pre ++ fround x :: rest.
Proof. induction pre as [|p pre IH]; simpl; [reflexivity | now rewrite IH]. Qed.

Lemma load_at (pre : list float) (y : float) (rest : list float) :
  load (List.length pre) (pre ++ y :: rest) = y.
Proof.
  unfold load. rewrite app_nth2 by lia. now rewrite Nat.sub_diag.
Qed.

Lemma gain_eq (limit : float) :
  (volume / (if 1 <=? limit then limit * 1.05 else limit * 0.8 + 0.25))%float
  = gain volume limit.
Proof. unfold gain. destruct (1 <=? limit)%float; reflexivity. Qed.

(** One turn at the index where the run's next sample pair sits. *)
Lemma turn_at (preL preR : list float) (l r : float) (restL restR : list float)
  (limit : float) :
  List.length preL = List.length preR ->
  turn volume limitRise limitDecay
    {| limit := limit; outputDataL := preL ++ l :: restL;
       outputDataR := preR ++ r :: restR |} (List.length preL)
  = let limit' := follow limitRise limitDecay limit (peak l r) in
    {| limit := limit';
       outputDataL := preL ++ fround (l * gain volume limit') :: restL;
       outputDataR := preR ++ fround (r * gain volume limit') :: restR |}.
Proof.
  intros H. unfold turn. cbn [Limiter.limit outputDataL outputDataR].
  rewrite (load_at preL).
  replace (load (List.length preL) (preR ++ r :: restR)) with r
    by (rewrite H; symmetry; apply load_at).
  rewrite (store_at preL). rewrite H, (store_at preR).
  rewrite gain_eq, Math_max_abs. reflexivity.
Qed.

(** The loop over the indices of a run, against the law on the run's
    samples: [xsL] and [xsR] are the samples of the run, [pre] and [post]
    what the arrays hold before and after it. *)
Lemma postProcess_run (xsL : list float) :
  forall xsR preL preR postL postR limit,
    List.length xsL = List.length xsR -> List.length preL = List.length preR ->
    postProcess volume limitRise limitDecay (List.length preL) (List.length xsL)
      {| limit := limit; outputDataL := preL ++ xsL ++ postL;
         outputDataR := preR ++ xsR ++ postR |}
    = {| limit := fst (law volume limitRise limitDecay limit (combine xsL xsR));
         outputDataL :=
           preL ++ map fst (snd (law volume limitRise limitDecay limit (combine xsL xsR)))
                ++ postL;
         outputDataR :=
           preR ++ map snd (snd (law volume limitRise limitDecay limit (combine xsL xsR)))
                ++ postR |}.
Proof.
  induction xsL as [|l xsL IH]; intros [|r xsR] preL preR postL postR limit Hlen Hpre;
    try discriminate Hlen.
  - reflexivity.
  - unfold postProcess. cbn [List.length seq fold_left app].
    rewrite turn_at by assumption.
    cbv zeta. set (limit' := follow limitRise limitDecay limit _).
    specialize (IH xsR (preL ++ [fround (l * gain volume limit')])
                  (preR ++ [fround (r * gain volume limit')]) postL postR limit').
    rewrite !length_app in IH. cbn [List.length] in IH.
    rewrite <- !app_assoc in IH. cbn [app] in IH.
    unfold postProcess in IH.
    replace (S (List.length preL)) with (List.length preL + 1)%nat by lia.
    rewrite IH by (simpl in Hlen; lia).
    cbn [combine law]. fold limit'.
    destruct (law volume limitRise limitDecay limit' (combine xsL xsR)) as [final out].
    cbn [fst snd map]. reflexivity.
Qed.

(** C6.  The loop of a run applies the law sample by sample: the follower
    is updated from [peak l r], the greater of the magnitudes of the two
    samples ([NaN] when a sample is [NaN]), both channels are scaled by
    [volume] over [limit * 1.05] or [limit * 0.8 + 0.25]; and what is stored
    in [this.limit] afterwards is 0 for a limit that is [NaN], an infinity
    or below 1e-24 in magnitude, the limit itself for every other double. *)
Theorem limiter_law (bufferIndex runLength : nat) (r : Run) :
  (bufferIndex + runLength <= List.length (outputDataL r))%nat ->
  List.length (outputDataL r) = List.length (outputDataR r) ->
  let run a := firstn runLength (skipn bufferIndex a) in
  let result :=
    law volume limitRise limitDecay (limit r)
      (combine (run (outputDataL r)) (run (outputDataR r))) in
  postProcess volume limitRise limitDecay bufferIndex runLength r
  = {| limit := fst result;
       outputDataL := firstn bufferIndex (outputDataL r) ++ map fst (snd result)
                        ++ skipn (bufferIndex + runLength) (outputDataL r);
       outputDataR := firstn bufferIndex (outputDataR r) ++ map snd (snd result)
                        ++ skipn (bufferIndex + runLength) (outputDataR r) |}
  /\ (forall sampleL sampleR : float,
        (is_nan sampleL = false -> is_nan sampleR = false ->
         (PrimFloat.abs sampleL <=? peak sampleL sampleR)%float = true
         /\ (PrimFloat.abs sampleR <=? peak sampleL sampleR)%float = true
         /\ (peak sampleL sampleR = PrimFloat.abs sampleL
             \/ peak sampleL sampleR = PrimFloat.abs sampleR))
        /\ (is_nan sampleL = true \/ is_nan sampleR = true ->
            peak sampleL sampleR = nan))
  /\ (Prim2SF (fst result) = S754_nan
      \/ (exists s, Prim2SF (fst result) = S754_infinity s)
      \/ (PrimFloat.abs (fst result) <? 1.0e-24)%float = true ->
      sanitize (fst result) = 0%float)
  /\ ((exists s m e, Prim2SF (fst result) = S754_finite s m e) ->
      (PrimFloat.abs (fst result) <? 1.0e-24)%float = false ->
      sanitize (fst result) = fst result).
Proof.
  intros HL HR run result. split; [|split; [|split]].
  - destruct r as [limit L R]. cbn [outputDataL outputDataR Limiter.limit] in *.
    pose proof (postProcess_run (run L) (run R) (firstn bufferIndex L)
                  (firstn bufferIndex R) (skipn (bufferIndex + runLength) L)
                  (skipn (bufferIndex + runLength) R) limit) as H.
    assert (Hrun : forall a : list float,
               (bufferIndex + runLength <= List.length a)%nat ->
               List.length (run a) = runLength
               /\ firstn bufferIndex a ++ run a ++ skipn (bufferIndex + runLength) a = a).
    { intros a Ha. unfold run. split.
      - rewrite length_firstn, length_skipn. lia.
      - rewrite <- (firstn_skipn bufferIndex a) at 4. f_equal.
        rewrite <- (firstn_skipn runLength (skipn bufferIndex a)) at 2. f_equal.
        rewrite skipn_skipn. f_equal. lia. }
    destruct (Hrun L HL) as [HlenL HeqL].
    destruct (Hrun R ltac:(lia)) as [HlenR HeqR].
    assert (HpreLen : List.length (firstn bufferIndex L) = bufferIndex)
      by (rewrite length_firstn; lia).
    specialize (H ltac:(lia)).
    specialize (H ltac:(rewrite !length_firstn; lia)).
    rewrite HeqL, HeqR, HpreLen, HlenL in H. exact H.
  - intros sampleL sampleR. split.
    + apply peak_greatest.
    + apply peak_nan.
  - unfold sanitize, isFinite, epsilon. rewrite double_is_nan_spec, double_is_infinity_spec.
    intros [H | [(s & H) | H]]; rewrite H; try reflexivity.
    now rewrite orb_true_r.
  - intros (s & m & e & H) H2. unfold sanitize, isFinite, epsilon.
    rewrite double_is_nan_spec, double_is_infinity_spec, H, H2. reflexivity.
Qed.

End LimiterLaw.

Lemma limiter_law_witness :
  let r := {| Limiter.limit := 0%float;
              Limiter.outputDataL := [0.5; -2; 0.25]%float;
              Limiter.outputDataR := [0.25; 1; 0]%float |} in
  let run a := firstn 2 (skipn 1 a) in
  let result :=
    Limiter.law 1%float 0.5%float 0.125%float (Limiter.limit r)
      (combine (run (Limiter.outputDataL r)) (run (Limiter.outputDataR r))) in
  Limiter.postProcess 1%float 0.5%float 0.125%float 1 2 r
  = {| Limiter.limit := fst result;
       Limiter.outputDataL := firstn 1 (Limiter.outputDataL r) ++ map fst (snd result)
                        ++ skipn (1 + 2) (Limiter.outputDataL r);
       Limiter.outputDataR := firstn 1 (Limiter.outputDataR r) ++ map snd (snd result)
                        ++ skipn (1 + 2) (Limiter.outputDataR r) |}
  /\ (forall sampleL sampleR : float,
        (is_nan sampleL = false -> is_nan sampleR = false ->
         (PrimFloat.abs sampleL <=? Limiter.peak sampleL sampleR)%float = true
         /\ (PrimFloat.abs sampleR <=? Limiter.peak sampleL sampleR)%float = true
         /\ (Limiter.peak sampleL sampleR = PrimFloat.abs sampleL
             \/ Limiter.peak sampleL sampleR = PrimFloat.abs sampleR))
        /\ (is_nan sampleL = true \/ is_nan sampleR = true ->
            Limiter.peak sampleL sampleR = nan))
  /\ (Prim2SF (fst result) = S754_nan
      \/ (exists s, Prim2SF (fst result) = S754_infinity s)
      \/ (PrimFloat.abs (fst result) <? 1.0e-24)%float = true ->
      Limiter.sanitize (fst result) = 0%float)
  /\ ((exists s m e, Prim2SF (fst result) = S754_finite s m e) ->
      (PrimFloat.abs (fst result) <? 1.0e-24)%float = false ->
      Limiter.sanitize (fst result) = fst result).
Proof.
  apply (limiter_law 1%float 0.5%float 0.125%float 1 2
           {| Limiter.limit := 0%float;
              Limiter.outputDataL := [0.5; -2; 0.25]%float;
              Limiter.outputDataR := [0.25; 1; 0]%float |}).
  - simpl. lia.
  - reflexivity.
Defined.

Section Entry.

Variable cfg : Config.
Variable num : Numerics.
Variable fromJsonObject : string -> Song.t -> Result Song.t.

Lemma setTypeAndReset_default (isNoiseChannel : bool) (ins : Instrument.t) :
  exists ins',
    setTypeAndReset cfg
      (Num (if isNoiseChannel then InstrumentType_noise cfg else InstrumentType_chip cfg))
      isNoiseChannel ins = Ok ins'.
Proof.
  unfold setTypeAndReset. cbv zeta.
  destruct isNoiseChannel.
  - destruct (eqz (Num (InstrumentType_noise cfg)) (InstrumentType_chip cfg));
      [eexists; reflexivity|].
    destruct (eqz (Num (InstrumentType_noise cfg)) (InstrumentType_fm cfg));
      [eexists; reflexivity|].
    unfold eqz at 1. rewrite Z.eqb_refl. eexists; reflexivity.
  - unfold eqz at 1. rewrite Z.eqb_refl. eexists; reflexivity.
Qed.

Lemma initChannel_returns (channelIndex : nat) (channel : Channel.t) :
  exists c, initChannel cfg channelIndex channel = Ok c.
Proof.
  unfold initChannel. cbv zeta.
  destruct (growTo 1 _ (Channel.instruments _)) as [|ins rest] eqn:E.
  - exfalso. unfold growTo in E. destruct channel as [o inss ps bs m]. cbn in E.
    destruct inss; discriminate E.
  - destruct (setTypeAndReset_default (3 <=? channelIndex)%nat ins) as [ins' H].
    rewrite H. eexists; reflexivity.
Qed.

Lemma initChannels_returns (channels : list Channel.t) :
  forall channelIndex, exists cs, initChannels cfg channelIndex channels = Ok cs.
Proof.
  induction channels as [|c rest IH]; intros channelIndex; cbn [initChannels].
  - eexists; reflexivity.
  - destruct (initChannel_returns channelIndex c) as [c' ->].
    destruct (IH (S channelIndex)) as [cs ->]. eexists; reflexivity.
Qed.

Lemma initToDefault_returns (andResetChannels : bool) (this : Song.t) :
  exists s, initToDefault cfg andResetChannels this = Ok s.
Proof.
  unfold initToDefault. cbv zeta. destruct andResetChannels.
  - match goal with |- context [initChannels cfg 0 ?l] =>
      destruct (initChannels_returns l 0%nat) as [cs ->] end.
    eexists; reflexivity.
  - eexists; reflexivity.
Qed.

(** The call on the empty string. *)
Lemma fromBase64String_empty (fuel : nat) (this : Song.t) :
  fromBase64String cfg num fromJsonObject fuel (Some ""%string) this
  = initToDefault cfg true this.
Proof. cbn [fromBase64String]. reflexivity. Qed.

(** The call on a string that is not empty. *)
Lemma fromBase64String_nonempty (fuel : nat) (compressed : string) (this : Song.t) :
  compressed <> ""%string ->
  fromBase64String cfg num fromJsonObject fuel (Some compressed) this
  = let charIndex := versionIndex compressed in
    if JS.eqz (JS.charCodeAt compressed (Num charIndex)) 123 then
      fromJsonObject (substring (Z.to_nat charIndex) (String.length compressed) compressed)
        this
    else
      let version :=
        JS.index base64CharCodeToInt (JS.charCodeAt compressed (Num charIndex)) in
      if unsupported version then Ok this
      else
        let* d := beforeLoop cfg version (charIndex + 1) this in
        let* d := tags cfg num fuel compressed version d in
        Ok (song d).
Proof. destruct compressed; [congruence | reflexivity]. Qed.

(** C9.  On [null] and on the empty string the song is set to its default
    state by [initToDefault(true)] and the call returns; on a string that is
    not empty, is not in the JSON form and whose version symbol decodes to a
    number outside 2..9, the call returns and the song is as it was before
    the call. *)
Theorem fromBase64String_without_tags (fuel : nat) (this : Song.t) :
  (exists s,
      initToDefault cfg true this = Ok s
      /\ fromBase64String cfg num fromJsonObject fuel None this = Ok s
      /\ fromBase64String cfg num fromJsonObject fuel (Some ""%string) this = Ok s)
  /\ (forall (compressed : string) (v : Z),
        compressed <> ""%string ->
        JS.eqz (JS.charCodeAt compressed (Num (versionIndex compressed))) 123 = false ->
        JS.index base64CharCodeToInt
          (JS.charCodeAt compressed (Num (versionIndex compressed))) = Num v ->
        v < 2 \/ 9 < v ->
        fromBase64String cfg num fromJsonObject fuel (Some compressed) this = Ok this).
Proof.
  split.
  - destruct (initToDefault_returns true this) as [s H].
    exists s. cbn [fromBase64String]. auto.
  - intros compressed v Hne Hjson Hv Hrange.
    rewrite fromBase64String_nonempty by assumption. cbv zeta. rewrite Hjson, Hv.
    assert (Hu : unsupported (Num v) = true).
    { unfold unsupported, JS.eqz, JS.gt, JS.lt.
      destruct Hrange as [H | H].
      - replace (v <? 2) with true by (symmetry; apply Z.ltb_lt; lia).
        now rewrite orb_true_r.
      - replace (9 <? v) with true by (symmetry; apply Z.ltb_lt; lia).
        now rewrite orb_true_r. }
    rewrite Hu. reflexivity.
Qed.

Lemma afterTurns_tagLoop (compressed : string) (version : value) (fuel n : nat)
  (d d' : Decoder) :
  afterTurns cfg num compressed version fuel n d d' ->
  forall t,
    tagLoop cfg num compressed (JS.lt version (Num 3)) (JS.lt version (Num 4))
      (JS.lt version (Num 5)) (JS.lt version (Num 6)) (JS.lt version (Num 7))
      (JS.lt version (Num 8)) (JS.lt version (Num 9)) fuel (n + t) d
    = tagLoop cfg num compressed (JS.lt version (Num 3)) (JS.lt version (Num 4))
        (JS.lt version (Num 5)) (JS.lt version (Num 6)) (JS.lt version (Num 7))
        (JS.lt version (Num 8)) (JS.lt version (Num 9)) fuel t d'.
Proof.
  induction 1 as [d | n d d1 d' [Hlt Hstep] _ IH]; intros t.
  - reflexivity.
  - cbn [Nat.add tagLoop]. rewrite Hlt, Hstep. cbn [rbind]. apply IH.
Qed.

Lemma tagStep_unknown (compressed : string) (b3 b4 b5 b6 b7 b8 b9 : bool)
  (fuel : nat) (d : Decoder) (i : Z) :
  charIndex d = Num i ->
  tagOfCharCode (JS.charCodeAt compressed (Num i)) = None ->
  tagStep cfg num compressed b3 b4 b5 b6 b7 b8 b9 fuel d
  = Throw (UnrecognizedTag (JS.charCodeAt compressed (Num i)) (Num i)).
Proof.
  intros Hi Hnone. unfold tagStep, bind, gets, modify.
  rewrite Hi, Hnone. unfold throw. destruct d; cbn.
  replace (i + 1 - 1) with i by lia. reflexivity.
Qed.

(** C3.  In a string of the binary form with a supported version, a turn of
    the tag loop that finds at index [i] a character that is no tag code
    ends the whole call with the error that carries this character and [i]:
    [n] turns of the loop have completed before, the loop is at [i], inside
    the string. *)
Theorem unknown_tag_is_fatal (fuel : nat) (compressed : string) (this : Song.t)
  (version : value) (d0 d : Decoder) (n : nat) (i : Z) :
  compressed <> ""%string ->
  JS.eqz (JS.charCodeAt compressed (Num (versionIndex compressed))) 123 = false ->
  JS.index base64CharCodeToInt
    (JS.charCodeAt compressed (Num (versionIndex compressed))) = version ->
  unsupported version = false ->
  beforeLoop cfg version (versionIndex compressed + 1) this = Ok d0 ->
  afterTurns cfg num compressed version fuel n d0 d ->
  (n <= String.length compressed)%nat ->
  charIndex d = Num i ->
  i < JS.length compressed ->
  tagOfCharCode (JS.charCodeAt compressed (Num i)) = None ->
  fromBase64String cfg num fromJsonObject fuel (Some compressed) this
  = Throw (UnrecognizedTag (JS.charCodeAt compressed (Num i)) (Num i)).
Proof.
  intros Hne Hjson Hv Hsup Hd0 Hturns Hn Hi Hlt Hnone.
  rewrite fromBase64String_nonempty by assumption. cbv zeta.
  rewrite Hjson, Hv, Hsup, Hd0. cbn [rbind]. unfold tags.
  replace (S (String.length compressed))
    with (n + S (String.length compressed - n))%nat by lia.
  rewrite (afterTurns_tagLoop _ _ _ _ _ _ Hturns).
  cbn [tagLoop]. rewrite Hi. unfold JS.lt at 1.
  replace (i <? JS.length compressed) with true by (symmetry; apply Z.ltb_lt; lia).
  rewrite (tagStep_unknown _ _ _ _ _ _ _ _ _ _ _ Hi Hnone).
  reflexivity.
Qed.

Lemma clamp_0_4 (symbol : value) :
  exists r, clamp 0 4 symbol = Num r /\ 0 <= r <= 3
            /\ forall v, symbol = Num v -> r = Z.max 0 (Z.min 3 v).
Proof.
  unfold clamp. cbv zeta. destruct symbol as [v| |]; cbn.
  - destruct (v <=? 3) eqn:H3; [destruct (0 <=? v) eqn:H0|].
    + exists v. apply Z.leb_le in H3, H0. repeat split; try lia.
      intros v' Hv'. injection Hv' as <-. lia.
    + exists 0. apply Z.leb_le in H3. apply Z.leb_gt in H0.
      repeat split; try lia. intros v' Hv'. injection Hv' as <-. lia.
    + exists 3. apply Z.leb_gt in H3.
      repeat split; try lia. intros v' Hv'. injection Hv' as <-. lia.
  - exists 3. repeat split; try lia. discriminate.
  - exists 3. repeat split; try lia. discriminate.
Qed.

(** C4.  The [reverb] tag of a string older than version 9 stores in
    [legacyGlobalReverb] a number from 0 to 3: the symbol after the tag when
    it is in that range, 3 for any symbol above. *)
Theorem legacy_reverb_clamp (compressed : string) (b3 b4 b5 b6 b7 b8 : bool)
  (fuel : nat) (d : Decoder) (i : Z) :
  charIndex d = Num i ->
  JS.charCodeAt compressed (Num i) = Num (SongTagCode.code SongTagCode.reverb) ->
  exists d' r,
    tagStep cfg num compressed b3 b4 b5 b6 b7 b8 true fuel d = Ok (tt, d')
    /\ legacyGlobalReverb d' = Num r
    /\ 0 <= r <= 3
    /\ forall v,
         JS.index base64CharCodeToInt (JS.charCodeAt compressed (Num (i + 1))) = Num v ->
         r = Z.max 0 (Z.min 3 v).
Proof.
  intros Hi Htag.
  unfold tagStep, bind, gets, modify. rewrite Hi, Htag.
  cbn [tagOfCharCode].
  change (find _ SongTagCode.all) with (Some SongTagCode.reverb).
  cbn [dispatch]. unfold tag_reverb, bind, readSymbol, modify.
  destruct d as [s ci lf lr ic ii]. cbn [charIndex] in Hi. subst ci.
  cbn [charIndex set_charIndex set_legacyGlobalReverb song legacyFilterSettings
       legacyGlobalReverb instrumentChannelIterator instrumentIndexIterator JS.add].
  destruct (clamp_0_4 (JS.index base64CharCodeToInt (JS.charCodeAt compressed (Num (i + 1)))))
    as (r & Hr & Hrange & Hv).
  rewrite Hr. eexists _, r. split; [reflexivity|]. cbn [legacyGlobalReverb]. auto.
Qed.

End Entry.

Lemma fromBase64String_without_tags_witness :
  fromBase64String referenceConfig coarseNumerics noJson 0 (Some "0"%string) Song_blank
  = Ok Song_blank.
Proof.
  apply (proj2 (fromBase64String_without_tags referenceConfig coarseNumerics noJson 0
                  Song_blank) "0"%string 0).
  - discriminate.
  - reflexivity.
  - reflexivity.
  - lia.
Defined.

Lemma fromBase64String_without_tags_counterexample :
  exists s,
    fromBase64String referenceConfig coarseNumerics noJson 0 (Some "0"%string) Song_blank = Ok s
    /\ Song.tempo s = Undefined
    /\ Song.channels s = []
    /\ Ok s <> initToDefault referenceConfig true Song_blank.
Proof.
  exists Song_blank. repeat split. vm_compute. discriminate.
Qed.

Lemma unknown_tag_is_fatal_witness :
  fromBase64String referenceConfig coarseNumerics noJson 0 (Some "9n31!"%string) Song_blank
  = Throw (UnrecognizedTag (Num 33) (Num 4)).
Proof.
  eapply (unknown_tag_is_fatal referenceConfig coarseNumerics noJson 0 "9n31!"%string
            Song_blank (Num 9) _ _ 1 4).
  - discriminate.
  - reflexivity.
  - reflexivity.
  - reflexivity.
  - vm_compute. reflexivity.
  - eapply afterTurns_more; [split; [reflexivity | vm_compute; reflexivity]|].
    apply afterTurns_none.
  - simpl. lia.
  - reflexivity.
  - reflexivity.
  - reflexivity.
Defined.

Lemma legacy_reverb_clamp_witness :
  exists d' r,
    tagStep referenceConfig coarseNumerics "8m4"%string true true true true true true true 0
      (Build_Decoder Song_blank (Num 1) [] (Num 0) 0 (-1)) = Ok (tt, d')
    /\ legacyGlobalReverb d' = Num r
    /\ 0 <= r <= 3
    /\ forall v,
         JS.index base64CharCodeToInt (JS.charCodeAt "8m4"%string (Num (1 + 1))) = Num v ->
         r = Z.max 0 (Z.min 3 v).
Proof.
  apply (legacy_reverb_clamp referenceConfig coarseNumerics "8m4"%string
           true true true true true true 0
           (Build_Decoder Song_blank (Num 1) [] (Num 0) 0 (-1)) 1); reflexivity.
Defined.

Lemma legacy_reverb_clamp_counterexample :
  exists d0 d',
    beforeLoop referenceConfig (Num 8) 1 Song_blank = Ok d0
    /\ JS.index base64CharCodeToInt (JS.charCodeAt "8m4"%string (Num 2)) = Num 4
    /\ tags referenceConfig coarseNumerics 0 "8m4"%string (Num 8) d0 = Ok d'
    /\ legacyGlobalReverb d' = Num 3.
Proof.
  eexists. eexists. split; [vm_compute; reflexivity|].
  split; [reflexivity|]. split; [vm_compute; reflexivity|]. reflexivity.
Qed.

(* ================================================================== *)
(** * Theorems: the notes of a decoded song *)
(* ================================================================== *)

Section Frames.

Variable A : Type.
Variable Q : A -> bool.

Lemma forallb_repeat (x : A) (n : nat) : Q x = true -> forallb Q (repeat x n) = true.
Proof. intros H. induction n; simpl; [reflexivity | now rewrite H]. Qed.

Lemma forallb_firstn (n : nat) (l : list A) :
  forallb Q l = true -> forallb Q (firstn n l) = true.
Proof.
  revert n. induction l as [|x l IH]; intros [|n] H; simpl in *; auto.
  apply andb_true_iff in H. destruct H as [-> H]. simpl. auto.
Qed.

Lemma forallb_skipn (n : nat) (l : list A) :
  forallb Q l = true -> forallb Q (skipn n l) = true.
Proof.
  revert n. induction l as [|x l IH]; intros [|n] H; simpl in *; auto.
  apply andb_true_iff in H. destruct H as [_ H]. auto.
Qed.

Lemma forallb_setAt (hole x : A) (i : nat) (l : list A) :
  forallb Q l = true -> Q x = true -> Q hole = true ->
  forallb Q (setAt hole i x l) = true.
Proof.
  intros Hl Hx Hh. unfold setAt. rewrite forallb_app. apply andb_true_iff. split.
  - apply forallb_firstn. rewrite forallb_app, Hl. simpl. now apply forallb_repeat.
  - cbn [forallb]. rewrite Hx. cbn [andb]. now apply forallb_skipn.
Qed.

Lemma forallb_growTo (x : A) (n : nat) (l : list A) :
  forallb Q l = true -> Q x = true -> forallb Q (growTo n x l) = true.
Proof.
  intros Hl Hx. unfold growTo. rewrite forallb_app, Hl. simpl. now apply forallb_repeat.
Qed.

Lemma forallb_nth_error (l : list A) (i : nat) (x : A) :
  forallb Q l = true -> nth_error l i = Some x -> Q x = true.
Proof.
  intros Hl Hx. apply nth_error_In in Hx.
  rewrite forallb_forall in Hl. auto.
Qed.

Lemma forallb_at (l : list A) (i : value) (x : A) :
  forallb Q l = true -> at_ l i = Some x -> Q x = true.
Proof.
  unfold at_. destruct i as [z| |]; try discriminate.
  destruct (z <? 0); try discriminate. apply forallb_nth_error.
Qed.

End Frames.

Section Notes.

Variable cfg : Config.
Variable num : Numerics.

Lemma keeps_ret {A : Type} (a : A) : keeps cfg (ret a).
Proof. intros d a' d' H E. injection E as _ <-. exact H. Qed.

Lemma keeps_bind {A B : Type} (m : M A) (k : A -> M B) :
  keeps cfg m -> (forall a, keeps cfg (k a)) -> keeps cfg (bind m k).
Proof.
  intros Hm Hk d b d' H E. unfold bind in E.
  destruct (m d) as [[a d1]| |] eqn:Em; try discriminate.
  eapply Hk; [|exact E]. eapply Hm; eauto.
Qed.

Lemma keeps_throw {A : Type} (e : Err) : keeps cfg (@throw A e).
Proof. intros d a d' _ E. discriminate E. Qed.

Lemma keeps_lift {A : Type} (r : Result A) : keeps cfg (lift r).
Proof.
  intros d a d' H E. unfold lift in E. destruct r; try discriminate.
  injection E as _ <-. exact H.
Qed.

Lemma keeps_gets {A : Type} (f : Decoder -> A) : keeps cfg (gets f).
Proof. intros d a d' H E. injection E as _ <-. exact H. Qed.

Lemma keeps_modify (f : Decoder -> Decoder) :
  (forall d, song (f d) = song d) -> keeps cfg (modify f).
Proof. intros Hf d a d' H E. injection E as _ <-. now rewrite Hf. Qed.

Lemma keeps_modifySong (f : Song.t -> Result Song.t) :
  sKeeps cfg f -> keeps cfg (modifySong f).
Proof.
  intros Hf d a d' H E. unfold modifySong in E.
  destruct (f (song d)) as [s| |] eqn:Ef; try discriminate.
  injection E as _ <-. cbn. eapply Hf; eauto.
Qed.

Lemma keeps_forEach {A : Type} (l : list A) (body : A -> M unit) :
  (forall x, keeps cfg (body x)) -> keeps cfg (forEach l body).
Proof.
  intros Hb. induction l as [|x l IH]; cbn [forEach].
  - apply keeps_ret.
  - apply keeps_bind; auto.
Qed.

Lemma keeps_forRange (bound : value) (body : Z -> M unit) :
  (forall x, keeps cfg (body x)) -> keeps cfg (forRange bound body).
Proof. intros Hb. apply keeps_forEach, Hb. Qed.

Lemma keeps_readSymbol (compressed : string) : keeps cfg (readSymbol compressed).
Proof. intros d a d' H E. injection E as _ <-. exact H. Qed.

Lemma keeps_readSymbols (compressed : string) (n : nat) :
  keeps cfg (readSymbols compressed n).
Proof.
  induction n; cbn [readSymbols].
  - apply keeps_ret.
  - apply keeps_bind; [apply keeps_readSymbol|]. intros x.
    apply keeps_bind; [assumption|]. intros rest. apply keeps_ret.
Qed.

Lemma keeps_skip (n : value) : keeps cfg (skip n).
Proof. apply keeps_modify. reflexivity. Qed.

Lemma keeps_same {A : Type} (m : M A) :
  (forall d a d', m d = Ok (a, d') -> song d' = song d) -> keeps cfg m.
Proof. intros Hm d a d' H E. now rewrite (Hm _ _ _ E). Qed.

Lemma keeps_at {A : Type} (m : Decoder -> M A) :
  (forall d0, keeps cfg (m d0)) -> keeps cfg (fun d => m d d).
Proof. intros Hm d a d' H E. eapply Hm; eauto. Qed.

(** Updates of a channel and of an instrument. *)
Lemma sKeeps_updChannel (channel : value) (f : Channel.t -> Result Channel.t) :
  cKeeps cfg f -> sKeeps cfg (updChannel channel f).
Proof.
  intros Hf s s' H E. unfold updChannel in E.
  destruct (at_ (Song.channels s) channel) as [c|] eqn:Ec; try discriminate.
  destruct (f c) as [c'| |] eqn:Efc; try discriminate.
  cbn [rbind] in E. injection E as <-.
  unfold songOk in *. cbn [Song.channels Song.set_channels].
  assert (Hc' : channelOk cfg c' = true).
  { eapply Hf; [|exact Efc]. eapply forallb_at; eauto. }
  now apply forallb_setAt.
Qed.

Lemma samePatterns_cKeeps (f : Channel.t -> Result Channel.t) :
  samePatterns f -> cKeeps cfg f.
Proof.
  intros Hf c c' H E. unfold channelOk in *. now rewrite (Hf _ _ E).
Qed.

Lemma samePatterns_updInstrument (index : value)
  (f : Instrument.t -> Result Instrument.t) :
  samePatterns
    (fun c =>
       match at_ (Channel.instruments c) index with
       | Some ins =>
           let* ins' := f ins in
           Ok (Channel.set_instruments
                 (setAt ins' (turns index) ins' (Channel.instruments c)) c)
       | None => Throw TypeError
       end).
Proof.
  intros c c' E.
  destruct (at_ (Channel.instruments c) index) as [ins|]; try discriminate.
  destruct (f ins); try discriminate. injection E as <-. reflexivity.
Qed.

Lemma sKeeps_updInstrument (channel index : value)
  (f : Instrument.t -> Result Instrument.t) :
  sKeeps cfg (updInstrument channel index f).
Proof.
  apply sKeeps_updChannel, samePatterns_cKeeps, samePatterns_updInstrument.
Qed.

Lemma keeps_updAt (channel index : value) (f : Instrument.t -> Result Instrument.t) :
  keeps cfg (updAt channel index f).
Proof. apply keeps_modifySong, sKeeps_updInstrument. Qed.

Lemma keeps_updCurrent (f : Instrument.t -> Result Instrument.t) :
  keeps cfg (updCurrent f).
Proof.
  apply (keeps_at (fun d0 => modifySong _)). intros d0.
  apply keeps_modifySong, sKeeps_updInstrument.
Qed.

Lemma keeps_setCurrent (f : Instrument.t -> Instrument.t) : keeps cfg (setCurrent f).
Proof. apply keeps_updCurrent. Qed.

Lemma keeps_getCurrent : keeps cfg getCurrent.
Proof. apply (keeps_at (fun d0 => lift _)). intros d0. apply keeps_lift. Qed.

Lemma keeps_atCurrent (body : value -> value -> M unit) :
  (forall c i, keeps cfg (body c i)) -> keeps cfg (atCurrent body).
Proof. intros Hb. apply (keeps_at (fun d0 => body _ _)). intros d0. apply Hb. Qed.

Lemma keeps_forAllInstruments (body : Z -> Z -> M unit) :
  (forall c i, keeps cfg (body c i)) -> keeps cfg (forAllInstruments body).
Proof.
  intros Hb. unfold forAllInstruments.
  apply keeps_bind; [apply keeps_gets|]. intros n.
  apply keeps_bind; [apply keeps_gets|]. intros m.
  apply keeps_forRange. intros c. apply keeps_forRange. intros i. apply Hb.
Qed.

Lemma keeps_forChannels (f : Z -> Channel.t -> Result Channel.t) :
  (forall channel, cKeeps cfg (f channel)) -> keeps cfg (forChannels f).
Proof.
  intros Hf. unfold forChannels.
  apply keeps_bind; [apply keeps_gets|]. intros n.
  apply keeps_forRange. intros c. apply keeps_modifySong, sKeeps_updChannel, Hf.
Qed.

Lemma keeps_legacyFilterAt (channel index : value)
  (g : LegacyFilterSettings -> LegacyFilterSettings)
  (pre : Instrument.t -> Instrument.t) :
  keeps cfg (legacyFilterAt cfg num channel index g pre).
Proof.
  unfold legacyFilterAt.
  apply keeps_bind; [apply keeps_gets|]. intros l.
  apply keeps_bind; [apply keeps_lift|]. intros x.
  apply keeps_bind; [apply keeps_modify; reflexivity|]. intros _.
  apply keeps_updAt.
Qed.

(** A song whose scalar fields change keeps cfg its notes. *)
Lemma sKeeps_scalar (f : Song.t -> Song.t) :
  (forall s, Song.channels (f s) = Song.channels s) ->
  sKeeps cfg (fun s => Ok (f s)).
Proof.
  intros Hf s s' H E. injection E as <-. unfold songOk in *. now rewrite Hf.
Qed.


Lemma sKeeps_grow_channels (f : Song.t -> Song.t) (n : Song.t -> Result nat) :
  (forall s, Song.channels (f s) = Song.channels s) ->
  sKeeps cfg (fun s =>
    let s := f s in
    let* len := n s in
    Ok (Song.set_channels (setLength len (growTo len Channel_new (Song.channels s))) s)).
Proof.
  intros Hf s s' H E. cbv zeta in E. destruct (n (f s)); try discriminate.
  cbn [rbind] in E. injection E as <-. unfold songOk in *.
  cbn [Song.channels Song.set_channels]. rewrite Hf.
  apply forallb_firstn, forallb_growTo; auto.
Qed.

Lemma cKeeps_grow_patterns (n : Result nat) :
  cKeeps cfg (fun c =>
    let* len := n in
    Ok (Channel.set_patterns
          (setLength len (growTo len Pattern_new (Channel.patterns c))) c)).
Proof.
  intros c c' H E. destruct n; try discriminate.
  cbn [rbind] in E. injection E as <-. unfold channelOk in *.
  cbn [Channel.patterns Channel.set_patterns].
  apply forallb_firstn, forallb_growTo; auto.
Qed.

Ltac same_patterns :=
  let c := fresh "c" in
  let c' := fresh "c'" in
  let E := fresh "E" in
  intros c c' E;
  repeat match type of E with
         | context [rbind ?r _] => destruct r; cbn [rbind] in E
         | context [if ?b then _ else _] => destruct b
         | context [match ?x with _ => _ end] => destruct x
         end;
  try discriminate; injection E as <-; reflexivity.

Lemma sKeeps_readAllBars (offset neededBits : Z) (barCount : value) (channels : list Z) :
  forall r, sKeeps cfg (readAllBars offset neededBits barCount channels r).
Proof.
  induction channels as [|channel rest IH]; intros r s s' H E; cbn [readAllBars] in E.
  - injection E as <-. exact H.
  - destruct (readFields neededBits (turns barCount) r) as [values r'].
    destruct (turns barCount =? 0)%nat.
    + cbn [rbind] in E. eapply IH; eauto.
    + match type of E with context [rbind ?u _] => destruct u as [s1| |] eqn:E1 end;
        try discriminate.
      cbn [rbind] in E. eapply IH; [|exact E].
      eapply sKeeps_updChannel; [|exact H|exact E1].
      apply samePatterns_cKeeps. same_patterns.
Qed.

Ltac keeps_step :=
  first
    [ apply keeps_ret
    | apply keeps_throw
    | apply keeps_lift
    | apply keeps_gets
    | apply keeps_readSymbol
    | apply keeps_readSymbols
    | apply keeps_skip
    | apply keeps_setCurrent
    | apply keeps_updCurrent
    | apply keeps_getCurrent
    | apply keeps_updAt
    | apply keeps_legacyFilterAt
    | apply keeps_atCurrent; intros
    | apply keeps_forAllInstruments; intros
    | apply keeps_forRange; intros
    | apply keeps_forChannels; intros; first [apply cKeeps_grow_patterns | apply samePatterns_cKeeps; same_patterns]
    | apply keeps_modifySong;
      first [ apply sKeeps_updInstrument
            | apply sKeeps_updChannel, samePatterns_cKeeps; same_patterns
            | apply sKeeps_readAllBars
            | apply sKeeps_scalar; intros; reflexivity
            | apply (sKeeps_grow_channels (fun s => Song.set_noiseChannelCount _ (Song.set_pitchChannelCount _ s)) (fun s => arrayLength (getChannelCount s))); intros; reflexivity ]
    | apply keeps_modify; intros;
      repeat match goal with |- context [if ?b then _ else _] => destruct b end;
      reflexivity
    | apply keeps_same; intros ? ? ? E;
      repeat match type of E with
             | context [match ?x with _ => _ end] => destruct x
             end; try discriminate; injection E as _ <-; reflexivity
    | apply keeps_bind; [|intros]
    | match goal with
      | |- keeps _ (if ?b then _ else _) => destruct b
      | |- keeps _ (let (_, _) := ?x in _) => destruct x
      | |- keeps _ (match ?x with _ => _ end) => destruct x
      end ].

Section Handlers.

Variable compressed : string.
Variables b3 b4 b5 b6 b7 b8 b9 : bool.
Variable fuel : nat.

Lemma keeps_dispatch (tag : SongTagCode.t) :
  keeps cfg (tag_patterns cfg compressed b3 b7 fuel) ->
  keeps cfg (dispatch cfg num compressed b3 b4 b5 b6 b7 b8 b9 fuel tag).
Proof.
  intros Hpatterns.
  destruct tag; cbn [dispatch]; try exact Hpatterns.
  all: unfold tag_channelCount, tag_scale, tag_key, tag_loopStart, tag_loopEnd,
    tag_tempo, tag_reverb, tag_beatCount, tag_barCount, tag_patternCount,
    tag_instrumentCount, tag_rhythm, tag_channelOctave, tag_startInstrument,
    tag_preset, tag_wave, tag_filter, tag_filterResonance, tag_distortionFilter,
    tag_filterEnvelope, tag_pulseWidth, tag_distortion, tag_bitcrusher, tag_sustain,
    tag_transition, tag_vibrato, tag_interval, tag_chord, tag_effects, tag_volume,
    tag_pan, tag_algorithm, tag_feedbackType, tag_feedbackAmplitude,
    tag_feedbackEnvelope, tag_operatorFrequencies, tag_operatorAmplitudes,
    tag_operatorEnvelopes, tag_spectrum, tag_harmonics, tag_bars,
    tag_operators, perInstrument, legacyVibrato, legacyInterval, plainInterval,
    legacyVolume, readFilterSettings.
  all: repeat keeps_step.
Qed.

End Handlers.


(** ** The bits of a reader *)

Lemma next_bits (r : BitFieldReader.t) :
  BitFieldReader._bits (snd (BitFieldReader.next r)) = BitFieldReader._bits r.
Proof. reflexivity. Qed.

Lemma read_loop_bits (n : nat) :
  forall r v, BitFieldReader._bits (snd (BitFieldReader.read_loop n r v))
              = BitFieldReader._bits r.
Proof.
  induction n as [|n IH]; intros r v; cbn [BitFieldReader.read_loop]; [reflexivity|].
  unfold BitFieldReader.next. rewrite IH. reflexivity.
Qed.

Lemma read_bits (n : Z) (r : BitFieldReader.t) :
  BitFieldReader._bits (snd (BitFieldReader.read n r)) = BitFieldReader._bits r.
Proof. apply read_loop_bits. Qed.

Lemma tailBits_bits (n : nat) :
  forall r v, BitFieldReader._bits (snd (BitFieldReader.tailBits n r v))
              = BitFieldReader._bits r.
Proof.
  induction n as [|n IH]; intros r v; cbn [BitFieldReader.tailBits]; [reflexivity|].
  unfold BitFieldReader.next. rewrite IH. reflexivity.
Qed.

Lemma readLongTail_bits (minValue minBits : Z) (r : BitFieldReader.t) :
  BitFieldReader._bits (snd (BitFieldReader.readLongTail minValue minBits r))
  = BitFieldReader._bits r.
Proof.
  unfold BitFieldReader.readLongTail.
  destruct (BitFieldReader.unaryPrefix _ _ _ _) as [[result numBits] n].
  rewrite tailBits_bits. reflexivity.
Qed.

Lemma readPitchInterval_bits (r : BitFieldReader.t) :
  BitFieldReader._bits (snd (BitFieldReader.readPitchInterval r))
  = BitFieldReader._bits r.
Proof.
  unfold BitFieldReader.readPitchInterval.
  pose proof (read_bits 1 r) as H1.
  destruct (BitFieldReader.read 1 r) as [s r1]. cbn [snd] in H1.
  pose proof (readLongTail_bits 1 3 r1) as H2.
  destruct (BitFieldReader.readLongTail 1 3 r1) as [v r2]. cbn [snd] in H2.
  destruct s as [z| |]; try destruct (negb (z =? 0)); cbn [snd]; congruence.
Qed.

(** A long-tail number read where the run of one-bits is short is at least
    its minimum. *)
Lemma unaryPrefix_bound (K : nat) :
  forall rest result numBits n k,
    (k <= K)%nat -> nth k rest false = false ->
    0 <= numBits -> numBits + Z.of_nat K <= 31 ->
    let '(result', numBits', _) := BitFieldReader.unaryPrefix rest result numBits n in
    result <= result' /\ 0 <= numBits' <= 31.
Proof.
  induction K as [|K IH]; intros rest result numBits n k Hk Hnth H0 H31.
  - assert (k = 0)%nat by lia. subst k.
    destruct rest as [|[|] rest]; cbn in Hnth; try discriminate;
      cbn [BitFieldReader.unaryPrefix]; lia.
  - destruct rest as [|[|] rest]; cbn [BitFieldReader.unaryPrefix]; try lia.
    destruct k as [|k]; [discriminate Hnth|]. cbn [nth] in Hnth.
    specialize (IH rest (result + JS.shl 1 numBits) (numBits + 1) (S n) k
                  ltac:(lia) Hnth ltac:(lia) ltac:(lia)).
    destruct (BitFieldReader.unaryPrefix rest _ _ _) as [[result' numBits'] n'].
    rewrite shl_1_small in IH by lia.
    assert (0 < 2 ^ numBits) by (apply Z.pow_pos_nonneg; lia). lia.
Qed.

Lemma tailBits_bound (n : nat) :
  forall r result, (n <= 31)%nat ->
    result <= fst (BitFieldReader.tailBits n r result).
Proof.
  induction n as [|n IH]; intros r result Hn; cbn [BitFieldReader.tailBits fst]; [lia|].
  unfold BitFieldReader.next.
  match goal with |- _ <= fst (BitFieldReader.tailBits n ?r' ?v) =>
    specialize (IH r' v ltac:(lia)); set (v' := v) in * end.
  assert (result <= v'); [|lia].
  subst v'. destruct (match nth_error _ _ with Some true => true | _ => false end); [|lia].
  rewrite shl_1_small by lia.
  assert (0 < 2 ^ Z.of_nat n) by (apply Z.pow_pos_nonneg; lia). lia.
Qed.

Lemma nth_skipn (A : Type) (i k : nat) (l : list A) (x : A) :
  nth k (skipn i l) x = nth (i + k) l x.
Proof.
  revert l. induction i as [|i IH]; intros l; [reflexivity|].
  destruct l as [|y l]; cbn [skipn Nat.add nth]; [now destruct k | apply IH].
Qed.

Lemma readLongTail_bound (minValue minBits : Z) (r : BitFieldReader.t) :
  runFree (BitFieldReader._bits r) -> 0 <= minBits <= 3 ->
  minValue <= fst (BitFieldReader.readLongTail minValue minBits r).
Proof.
  intros Hfree Hbits. unfold BitFieldReader.readLongTail.
  destruct (Hfree (BitFieldReader._readIndex r)) as (k & Hk & Hnth).
  rewrite <- nth_skipn in Hnth.
  pose proof (unaryPrefix_bound 28 _ minValue minBits 0%nat k Hk Hnth
                ltac:(lia) ltac:(lia)) as H.
  destruct (BitFieldReader.unaryPrefix _ _ _ _) as [[result numBits] n].
  destruct H as [H1 H2].
  pose proof (tailBits_bound (Z.to_nat numBits)
                (BitFieldReader.mk (BitFieldReader._bits r)
                   (BitFieldReader._readIndex r + n)) result ltac:(lia)).
  lia.
Qed.

(** The bits of a string without four ['_'] in a row. *)
Lemma collect_length (s : string) (n : nat) :
  forall a, List.length (BitFieldReader.collect s a n) = (6 * n)%nat.
Proof.
  induction n as [|n IH]; intros a; cbn [BitFieldReader.collect]; [reflexivity|].
  rewrite length_app, IH. cbn. lia.
Qed.

Lemma nth_collect (s : string) (n : nat) :
  forall a q b, (q < n)%nat -> (b < 6)%nat ->
    nth (6 * q + b) (BitFieldReader.collect s a n) false
    = nth b (BitFieldReader.symbolBits
               (JS.index base64CharCodeToInt (JS.charCodeAt s (Num (a + Z.of_nat q)))))
        false.
Proof.
  induction n as [|n IH]; intros a q b Hq Hb; [lia|].
  cbn [BitFieldReader.collect]. destruct q as [|q].
  - rewrite app_nth1 by (cbn; lia).
    replace (a + Z.of_nat 0) with a by lia. f_equal.
  - rewrite app_nth2 by (cbn; lia).
    replace (6 * S q + b - List.length (BitFieldReader.symbolBits
               (JS.index base64CharCodeToInt (JS.charCodeAt s (Num a)))))%nat
      with (6 * q + b)%nat by (cbn; lia).
    replace (a + Z.of_nat (S q)) with (a + 1 + Z.of_nat q) by lia.
    apply IH; lia.
Qed.

Lemma full_symbol (c : value) :
  (forall b, (b < 6)%nat ->
     nth b (BitFieldReader.symbolBits (JS.index base64CharCodeToInt c)) false = true) ->
  c = Num 95.
Proof.
  intros H.
  assert (Hall : forallb (fun b => nth b (BitFieldReader.symbolBits
                                          (JS.index base64CharCodeToInt c)) false)
                   (seq 0 6) = true).
  { apply forallb_forall. intros b Hb. apply in_seq in Hb. apply H. lia. }
  clear H.
  destruct c as [z| |]; try discriminate Hall.
  destruct (Z.ltb_spec z 0) as [Hneg|Hpos].
  { unfold JS.index in Hall. destruct (Z.ltb_spec z 0); [discriminate Hall | lia]. }
  destruct (Z.ltb_spec z 128) as [Hlt|Hge].
  - assert (Htable :
      forallb (fun z => implb
                 (forallb (fun b => nth b (BitFieldReader.symbolBits
                                       (JS.index base64CharCodeToInt (Num (Z.of_nat z)))) false)
                    (seq 0 6))
                 (Nat.eqb z 95)) (seq 0 128) = true) by (vm_compute; reflexivity).
    rewrite forallb_forall in Htable.
    specialize (Htable (Z.to_nat z)). rewrite Z2Nat.id in Htable by lia.
    rewrite Hall in Htable. cbn [implb] in Htable.
    specialize (Htable ltac:(apply in_seq; lia)).
    apply Nat.eqb_eq in Htable. f_equal. lia.
  - exfalso. unfold JS.index in Hall.
    destruct (Z.ltb_spec z 0); [lia|].
    destruct (nth_error base64CharCodeToInt (Z.to_nat z)) eqn:E; [|discriminate Hall].
    assert (Hsome : nth_error base64CharCodeToInt (Z.to_nat z) <> None) by congruence.
    apply nth_error_Some in Hsome. cbn in Hsome. lia.
Qed.


Lemma charCodeAt_underscore (s : string) (x : Z) :
  JS.charCodeAt s (Num x) = Num 95 ->
  0 <= x /\ String.get (Z.to_nat x) s = Some "_"%char.
Proof.
  unfold JS.charCodeAt. destruct (Z.ltb_spec x 0); [discriminate|].
  destruct (String.get (Z.to_nat x) s) as [c|]; [|discriminate].
  intros E. injection E as E. split; [assumption|]. f_equal.
  rewrite <- (ascii_nat_embedding c).
  replace (nat_of_ascii c) with 95%nat by lia. reflexivity.
Qed.

Lemma underscores_get (n : nat) :
  forall s, (forall m, (m < n)%nat -> String.get m s = Some "_"%char) ->
            underscores n s = true.
Proof.
  induction n as [|n IH]; intros s H; cbn [underscores]; [reflexivity|].
  destruct s as [|c rest]; [discriminate (H 0%nat ltac:(lia))|].
  pose proof (H 0%nat ltac:(lia)) as H0. cbn in H0. injection H0 as ->.
  rewrite Ascii.eqb_refl. cbn [andb]. apply IH. intros m Hm.
  apply (H (S m)). lia.
Qed.

Lemma fourUnderscores_get (s : string) :
  forall k, (forall m, (m < 4)%nat -> String.get (k + m) s = Some "_"%char) ->
            fourUnderscores s = true.
Proof.
  induction s as [|c rest IH]; intros k H.
  - discriminate (H 0%nat ltac:(lia)).
  - cbn [fourUnderscores]. destruct k as [|k].
    + rewrite (underscores_get 4 (String c rest)) by exact H. reflexivity.
    + rewrite (IH k); [apply orb_true_r|]. intros m Hm. apply (H m Hm).
Qed.

Lemma existsb_false (A : Type) (f : A -> bool) (l : list A) (x : A) :
  existsb f l = false -> In x l -> f x = false.
Proof.
  intros H Hx. destruct (f x) eqn:E; [|reflexivity].
  rewrite <- H. symmetry. apply existsb_exists. eauto.
Qed.

Lemma runFree_collect (s : string) (a : Z) (n : nat) :
  fourUnderscores s = false -> runFree (BitFieldReader.collect s a n).
Proof.
  intros Hs i. set (bits := BitFieldReader.collect s a n).
  set (j := ((i + 5) / 6)%nat).
  assert (Hj : (6 * j <= i + 5 < 6 * j + 6)%nat).
  { pose proof (Nat.div_mod_eq (i + 5) 6). pose proof (Nat.mod_upper_bound (i + 5) 6).
    subst j. lia. }
  assert (Hj' : (i <= 6 * j)%nat).
  { pose proof (Nat.div_mod_eq (i + 5) 6). pose proof (Nat.mod_upper_bound (i + 5) 6).
    subst j. lia. }
  destruct (Nat.leb_spec (j + 4) n) as [Hin|Hout].
  - destruct (existsb (fun p => negb (nth p bits false)) (seq (6 * j) 24)) eqn:E.
    + apply existsb_exists in E. destruct E as (p & Hp & Hbit).
      apply in_seq in Hp. exists (p - i)%nat. split; [lia|].
      replace (i + (p - i))%nat with p by lia.
      now destruct (nth p bits false).
    + exfalso.
      assert (Hfull : forall m, (m < 4)%nat ->
                0 <= a + Z.of_nat (j + m)
                /\ String.get (Z.to_nat (a + Z.of_nat (j + m))) s = Some "_"%char).
      { intros m Hm. apply charCodeAt_underscore, full_symbol. intros b Hb.
        rewrite <- (nth_collect s n) by lia. fold bits.
        pose proof (existsb_false _ _ _ (6 * (j + m) + b)%nat E
                      ltac:(apply in_seq; lia)) as Hbit.
        cbv beta in Hbit. now destruct (nth (6 * (j + m) + b) bits false). }
      assert (fourUnderscores s = true); [|congruence].
      apply (fourUnderscores_get s (Z.to_nat (a + Z.of_nat j))).
      intros m Hm. destruct (Hfull m Hm) as [_ Hget].
      destruct (Hfull 0%nat ltac:(lia)) as [H0 _].
      replace (Z.to_nat (a + Z.of_nat j) + m)%nat with (Z.to_nat (a + Z.of_nat (j + m)))
        by lia.
      exact Hget.
  - exists (6 * n - i)%nat. split; [lia|].
    apply nth_overflow. subst bits. rewrite collect_length. lia.
Qed.


(** ** The notes of a pattern *)

Ltac step E :=
  match type of E with
  | context [let (_, _) := ?x in _] => destruct x eqn:?
  | context [rbind ?x _] => destruct x as [?| |] eqn:?; cbn [rbind] in E; try discriminate E
  | context [if ?b then _ else _] => destruct b eqn:?
  | context [match ?x with _ => _ end] => destruct x eqn:?; try discriminate E
  end.

Section Patterns.

Variables b3 b7 : bool.
Hypothesis chord : 1 <= maxChordSize cfg.
Hypothesis rhythms : rhythmsOk cfg = true.

Lemma readDuration_bound (rhythm : value) (r r' : BitFieldReader.t) (d : Z) :
  runFree (BitFieldReader._bits r) ->
  readDuration cfg b7 rhythm r = Ok (d, r') ->
  1 <= d /\ BitFieldReader._bits r' = BitFieldReader._bits r.
Proof.
  intros Hfree E. unfold readDuration in E. destruct b7.
  - unfold BitFieldReader.readLegacyPartDuration in E.
    pose proof (readLongTail_bound 1 2 r Hfree ltac:(lia)) as Hd.
    pose proof (readLongTail_bits 1 2 r) as Hb.
    destruct (BitFieldReader.readLongTail 1 2 r) as [d0 r0]. cbn [fst snd] in *.
    destruct (at_ (rhythms_stepsPerBeat cfg) rhythm) as [stepsPerBeat|] eqn:Es;
      [|discriminate].
    injection E as <- <-. split; [|assumption].
    unfold rhythmsOk in rhythms. apply andb_true_iff in rhythms.
    destruct rhythms as [Hp Hall].
    pose proof (forallb_at _ _ _ _ _ Hall Es) as Hs. cbv beta in Hs.
    apply andb_true_iff in Hs. destruct Hs as [Hs1 Hs2].
    apply Z.ltb_lt in Hp, Hs1. apply Z.eqb_eq in Hs2.
    apply Z.mod_divide in Hs2; [|lia].
    apply Z.divide_pos_le in Hs2; [|lia].
    apply Z.div_le_lower_bound; [lia|nia].
  - unfold BitFieldReader.readPartDuration in E.
    pose proof (readLongTail_bound 1 3 r Hfree ltac:(lia)) as Hd.
    pose proof (readLongTail_bits 1 3 r) as Hb.
    destruct (BitFieldReader.readLongTail 1 3 r) as [d0 r0]. cbn [fst snd] in *.
    injection E as <- <-. auto.
Qed.

Lemma risingFrom_app (pins : list ShapePin) :
  forall t mid p,
    risingFrom t pins mid -> mid < pin_time p ->
    risingFrom t (pins ++ [p]) (pin_time p).
Proof.
  induction pins as [|q pins IH]; intros t mid p H Hlt; cbn [app risingFrom] in *.
  - subst mid. auto.
  - destruct H as [H1 H2]. split; [assumption|]. eapply IH; eauto.
Qed.

Lemma readShapePins_spec (count : nat) :
  forall rhythm length bendCount pins r pins' length' bendCount' r' t,
    runFree (BitFieldReader._bits r) ->
    risingFrom t pins length ->
    readShapePins cfg b7 count rhythm length bendCount pins r
    = Ok (pins', length', bendCount', r') ->
    BitFieldReader._bits r' = BitFieldReader._bits r
    /\ risingFrom t pins' length'
    /\ List.length pins' = (List.length pins + count)%nat
    /\ bendCount <= bendCount'.
Proof.
  induction count as [|count IH];
    intros rhythm length bendCount pins r pins' length' bendCount' r' t Hfree Hrise E;
    cbn [readShapePins] in E.
  - injection E as <- <- <- <-. repeat split; auto; lia.
  - pose proof (read_bits 1 r) as Hb1.
    destruct (BitFieldReader.read 1 r) as [b r1]. cbn [snd] in Hb1.
    destruct (readDuration cfg b7 rhythm r1) as [[d r2]| |] eqn:Ed; try discriminate.
    cbn [rbind] in E.
    assert (Hfree1 : runFree (BitFieldReader._bits r1)) by (rewrite Hb1; exact Hfree).
    destruct (readDuration_bound rhythm r1 r2 d Hfree1 Ed) as [Hd Hb2].
    pose proof (read_bits 2 r2) as Hb3.
    destruct (BitFieldReader.read 2 r2) as [e r3]. cbn [snd] in Hb3.
    apply (IH _ _ _ _ _ _ _ _ _ t) in E.
    + destruct E as (H1 & H2 & H3 & H4). rewrite length_app in H3. cbn in H3.
      repeat split; try congruence; try lia.
      destruct (eqz b 1); lia.
    + rewrite Hb3, Hb2. exact Hfree1.
    + apply (risingFrom_app pins t length (Build_ShapePin (eqz b 1) (length + d) e));
        [assumption | cbn; lia].
Qed.

Lemma readPitchCount_spec (fuel : nat) :
  forall count r,
    1 <= count <= maxChordSize cfg ->
    1 <= fst (readPitchCount cfg fuel count r) <= maxChordSize cfg
    /\ BitFieldReader._bits (snd (readPitchCount cfg fuel count r))
       = BitFieldReader._bits r.
Proof.
  induction fuel as [|fuel IH]; intros count r H; cbn [readPitchCount].
  - cbn. auto.
  - destruct (Z.ltb_spec count (maxChordSize cfg)); [|cbn; auto].
    pose proof (read_bits 1 r) as Hb.
    destruct (BitFieldReader.read 1 r) as [b r1]. cbn [snd] in Hb.
    destruct (eqz b 1); [|cbn; auto].
    destruct (IH (count + 1) r1 ltac:(lia)) as [H1 H2]. split; [assumption|congruence].
Qed.

Lemma readShape_spec (rhythm : value) (r r' : BitFieldReader.t) (shape : Shape) :
  runFree (BitFieldReader._bits r) ->
  readShape cfg b7 rhythm r = Ok (shape, r') ->
  shapeOk cfg shape /\ BitFieldReader._bits r' = BitFieldReader._bits r.
Proof.
  intros Hfree E. unfold readShape in E.
  destruct (readPitchCount_spec (Z.to_nat (maxChordSize cfg - 1)) 1 r ltac:(lia))
    as [Hcount Hb1].
  destruct (readPitchCount cfg _ 1 r) as [pitchCount r1]. cbn [fst snd] in *.
  assert (Hfree1 : runFree (BitFieldReader._bits r1)) by (rewrite Hb1; exact Hfree).
  pose proof (readLongTail_bound 1 0 r1 Hfree1 ltac:(lia)) as Hpins.
  pose proof (readLongTail_bits 1 0 r1) as Hb2.
  unfold BitFieldReader.readPinCount in E.
  destruct (BitFieldReader.readLongTail 1 0 r1) as [pinCount r2]. cbn [fst snd] in *.
  pose proof (read_bits 2 r2) as Hb3.
  destruct (BitFieldReader.read 2 r2) as [e r3]. cbn [snd] in Hb3.
  destruct (readShapePins cfg b7 (Z.to_nat pinCount) rhythm 0 0 [] r3)
    as [[[[pins length] bendCount] r4]| |] eqn:Ep; try discriminate.
  cbn [rbind] in E. injection E as <- <-.
  apply (readShapePins_spec _ _ _ _ _ _ _ _ _ _ 0) in Ep;
    [|rewrite Hb3, Hb2; exact Hfree1|reflexivity].
  destruct Ep as (H1 & H2 & H3 & H4). cbn [List.length Nat.add] in H3.
  split; [|congruence].
  unfold shapeOk. cbn. repeat split; try assumption; try lia.
  intros ->. cbn in H3. lia.
Qed.


Lemma readPitch_spec (c c' : Cursor) (p : value) :
  readPitch c = Ok (p, c') ->
  BitFieldReader._bits (bits c') = BitFieldReader._bits (bits c)
  /\ recentShapes c' = recentShapes c.
Proof.
  intros E. unfold readPitch in E.
  pose proof (read_bits 1 (bits c)) as Hb1.
  destruct (BitFieldReader.read 1 (bits c)) as [b r]. cbn [snd] in Hb1.
  destruct (negb (eqz b 1)).
  - pose proof (readPitchInterval_bits r) as Hb2.
    destruct (BitFieldReader.readPitchInterval r) as [interval r1]. cbn [snd] in Hb2.
    cbn [rbind] in E. injection E as _ <-. cbn. split; congruence.
  - pose proof (read_bits 3 r) as Hb2.
    destruct (BitFieldReader.read 3 r) as [v r1]. cbn [snd] in Hb2.
    destruct (validateRange _ _ v); try discriminate.
    cbn [rbind] in E. injection E as _ <-. cbn. split; congruence.
Qed.

Lemma readPitches_spec (count : nat) :
  forall j shapePitchCount pitches pitchBends c pitches' pitchBends' c',
    readPitches count j shapePitchCount pitches pitchBends c
    = Ok (pitches', pitchBends', c') ->
    Z.of_nat (List.length pitches) <= j ->
    Z.of_nat (List.length pitches) <= shapePitchCount ->
    Z.of_nat (List.length pitches') <= shapePitchCount
    /\ BitFieldReader._bits (bits c') = BitFieldReader._bits (bits c)
    /\ recentShapes c' = recentShapes c.
Proof.
  induction count as [|count IH];
    intros j shapePitchCount pitches pitchBends c pitches' pitchBends' c' E Hj Hp;
    cbn [readPitches] in E.
  - injection E as <- <- <-. auto.
  - destruct (readPitch c) as [[pitch c1]| |] eqn:E1; try discriminate.
    cbn [rbind] in E. apply readPitch_spec in E1. destruct E1 as [Hb Hs].
    apply IH in E.
    + cbn [bits recentShapes] in E. destruct E as (H1 & H2 & H3).
      repeat split; congruence.
    + destruct (Z.ltb_spec j shapePitchCount); [rewrite length_app; cbn|]; lia.
    + destruct (Z.ltb_spec j shapePitchCount); [rewrite length_app; cbn|]; lia.
Qed.

Lemma makePins_times (pins : list ShapePin) :
  forall pitchBends firstPitch,
    map NotePin.time (makePins pins pitchBends firstPitch)
    = map (fun p => Num (pin_time p)) pins.
Proof.
  induction pins as [|p pins IH]; intros pitchBends firstPitch; cbn [makePins map];
    [reflexivity|].
  cbn [NotePin.time]. f_equal. apply IH.
Qed.

Lemma last_time (pins : list NotePin.t) (d : NotePin.t) :
  NotePin.time (last pins d) = last (map NotePin.time pins) (NotePin.time d).
Proof.
  induction pins as [|p [|q pins] IH]; [reflexivity | reflexivity |].
  exact IH.
Qed.

Lemma rising_times (pins : list ShapePin) :
  forall t final d,
    risingFrom t pins final ->
    strictlyIncreasing (Num t :: map (fun p => Num (pin_time p)) pins) = true
    /\ last (Num t :: map (fun p => Num (pin_time p)) pins) d = Num final
    /\ t <= final
    /\ (pins <> [] -> t < final).
Proof.
  induction pins as [|p pins IH]; intros t final d H; cbn [risingFrom] in H.
  - subst. cbn. repeat split; try lia. congruence.
  - destruct H as [Hlt H]. destruct (IH (pin_time p) final d H) as (H1 & H2 & H3 & H4).
    cbn [map]. repeat split.
    + change (strictlyIncreasing (Num t :: Num (pin_time p) :: ?l))
        with (JS.lt (Num t) (Num (pin_time p)) && strictlyIncreasing (Num (pin_time p) :: l)).
      cbn [map] in H1. rewrite H1. cbn [JS.lt].
      replace (t <? pin_time p) with true by (symmetry; apply Z.ltb_lt; lia).
      reflexivity.
    + cbn [map] in H2. exact H2.
    + lia.
    + intros _. lia.
Qed.

Lemma readNote_spec (shape : Shape) (curPart : Z) (c c' : Cursor) (note : Note.t) :
  shapeOk cfg shape ->
  readNote shape curPart c = Ok (note, c') ->
  noteOk cfg note = true
  /\ BitFieldReader._bits (bits c') = BitFieldReader._bits (bits c)
  /\ recentShapes c' = recentShapes c.
Proof.
  intros (Hne & Hrise & Hcount & Hbend) E. unfold readNote in E.
  destruct (readPitches _ 0 (pitchCount shape) [] [] c)
    as [[[pitches pitchBends] c1]| |] eqn:Ep; try discriminate.
  cbn [rbind] in E. injection E as <- <-.
  apply readPitches_spec in Ep; [|cbn; lia|cbn; lia].
  destruct Ep as (Hlen & Hb & Hs). split; [|auto].
  set (dflt := NotePin.mk Undefined Undefined Undefined).
  destruct (rising_times _ _ _ (NotePin.time dflt) Hrise) as (H1 & H2 & H3 & H4).
  specialize (H4 Hne).
  unfold noteOk.
  cbn [Note.pins Note.pitches Note.start Note.end_ NotePin.time NotePin.interval].
  fold dflt. rewrite last_time. cbn [map NotePin.time].
  rewrite makePins_times, H1, H2.
  cbn [strictEq JS.sub JS.gt JS.lt andb].
  replace (0 =? 0) with true by reflexivity.
  replace (shape_length shape =? curPart + shape_length shape - curPart) with true
    by (symmetry; apply Z.eqb_eq; lia).
  replace (Z.of_nat (List.length pitches) <=? maxChordSize cfg) with true
    by (symmetry; apply Z.leb_le; lia).
  replace (curPart <? curPart + shape_length shape) with true
    by (symmetry; apply Z.ltb_lt; lia).
  reflexivity.
Qed.

Lemma Forall_firstn (A : Type) (P : A -> Prop) (n : nat) (l : list A) :
  Forall P l -> Forall P (firstn n l).
Proof.
  intros H. revert n. induction H as [|x l Hx Hl IH]; intros [|n]; cbn [firstn];
    constructor; auto.
Qed.

Lemma Forall_skipn (A : Type) (P : A -> Prop) (n : nat) (l : list A) :
  Forall P l -> Forall P (skipn n l).
Proof.
  intros H. revert n. induction H as [|x l Hx Hl IH]; intros [|n]; cbn [skipn];
    auto.
Qed.

Lemma Forall_removelast (A : Type) (P : A -> Prop) (l : list A) :
  Forall P l -> Forall P (removelast l).
Proof.
  intros H. induction H as [|x l Hx Hl IH]; [constructor|].
  cbn [removelast]. destruct l; [constructor|]. constructor; assumption.
Qed.

Lemma Forall_unshiftCapped (A : Type) (P : A -> Prop) (limit : nat) (x : A) (l : list A) :
  P x -> Forall P l -> Forall P (unshiftCapped limit x l).
Proof.
  intros Hx Hl. unfold unshiftCapped.
  assert (H : Forall P (x :: l)) by (constructor; assumption).
  destruct (limit <? List.length (x :: l))%nat; [|exact H].
  now apply Forall_removelast.
Qed.

Lemma Forall_removeAt (A : Type) (P : A -> Prop) (i : nat) (l : list A) :
  Forall P l -> Forall P (removeAt i l).
Proof.
  intros H. unfold removeAt. apply Forall_app. split.
  - now apply Forall_firstn.
  - now apply Forall_skipn.
Qed.

Lemma readNotes_spec (bits0 : list bool) (fuel : nat) :
  runFree bits0 ->
  forall rhythm maxPart curPart newNotes c notes' c',
    cursorOk cfg bits0 c ->
    forallb (noteOk cfg) newNotes = true ->
    readNotes cfg b7 fuel rhythm maxPart curPart newNotes c = Ok (notes', c') ->
    forallb (noteOk cfg) notes' = true /\ cursorOk cfg bits0 c'.
Proof.
  intros Hfree. induction fuel as [|fuel IH];
    intros rhythm maxPart curPart newNotes c notes' c' [Hbits Hshapes] Hnotes E;
    cbn [readNotes] in E; [discriminate|].
  destruct (JS.lt (Num curPart) maxPart);
    [|injection E as <- <-; split; [assumption | split; assumption]].
  pose proof (read_bits 1 (bits c)) as Hb1.
  destruct (BitFieldReader.read 1 (bits c)) as [b r1]. cbn [snd] in Hb1.
  destruct (eqz b 1).
  - pose proof (readLongTail_bits 0 0 r1) as Hb2.
    destruct (BitFieldReader.readLongTail 0 0 r1) as [v r2]. cbn [snd] in Hb2.
    destruct (validateRange _ _ (Num v)) as [shapeIndex| |]; try discriminate.
    cbn [rbind] in E.
    destruct (nth_error (recentShapes c) (turns shapeIndex)) as [shape|] eqn:Es;
      [|discriminate].
    assert (Hshape : shapeOk cfg shape).
    { rewrite Forall_forall in Hshapes. apply Hshapes. eapply nth_error_In; eauto. }
    destruct (readNote shape curPart _) as [[note c1]| |] eqn:En; try discriminate.
    cbn [rbind] in E.
    destruct (readNote_spec _ _ _ _ _ Hshape En) as (Hnote & Hb3 & Hs3).
    cbn [bits recentShapes] in Hb3, Hs3.
    destruct (validateRange (Num 0) maxPart (Note.end_ note)) as [curPart'| |];
      try discriminate.
    cbn [rbind] in E. eapply IH; [| |exact E].
    + split; [congruence|]. rewrite Hs3.
      apply Forall_unshiftCapped; [assumption|]. now apply Forall_removeAt.
    + rewrite forallb_app, Hnotes. cbn. now rewrite Hnote.
  - pose proof (read_bits 1 r1) as Hb2.
    destruct (BitFieldReader.read 1 r1) as [b' r2]. cbn [snd] in Hb2.
    assert (Hfree2 : runFree (BitFieldReader._bits r2))
      by (rewrite Hb2, Hb1, Hbits; exact Hfree).
    destruct (negb (eqz b' 1)).
    + destruct (readDuration cfg b7 rhythm r2) as [[restLength r3]| |] eqn:Ed;
        try discriminate.
      cbn [rbind] in E.
      destruct (readDuration_bound _ _ _ _ Hfree2 Ed) as [_ Hb3].
      eapply IH; [| |exact E]; [|assumption].
      split; [cbn; congruence | exact Hshapes].
    + destruct (readShape cfg b7 rhythm r2) as [[shape r3]| |] eqn:Esh;
        try discriminate.
      cbn [rbind] in E.
      destruct (readShape_spec _ _ _ _ Hfree2 Esh) as [Hshape Hb3].
      destruct (readNote shape curPart _) as [[note c1]| |] eqn:En; try discriminate.
      cbn [rbind] in E.
      destruct (readNote_spec _ _ _ _ _ Hshape En) as (Hnote & Hb4 & Hs4).
      cbn [bits recentShapes] in Hb4, Hs4.
      destruct (validateRange (Num 0) maxPart (Note.end_ note)) as [curPart'| |];
        try discriminate.
      cbn [rbind] in E. eapply IH; [| |exact E].
      * split; [congruence|]. rewrite Hs4.
        now apply Forall_unshiftCapped.
      * rewrite forallb_app, Hnotes. cbn. now rewrite Hnote.
Qed.

Lemma readPatterns_spec (bits0 : list bool) (fuel count : nat) :
  runFree bits0 ->
  forall i neededInstrumentBits rhythm maxPart patterns c patterns' c',
    cursorOk cfg bits0 c ->
    forallb (patternOk cfg) patterns = true ->
    readPatterns cfg b3 b7 fuel count i neededInstrumentBits rhythm maxPart patterns c
    = Ok (patterns', c') ->
    forallb (patternOk cfg) patterns' = true /\ cursorOk cfg bits0 c'.
Proof.
  intros Hfree. induction count as [|count IH];
    intros i neededInstrumentBits rhythm maxPart patterns c patterns' c'
      [Hbits Hshapes] Hpatterns E;
    cbn [readPatterns] in E.
  - injection E as <- <-. split; [assumption | split; assumption].
  - destruct (nth_error patterns i) as [newPattern|] eqn:Ei; [|discriminate].
    pose proof (read_bits neededInstrumentBits (bits c)) as Hb1.
    destruct (BitFieldReader.read neededInstrumentBits (bits c)) as [instrument r1].
    cbn [snd] in Hb1.
    assert (Hread : exists empty r2,
               (if b3 then (false, r1)
                else let (b, r) := BitFieldReader.read 1 r1 in (eqz b 0, r)) = (empty, r2)
               /\ BitFieldReader._bits r2 = BitFieldReader._bits r1).
    { destruct b3; [eauto|].
      pose proof (read_bits 1 r1) as Hb2.
      destruct (BitFieldReader.read 1 r1) as [b r2]. eauto. }
    destruct Hread as (empty & r2 & Hr & Hb2). rewrite Hr in E.
    match type of E with context [rbind ?u _] =>
      destruct u as [[newNotes c1]| |] eqn:En; try discriminate end.
    cbn [rbind] in E.
    assert (Hc1 : forallb (noteOk cfg) newNotes = true /\ cursorOk cfg bits0 c1).
    { destruct empty.
      - injection En as <- <-. split; [reflexivity|]. split; [cbn; congruence|assumption].
      - refine (readNotes_spec bits0 fuel Hfree _ _ _ [] _ _ _ _ eq_refl En).
        split; [cbn; congruence|assumption]. }
    destruct Hc1 as [Hnew Hc1].
    eapply IH; [exact Hc1| |exact E].
    apply forallb_setAt; [assumption|exact Hnew|].
    eapply forallb_nth_error; eauto.
Qed.

Lemma readChannels_spec (fuel turnsLeft : nat) :
  forall neededInstrumentBits channel r s s',
    runFree (BitFieldReader._bits r) ->
    songOk cfg s = true ->
    readChannels cfg b3 b7 fuel turnsLeft neededInstrumentBits channel r s = Ok s' ->
    songOk cfg s' = true.
Proof.
  induction turnsLeft as [|turnsLeft IH];
    intros neededInstrumentBits channel r s s' Hfree Hs E; cbn [readChannels] in E;
    [discriminate|].
  match type of E with context [rbind ?u _] =>
    destruct u as [octaveOffset| |]; try discriminate end.
  cbn [rbind] in E.
  match type of E with context [rbind ?u _] =>
    destruct u as [[s1 c1]| |] eqn:E1; try discriminate end.
  cbn [rbind] in E.
  assert (H1 : songOk cfg s1 = true
               /\ runFree (BitFieldReader._bits (bits c1))).
  { destruct (turns (Song.patternsPerChannel s) =? 0)%nat.
    - injection E1 as <- <-. split; assumption.
    - destruct (at_ (Song.channels s) channel) as [ch|] eqn:Ech; [|discriminate].
      match type of E1 with context [rbind ?u _] =>
        destruct u as [[patterns c2]| |] eqn:E2; try discriminate end.
      cbn [rbind] in E1.
      match type of E1 with context [rbind ?u _] =>
        destruct u as [s2| |] eqn:E3; try discriminate end.
      cbn [rbind] in E1. injection E1 as <- <-.
      apply (readPatterns_spec (BitFieldReader._bits r)) in E2; [|assumption| |].
      + destruct E2 as [Hp [Hb _]]. split; [|rewrite Hb; assumption].
        eapply sKeeps_updChannel; [|exact Hs|exact E3].
        intros c c' _ Ec. injection Ec as <-. exact Hp.
      + split; [reflexivity|constructor].
      + unfold songOk in Hs. apply (forallb_at _ _ _ _ _ Hs Ech). }
  destruct H1 as [Hs1 Hfree1].
  destruct b3; [injection E as <-; assumption|].
  destruct (JS.ge _ _); [injection E as <-; assumption|].
  eapply IH; eauto.
Qed.

Lemma runFree_make (compressed : string) (start stop : value) :
  fourUnderscores compressed = false ->
  runFree (BitFieldReader._bits (BitFieldReader.make compressed start stop)).
Proof.
  intros H. unfold BitFieldReader.make.
  destruct start as [a| |]; try destruct stop as [b| |]; cbn [BitFieldReader._bits];
    try (apply runFree_collect; assumption);
    intros i; exists 0%nat; (split; [lia|]); now destruct (i + 0)%nat.
Qed.

Lemma keeps_readLength (compressed : string) (n : nat) :
  forall length, keeps cfg (readLength compressed n length).
Proof.
  induction n as [|n IH]; intros length; cbn [readLength].
  - apply keeps_ret.
  - apply keeps_bind; [apply keeps_readSymbol|]. intros v. apply IH.
Qed.

Lemma keeps_tag_patterns (compressed : string) (fuel : nat) :
  fourUnderscores compressed = false ->
  keeps cfg (tag_patterns cfg compressed b3 b7 fuel).
Proof.
  intros Hu. unfold tag_patterns.
  apply keeps_bind.
  { destruct b3; repeat first [apply keeps_readLength | keeps_step]. }
  intros [channel bitStringLength].
  apply keeps_bind; [apply keeps_gets|]. intros start.
  apply keeps_bind; [apply keeps_skip|]. intros _.
  apply keeps_bind; [apply keeps_gets|]. intros s.
  apply keeps_bind; [apply keeps_lift|]. intros neededInstrumentBits.
  apply keeps_modifySong. intros s0 s' H E.
  eapply readChannels_spec; [|exact H|exact E].
  now apply runFree_make.
Qed.

(** Every turn of the tag loop, and the loop. *)
Lemma keeps_tagStep (compressed : string) (b4 b5 b6 b8 b9 : bool) (fuel : nat) :
  fourUnderscores compressed = false ->
  keeps cfg (tagStep cfg num compressed b3 b4 b5 b6 b7 b8 b9 fuel).
Proof.
  intros Hu. unfold tagStep.
  apply keeps_bind; [apply keeps_gets|]. intros at_index.
  apply keeps_bind; [apply keeps_modify; reflexivity|]. intros _.
  destruct (tagOfCharCode _) as [tag|].
  - apply keeps_dispatch. now apply keeps_tag_patterns.
  - apply keeps_bind; [apply keeps_gets|]. intros index. apply keeps_throw.
Qed.

Lemma tagLoop_keeps (compressed : string) (b4 b5 b6 b8 b9 : bool) (fuel turnsLeft : nat) :
  fourUnderscores compressed = false ->
  forall d d',
    songOk cfg (song d) = true ->
    tagLoop cfg num compressed b3 b4 b5 b6 b7 b8 b9 fuel turnsLeft d = Ok d' ->
    songOk cfg (song d') = true.
Proof.
  intros Hu. induction turnsLeft as [|t IH]; intros d d' H E; cbn [tagLoop] in E;
    [discriminate|].
  destruct (JS.lt (charIndex d) _); [|injection E as <-; exact H].
  destruct (tagStep cfg num compressed b3 b4 b5 b6 b7 b8 b9 fuel d)
    as [[u d1]| |] eqn:Es; try discriminate.
  cbn [rbind] in E. eapply IH; [|exact E].
  eapply keeps_tagStep; eauto.
Qed.

End Patterns.

(** The song before the tag loop. *)
Lemma initChannel_ok (channelIndex : nat) (c c' : Channel.t) :
  initChannel cfg channelIndex c = Ok c' -> channelOk cfg c' = true.
Proof.
  unfold initChannel. cbv zeta. intros E.
  destruct (growTo 1 _ _) as [|ins rest]; [discriminate|].
  destruct (setTypeAndReset cfg _ _ ins); try discriminate.
  injection E as <-. unfold channelOk.
  cbn [Channel.patterns Channel.set_bars Channel.set_instruments Channel.set_patterns
       Channel.set_octave].
  apply (forallb_firstn _ _ 8), forallb_growTo; [|reflexivity].
  apply forallb_forall. intros p Hp. apply in_map_iff in Hp.
  destruct Hp as (q & <- & _). reflexivity.
Qed.

Lemma initChannels_ok (channels : list Channel.t) :
  forall channelIndex channels',
    initChannels cfg channelIndex channels = Ok channels' ->
    forallb (channelOk cfg) channels' = true.
Proof.
  induction channels as [|c rest IH]; intros channelIndex channels' E;
    cbn [initChannels] in E.
  - injection E as <-. reflexivity.
  - destruct (initChannel cfg channelIndex c) as [c'| |] eqn:Ec; try discriminate.
    destruct (initChannels cfg (S channelIndex) rest) as [rest'| |] eqn:Er;
      try discriminate.
    injection E as <-. cbn [forallb].
    rewrite (initChannel_ok _ _ _ Ec), (IH _ _ Er). reflexivity.
Qed.

Lemma initToDefault_ok (andResetChannels : bool) (s s' : Song.t) :
  songOk cfg s = true ->
  initToDefault cfg andResetChannels s = Ok s' ->
  songOk cfg s' = true.
Proof.
  intros H E. unfold initToDefault in E. cbv zeta in E. destruct andResetChannels.
  - match type of E with context [initChannels cfg 0 ?l] =>
      destruct (initChannels cfg 0 l) as [channels| |] eqn:Ec; try discriminate end.
    injection E as <-. unfold songOk. cbn. eapply initChannels_ok; eauto.
  - injection E as <-. exact H.
Qed.

Lemma seamlessChannels_ok (channels : list Channel.t) :
  forall channels',
    forallb (channelOk cfg) channels = true ->
    seamlessChannels channels = Ok channels' ->
    forallb (channelOk cfg) channels' = true.
Proof.
  induction channels as [|c rest IH]; intros channels' H E; cbn [seamlessChannels] in E.
  - injection E as <-. reflexivity.
  - destruct (Channel.instruments c) as [|ins others]; [discriminate|].
    destruct (seamlessChannels rest) as [rest'| |] eqn:Er; try discriminate.
    cbn [rbind] in E. injection E as <-.
    cbn [forallb] in *. apply andb_true_iff in H. destruct H as [Hc Hrest].
    rewrite (IH _ Hrest eq_refl). unfold channelOk in *. cbn. now rewrite Hc.
Qed.

Lemma beforeLoop_ok (version : value) (charIndex : Z) (this : Song.t) (d : Decoder) :
  songOk cfg this = true ->
  beforeLoop cfg version charIndex this = Ok d ->
  songOk cfg (song d) = true.
Proof.
  intros H E. unfold beforeLoop in E. cbv zeta in E.
  destruct (initToDefault cfg _ this) as [s1| |] eqn:E1; try discriminate.
  cbn [rbind] in E. apply initToDefault_ok in E1; [|assumption].
  match type of E with context [rbind ?u _] =>
    destruct u as [s2| |] eqn:E2; try discriminate end.
  cbn [rbind] in E. injection E as <-. cbn [song].
  destruct (JS.lt version (Num 3)).
  - destruct (seamlessChannels (Song.channels s1)) as [channels| |] eqn:Ec;
      try discriminate.
    cbn [rbind] in E2. eapply sKeeps_updInstrument; [|exact E2].
    unfold songOk. cbn. eapply seamlessChannels_ok; eauto.
  - injection E2 as <-. exact E1.
Qed.

Lemma tags_keeps (fuel : nat) (compressed : string) (version : value) (d d' : Decoder) :
  1 <= maxChordSize cfg ->
  rhythmsOk cfg = true ->
  fourUnderscores compressed = false ->
  songOk cfg (song d) = true ->
  tags cfg num fuel compressed version d = Ok d' ->
  songOk cfg (song d') = true.
Proof.
  intros Hchord Hrhythms Hu H E. unfold tags in E.
  eapply (tagLoop_keeps _ _ Hchord Hrhythms compressed _ _ _ _ _ _ _ Hu d d' H).
  exact E.
Qed.

Lemma rbind_Ok (A B : Type) (r : Result A) (k : A -> Result B) (b : B) :
  rbind r k = Ok b -> exists a, r = Ok a /\ k a = Ok b.
Proof. destruct r as [a| |]; try discriminate. intros E. exists a. auto. Qed.

(** The call past the test for the JSON form. *)
Lemma binary_keeps (fuel : nat) (compressed : string) (version : value) (i : Z)
  (this s : Song.t) :
  1 <= maxChordSize cfg ->
  rhythmsOk cfg = true ->
  fourUnderscores compressed = false ->
  songOk cfg this = true ->
  (if unsupported version then Ok this
   else
     let* d := beforeLoop cfg version i this in
     let* d := tags cfg num fuel compressed version d in
     Ok (song d)) = Ok s ->
  songOk cfg s = true.
Proof.
  intros Hchord Hrhythms Hu Hthis E.
  destruct (unsupported version).
  - injection E as <-. exact Hthis.
  - apply rbind_Ok in E. destruct E as (d0 & E0 & E).
    apply rbind_Ok in E. destruct E as (d & E1 & E).
    injection E as <-.
    exact (tags_keeps _ _ _ _ _ Hchord Hrhythms Hu (beforeLoop_ok _ _ _ _ Hthis E0) E1).
Qed.

(** X28.  The notes the decoder leaves are valid when no pin count or duration
    can overflow: with a chord size of 1 or more and rhythms that divide the
    parts of a beat, a string of the binary form that has no four ['_'] in a
    row (a run of 29 one-bits, which the overflow of [1 << numBits] takes,
    needs four) decodes, when it decodes, to a song whose notes all have a
    first pin of time 0 and interval 0, a last pin at [end - start],
    strictly increasing pin times, at most [maxChordSize] pitches and
    [end > start]; the notes the song had before are taken to be such
    notes.  The condition on the string is sufficient, not necessary. *)
Theorem decoded_notes_valid (fromJsonObject : string -> Song.t -> Result Song.t)
  (fuel : nat) (compressed : string) (this s : Song.t) :
  1 <= maxChordSize cfg ->
  rhythmsOk cfg = true ->
  fourUnderscores compressed = false ->
  JS.eqz (JS.charCodeAt compressed (Num (versionIndex compressed))) 123 = false ->
  songOk cfg this = true ->
  fromBase64String cfg num fromJsonObject fuel (Some compressed) this = Ok s ->
  songOk cfg s = true.
Proof.
  intros Hchord Hrhythms Hu Hjson Hthis E.
  destruct (string_dec compressed "") as [->|Hne].
  - rewrite fromBase64String_empty in E. exact (initToDefault_ok true this s Hthis E).
  - rewrite fromBase64String_nonempty in E by assumption. cbv zeta in E.
    rewrite Hjson in E.
    exact (binary_keeps _ _ _ _ _ _ Hchord Hrhythms Hu Hthis E).
Qed.

End Notes.

Lemma decoded_notes_valid_witness :
  exists s,
    newSong 300 "9n31j00p16FDUffM" = Ok s
    /\ songOk referenceConfig s = true
    /\ List.length (flat_map Pattern.notes (flat_map Channel.patterns (Song.channels s)))
       = 1%nat.
Proof.
  eexists. split; [vm_compute; reflexivity|]. split; [|vm_compute; reflexivity].
  apply (decoded_notes_valid referenceConfig coarseNumerics noJson 300
           "9n31j00p16FDUffM" Song_blank).
  - vm_compute. discriminate.
  - vm_compute. reflexivity.
  - vm_compute. reflexivity.
  - vm_compute. reflexivity.
  - vm_compute. reflexivity.
  - vm_compute. reflexivity.
Defined.

(** C8.  The invariants of the claim fail at a string the decoder accepts.
    In [9n31j00p1gH_____0000071We0] the pin count of the one note is written
    with a run of 32 one-bits; [readPinCount], which starts from 1 and only
    adds, adds [1 << 31] as a 32-bit number and returns 0, so the decoder
    leaves a note of a single pin with [start = end = 0].  The encoder's
    loop over the patterns refuses that very note: its [writePinCount]
    throws "value out of bounds". *)
Theorem decoded_notes_invalid :
  exists s,
    newSong 300 "9n31j00p1gH_____0000071We0" = Ok s
    /\ map (fun note => (Note.start note, Note.end_ note, List.length (Note.pins note)))
         (flat_map Pattern.notes (flat_map Channel.patterns (Song.channels s)))
       = [(Num 0, Num 0, 1%nat)]
    /\ songOk referenceConfig s = false
    /\ fst (BitFieldReader.readPinCount
              (BitFieldReader.mk (repeat true 32 ++ repeat false 33) 0)) = 0
    /\ encodeChannels referenceConfig 64 0 s (range (getChannelCount s))
         BitFieldWriter.empty BitFieldWriter.empty = Throw ValueOutOfBounds.
Proof.
  eexists. split; [vm_compute; reflexivity|].
  split; [vm_compute; reflexivity|]. split; [vm_compute; reflexivity|].
  split; vm_compute; reflexivity.
Qed.

(* ================================================================== *)
(** * Theorems: the round trip of the codec *)
(* ================================================================== *)

(** ** Writers and readers *)

Lemma firstn_succ (A : Type) (d : A) (l : list A) :
  forall n, (n < List.length l)%nat -> firstn (S n) l = firstn n l ++ [nth n l d].
Proof.
  induction l as [|x l IH]; intros n Hn; [cbn in Hn; lia|].
  destruct n as [|n]; [reflexivity|].
  cbn [firstn nth app]. f_equal. apply IH. cbn in Hn. lia.
Qed.

Lemma push_sound (b : bool) (w : BitFieldWriter.t) :
  sound w ->
  sound (BitFieldWriter.push b w)
  /\ content (BitFieldWriter.push b w) = content w ++ [b].
Proof.
  unfold sound, content, BitFieldWriter.push. intros H.
  cbn [BitFieldWriter._index BitFieldWriter._bits].
  replace (BitFieldWriter._index w - List.length (BitFieldWriter._bits w))%nat
    with 0%nat by lia.
  change (repeat false 0) with (@nil bool). rewrite app_nil_r.
  assert (Hlen : List.length (firstn (BitFieldWriter._index w) (BitFieldWriter._bits w))
                 = BitFieldWriter._index w) by (rewrite length_firstn; lia).
  split.
  - rewrite length_app, Hlen. cbn [List.length]. lia.
  - rewrite firstn_app, Hlen.
    replace (S (BitFieldWriter._index w) - BitFieldWriter._index w)%nat with 1%nat by lia.
    rewrite firstn_all2 by lia. reflexivity.
Qed.

Lemma write_loop_sound (k : nat) :
  forall v w,
    sound w -> 0 <= v < 2 ^ 32 -> (k <= 32)%nat ->
    sound (BitFieldWriter.write_loop k (Num v) w)
    /\ content (BitFieldWriter.write_loop k (Num v) w) = content w ++ msbBits k v.
Proof.
  induction k as [|k IH]; intros v w Hs Hv Hk; cbn [BitFieldWriter.write_loop msbBits].
  - rewrite app_nil_r. auto.
  - destruct (push_sound (BitFieldWriter.bitOf (Num v) (Z.of_nat k)) w Hs) as [Hs1 Hc1].
    destruct (IH v _ Hs1 Hv ltac:(lia)) as [Hs2 Hc2].
    split; [assumption|]. rewrite Hc2, Hc1, <- app_assoc.
    rewrite writer_bitOf_testbit by lia. reflexivity.
Qed.

Lemma write_sound (n v : Z) (w : BitFieldWriter.t) :
  sound w -> 0 <= v < 2 ^ 32 -> 0 <= n <= 32 ->
  sound (BitFieldWriter.write n (Num v) w)
  /\ content (BitFieldWriter.write n (Num v) w) = content w ++ msbBits (Z.to_nat n) v.
Proof. intros. apply write_loop_sound; auto; lia. Qed.

Lemma clear_sound (w : BitFieldWriter.t) :
  sound (BitFieldWriter.clear w) /\ content (BitFieldWriter.clear w) = [].
Proof. unfold sound, content. cbn. split; [lia|reflexivity]. Qed.

Lemma empty_sound : sound BitFieldWriter.empty /\ content BitFieldWriter.empty = [].
Proof. unfold sound, content. cbn. split; [lia|reflexivity]. Qed.

Lemma concat_sound (other w : BitFieldWriter.t) :
  sound w -> sound other ->
  sound (BitFieldWriter.concat other w)
  /\ content (BitFieldWriter.concat other w) = content w ++ content other.
Proof.
  intros Hw Ho. unfold BitFieldWriter.concat.
  assert (H : forall n w0, sound w0 -> (n <= BitFieldWriter._index other)%nat ->
            sound (fold_left (fun w i => BitFieldWriter.push
                                           (nth i (BitFieldWriter._bits other) false) w)
                     (seq 0 n) w0)
            /\ content (fold_left (fun w i => BitFieldWriter.push
                                           (nth i (BitFieldWriter._bits other) false) w)
                     (seq 0 n) w0)
               = content w0 ++ firstn n (BitFieldWriter._bits other)).
  { induction n as [|n IH]; intros w0 Hs Hn.
    - cbn. rewrite app_nil_r. auto.
    - rewrite seq_S, fold_left_app. cbn [fold_left Nat.add].
      destruct (IH w0 Hs ltac:(lia)) as [Hs1 Hc1].
      destruct (push_sound (nth n (BitFieldWriter._bits other) false) _ Hs1) as [Hs2 Hc2].
      split; [assumption|]. rewrite Hc2, Hc1, <- app_assoc. f_equal.
      unfold sound in Ho.
      rewrite (firstn_succ _ false (BitFieldWriter._bits other) n) by lia.
      reflexivity. }
  apply H; [assumption|lia].
Qed.

Lemma positioned_next (b : bool) (r : BitFieldReader.t) (rest : list bool) :
  positioned r (b :: rest) ->
  exists r', BitFieldReader.next r = (Some b, r') /\ positioned r' rest.
Proof.
  intros [pre ->]. unfold BitFieldReader.next.
  cbn [BitFieldReader._bits BitFieldReader._readIndex].
  rewrite nth_error_app2 by lia. rewrite Nat.sub_diag. cbn [nth_error].
  eexists. split; [reflexivity|]. exists (pre ++ [b]).
  rewrite <- app_assoc, length_app. cbn. f_equal. lia.
Qed.

Lemma read_loop_reads (k : nat) :
  forall acc v r rest,
    0 <= v -> 0 <= acc -> acc * 2 ^ Z.of_nat k + v mod 2 ^ Z.of_nat k < 2 ^ 31 ->
    positioned r (msbBits k v ++ rest) ->
    exists r',
      BitFieldReader.read_loop k r (Num acc)
      = (Num (acc * 2 ^ Z.of_nat k + v mod 2 ^ Z.of_nat k), r')
      /\ positioned r' rest.
Proof.
  induction k as [|k IH]; intros acc v r rest Hv Hacc Hlt Hpos.
  - cbn [BitFieldReader.read_loop msbBits app] in *. exists r.
    rewrite Z.mod_1_r. split; [|assumption]. do 2 f_equal. cbn. lia.
  - cbn [BitFieldReader.read_loop msbBits app] in *.
    destruct (positioned_next _ _ _ Hpos) as (r1 & -> & Hpos1).
    assert (Hk : 0 < 2 ^ Z.of_nat k) by (apply Z.pow_pos_nonneg; lia).
    assert (Hpow : 2 ^ Z.of_nat (S k) = 2 * 2 ^ Z.of_nat k).
    { replace (Z.of_nat (S k)) with (Z.of_nat k + 1) by lia.
      rewrite Z.pow_add_r by lia. lia. }
    pose proof (Z.mod_pos_bound v (2 ^ Z.of_nat (S k)) ltac:(lia)) as Hmod.
    assert (Hacc2 : 2 * acc < 2 ^ 31).
    { assert (acc <= acc * 2 ^ Z.of_nat k) by nia.
      assert (acc * 2 ^ Z.of_nat (S k) = 2 * (acc * 2 ^ Z.of_nat k))
        by (rewrite Hpow; ring).
      lia. }
    assert (Hshl : JS.vshl (Num acc) 1 = 2 * acc).
    { unfold JS.vshl, JS.toInt32, JS.shl. rewrite !(wrap32_small acc) by lia.
      change (1 mod 32) with 1. rewrite Z.shiftl_mul_pow2 by lia.
      change (2 ^ 1) with 2. rewrite wrap32_small by lia. lia. }
    rewrite Hshl. cbn [JS.add].
    rewrite (mod_pow2_succ v k Hv) in *.
    assert (Hmul : acc * 2 ^ Z.of_nat (S k) = 2 * acc * 2 ^ Z.of_nat k)
      by (rewrite Hpow; ring).
    rewrite Hmul in *.
    pose proof (Z.mod_pos_bound v (2 ^ Z.of_nat k) Hk) as Hmodk.
    set (bit := Z.testbit v (Z.of_nat k)) in *.
    assert (Hnext : (2 * acc + Z.b2z bit) * 2 ^ Z.of_nat k + v mod 2 ^ Z.of_nat k
                    = 2 * acc * 2 ^ Z.of_nat k
                      + ((if bit then 2 ^ Z.of_nat k else 0) + v mod 2 ^ Z.of_nat k))
      by (destruct bit; cbn [Z.b2z]; ring).
    destruct (IH (2 * acc + Z.b2z bit) v r1 rest Hv
                ltac:(destruct bit; cbn [Z.b2z]; lia)
                ltac:(rewrite Hnext; exact Hlt) Hpos1)
      as (r' & Heq & Hpos').
    exists r'. rewrite Heq, Hnext. split; [reflexivity|assumption].
Qed.

Lemma read_reads (n v : Z) :
  0 <= n <= 30 -> 0 <= v < 2 ^ n ->
  reads (BitFieldReader.read n) (msbBits (Z.to_nat n) v) (Num v).
Proof.
  intros Hn Hv r rest Hpos. unfold BitFieldReader.read.
  assert (Hpow : 2 ^ n <= 2 ^ 30) by (apply Z.pow_le_mono_r; lia).
  destruct (read_loop_reads (Z.to_nat n) 0 v r rest ltac:(lia) ltac:(lia)) as (r' & Heq & Hpos').
  - rewrite Z2Nat.id by lia. rewrite Z.mod_small by lia. lia.
  - assumption.
  - exists r'. rewrite Heq. split; [|assumption].
    rewrite Z2Nat.id by lia. rewrite Z.mod_small by lia. reflexivity.
Qed.

Lemma skipn_app_length (A : Type) (pre rest : list A) :
  skipn (List.length pre) (pre ++ rest) = rest.
Proof. induction pre; cbn; auto. Qed.

Lemma readLongTail_reads (minValue minBits rem : Z) (k : nat) :
  0 <= minBits -> minBits + Z.of_nat k <= 30 ->
  0 <= rem < 2 ^ (minBits + Z.of_nat k) ->
  reads (BitFieldReader.readLongTail minValue minBits)
    (repeat true k ++ false :: msbBits (Z.to_nat (minBits + Z.of_nat k)) rem)
    (minValue + 2 ^ (minBits + Z.of_nat k) - 2 ^ minBits + rem).
Proof.
  intros H0 H30 Hrem r rest [pre ->].
  unfold BitFieldReader.readLongTail.
  cbn [BitFieldReader._bits BitFieldReader._readIndex].
  rewrite skipn_app_length. rewrite <- app_assoc. cbn [app].
  rewrite unaryPrefix_ones by lia.
  set (W := Z.to_nat (minBits + Z.of_nat k)).
  pose proof (tailBits_msb W (pre ++ repeat true k ++ [false]) rest rem
                (minValue + 2 ^ (minBits + Z.of_nat k) - 2 ^ minBits)
                ltac:(lia) ltac:(lia)) as Htail.
  rewrite !length_app, repeat_length in Htail. cbn [List.length] in Htail.
  rewrite <- !app_assoc in Htail. cbn [app] in Htail.
  replace (List.length pre + (0 + k + 1))%nat with (List.length pre + (k + 1))%nat by lia.
  fold W. rewrite Htail. eexists. split.
  - f_equal. subst W. rewrite Z2Nat.id by lia. rewrite Z.mod_small by lia. reflexivity.
  - exists (pre ++ repeat true k ++ false :: msbBits W rem).
    f_equal.
    + repeat (rewrite <- app_assoc; cbn [app]). reflexivity.
    + rewrite !length_app, repeat_length. cbn [List.length].
      rewrite msbBits_length. lia.
Qed.

Lemma writeLongTail_prefix_sound (m : nat) :
  forall fuel rem numBits w,
    Z.of_nat m = 31 - numBits -> 0 <= numBits -> 0 <= rem ->
    rem + 2 ^ numBits < 2 ^ 31 -> (m <= fuel)%nat -> sound w ->
    exists (k : nat) (rem' : Z) (w' : BitFieldWriter.t),
      BitFieldWriter.writeLongTail_prefix fuel (Num rem) numBits w
      = Ok (Num rem', numBits + Z.of_nat k, w')
      /\ sound w' /\ content w' = content w ++ repeat true k
      /\ 0 <= rem' < 2 ^ (numBits + Z.of_nat k)
      /\ numBits + Z.of_nat k <= 30
      /\ rem = rem' + 2 ^ (numBits + Z.of_nat k) - 2 ^ numBits.
Proof.
  induction m as [|m IH]; intros fuel rem numBits w Hm Hnb Hrem Hlt Hfuel Hs.
  - exfalso.
    assert (numBits = 31) by lia. subst.
    assert (0 < 2 ^ 31) by (apply Z.pow_pos_nonneg; lia). lia.
  - assert (Hnb30 : numBits <= 30).
    { destruct (Z_le_gt_dec numBits 30); [assumption|].
      assert (2 ^ 31 <= 2 ^ numBits) by (apply Z.pow_le_mono_r; lia). lia. }
    destruct fuel as [|fuel]; [lia|]. cbn [BitFieldWriter.writeLongTail_prefix].
    rewrite shl_1_small by lia. cbn [JS.ge JS.le JS.sub].
    destruct (Z.leb_spec (2 ^ numBits) rem) as [Hge | Hsmall].
    + assert (Hpow : 2 ^ (numBits + 1) = 2 * 2 ^ numBits).
      { rewrite Z.pow_add_r by lia. lia. }
      destruct (push_sound true w Hs) as [Hs1 Hc1].
      destruct (IH fuel (rem - 2 ^ numBits) (numBits + 1) (BitFieldWriter.push true w))
        as (k & rem' & w' & Heq & Hs' & Hc' & Hr & Hk & Hsum); try lia; try assumption.
      exists (S k), rem', w'. rewrite Heq.
      replace (numBits + 1 + Z.of_nat k) with (numBits + Z.of_nat (S k)) in * by lia.
      repeat split; try lia; try assumption.
      rewrite Hc', Hc1, <- app_assoc. reflexivity.
    + exists 0%nat, rem, w. rewrite Z.add_0_r, app_nil_r.
      repeat split; try lia; assumption.
Qed.

(** The bits of a long-tail number, and that the reader takes them back. *)
Lemma writeLongTail_sound (fuel : nat) (minValue minBits value : Z)
  (w : BitFieldWriter.t) :
  0 <= minBits <= 30 -> minValue <= value ->
  value - minValue + 2 ^ minBits < 2 ^ 31 -> (32 <= fuel)%nat -> sound w ->
  exists w' bs,
    BitFieldWriter.writeLongTail fuel minValue minBits (Num value) w = Ok w'
    /\ sound w' /\ content w' = content w ++ bs
    /\ reads (BitFieldReader.readLongTail minValue minBits) bs value.
Proof.
  intros Hbits Hle Hsmall Hfuel Hs.
  unfold BitFieldWriter.writeLongTail. cbn [JS.lt JS.sub].
  destruct (Z.ltb_spec value minValue) as [|_]; [lia|].
  destruct (writeLongTail_prefix_sound (Z.to_nat (31 - minBits)) fuel
              (value - minValue) minBits w)
    as (k & rem & w1 & Heq & Hs1 & Hc1 & Hrem & Hk & Hsum); try lia; try assumption.
  rewrite Heq.
  assert (Hpow : 2 ^ (minBits + Z.of_nat k) <= 2 ^ 30) by (apply Z.pow_le_mono_r; lia).
  destruct (push_sound false w1 Hs1) as [Hs2 Hc2].
  destruct (write_loop_sound (Z.to_nat (minBits + Z.of_nat k)) rem _ Hs2
              ltac:(lia) ltac:(lia)) as [Hs3 Hc3].
  eexists. exists (repeat true k ++ false :: msbBits (Z.to_nat (minBits + Z.of_nat k)) rem).
  split; [reflexivity|]. split; [assumption|]. split.
  - rewrite Hc3, Hc2, Hc1, <- !app_assoc. reflexivity.
  - replace value with (minValue + 2 ^ (minBits + Z.of_nat k) - 2 ^ minBits + rem) by lia.
    apply readLongTail_reads; lia.
Qed.

Lemma reads_app {A B : Type} (f : BitFieldReader.t -> A * BitFieldReader.t)
  (g : A -> BitFieldReader.t -> B * BitFieldReader.t) (bs1 bs2 : list bool) (a : A) (b : B) :
  reads f bs1 a -> reads (g a) bs2 b ->
  reads (fun r => let (x, r) := f r in g x r) (bs1 ++ bs2) b.
Proof.
  intros H1 H2 r rest Hpos. rewrite <- app_assoc in Hpos.
  destruct (H1 _ _ Hpos) as (r1 & -> & Hpos1).
  destruct (H2 _ _ Hpos1) as (r2 & -> & Hpos2). eauto.
Qed.

Lemma writePitchInterval_sound (fuel : nat) (value : Z) (w : BitFieldWriter.t) :
  value <> 0 -> - 2 ^ 30 < value < 2 ^ 30 -> (32 <= fuel)%nat -> sound w ->
  exists w' bs,
    BitFieldWriter.writePitchInterval fuel (Num value) w = Ok w'
    /\ sound w' /\ content w' = content w ++ bs
    /\ reads BitFieldReader.readPitchInterval bs value.
Proof.
  intros Hne Hrange Hfuel Hs. unfold BitFieldWriter.writePitchInterval.
  cbn [JS.lt JS.sub].
  assert (H30 : 2 ^ 30 + 2 ^ 3 < 2 ^ 31) by (cbn; lia).
  destruct (Z.ltb_spec value 0) as [Hneg|Hpos].
  - destruct (write_sound 1 1 w Hs ltac:(cbn; lia) ltac:(lia)) as [Hs1 Hc1].
    destruct (writeLongTail_sound fuel 1 3 (0 - value) _ ltac:(lia) ltac:(lia)
                ltac:(lia) Hfuel Hs1) as (w' & bs & Heq & Hs' & Hc' & Hr).
    exists w', (msbBits 1 1 ++ bs). rewrite Heq.
    split; [reflexivity|]. split; [assumption|]. split.
    + rewrite Hc', Hc1, <- app_assoc. reflexivity.
    + intros r rest Hp. unfold BitFieldReader.readPitchInterval.
      rewrite <- app_assoc in Hp.
      destruct (read_reads 1 1 ltac:(lia) ltac:(cbn; lia) _ _ Hp) as (r1 & -> & Hp1).
      destruct (Hr _ _ Hp1) as (r2 & -> & Hp2).
      exists r2. cbn. split; [f_equal; lia|assumption].
  - destruct (write_sound 1 0 w Hs ltac:(cbn; lia) ltac:(lia)) as [Hs1 Hc1].
    destruct (writeLongTail_sound fuel 1 3 value _ ltac:(lia) ltac:(lia)
                ltac:(lia) Hfuel Hs1) as (w' & bs & Heq & Hs' & Hc' & Hr).
    exists w', (msbBits 1 0 ++ bs). rewrite Heq.
    split; [reflexivity|]. split; [assumption|]. split.
    + rewrite Hc', Hc1, <- app_assoc. reflexivity.
    + intros r rest Hp. unfold BitFieldReader.readPitchInterval.
      rewrite <- app_assoc in Hp.
      destruct (read_reads 1 0 ltac:(lia) ltac:(cbn; lia) _ _ Hp) as (r1 & -> & Hp1).
      destruct (Hr _ _ Hp1) as (r2 & -> & Hp2).
      exists r2. cbn. split; [reflexivity|assumption].
Qed.

(** ** Shapes *)

Section Codec.

Variable cfg : Config.
Variable rhythm : value.

Lemma read1_reads (b : bool) :
  reads (BitFieldReader.read 1) [b] (Num (Z.b2z b)).
Proof.
  destruct b.
  - apply (read_reads 1 1); cbn; lia.
  - apply (read_reads 1 0); cbn; lia.
Qed.

Lemma write1_sound (b : bool) (w : BitFieldWriter.t) :
  sound w ->
  sound (BitFieldWriter.write 1 (Num (Z.b2z b)) w)
  /\ content (BitFieldWriter.write 1 (Num (Z.b2z b)) w) = content w ++ [b].
Proof.
  intros Hs. destruct (write_sound 1 (Z.b2z b) w Hs) as [H1 H2];
    [destruct b; cbn; lia | lia |].
  split; [assumption|]. rewrite H2. destruct b; reflexivity.
Qed.

(** The count of the pitches of a chord: a one for every pitch after the
    first, a zero unless the chord is full. *)

Lemma readPitchCount_reads (k : nat) :
  forall fuel count,
    Z.of_nat k + count <= maxChordSize cfg ->
    (k + (if (Z.of_nat k + count <? maxChordSize cfg)%Z then 1 else 0) <= fuel)%nat ->
    reads (readPitchCount cfg fuel count)
      (repeat true k
       ++ (if Z.of_nat k + count <? maxChordSize cfg then [false] else []))
      (Z.of_nat k + count).
Proof.
  induction k as [|k IH]; intros fuel count Hmax Hfuel r rest Hpos.
  - replace (Z.of_nat 0 + count) with count in * by lia.
    cbn [repeat app] in Hpos.
    destruct (count <? maxChordSize cfg) eqn:E.
    + destruct fuel as [|fuel]; [cbn in Hfuel; lia|]. cbn [readPitchCount].
      rewrite E.
      destruct (read1_reads false _ _ Hpos) as (r' & -> & Hpos').
      cbn. eauto.
    + cbn [app] in Hpos. exists r. split; [|assumption].
      destruct fuel as [|fuel]; cbn [readPitchCount]; [reflexivity|].
      rewrite E. reflexivity.
  - cbn [repeat app] in Hpos. destruct fuel as [|fuel]; [lia|].
    cbn [readPitchCount].
    destruct (Z.ltb_spec count (maxChordSize cfg)); [|lia].
    destruct (read1_reads true _ _ Hpos) as (r1 & -> & Hpos1).
    cbn [Z.b2z JS.eqz]. replace (1 =? 1) with true by reflexivity.
    replace (Z.of_nat (S k) + count) with (Z.of_nat k + (count + 1)) in * by lia.
    apply (IH fuel (count + 1)); [lia|lia|assumption].
Qed.

Lemma chordBits_reads (count : nat) :
  (1 <= count)%nat -> Z.of_nat count <= maxChordSize cfg ->
  reads (readPitchCount cfg (Z.to_nat (maxChordSize cfg - 1)) 1)
    (chordBits cfg count) (Z.of_nat count).
Proof.
  intros H1 Hmax. unfold chordBits.
  replace (Z.of_nat count) with (Z.of_nat (count - 1) + 1) by lia.
  apply readPitchCount_reads; [lia|].
  destruct (Z.ltb_spec (Z.of_nat (count - 1) + 1) (maxChordSize cfg)); lia.
Qed.

Lemma chordBits_written (count : nat) (w : BitFieldWriter.t) :
  sound w -> (1 <= count)%nat ->
  let w1 := fold_left (fun w _ => BitFieldWriter.write 1 (Num 1) w)
              (seq 1 (count - 1)) w in
  let w2 := if Z.of_nat count <? maxChordSize cfg
            then BitFieldWriter.write 1 (Num 0) w1 else w1 in
  sound w2 /\ content w2 = content w ++ chordBits cfg count.
Proof.
  intros Hs H1.
  assert (Hfold : forall n start w0, sound w0 ->
            sound (fold_left (fun w (_ : nat) => BitFieldWriter.write 1 (Num 1) w)
                     (seq start n) w0)
            /\ content (fold_left (fun w (_ : nat) => BitFieldWriter.write 1 (Num 1) w)
                          (seq start n) w0)
               = content w0 ++ repeat true n).
  { induction n as [|n IH]; intros start w0 Hs0.
    - cbn. rewrite app_nil_r. auto.
    - cbn [seq fold_left].
      destruct (write1_sound true w0 Hs0) as [Hs1 Hc1]. cbn [Z.b2z] in *.
      destruct (IH (S start) _ Hs1) as [Hs2 Hc2].
      split; [assumption|]. rewrite Hc2, Hc1, <- app_assoc. reflexivity. }
  destruct (Hfold (count - 1)%nat 1%nat w Hs) as [Hs1 Hc1].
  cbv zeta. unfold chordBits.
  destruct (Z.of_nat count <? maxChordSize cfg).
  - destruct (write1_sound false _ Hs1) as [Hs2 Hc2]. cbn [Z.b2z] in *.
    split; [assumption|]. rewrite Hc2, Hc1, <- app_assoc. reflexivity.
  - rewrite app_nil_r. auto.
Qed.

(** The pins of a shape. *)
Lemma encodePins_spec (fuel : nat) (pins : list NotePin.t) :
  (32 <= fuel)%nat ->
  forall startPitch current shapePart pitchBends w,
    pinsOk startPitch shapePart pins = true -> 0 <= shapePart -> sound w ->
    exists w' bs,
      encodePins fuel pins startPitch current (Num shapePart) pitchBends w
      = Ok (pitchBends ++ bendPitches startPitch current pins, w')
      /\ sound w' /\ content w' = content w ++ bs
      /\ forall r rest length bendCount acc,
           length = shapePart ->
           positioned r (bs ++ rest) ->
           exists r',
             readShapePins cfg false (List.length pins) rhythm length bendCount acc r
             = Ok (acc ++ shapePinsOf startPitch current pins,
                   lastTime shapePart pins,
                   bendCount + Z.of_nat (List.length (bendPitches startPitch current pins)),
                   r')
             /\ positioned r' rest.
Proof.
  intros Hfuel. induction pins as [|pin pins IH];
    intros startPitch current shapePart pitchBends w Hok Hpart Hs.
  - exists w, []. cbn [encodePins bendPitches shapePinsOf lastTime List.length].
    rewrite !app_nil_r. repeat split; try assumption.
    intros r rest length bendCount acc -> Hpos. exists r.
    cbn [readShapePins]. rewrite app_nil_r, Z.add_0_r. auto.
  - cbn [pinsOk] in Hok. apply andb_true_iff in Hok. destruct Hok as [Hok Hrest].
    apply andb_true_iff in Hok. destruct Hok as [Hok Hpitch].
    apply andb_true_iff in Hok. destruct Hok as [Htime Hexpr].
    destruct pin as [interval time expression].
    cbn [NotePin.interval NotePin.time NotePin.expression] in *.
    destruct time as [t| |]; try discriminate Htime.
    destruct expression as [e| |]; try discriminate Hexpr.
    cbn [numberIn numberOf] in *.
    apply andb_true_iff in Htime. destruct Htime as [Ht1 Ht2].
    apply Z.leb_le in Ht1, Ht2.
    apply andb_true_iff in Hexpr. destruct Hexpr as [He1 He2].
    apply Z.leb_le in He1, He2.
    cbn [encodePins NotePin.interval NotePin.time NotePin.expression JS.sub].
    set (nextPitch := JS.add startPitch interval) in *.
    set (bend := negb (strictEq current nextPitch)).
    destruct (write1_sound bend w Hs) as [Hs1 Hc1].
    replace (Num (if bend then 1 else 0)) with (Num (Z.b2z bend)) by (now destruct bend).
    assert (Hpow : 2 ^ 30 + 2 ^ 3 < 2 ^ 31) by (cbn; lia).
    destruct (writeLongTail_sound fuel 1 3 (t - shapePart) _ ltac:(lia) ltac:(lia)
                ltac:(lia) Hfuel Hs1) as (w2 & bs2 & Heq2 & Hs2 & Hc2 & Hr2).
    unfold BitFieldWriter.writePartDuration. rewrite Heq2. cbn [rbind].
    destruct (write_sound 2 e w2 Hs2 ltac:(cbn; lia) ltac:(lia)) as [Hs3 Hc3].
    destruct (IH startPitch (if bend then nextPitch else current) t
                (if bend then pitchBends ++ [nextPitch] else pitchBends) _
                Hrest ltac:(lia) Hs3) as (w' & bs' & Heq & Hs' & Hc' & Hr').
    exists w', ([bend] ++ bs2 ++ msbBits 2 e ++ bs').
    split.
    { rewrite Heq. cbn [bendPitches NotePin.interval]. fold nextPitch. fold bend.
      destruct bend; [rewrite <- app_assoc|]; reflexivity. }
    split; [assumption|]. split.
    { rewrite Hc', Hc3, Hc2, Hc1, <- !app_assoc. reflexivity. }
    intros r rest length bendCount acc -> Hpos.
    cbn [List.length readShapePins].
    rewrite <- !app_assoc in Hpos.
    destruct (read1_reads bend _ _ Hpos) as (r1 & -> & Hpos1).
    unfold readDuration, BitFieldReader.readPartDuration.
    destruct (Hr2 _ _ Hpos1) as (r2 & -> & Hpos2). cbn [rbind].
    destruct (read_reads 2 e ltac:(lia) ltac:(cbn; lia) _ _ Hpos2) as (r3 & -> & Hpos3).
    replace (shapePart + (t - shapePart)) with t by lia.
    assert (Hbend : JS.eqz (Num (Z.b2z bend)) 1 = bend) by (now destruct bend).
    rewrite Hbend.
    destruct (Hr' r3 rest t (if bend then bendCount + 1 else bendCount)
                (acc ++ [Build_ShapePin bend t (Num e)]) eq_refl Hpos3)
      as (r' & Heq' & Hpos').
    exists r'. rewrite Heq'. split; [|assumption].
    cbn [shapePinsOf bendPitches lastTime NotePin.interval NotePin.time
         NotePin.expression numberOf].
    fold nextPitch. fold bend. rewrite <- app_assoc. cbn [app].
    destruct bend; cbn [List.length]; [|reflexivity].
    rewrite Nat2Z.inj_succ.
    match goal with |- context [bendCount + Z.succ ?x] =>
      replace (bendCount + Z.succ x) with (bendCount + 1 + x) by lia end.
    reflexivity.
Qed.

End Codec.

(** ** Pitches *)

Lemma map_seq_from {A : Type} (f : nat -> A) (m : nat) :
  forall n, map f (seq n m) = map (fun k => f (n + k)%nat) (seq 0 m).
Proof.
  revert f. induction m as [|m IH]; intros f n; [reflexivity|].
  cbn [seq map]. rewrite Nat.add_0_r. f_equal.
  rewrite (IH f (S n)), (IH (fun k => f (n + k)%nat) 1%nat).
  apply map_ext. intros k. f_equal. lia.
Qed.

Section Pitches.

Variable recent : list value.
Variable s : Z.
Hypothesis s_unit : s = 1 \/ s = -1.

Lemma includes_In (p : Z) :
  includes recent (Num p) = true <-> In (Num p) recent.
Proof.
  unfold includes. rewrite existsb_exists. split.
  - intros (x & Hx & He). destruct x as [z| |]; try discriminate He.
    cbn in He. apply Z.eqb_eq in He. now subst.
  - intros H. exists (Num p). split; [assumption|]. cbn. apply Z.eqb_refl.
Qed.

(** Among [length recent + 1] pitches in a row one is not a recent one; the
    first such one. *)
Lemma first_free (p : Z) :
  exists j : nat,
    (j <= List.length recent)%nat
    /\ includes recent (Num (p + s * Z.of_nat j)) = false
    /\ forall i : nat, (i < j)%nat -> includes recent (Num (p + s * Z.of_nat i)) = true.
Proof.
  assert (Hsearch : forall n : nat,
            (forall i : nat, (i < n)%nat ->
               includes recent (Num (p + s * Z.of_nat i)) = true)
            \/ exists j : nat, (j < n)%nat
                 /\ includes recent (Num (p + s * Z.of_nat j)) = false
                 /\ forall i : nat, (i < j)%nat ->
                      includes recent (Num (p + s * Z.of_nat i)) = true).
  { induction n as [|n [IH | (j & Hj & Hfree & Hmin)]].
    - left. intros i Hi. lia.
    - destruct (includes recent (Num (p + s * Z.of_nat n))) eqn:E.
      + left. intros i Hi. destruct (Nat.eq_dec i n) as [->|]; [assumption|].
        apply IH. lia.
      + right. exists n. repeat split; [lia|assumption|assumption].
    - right. exists j. repeat split; [lia|assumption|assumption]. }
  destruct (Hsearch (S (List.length recent))) as [Hall | (j & Hj & Hfree & Hmin)].
  - exfalso.
    set (cands := map (fun i => Num (p + s * Z.of_nat i)) (seq 0 (S (List.length recent)))).
    assert (Hnodup : NoDup cands).
    { subst cands. generalize (seq_NoDup (S (List.length recent)) 0).
      generalize (seq 0 (S (List.length recent))) as l.
      induction l as [|x l IHl]; intros Hl; cbn [map]; [constructor|].
      inversion Hl as [|? ? Hx Hl']; subst. constructor; [|auto].
      intros Hin. apply in_map_iff in Hin. destruct Hin as (y & Hxy & Hy).
      injection Hxy as Hxy.
      assert (y = x) by (destruct s_unit; subst s; lia). subst y. contradiction. }
    assert (Hincl : incl cands recent).
    { intros x Hx. subst cands. apply in_map_iff in Hx.
      destruct Hx as (i & <- & Hi). apply in_seq in Hi.
      apply includes_In. apply Hall. lia. }
    pose proof (NoDup_incl_length Hnodup Hincl) as Hlen.
    subst cands. rewrite length_map, length_seq in Hlen. lia.
  - exists j. repeat split; [lia|assumption|assumption].
Qed.

Lemma skipRecent_run (j : nat) :
  forall fuel p,
    (j < fuel)%nat ->
    includes recent (Num (p + s * Z.of_nat j)) = false ->
    (forall i : nat, (i < j)%nat -> includes recent (Num (p + s * Z.of_nat i)) = true) ->
    skipRecent fuel recent s (Num p) = Num (p + s * Z.of_nat j).
Proof.
  induction j as [|j IH]; intros fuel p Hfuel Hfree Hmin;
    (destruct fuel as [|fuel]; [lia|]); cbn [skipRecent].
  - replace (p + s * Z.of_nat 0) with p in Hfree by lia. rewrite Hfree.
    f_equal. lia.
  - pose proof (Hmin 0%nat ltac:(lia)) as H0.
    replace (p + s * Z.of_nat 0) with p in H0 by lia. rewrite H0.
    cbn [JS.add]. rewrite (IH fuel (p + s)); [f_equal; lia|lia| |].
    + replace (p + s + s * Z.of_nat j) with (p + s * Z.of_nat (S j)) by lia. assumption.
    + intros i Hi.
      replace (p + s + s * Z.of_nat i) with (p + s * Z.of_nat (S i)) by lia.
      apply Hmin. lia.
Qed.

Lemma freeCount_split (a : Z) (d j : nat) :
  (j < d)%nat ->
  includes recent (Num (a + s * (1 + Z.of_nat j))) = false ->
  (forall i : nat, (i < j)%nat ->
     includes recent (Num (a + s * (1 + Z.of_nat i))) = true) ->
  freeCount recent s a d = S (freeCount recent s (a + s * (1 + Z.of_nat j)) (d - 1 - j)).
Proof.
  intros Hj Hfree Hmin. unfold freeCount.
  replace d with (j + (1 + (d - 1 - j)))%nat at 1 by lia.
  rewrite !seq_app, !map_app, !filter_app, !length_app.
  replace (List.length (List.filter _ (map _ (seq 0 j)))) with 0%nat.
  2:{ symmetry. apply length_zero_iff_nil.
      induction j as [|j IH] in Hmin |- *; [reflexivity|].
      rewrite seq_S, map_app, filter_app. cbn [Nat.add map List.filter].
      rewrite (Hmin j ltac:(lia)). cbn [negb]. rewrite app_nil_r.
      apply IH. intros i Hi. apply Hmin. lia. }
  cbn [seq map List.filter Nat.add]. rewrite Hfree. cbn [negb List.length Nat.add].
  f_equal.
  rewrite (map_seq_from _ (d - 1 - j) (j + 1)).
  f_equal. f_equal. apply map_ext. intros k. lia.
Qed.

Lemma stepPitch_freeCount (d : nat) :
  forall a,
    (1 <= d)%nat ->
    includes recent (Num (a + s * Z.of_nat d)) = false ->
    stepPitch (freeCount recent s a d) recent s (Num a) = Num (a + s * Z.of_nat d).
Proof.
  induction d as [d IH] using lt_wf_ind. intros a Hd Hfree.
  destruct (first_free (a + s)) as (j & Hj & Hjfree & Hjmin).
  assert (Hjd : (j < d)%nat).
  { destruct (Nat.lt_ge_cases j d) as [|Hge]; [assumption|]. exfalso.
    specialize (Hjmin (d - 1)%nat ltac:(lia)).
    replace (a + s + s * Z.of_nat (d - 1)) with (a + s * Z.of_nat d) in Hjmin by lia.
    congruence. }
  rewrite (freeCount_split a d j Hjd).
  2:{ replace (a + s * (1 + Z.of_nat j)) with (a + s + s * Z.of_nat j) by lia.
      assumption. }
  2:{ intros i Hi.
      replace (a + s * (1 + Z.of_nat i)) with (a + s + s * Z.of_nat i) by lia. auto. }
  cbn [stepPitch JS.add].
  rewrite (skipRecent_run j (S (List.length recent)) (a + s) ltac:(lia) Hjfree Hjmin).
  replace (a + s + s * Z.of_nat j) with (a + s * (1 + Z.of_nat j)) by lia.
  destruct (Nat.eq_dec (d - 1 - j) 0) as [E|E].
  - rewrite E. unfold freeCount. cbn [seq map List.filter List.length stepPitch].
    f_equal.
    destruct s_unit as [Hs|Hs]; rewrite Hs; lia.
  - assert (Hsum : a + s * (1 + Z.of_nat j) + s * Z.of_nat (d - 1 - j)
                   = a + s * Z.of_nat d)
      by (destruct s_unit as [Hs|Hs]; rewrite Hs; lia).
    rewrite (IH (d - 1 - j)%nat ltac:(lia)); [f_equal; exact Hsum|lia|].
    rewrite Hsum. assumption.
Qed.

Lemma freeCount_pos (a : Z) (d : nat) :
  (1 <= d)%nat ->
  includes recent (Num (a + s * Z.of_nat d)) = false ->
  (1 <= freeCount recent s a d <= d)%nat.
Proof.
  intros Hd Hfree. split.
  - unfold freeCount. replace d with ((d - 1) + 1)%nat by lia.
    rewrite seq_app, map_app, filter_app, length_app.
    cbn [seq map List.filter Nat.add].
    replace (a + s * (1 + Z.of_nat (d - 1))) with (a + s * Z.of_nat d) by lia.
    rewrite Hfree. cbn. lia.
  - unfold freeCount.
    etransitivity; [apply filter_length_le|]. rewrite length_map, length_seq. lia.
Qed.

End Pitches.

(* ================================================================== *)
(** * Theorems: bit fields *)
(* ================================================================== *)

Lemma write_reads (bitCount v : Z) (w : BitFieldWriter.t) :
  0 <= bitCount <= 31 -> 0 <= v < 2 ^ bitCount -> sound w ->
  exists bs,
    sound (BitFieldWriter.write bitCount (Num v) w)
    /\ content (BitFieldWriter.write bitCount (Num v) w) = content w ++ bs
    /\ List.length bs = Z.to_nat bitCount
    /\ reads (BitFieldReader.read bitCount) bs (Num v).
Proof.
  intros Hn Hv Hw.
  assert (Hpow : 2 ^ bitCount <= 2 ^ 31) by (apply Z.pow_le_mono_r; lia).
  destruct (write_sound bitCount v w Hw ltac:(lia) ltac:(lia)) as (Hs & Hc).
  exists (msbBits (Z.to_nat bitCount) v).
  split; [assumption|]. split; [assumption|]. split; [apply msbBits_length|].
  intros r rest Hpos. unfold BitFieldReader.read.
  destruct (read_loop_reads (Z.to_nat bitCount) 0 v r rest ltac:(lia) ltac:(lia))
    as (r' & Heq & Hpos').
  - rewrite Z2Nat.id by lia. rewrite Z.mod_small by lia. lia.
  - assumption.
  - exists r'. rewrite Heq. split; [|assumption].
    rewrite Z2Nat.id by lia. rewrite Z.mod_small by lia. reflexivity.
Qed.

(** X1.  [BitFieldWriter.write] followed by [BitFieldReader.read]: a number of
    [bitCount] bits, [bitCount] at most 31, comes back, wherever the bits stand
    in the field. *)
Theorem write_read_roundtrip (bitCount v : Z) (w : BitFieldWriter.t) :
  0 <= bitCount <= 31 -> 0 <= v < 2 ^ bitCount -> sound w ->
  exists bs,
    sound (BitFieldWriter.write bitCount (Num v) w)
    /\ content (BitFieldWriter.write bitCount (Num v) w) = content w ++ bs
    /\ List.length bs = Z.to_nat bitCount
    /\ reads (BitFieldReader.read bitCount) bs (Num v).
Proof. apply write_reads. Qed.

Lemma write_read_roundtrip_witness :
  exists bs,
    sound (BitFieldWriter.write 6 (Num 37) BitFieldWriter.empty)
    /\ content (BitFieldWriter.write 6 (Num 37) BitFieldWriter.empty)
       = content BitFieldWriter.empty ++ bs
    /\ List.length bs = Z.to_nat 6
    /\ reads (BitFieldReader.read 6) bs (Num 37).
Proof.
  apply (write_read_roundtrip 6 37 BitFieldWriter.empty).
  - lia.
  - vm_compute. split; [discriminate | reflexivity].
  - apply empty_sound.
Defined.

Lemma next_past_end (r : BitFieldReader.t) :
  (List.length (BitFieldReader._bits r) <= BitFieldReader._readIndex r)%nat ->
  BitFieldReader.next r
  = (None, BitFieldReader.mk (BitFieldReader._bits r) (S (BitFieldReader._readIndex r))).
Proof.
  intros H. unfold BitFieldReader.next. f_equal. now apply nth_error_None.
Qed.

Lemma read_loop_index (k : nat) :
  forall r acc,
    BitFieldReader._bits (snd (BitFieldReader.read_loop k r acc)) = BitFieldReader._bits r
    /\ BitFieldReader._readIndex (snd (BitFieldReader.read_loop k r acc))
       = (BitFieldReader._readIndex r + k)%nat.
Proof.
  induction k as [|k IH]; intros r acc; cbn [BitFieldReader.read_loop].
  - cbn. split; [reflexivity | lia].
  - unfold BitFieldReader.next.
    match goal with
    | |- context [BitFieldReader.read_loop k ?r' ?acc'] =>
        destruct (IH r' acc') as (Hb & Hi)
    end.
    split; [rewrite Hb; reflexivity | rewrite Hi; cbn; lia].
Qed.

Lemma read_loop_last_missing (k : nat) :
  forall r acc,
    (List.length (BitFieldReader._bits r) <= BitFieldReader._readIndex r + k)%nat ->
    fst (BitFieldReader.read_loop (S k) r acc) = NaN.
Proof.
  induction k as [|k IH]; intros r acc Hlen.
  - cbn [BitFieldReader.read_loop]. rewrite next_past_end by lia. reflexivity.
  - change (BitFieldReader.read_loop (S (S k)) r acc)
      with (let result := Num (JS.vshl acc 1) in
            let (b, r') := BitFieldReader.next r in
            BitFieldReader.read_loop (S k) r'
              (JS.add result
                 (match b with Some b => Num (Z.b2z b) | None => Undefined end))).
    cbv zeta. unfold BitFieldReader.next at 1. apply IH. cbn. lia.
Qed.

(** X2.  [BitFieldReader.read] past the end of the bits: the result is [NaN] as
    soon as one of the [bitCount] bits asked for lies past the end, nothing is
    thrown, and the read index has advanced by [bitCount] all the same. *)
Theorem read_past_end (bitCount : Z) (r : BitFieldReader.t) :
  1 <= bitCount ->
  Z.of_nat (List.length (BitFieldReader._bits r))
  < Z.of_nat (BitFieldReader._readIndex r) + bitCount ->
  fst (BitFieldReader.read bitCount r) = NaN
  /\ BitFieldReader._readIndex (snd (BitFieldReader.read bitCount r))
     = (BitFieldReader._readIndex r + Z.to_nat bitCount)%nat
  /\ BitFieldReader._bits (snd (BitFieldReader.read bitCount r)) = BitFieldReader._bits r.
Proof.
  intros Hn Hlen. unfold BitFieldReader.read.
  destruct (read_loop_index (Z.to_nat bitCount) r (Num 0)) as (Hb & Hi).
  split; [|split; assumption].
  replace (Z.to_nat bitCount) with (S (Z.to_nat bitCount - 1)) by lia.
  apply read_loop_last_missing. lia.
Qed.

Lemma read_past_end_witness :
  fst (BitFieldReader.read 3 (BitFieldReader.mk [true; false] 0)) = NaN
  /\ BitFieldReader._readIndex (snd (BitFieldReader.read 3 (BitFieldReader.mk [true; false] 0)))
     = (BitFieldReader._readIndex (BitFieldReader.mk [true; false] 0) + Z.to_nat 3)%nat
  /\ BitFieldReader._bits (snd (BitFieldReader.read 3 (BitFieldReader.mk [true; false] 0)))
     = BitFieldReader._bits (BitFieldReader.mk [true; false] 0).
Proof.
  apply (read_past_end 3 (BitFieldReader.mk [true; false] 0)).
  - lia.
  - cbn. lia.
Defined.

Lemma unaryPrefix_padding (l : list bool) (k : nat) :
  forall result numBits n,
    BitFieldReader.unaryPrefix (l ++ repeat false k) result numBits n
    = BitFieldReader.unaryPrefix l result numBits n.
Proof.
  induction l as [|b l IH]; intros result numBits n.
  - destruct k; reflexivity.
  - destruct b; cbn [app BitFieldReader.unaryPrefix]; [apply IH | reflexivity].
Qed.

Lemma skipn_padding (bits : list bool) (k i : nat) :
  exists k', skipn i (bits ++ repeat false k) = skipn i bits ++ repeat false k'.
Proof.
  rewrite skipn_app. exists (k - (i - List.length bits))%nat. f_equal.
  generalize (i - List.length bits)%nat as m. clear i.
  induction k as [|k IH]; intros [|m]; cbn; auto.
Qed.

Lemma nth_error_padding (bits : list bool) (k i : nat) :
  match nth_error (bits ++ repeat false k) i with Some true => true | _ => false end
  = match nth_error bits i with Some true => true | _ => false end.
Proof.
  destruct (Nat.lt_ge_cases i (List.length bits)) as [Hlt | Hge].
  - now rewrite nth_error_app1.
  - rewrite nth_error_app2 by assumption.
    rewrite (proj2 (nth_error_None bits i) Hge).
    destruct (nth_error (repeat false k) (i - List.length bits)) as [b|] eqn:E;
      [|reflexivity].
    apply nth_error_In, repeat_spec in E. now subst b.
Qed.

Lemma tailBits_padding (numBits : nat) (bits : list bool) (k : nat) :
  forall i result,
    fst (BitFieldReader.tailBits numBits (BitFieldReader.mk (bits ++ repeat false k) i) result)
    = fst (BitFieldReader.tailBits numBits (BitFieldReader.mk bits i) result)
    /\ BitFieldReader._readIndex
         (snd (BitFieldReader.tailBits numBits
                 (BitFieldReader.mk (bits ++ repeat false k) i) result))
       = BitFieldReader._readIndex
           (snd (BitFieldReader.tailBits numBits (BitFieldReader.mk bits i) result)).
Proof.
  induction numBits as [|n IH]; intros i result; [split; reflexivity|].
  cbn [BitFieldReader.tailBits]. unfold BitFieldReader.next.
  cbn [BitFieldReader._bits BitFieldReader._readIndex].
  rewrite nth_error_padding. apply IH.
Qed.

(** X3.  [readLongTail] past the end of the bits: the missing bits read as
    zeros.  A reader gives what it would give on the same bits followed by
    any number of zero bits, and a reader that has no bit left gives
    [minValue]. *)
Theorem readLongTail_past_end (minValue minBits : Z) (bits : list bool) (i k : nat) :
  fst (BitFieldReader.readLongTail minValue minBits
         (BitFieldReader.mk (bits ++ repeat false k) i))
  = fst (BitFieldReader.readLongTail minValue minBits (BitFieldReader.mk bits i))
  /\ BitFieldReader._readIndex
       (snd (BitFieldReader.readLongTail minValue minBits
               (BitFieldReader.mk (bits ++ repeat false k) i)))
     = BitFieldReader._readIndex
         (snd (BitFieldReader.readLongTail minValue minBits (BitFieldReader.mk bits i)))
  /\ fst (BitFieldReader.readLongTail minValue minBits
            (BitFieldReader.mk bits (List.length bits + i)))
     = minValue.
Proof.
  unfold BitFieldReader.readLongTail.
  cbn [BitFieldReader._bits BitFieldReader._readIndex].
  destruct (skipn_padding bits k i) as (k' & ->).
  rewrite unaryPrefix_padding.
  destruct (BitFieldReader.unaryPrefix (skipn i bits) minValue minBits 0)
    as [[result numBits] n].
  destruct (tailBits_padding (Z.to_nat numBits) bits k (i + n) result) as (H1 & H2).
  split; [assumption|]. split; [assumption|].
  rewrite skipn_all2 by lia. cbn [BitFieldReader.unaryPrefix].
  generalize (Z.to_nat minBits) as m. generalize minValue as res.
  assert (Hpast : forall m j res,
            (List.length bits <= j)%nat ->
            fst (BitFieldReader.tailBits m (BitFieldReader.mk bits j) res) = res).
  { induction m as [|m IH]; intros j res Hj; [reflexivity|].
    cbn [BitFieldReader.tailBits]. rewrite next_past_end by assumption.
    apply IH. cbn. lia. }
  intros res m. apply Hpast. lia.
Qed.

(** X4.  [writePitchInterval] followed by [readPitchInterval]: an interval other
    than 0 and of absolute value below [2^30] comes back. *)
Theorem pitchInterval_bits_roundtrip (fuel : nat) (value : Z) (w : BitFieldWriter.t) :
  value <> 0 -> - 2 ^ 30 < value < 2 ^ 30 -> (32 <= fuel)%nat -> sound w ->
  exists w' bs,
    BitFieldWriter.writePitchInterval fuel (Num value) w = Ok w'
    /\ sound w' /\ content w' = content w ++ bs
    /\ reads BitFieldReader.readPitchInterval bs value.
Proof. apply writePitchInterval_sound. Qed.

Lemma pitchInterval_bits_roundtrip_witness :
  exists w' bs,
    BitFieldWriter.writePitchInterval 32 (Num (-5)) BitFieldWriter.empty = Ok w'
    /\ sound w' /\ content w' = content BitFieldWriter.empty ++ bs
    /\ reads BitFieldReader.readPitchInterval bs (-5).
Proof.
  apply (pitchInterval_bits_roundtrip 32 (-5) BitFieldWriter.empty).
  - discriminate.
  - vm_compute. split; reflexivity.
  - lia.
  - apply empty_sound.
Defined.

(** X5.  [concat] appends what the other writer holds, and nothing else: neither
    the bits a [clear] left behind in the other writer's array nor those left
    in this one's survive. *)
Theorem concat_appends (other w : BitFieldWriter.t) :
  sound w -> sound other ->
  sound (BitFieldWriter.concat other w)
  /\ content (BitFieldWriter.concat other w) = content w ++ content other.
Proof. apply concat_sound. Qed.

Lemma concat_appends_witness :
  sound (BitFieldWriter.concat
           (BitFieldWriter.write 1 (Num 1)
              (BitFieldWriter.clear (BitFieldWriter.write 3 (Num 2) BitFieldWriter.empty)))
           (BitFieldWriter.write 2 (Num 1) BitFieldWriter.empty))
  /\ content (BitFieldWriter.concat
                (BitFieldWriter.write 1 (Num 1)
                   (BitFieldWriter.clear (BitFieldWriter.write 3 (Num 2) BitFieldWriter.empty)))
                (BitFieldWriter.write 2 (Num 1) BitFieldWriter.empty))
     = content (BitFieldWriter.write 2 (Num 1) BitFieldWriter.empty)
       ++ content (BitFieldWriter.write 1 (Num 1)
                     (BitFieldWriter.clear
                        (BitFieldWriter.write 3 (Num 2) BitFieldWriter.empty))).
Proof.
  apply (concat_appends
           (BitFieldWriter.write 1 (Num 1)
              (BitFieldWriter.clear (BitFieldWriter.write 3 (Num 2) BitFieldWriter.empty)))
           (BitFieldWriter.write 2 (Num 1) BitFieldWriter.empty)).
  - unfold sound. vm_compute. lia.
  - unfold sound. vm_compute. lia.
Defined.

(* ================================================================== *)
(** * Theorems: base64 *)
(* ================================================================== *)

Lemma base64CharCodeToInt_range :
  Forall (fun v => 0 <= v < 64) base64CharCodeToInt.
Proof. unfold base64CharCodeToInt. repeat (constructor; [lia|]). constructor. Qed.

Lemma symbol_inverse (i : Z) (c : value) :
  0 <= i < 64 ->
  JS.index base64CharCodeToInt (JS.index base64IntToCharCode (Num i)) = Num i
  /\ forall v, JS.index base64CharCodeToInt c = Num v -> 0 <= v < 64.
Proof.
  intros Hi. split.
  - replace i with (Z.of_nat (Z.to_nat i)) by lia.
    assert (Hn : (Z.to_nat i < 64)%nat) by lia.
    generalize dependent (Z.to_nat i). intros n Hn.
    do 64 (destruct n as [|n]; [reflexivity|]). lia.
  - intros v Hv. destruct c as [z| |]; try discriminate Hv.
    unfold JS.index in Hv. destruct (z <? 0); [discriminate|].
    destruct (nth_error base64CharCodeToInt (Z.to_nat z)) as [x|] eqn:E;
      [|discriminate].
    injection Hv as <-. apply nth_error_In in E.
    exact (proj1 (Forall_forall _ _) base64CharCodeToInt_range x E).
Qed.

(** X6.  The two base64 tables: [base64CharCodeToInt] undoes
    [base64IntToCharCode] on 0..63, and every entry of [base64CharCodeToInt]
    is a number of six bits. *)
Theorem base64_tables_inverse (i : Z) (c : value) :
  0 <= i < 64 ->
  JS.index base64CharCodeToInt (JS.index base64IntToCharCode (Num i)) = Num i
  /\ forall v, JS.index base64CharCodeToInt c = Num v -> 0 <= v < 64.
Proof. apply symbol_inverse. Qed.

Lemma base64_tables_inverse_witness :
  JS.index base64CharCodeToInt (JS.index base64IntToCharCode (Num 62)) = Num 62
  /\ forall v, JS.index base64CharCodeToInt (Num 46) = Num v -> 0 <= v < 64.
Proof. apply (base64_tables_inverse 62 (Num 46)). lia. Defined.

(** X7.  [encodeBase64] and the constructor of [BitFieldReader]: the reader built
    over the text of a writer that was never cleared holds the bits written,
    followed by zeros up to a multiple of six; the text has [lengthBase64]
    characters after what the buffer held. *)
Theorem encodeBase64_decoded (buffer : list value) (w : BitFieldWriter.t) :
  tight w ->
  readerOf w
  = BitFieldReader.mk
      (BitFieldWriter._bits w
         ++ repeat false (6 * BitFieldWriter.lengthBase64 w - BitFieldWriter._index w)) 0
  /\ List.length (BitFieldWriter.encodeBase64 buffer w)
     = (List.length buffer + BitFieldWriter.lengthBase64 w)%nat
  /\ (BitFieldWriter._index w <= 6 * BitFieldWriter.lengthBase64 w
      < BitFieldWriter._index w + 6)%nat.
Proof.
  intros Ht. split; [now apply readerOf_bits|]. split.
  - unfold BitFieldWriter.encodeBase64. now rewrite length_app, length_map, length_seq.
  - unfold BitFieldWriter.lengthBase64.
    pose proof (Nat.div_mod_eq (BitFieldWriter._index w + 5) 6) as Hd.
    pose proof (Nat.mod_upper_bound (BitFieldWriter._index w + 5) 6 ltac:(lia)) as Hm.
    lia.
Qed.

Lemma encodeBase64_decoded_witness :
  readerOf (BitFieldWriter.write 8 (Num 201) BitFieldWriter.empty)
  = BitFieldReader.mk
      (BitFieldWriter._bits (BitFieldWriter.write 8 (Num 201) BitFieldWriter.empty)
         ++ repeat false
              (6 * BitFieldWriter.lengthBase64
                     (BitFieldWriter.write 8 (Num 201) BitFieldWriter.empty)
               - BitFieldWriter._index
                   (BitFieldWriter.write 8 (Num 201) BitFieldWriter.empty))) 0
  /\ List.length
       (BitFieldWriter.encodeBase64 [Num 112]
          (BitFieldWriter.write 8 (Num 201) BitFieldWriter.empty))
     = (List.length [Num 112]
        + BitFieldWriter.lengthBase64
            (BitFieldWriter.write 8 (Num 201) BitFieldWriter.empty))%nat
  /\ (BitFieldWriter._index (BitFieldWriter.write 8 (Num 201) BitFieldWriter.empty)
      <= 6 * BitFieldWriter.lengthBase64
               (BitFieldWriter.write 8 (Num 201) BitFieldWriter.empty)
      < BitFieldWriter._index (BitFieldWriter.write 8 (Num 201) BitFieldWriter.empty) + 6)%nat.
Proof.
  apply (encodeBase64_decoded [Num 112]
           (BitFieldWriter.write 8 (Num 201) BitFieldWriter.empty)).
  vm_compute. reflexivity.
Defined.

(** X8.  The two characters the encoder writes for a number below 4096
    ([v >> 6] and [v & 0x3f]) give the number back to the decoder, by
    [(a << 6) + b] (the loop bounds, the bar and pattern counts) and by
    [(a << 6) | b] (the tempo). *)
Theorem b64pair_roundtrip (v : Z) :
  0 <= v < 4096 ->
  exists a b,
    b64pair (Num v) = [a; b]
    /\ JS.add (Num (JS.vshl (JS.index base64CharCodeToInt a) 6))
         (JS.index base64CharCodeToInt b) = Num v
    /\ Num (Z.lor (JS.vshl (JS.index base64CharCodeToInt a) 6)
              (JS.toInt32 (JS.index base64CharCodeToInt b))) = Num v.
Proof.
  intros Hv. unfold b64pair, b64.
  assert (H31 : 2 ^ 31 = 2147483648) by reflexivity.
  set (hi := JS.vsar (Num v) 6). set (lo := JS.vand (Num v) (Num 63)).
  assert (Hhi : hi = v / 64).
  { subst hi. unfold JS.vsar, JS.sar, JS.toInt32. rewrite !(wrap32_small v) by lia.
    change (6 mod 32) with 6. now rewrite Z.shiftr_div_pow2 by lia. }
  assert (Hlo : lo = v mod 64).
  { subst lo. unfold JS.vand, JS.toInt32.
    rewrite (wrap32_small v), (wrap32_small 63) by lia.
    change 63 with (Z.ones 6). now rewrite Z.land_ones by lia. }
  assert (Hhr : 0 <= hi < 64).
  { rewrite Hhi. split; [apply Z.div_pos; lia | apply Z.div_lt_upper_bound; lia]. }
  assert (Hlr : 0 <= lo < 64) by (rewrite Hlo; apply Z.mod_pos_bound; lia).
  eexists _, _. split; [reflexivity|].
  rewrite (proj1 (symbol_inverse hi Undefined Hhr)),
          (proj1 (symbol_inverse lo Undefined Hlr)).
  assert (Hshl : JS.vshl (Num hi) 6 = hi * 64).
  { unfold JS.vshl, JS.shl, JS.toInt32. rewrite !(wrap32_small hi) by lia.
    change (6 mod 32) with 6. rewrite Z.shiftl_mul_pow2 by lia.
    rewrite wrap32_small by lia. reflexivity. }
  rewrite Hshl. cbn [JS.add JS.toInt32]. rewrite (wrap32_small lo) by lia.
  clearbody hi lo.
  assert (Hsum : hi * 64 + lo = v)
    by (pose proof (Z.div_mod v 64 ltac:(lia)); lia).
  split; [now rewrite Hsum|]. f_equal.
  rewrite <- Hsum. replace (hi * 64) with (Z.shiftl hi 6)
    by (rewrite Z.shiftl_mul_pow2 by lia; reflexivity).
  assert (Hland : Z.land (Z.shiftl hi 6) lo = 0).
  { apply Z.bits_inj'; intros n Hn; rewrite Z.land_spec, Z.bits_0.
    destruct (Z.lt_ge_cases n 6) as [Hs | Hs].
    - now rewrite Z.shiftl_spec_low by assumption.
    - destruct (Z.eq_dec lo 0) as [-> | Hne]; [rewrite Z.bits_0; apply andb_false_r|].
      rewrite (Z.bits_above_log2 lo n); [apply andb_false_r | lia |].
      apply Z.lt_le_trans with 6; [|assumption].
      apply Z.log2_lt_pow2; lia. }
  rewrite Z.add_nocarry_lxor by exact Hland. rewrite Z.lxor_lor by exact Hland.
  reflexivity.
Qed.

Lemma b64pair_roundtrip_witness :
  exists a b,
    b64pair (Num 150) = [a; b]
    /\ JS.add (Num (JS.vshl (JS.index base64CharCodeToInt a) 6))
         (JS.index base64CharCodeToInt b) = Num 150
    /\ Num (Z.lor (JS.vshl (JS.index base64CharCodeToInt a) 6)
              (JS.toInt32 (JS.index base64CharCodeToInt b))) = Num 150.
Proof. apply (b64pair_roundtrip 150). lia. Defined.

(* ================================================================== *)
(** * Theorems: ranges *)
(* ================================================================== *)



(** X10.  No two tags of [SongTagCode] share a character: the character of a tag
    selects that tag's case of the [switch], and no other. *)
Theorem tag_codes_distinct (t t' : SongTagCode.t) :
  tagOfCharCode (Num (SongTagCode.code t)) = Some t
  /\ (SongTagCode.code t = SongTagCode.code t' -> t = t').
Proof.
  assert (H : forall t, tagOfCharCode (Num (SongTagCode.code t)) = Some t)
    by (intros []; reflexivity).
  split; [apply H|]. intros E.
  pose proof (H t) as H1. rewrite E, H in H1. now injection H1.
Qed.

Lemma neededBits_loop_spec (m : nat) :
  forall fuel n bound,
    Z.of_nat m = 31 - n -> 0 <= n -> (m <= fuel)%nat ->
    bound <= 2 ^ 30 -> (n = 0 \/ 2 ^ (n - 1) < bound) ->
    exists k,
      neededBits_loop fuel n (Num bound) = Ok k
      /\ n <= k <= 30 /\ bound <= 2 ^ k /\ (k = 0 \/ 2 ^ (k - 1) < bound).
Proof.
  induction m as [|m IH]; intros fuel n bound Hm Hn Hfuel Hb Hprev.
  - exfalso. assert (n = 31) by lia. subst n.
    destruct Hprev as [|Hprev]; [lia|]. change (2 ^ (31 - 1)) with (2 ^ 30) in Hprev. lia.
  - destruct fuel as [|fuel]; [lia|]. cbn [neededBits_loop JS.lt].
    assert (Hn30 : n <= 30) by lia.
    rewrite shl_1_small by lia.
    destruct (Z.ltb_spec (2 ^ n) bound) as [Hlt | Hge].
    + destruct (IH fuel (n + 1) bound ltac:(lia) ltac:(lia) ltac:(lia) Hb)
        as (k & Hk & Hr & Hle & Hmin).
      * right. now replace (n + 1 - 1) with n by lia.
      * exists k. repeat split; try assumption; lia.
    + exists n. repeat split; try assumption; lia.
Qed.

(** X11.  The number of bits the bar and pattern-instrument fields take
    ([n = 0; while ((1 << n) < bound) n++]): for a bound of at most [2^30]
    the loop ends with the least [n] such that [bound <= 2^n], so that every
    number from 0 to [bound - 1] fits in [n] bits. *)
Theorem neededBits_least (bound : Z) :
  bound <= 2 ^ 30 ->
  exists n,
    neededBitsFor (Num bound) = Ok n
    /\ 0 <= n <= 30
    /\ bound <= 2 ^ n
    /\ (forall k, 0 <= k < n -> 2 ^ k < bound).
Proof.
  intros Hb. unfold neededBitsFor.
  destruct (neededBits_loop_spec 31 32 0 bound ltac:(lia) ltac:(lia) ltac:(lia) Hb
              ltac:(left; reflexivity)) as (n & Hn & Hr & Hle & Hmin).
  exists n. repeat split; try assumption; try lia.
  intros k Hk. destruct Hmin as [-> | Hmin]; [lia|].
  apply Z.le_lt_trans with (2 ^ (n - 1)); [|assumption].
  apply Z.pow_le_mono_r; lia.
Qed.

Lemma neededBits_least_witness :
  exists n,
    neededBitsFor (Num 9) = Ok n
    /\ 0 <= n <= 30
    /\ 9 <= 2 ^ n
    /\ (forall k, 0 <= k < n -> 2 ^ k < 9).
Proof. apply (neededBits_least 9). vm_compute. discriminate. Defined.

(* ================================================================== *)
(** * Theorems: fields of a fixed width *)
(* ================================================================== *)

Lemma fields_written (bitCount : Z) (a : list value) (indices : list nat) :
  0 <= bitCount <= 31 ->
  forall w,
    sound w ->
    Forall (fun i => exists v, nth i a Undefined = Num v /\ 0 <= v < 2 ^ bitCount) indices ->
    exists bs,
      sound (fold_left (fun w i => BitFieldWriter.write bitCount (nth i a Undefined) w)
               indices w)
      /\ content (fold_left (fun w i => BitFieldWriter.write bitCount (nth i a Undefined) w)
                    indices w)
         = content w ++ bs
      /\ List.length bs = (List.length indices * Z.to_nat bitCount)%nat
      /\ reads (readFields bitCount (List.length indices)) bs
           (map (fun i => nth i a Undefined) indices).
Proof.
  intros Hbits. induction indices as [|i rest IH]; intros w Hw Hall.
  - exists []. cbn [fold_left List.length map readFields]. rewrite app_nil_r.
    repeat split; try assumption.
    intros r rest Hpos. exists r. split; [reflexivity | assumption].
  - inversion Hall as [|? ? (v & Hv & Hrange) Hrest]; subst.
    cbn [fold_left]. rewrite Hv.
    destruct (write_reads bitCount v w Hbits Hrange Hw)
      as (bs1 & Hs1 & Hc1 & Hl1 & Hr1).
    destruct (IH _ Hs1 Hrest) as (bs2 & Hs2 & Hc2 & Hl2 & Hr2).
    exists (bs1 ++ bs2). split; [assumption|]. split.
    { rewrite Hc2, Hc1. now rewrite app_assoc. }
    split.
    { rewrite length_app, Hl1, Hl2. cbn [List.length]. lia. }
    intros r tail Hpos. rewrite <- app_assoc in Hpos.
    destruct (Hr1 r (bs2 ++ tail) Hpos) as (r1 & Hread1 & Hpos1).
    destruct (Hr2 r1 tail Hpos1) as (r2 & Hread2 & Hpos2).
    exists r2. cbn [List.length readFields map]. rewrite Hread1, Hread2, Hv.
    split; [reflexivity | assumption].
Qed.

(** X12.  The fields of a fixed width (the bars of a channel, the values of a
    spectrum or of the harmonics): the loop that writes the first [n]
    elements of an array, each a number of [bitCount] bits, and the loop that
    reads [n] fields give the elements back in order. *)
Theorem fields_roundtrip (bitCount : Z) (n : nat) (a : list value)
  (w : BitFieldWriter.t) :
  0 <= bitCount <= 31 -> sound w -> (n <= List.length a)%nat ->
  Forall (fun x => exists v, x = Num v /\ 0 <= v < 2 ^ bitCount) (firstn n a) ->
  exists bs,
    sound (writeFields bitCount (Z.of_nat n) a w)
    /\ content (writeFields bitCount (Z.of_nat n) a w) = content w ++ bs
    /\ List.length bs = (n * Z.to_nat bitCount)%nat
    /\ reads (readFields bitCount n) bs (firstn n a).
Proof.
  intros Hbits Hw Hn Hall. unfold writeFields. rewrite Nat2Z.id.
  assert (Hmap : map (fun i => nth i a Undefined) (seq 0 n) = firstn n a).
  { clear Hall. revert n Hn. induction a as [|x a IH]; intros [|n] Hn; cbn in *;
      try reflexivity; try lia.
    f_equal. rewrite <- seq_shift, map_map. apply IH. lia. }
  destruct (fields_written bitCount a (seq 0 n) Hbits w Hw) as (bs & Hs & Hc & Hl & Hr).
  { rewrite <- Hmap in Hall. rewrite Forall_map in Hall. exact Hall. }
  rewrite length_seq in Hl, Hr. rewrite Hmap in Hr.
  exists bs. repeat split; assumption.
Qed.

Lemma fields_roundtrip_witness :
  exists bs,
    sound (writeFields 3 (Z.of_nat 4) [Num 1; Num 0; Num 7; Num 2; Num 9] BitFieldWriter.empty)
    /\ content (writeFields 3 (Z.of_nat 4) [Num 1; Num 0; Num 7; Num 2; Num 9]
                  BitFieldWriter.empty)
       = content BitFieldWriter.empty ++ bs
    /\ List.length bs = (4 * Z.to_nat 3)%nat
    /\ reads (readFields 3 4) bs (firstn 4 [Num 1; Num 0; Num 7; Num 2; Num 9]).
Proof.
  apply (fields_roundtrip 3 4 [Num 1; Num 0; Num 7; Num 2; Num 9] BitFieldWriter.empty).
  - lia.
  - apply empty_sound.
  - cbn. lia.
  - cbn [firstn].
    repeat (constructor; [eexists; split; [reflexivity | vm_compute; split; [discriminate | reflexivity]]|]).
    constructor.
Defined.

(* ================================================================== *)
(** * Theorems: the length of the pattern bits *)
(* ================================================================== *)

(** The value of base-64 digits, the most significant first. *)
Lemma lengthDigits_spec (k : nat) :
  forall fuel stringLength digits,
    0 <= stringLength < 64 ^ Z.of_nat k -> (k <= fuel)%nat -> (k <= 5)%nat ->
    exists zs,
      lengthDigits fuel stringLength digits = map (fun v => b64 (Num v)) zs ++ digits
      /\ (List.length zs <= k)%nat
      /\ (0 < stringLength -> (1 <= List.length zs)%nat)
      /\ Forall (fun v => 0 <= v < 64) zs
      /\ fold_left (fun a v => a * 64 + v) zs 0 = stringLength.
Proof.
  induction k as [|k IH]; intros fuel L digits HL Hfuel Hk.
  - change (64 ^ Z.of_nat 0) with 1 in HL. assert (L = 0) by lia. subst L.
    exists []. destruct fuel; cbn; repeat split; auto; lia.
  - destruct fuel as [|fuel]; [lia|]. cbn [lengthDigits].
    destruct (Z.ltb_spec 0 L) as [Hpos | Hzero].
    + assert (Hpow : 64 ^ Z.of_nat (S k) = 64 * 64 ^ Z.of_nat k).
      { replace (Z.of_nat (S k)) with (Z.of_nat k + 1) by lia.
        rewrite Z.pow_add_r by lia. lia. }
      assert (Hle : 64 ^ Z.of_nat (S k) <= 64 ^ 5) by (apply Z.pow_le_mono_r; lia).
      change (64 ^ 5) with 1073741824 in Hle.
      assert (H31 : 2 ^ 31 = 2147483648) by reflexivity.
      assert (Hsar : JS.sar L 6 = L / 64).
      { unfold JS.sar. rewrite wrap32_small by lia. change (6 mod 32) with 6.
        now rewrite Z.shiftr_div_pow2 by lia. }
      assert (Hand : Z.land (JS.wrap32 L) 63 = L mod 64).
      { rewrite wrap32_small by lia. change 63 with (Z.ones 6).
        now rewrite Z.land_ones by lia. }
      rewrite Hsar, Hand.
      destruct (IH fuel (L / 64) (b64 (Num (L mod 64)) :: digits))
        as (zs & Heq & Hlen & Hne & Hall & Hval); try lia.
      { split; [apply Z.div_pos; lia|]. apply Z.div_lt_upper_bound; lia. }
      exists (zs ++ [L mod 64]). rewrite Heq, map_app, <- app_assoc. cbn [map app].
      split; [reflexivity|]. split; [rewrite length_app; cbn; lia|].
      split; [intros _; rewrite length_app; cbn; lia|].
      split.
      { apply Forall_app. split; [assumption|]. constructor; [|constructor].
        apply Z.mod_pos_bound. lia. }
      rewrite fold_left_app. cbn [fold_left]. rewrite Hval.
      pose proof (Z.div_mod L 64 ltac:(lia)). lia.
    + assert (L = 0) by lia. subst L. exists [].
      cbn. repeat split; auto; lia.
Qed.

Lemma set_charIndex_twice (x y : value) (d : Decoder) :
  set_charIndex x (set_charIndex y d) = set_charIndex x d.
Proof. reflexivity. Qed.

Lemma readLength_digits (compressed : string) (zs : list Z) :
  forall acc d i,
    charIndex d = Num i ->
    (forall j, (j < List.length zs)%nat ->
       JS.charCodeAt compressed (Num (i + Z.of_nat j)) = b64 (Num (nth j zs 0))) ->
    Forall (fun v => 0 <= v < 64) zs ->
    0 <= acc -> (acc + 1) * 64 ^ Z.of_nat (List.length zs) <= 2 ^ 31 ->
    readLength compressed (List.length zs) (Num acc) d
    = Ok (Num (fold_left (fun a v => a * 64 + v) zs acc),
          set_charIndex (Num (i + Z.of_nat (List.length zs))) d).
Proof.
  induction zs as [|z zs IH]; intros acc d i Hd Hchars Hall Hacc Hbound.
  - cbn [List.length readLength fold_left]. unfold ret.
    replace (i + Z.of_nat 0) with i by lia. rewrite <- Hd.
    destruct d; reflexivity.
  - inversion Hall as [|? ? Hz Hrest]; subst.
    cbn [List.length] in Hbound.
    cbn [List.length readLength fold_left]. unfold bind, readSymbol.
    rewrite Hd. specialize (Hchars 0%nat ltac:(cbn; lia)) as H0.
    replace (i + Z.of_nat 0) with i in H0 by lia. cbn [nth] in H0.
    rewrite H0. unfold b64.
    rewrite (proj1 (symbol_inverse z Undefined Hz)).
    assert (Hpow : 64 ^ Z.of_nat (S (List.length zs))
                   = 64 * 64 ^ Z.of_nat (List.length zs)).
    { replace (Z.of_nat (S (List.length zs))) with (Z.of_nat (List.length zs) + 1) by lia.
      rewrite Z.pow_add_r by lia. lia. }
    assert (Hp : 0 < 64 ^ Z.of_nat (List.length zs)) by (apply Z.pow_pos_nonneg; lia).
    assert (H31 : 2 ^ 31 = 2147483648) by reflexivity.
    assert (Hacc64 : (acc + 1) * 64 <= 2 ^ 31).
    { rewrite Hpow in Hbound. nia. }
    assert (Hshl : JS.vshl (Num acc) 6 = acc * 64).
    { unfold JS.vshl, JS.shl, JS.toInt32. rewrite !(wrap32_small acc) by lia.
      change (6 mod 32) with 6. rewrite Z.shiftl_mul_pow2 by lia.
      rewrite wrap32_small by (change (2 ^ 6) with 64; lia). reflexivity. }
    rewrite Hshl. cbn [JS.add].
    rewrite (IH (acc * 64 + z) (set_charIndex (Num (i + 1)) d) (i + 1)).
    + rewrite set_charIndex_twice.
      replace (i + 1 + Z.of_nat (List.length zs))
        with (i + Z.of_nat (S (List.length zs))) by lia.
      reflexivity.
    + reflexivity.
    + intros j Hj. specialize (Hchars (S j) ltac:(cbn; lia)).
      cbn [nth] in Hchars. rewrite <- Hchars. do 2 f_equal. lia.
    + assumption.
    + lia.
    + rewrite Hpow in Hbound. nia.
Qed.

(** X13.  The length of the pattern bits: the base-64 digits the encoder writes
    for a length from 1 to [2^24 - 1] are at most four, which is what the
    decoder accepts, and [readLength] over the characters of these digits
    gives the length back and leaves the character index behind them. *)
Theorem pattern_length_roundtrip (compressed : string) (stringLength i : Z)
  (d : Decoder) :
  1 <= stringLength < 2 ^ 24 ->
  charIndex d = Num i ->
  (forall j, (j < List.length (lengthDigits 6 stringLength []))%nat ->
     JS.charCodeAt compressed (Num (i + Z.of_nat j))
     = nth j (lengthDigits 6 stringLength []) Undefined) ->
  validateRange (Num 1) (Num 4)
    (Num (Z.of_nat (List.length (lengthDigits 6 stringLength []))))
  = Ok (Num (Z.of_nat (List.length (lengthDigits 6 stringLength []))))
  /\ readLength compressed (List.length (lengthDigits 6 stringLength [])) (Num 0) d
     = Ok (Num stringLength,
           set_charIndex
             (Num (i + Z.of_nat (List.length (lengthDigits 6 stringLength [])))) d).
Proof.
  intros HL Hd Hchars.
  destruct (lengthDigits_spec 4 6 stringLength []) as (zs & Heq & Hlen & Hne & Hall & Hval);
    try lia.
  rewrite app_nil_r in Heq. rewrite Heq in *. rewrite length_map in *.
  specialize (Hne ltac:(lia)).
  split.
  - unfold validateRange. cbn [JS.le].
    destruct (Z.leb_spec 1 (Z.of_nat (List.length zs))); [|lia].
    destruct (Z.leb_spec (Z.of_nat (List.length zs)) 4); [|lia]. reflexivity.
  - rewrite (readLength_digits compressed zs 0 d i Hd); [now rewrite Hval| |assumption|lia|].
    + intros j Hj. rewrite (Hchars j Hj).
      rewrite (nth_indep _ Undefined (b64 (Num 0))) by (rewrite length_map; assumption).
      apply (map_nth (fun v => b64 (Num v))).
    + assert (64 ^ Z.of_nat (List.length zs) <= 64 ^ 4) by (apply Z.pow_le_mono_r; lia).
      change (64 ^ 4) with 16777216 in *. change (2 ^ 31) with 2147483648. lia.
Qed.

Lemma pattern_length_roundtrip_witness :
  validateRange (Num 1) (Num 4)
    (Num (Z.of_nat (List.length (lengthDigits 6 200 []))))
  = Ok (Num (Z.of_nat (List.length (lengthDigits 6 200 []))))
  /\ readLength "p238"%string (List.length (lengthDigits 6 200 [])) (Num 0)
       (Build_Decoder Song_blank (Num 2) [] (Num 0) 0 (-1))
     = Ok (Num 200,
           set_charIndex
             (Num (2 + Z.of_nat (List.length (lengthDigits 6 200 []))))
             (Build_Decoder Song_blank (Num 2) [] (Num 0) 0 (-1))).
Proof.
  apply (pattern_length_roundtrip "p238"%string 200 2
           (Build_Decoder Song_blank (Num 2) [] (Num 0) 0 (-1))).
  - vm_compute. split; [discriminate | reflexivity].
  - reflexivity.
  - intros j Hj. vm_compute in Hj.
    destruct j as [|[|j]]; [reflexivity | reflexivity | exfalso].
    apply le_S_n, le_S_n in Hj. inversion Hj.
Defined.

(* ================================================================== *)
(** * Theorems: pitches *)
(* ================================================================== *)

Lemma pitchInterval_up (recent : list value) (a b : Z) :
  a < b ->
  pitchInterval recent (Num a) (Num b)
  = Ok (Z.of_nat (freeCount recent 1 a (Z.to_nat (b - a)))).
Proof.
  intros H. unfold pitchInterval, freeCount.
  destruct (Z.ltb_spec a b); [|lia].
  do 4 f_equal. apply map_ext. intros k. lia.
Qed.

Lemma pitchInterval_down (recent : list value) (a b : Z) :
  b <= a ->
  pitchInterval recent (Num a) (Num b)
  = Ok (- Z.of_nat (freeCount recent (-1) a (Z.to_nat (a - b)))).
Proof.
  intros H. unfold pitchInterval, freeCount.
  destruct (Z.ltb_spec a b); [lia|].
  do 5 f_equal. apply map_ext. intros k. lia.
Qed.

Lemma pitch_interval_spec (recent : list value) (a b : Z) :
  a <> b -> includes recent (Num b) = false ->
  exists interval,
    pitchInterval recent (Num a) (Num b) = Ok interval
    /\ interval <> 0 /\ Z.abs interval <= Z.abs (b - a)
    /\ (if 0 <? interval
        then stepPitch (Z.to_nat interval) recent 1 (Num a)
        else stepPitch (Z.to_nat (- interval)) recent (-1) (Num a)) = Num b.
Proof.
  intros Hne Hfree. destruct (Z.lt_ge_cases a b) as [Hlt | Hge].
  - rewrite pitchInterval_up by assumption.
    set (d := Z.to_nat (b - a)).
    assert (Hb : b = a + 1 * Z.of_nat d) by (subst d; lia).
    rewrite Hb in Hfree.
    pose proof (freeCount_pos recent 1 ltac:(left; reflexivity) a d ltac:(subst d; lia) Hfree) as Hpos.
    eexists. split; [reflexivity|]. split; [lia|]. split; [lia|].
    destruct (Z.ltb_spec 0 (Z.of_nat (freeCount recent 1 a d))); [|lia].
    rewrite Nat2Z.id.
    rewrite (stepPitch_freeCount recent 1 ltac:(left; reflexivity) d a
               ltac:(subst d; lia) Hfree).
    f_equal. lia.
  - rewrite pitchInterval_down by assumption.
    set (d := Z.to_nat (a - b)).
    assert (Hb : b = a + -1 * Z.of_nat d) by (subst d; lia).
    rewrite Hb in Hfree.
    pose proof (freeCount_pos recent (-1) ltac:(right; reflexivity) a d ltac:(subst d; lia) Hfree) as Hpos.
    eexists. split; [reflexivity|]. split; [lia|]. split; [lia|].
    destruct (Z.ltb_spec 0 (- Z.of_nat (freeCount recent (-1) a d))); [lia|].
    rewrite Z.opp_involutive, Nat2Z.id.
    rewrite (stepPitch_freeCount recent (-1) ltac:(right; reflexivity) d a
               ltac:(subst d; lia) Hfree).
    f_equal. lia.
Qed.



Lemma strictEq_sym (a b : value) : strictEq a b = strictEq b a.
Proof. destruct a, b; cbn; try reflexivity. apply Z.eqb_sym. Qed.

Lemma indexOf_none (recent : list value) (x : value) :
  indexOf strictEq recent x = None -> includes recent x = false.
Proof.
  unfold includes. induction recent as [|y rest IH]; cbn; [reflexivity|].
  rewrite (strictEq_sym x y). destruct (strictEq y x); [discriminate|].
  destruct (indexOf strictEq rest x); [discriminate|]. intros _. now apply IH.
Qed.

Lemma indexOf_some (recent : list value) (p : Z) :
  forall i,
    indexOf strictEq recent (Num p) = Some i ->
    (i < List.length recent)%nat /\ nth i recent Undefined = Num p.
Proof.
  induction recent as [|y rest IH]; intros i; cbn; [discriminate|].
  destruct (strictEq y (Num p)) eqn:E.
  - intros [= <-]. split; [lia|]. destruct y as [z| |]; try discriminate E.
    cbn in E. apply Z.eqb_eq in E. now subst.
  - destruct (indexOf strictEq rest (Num p)) as [j|]; [|discriminate].
    intros [= <-]. destruct (IH j eq_refl). split; [lia | assumption].
Qed.

Lemma encodePitch_spec (fuel : nat) (pitch last : Z) (c : EncodeCursor) :
  (32 <= fuel)%nat -> sound (e_bits c) ->
  e_lastPitch c = Num last ->
  - 2 ^ 29 < pitch < 2 ^ 29 -> - 2 ^ 29 < last < 2 ^ 29 ->
  (List.length (e_recentPitches c) <= 8)%nat ->
  includes (e_recentPitches c) (Num last) = true ->
  exists c' bs,
    encodePitch fuel (Num pitch) c = Ok c'
    /\ sound (e_bits c') /\ content (e_bits c') = content (e_bits c) ++ bs
    /\ e_shapeBits c' = e_shapeBits c /\ e_lastPitch c' = e_lastPitch c
    /\ e_recentShapes c' = e_recentShapes c
    /\ forall r rest shapes,
         positioned r (bs ++ rest) ->
         exists r',
           readPitch (Build_Cursor r (Num last) (e_recentPitches c) shapes)
           = Ok (Num pitch,
                 Build_Cursor r' (Num last) (e_recentPitches c') shapes)
           /\ positioned r' rest.
Proof.
  intros Hfuel Hw Hlast Hp Hl Hlen Hin. unfold encodePitch. rewrite Hlast.
  assert (H29 : 2 ^ 29 = 536870912) by reflexivity.
  assert (H30 : 2 ^ 30 = 1073741824) by reflexivity.
  destruct (indexOf strictEq (e_recentPitches c) (Num pitch)) as [i|] eqn:Ei.
  - (* a recent pitch *)
    destruct (indexOf_some _ _ _ Ei) as (Hi & Hnth).
    destruct (write1_sound true _ Hw) as (Hs1 & Hc1). cbn [Z.b2z] in Hs1, Hc1.
    destruct (write_reads 3 (Z.of_nat i) _ ltac:(lia)
                ltac:(change (2 ^ 3) with 8; lia) Hs1) as (bs & Hs & Hc & _ & Hr).
    cbn [rbind]. eexists _, (true :: bs). split; [reflexivity|].
    cbn [e_bits e_shapeBits e_lastPitch e_recentShapes e_recentPitches].
    split; [assumption|]. split.
    { rewrite Hc, Hc1, <- app_assoc. reflexivity. }
    do 3 (split; [reflexivity|]).
    intros r rest shapes Hpos. unfold readPitch. cbn [bits recentPitches lastPitch recentShapes].
    change ((true :: bs) ++ rest) with ([true] ++ bs ++ rest) in Hpos.
    destruct (read1_reads true r (bs ++ rest) Hpos) as (r1 & -> & Hpos1).
    cbn [Z.b2z JS.eqz Z.eqb Pos.eqb negb].
    destruct (Hr r1 rest Hpos1) as (r2 & -> & Hpos2).
    unfold validateRange. cbn [JS.le].
    destruct (Z.leb_spec 0 (Z.of_nat i)); [|lia].
    destruct (Z.leb_spec (Z.of_nat i) (Z.of_nat (List.length (e_recentPitches c)) - 1));
      [|lia].
    cbn [andb rbind turns]. rewrite Nat2Z.id, Hnth.
    exists r2. split; [reflexivity | assumption].
  - (* an interval from the last pitch *)
    pose proof (indexOf_none _ _ Ei) as Hfree.
    assert (Hne : last <> pitch) by (intros ->; congruence).
    destruct (pitch_interval_spec _ _ _ Hne Hfree) as (interval & -> & Hnz & Habs & Hstep).
    destruct (write1_sound false _ Hw) as (Hs1 & Hc1). cbn [Z.b2z] in Hs1, Hc1.
    destruct (writePitchInterval_sound fuel interval _ Hnz ltac:(lia) Hfuel Hs1)
      as (w' & bs & Hwr & Hs & Hc & Hr).
    cbn [rbind]. rewrite Hwr. cbn [rbind].
    eexists _, (false :: bs). split; [reflexivity|].
    cbn [e_bits e_shapeBits e_lastPitch e_recentShapes e_recentPitches].
    split; [assumption|]. split.
    { rewrite Hc, Hc1, <- app_assoc. reflexivity. }
    do 3 (split; [reflexivity|]).
    intros r rest shapes Hpos. unfold readPitch. cbn [bits recentPitches lastPitch recentShapes].
    change ((false :: bs) ++ rest) with ([false] ++ bs ++ rest) in Hpos.
    destruct (read1_reads false r (bs ++ rest) Hpos) as (r1 & -> & Hpos1).
    cbn [Z.b2z JS.eqz Z.eqb negb].
    destruct (Hr r1 rest Hpos1) as (r2 & -> & Hpos2).
    cbn [rbind]. rewrite Hstep.
    exists r2. split; [reflexivity | assumption].
Qed.

(** X15.  One pitch of a note, from [encodePitch] to [readPitch]: with the same
    last pitch and recent pitches on both sides (at most eight, the last
    pitch among them), the bits the encoder writes for a pitch make the
    decoder return that pitch, and the recent pitches of the two are the
    same afterwards. *)
Theorem pitch_roundtrip (fuel : nat) (pitch last : Z) (c : EncodeCursor) :
  (32 <= fuel)%nat -> sound (e_bits c) ->
  e_lastPitch c = Num last ->
  - 2 ^ 29 < pitch < 2 ^ 29 -> - 2 ^ 29 < last < 2 ^ 29 ->
  (List.length (e_recentPitches c) <= 8)%nat ->
  includes (e_recentPitches c) (Num last) = true ->
  exists c' bs,
    encodePitch fuel (Num pitch) c = Ok c'
    /\ sound (e_bits c') /\ content (e_bits c') = content (e_bits c) ++ bs
    /\ e_shapeBits c' = e_shapeBits c /\ e_lastPitch c' = e_lastPitch c
    /\ e_recentShapes c' = e_recentShapes c
    /\ forall r rest shapes,
         positioned r (bs ++ rest) ->
         exists r',
           readPitch (Build_Cursor r (Num last) (e_recentPitches c) shapes)
           = Ok (Num pitch,
                 Build_Cursor r' (Num last) (e_recentPitches c') shapes)
           /\ positioned r' rest.
Proof. apply encodePitch_spec. Qed.

Lemma pitch_roundtrip_witness :
  exists c' bs,
    encodePitch 32 (Num 26)
      (Build_EncodeCursor BitFieldWriter.empty BitFieldWriter.empty (Num 12)
         [Num 12; Num 19; Num 24; Num 31; Num 36; Num 7; Num 0] []) = Ok c'
    /\ sound (e_bits c')
    /\ content (e_bits c')
       = content (e_bits (Build_EncodeCursor BitFieldWriter.empty BitFieldWriter.empty
                            (Num 12) [Num 12; Num 19; Num 24; Num 31; Num 36; Num 7; Num 0]
                            [])) ++ bs
    /\ e_shapeBits c'
       = e_shapeBits (Build_EncodeCursor BitFieldWriter.empty BitFieldWriter.empty
                        (Num 12) [Num 12; Num 19; Num 24; Num 31; Num 36; Num 7; Num 0] [])
    /\ e_lastPitch c'
       = e_lastPitch (Build_EncodeCursor BitFieldWriter.empty BitFieldWriter.empty
                        (Num 12) [Num 12; Num 19; Num 24; Num 31; Num 36; Num 7; Num 0] [])
    /\ e_recentShapes c'
       = e_recentShapes (Build_EncodeCursor BitFieldWriter.empty BitFieldWriter.empty
                           (Num 12) [Num 12; Num 19; Num 24; Num 31; Num 36; Num 7; Num 0] [])
    /\ forall r rest shapes,
         positioned r (bs ++ rest) ->
         exists r',
           readPitch
             (Build_Cursor r (Num 12)
                (e_recentPitches
                   (Build_EncodeCursor BitFieldWriter.empty BitFieldWriter.empty
                      (Num 12) [Num 12; Num 19; Num 24; Num 31; Num 36; Num 7; Num 0] []))
                shapes)
           = Ok (Num 26, Build_Cursor r' (Num 12) (e_recentPitches c') shapes)
           /\ positioned r' rest.
Proof.
  apply (pitch_roundtrip 32 26 12
           (Build_EncodeCursor BitFieldWriter.empty BitFieldWriter.empty (Num 12)
              [Num 12; Num 19; Num 24; Num 31; Num 36; Num 7; Num 0] [])).
  - lia.
  - apply empty_sound.
  - reflexivity.
  - vm_compute. split; reflexivity.
  - vm_compute. split; reflexivity.
  - cbn. lia.
  - reflexivity.
Defined.

(* ================================================================== *)
(** * Theorems: the pins of a note *)
(* ================================================================== *)

Lemma pinsOk_inv (startPitch : value) (prev : Z) (pin : NotePin.t) (rest : list NotePin.t) :
  pinsOk startPitch prev (pin :: rest) = true ->
  exists t e p,
    NotePin.time pin = Num t /\ prev < t <= 2 ^ 30
    /\ NotePin.expression pin = Num e /\ 0 <= e <= 3
    /\ JS.add startPitch (NotePin.interval pin) = Num p
    /\ pinsOk startPitch t rest = true.
Proof.
  cbn [pinsOk]. intros H.
  apply andb_prop in H as (H & Hrest). apply andb_prop in H as (H & Hp).
  apply andb_prop in H as (Ht & He).
  destruct (NotePin.time pin) as [t| |]; try discriminate Ht.
  destruct (NotePin.expression pin) as [e| |]; try discriminate He.
  destruct (JS.add startPitch (NotePin.interval pin)) as [p| |]; try discriminate Hp.
  cbn in Ht, He. exists t, e, p. cbn [numberOf] in Hrest.
  repeat split; try assumption; lia.
Qed.

(** The pins the decoder makes from a shape are the pins the shape was taken
    from, as long as [current] is the pitch the pin before them has reached:
    a pin that does not bend keeps the interval of the one before. *)
Lemma makePins_inverse (startPitch : Z) (pins : list NotePin.t) :
  forall (current prev : Z),
    pinsOk (Num startPitch) prev pins = true ->
    makePins (shapePinsOf (Num startPitch) (Num current) pins)
      (Num current :: bendPitches (Num startPitch) (Num current) pins) (Num startPitch)
    = pins.
Proof.
  induction pins as [|pin rest IH]; intros current prev Hok; [reflexivity|].
  destruct (pinsOk_inv _ _ _ _ Hok) as (t & e & p & Ht & Htr & He & Her & Hp & Hrest).
  cbn [shapePinsOf bendPitches makePins pitchBend pin_time pin_expression].
  rewrite Hp, Ht. cbn [numberOf strictEq].
  assert (Hi : NotePin.interval pin = Num (p - startPitch)).
  { destruct (NotePin.interval pin) as [i| |]; try discriminate Hp.
    cbn in Hp. injection Hp as <-. f_equal. lia. }
  destruct (Z.eqb_spec current p) as [-> | Hne]; cbn [negb tl nth].
  - rewrite (IH p t Hrest). cbn [JS.sub]. rewrite <- Hi, <- Ht.
    destruct pin; reflexivity.
  - rewrite (IH p t Hrest). cbn [JS.sub]. rewrite <- Hi, <- Ht.
    destruct pin; reflexivity.
Qed.

(** X16.  The pins of a note after the first, from the encoder's loop over
    [note.pins] to the decoder's over the pins of a new shape and back to
    pins: for pins whose times rise and stay below [2^30], whose expressions
    are 0..3 and whose pitches are within [2^29] of 0, the decoder reads as
    many pins, with the same times and expressions, counts the same pitch
    bends as the encoder collects, and makes the same pins of them. *)
Theorem pins_roundtrip (cfg : Config) (rhythm : value) (fuel : nat)
  (pins : list NotePin.t) (startPitch shapePart : Z) (pitchBends : list value)
  (w : BitFieldWriter.t) :
  (32 <= fuel)%nat ->
  pinsOk (Num startPitch) shapePart pins = true -> 0 <= shapePart -> sound w ->
  exists w' bs,
    encodePins fuel pins (Num startPitch) (Num startPitch) (Num shapePart) pitchBends w
    = Ok (pitchBends ++ bendPitches (Num startPitch) (Num startPitch) pins, w')
    /\ sound w' /\ content w' = content w ++ bs
    /\ forall r rest bendCount acc,
         positioned r (bs ++ rest) ->
         exists r' shapePins,
           readShapePins cfg false (List.length pins) rhythm shapePart bendCount acc r
           = Ok (acc ++ shapePins, lastTime shapePart pins,
                 bendCount
                 + Z.of_nat (List.length (bendPitches (Num startPitch) (Num startPitch) pins)),
                 r')
           /\ positioned r' rest
           /\ makePins shapePins
                (Num startPitch :: bendPitches (Num startPitch) (Num startPitch) pins)
                (Num startPitch)
              = pins.
Proof.
  intros Hfuel Hok Hpart Hw.
  destruct (encodePins_spec cfg rhythm fuel pins Hfuel (Num startPitch) (Num startPitch)
              shapePart pitchBends w Hok Hpart Hw) as (w' & bs & Henc & Hs & Hc & Hr).
  exists w', bs. repeat split; try assumption.
  intros r rest bendCount acc Hpos.
  destruct (Hr r rest shapePart bendCount acc eq_refl Hpos) as (r' & Hread & Hpos').
  exists r', (shapePinsOf (Num startPitch) (Num startPitch) pins).
  split; [assumption|]. split; [assumption|].
  now apply makePins_inverse with shapePart.
Qed.

Lemma pins_roundtrip_witness :
  exists w' bs,
    encodePins 32 [NotePin.mk (Num 2) (Num 6) (Num 3); NotePin.mk (Num 2) (Num 12) (Num 0)]
      (Num 24) (Num 24) (Num 0) [] BitFieldWriter.empty
    = Ok ([] ++ bendPitches (Num 24) (Num 24)
                  [NotePin.mk (Num 2) (Num 6) (Num 3); NotePin.mk (Num 2) (Num 12) (Num 0)],
          w')
    /\ sound w' /\ content w' = content BitFieldWriter.empty ++ bs
    /\ forall r rest bendCount acc,
         positioned r (bs ++ rest) ->
         exists r' shapePins,
           readShapePins referenceConfig false
             (List.length
                [NotePin.mk (Num 2) (Num 6) (Num 3); NotePin.mk (Num 2) (Num 12) (Num 0)])
             (Num 1) 0 bendCount acc r
           = Ok (acc ++ shapePins,
                 lastTime 0
                   [NotePin.mk (Num 2) (Num 6) (Num 3); NotePin.mk (Num 2) (Num 12) (Num 0)],
                 bendCount
                 + Z.of_nat
                     (List.length
                        (bendPitches (Num 24) (Num 24)
                           [NotePin.mk (Num 2) (Num 6) (Num 3);
                            NotePin.mk (Num 2) (Num 12) (Num 0)])),
                 r')
           /\ positioned r' rest
           /\ makePins shapePins
                (Num 24 :: bendPitches (Num 24) (Num 24)
                             [NotePin.mk (Num 2) (Num 6) (Num 3);
                              NotePin.mk (Num 2) (Num 12) (Num 0)])
                (Num 24)
              = [NotePin.mk (Num 2) (Num 6) (Num 3); NotePin.mk (Num 2) (Num 12) (Num 0)].
Proof.
  apply (pins_roundtrip referenceConfig (Num 1) 32
           [NotePin.mk (Num 2) (Num 6) (Num 3); NotePin.mk (Num 2) (Num 12) (Num 0)]
           24 0 [] BitFieldWriter.empty).
  - lia.
  - vm_compute. reflexivity.
  - lia.
  - apply empty_sound.
Defined.

(* ================================================================== *)
(** * Theorems: the playhead *)
(* ================================================================== *)












(* ================================================================== *)
(** * Theorems: buffer sizes *)
(* ================================================================== *)

(** X21.  [fittingPowerOfTwo(x)] for [x] whose ceiling [c] is from 1 to [2^30]:
    the result is a power of two that is at least [c] and less than twice
    [c], so that the result minus one is a mask for indices below it. *)
Theorem fittingPowerOfTwo_fits (x : float) (c : Z) :
  ceilZ x = Some c -> 1 <= c <= 2 ^ 30 ->
  exists k,
    fittingPowerOfTwo x = 2 ^ k /\ 0 <= k <= 30
    /\ c <= fittingPowerOfTwo x < 2 * c
    /\ forall i, 0 <= i -> Z.land i (fittingPowerOfTwo x - 1) = i mod fittingPowerOfTwo x.
Proof.
  intros Hc Hr. unfold fittingPowerOfTwo. rewrite Hc.
  assert (H30 : 2 ^ 30 = 1073741824) by reflexivity.
  assert (H32 : 2 ^ 32 = 4294967296) by reflexivity.
  assert (Hmask : forall k, 0 <= k -> forall i, Z.land i (2 ^ k - 1) = i mod 2 ^ k).
  { intros k Hk i. replace (2 ^ k - 1) with (Z.ones k) by (rewrite Z.ones_equiv; lia).
    now apply Z.land_ones. }
  unfold clz32, JS.uwrap32. rewrite Z.mod_small by lia.
  destruct (Z.eqb_spec (c - 1) 0) as [E | E].
  - exists 0. change (32 - 32) with 0. rewrite shl_1_small by lia.
    repeat split; try (change (2 ^ 0) with 1; lia).
    intros i _. apply (Hmask 0). lia.
  - pose proof (Z.log2_spec (c - 1) ltac:(lia)) as (Hlo & Hhi).
    pose proof (Z.log2_nonneg (c - 1)) as Hl0.
    assert (Hl : Z.log2 (c - 1) <= 29).
    { apply Z.lt_succ_r. apply Z.log2_lt_pow2; [lia|]. change (Z.succ 29) with 30. lia. }
    exists (Z.log2 (c - 1) + 1).
    replace (32 - (31 - Z.log2 (c - 1))) with (Z.log2 (c - 1) + 1) by lia.
    rewrite shl_1_small by lia.
    replace (Z.succ (Z.log2 (c - 1))) with (Z.log2 (c - 1) + 1) in Hhi by lia.
    assert (Hpow : 2 ^ (Z.log2 (c - 1) + 1) = 2 * 2 ^ Z.log2 (c - 1)).
    { rewrite Z.pow_add_r by lia. change (2 ^ 1) with 2. lia. }
    repeat split; try lia.
    intros i _. apply Hmask. lia.
Qed.

Lemma fittingPowerOfTwo_fits_witness :
  exists k,
    fittingPowerOfTwo 1000.5%float = 2 ^ k /\ 0 <= k <= 30
    /\ 1001 <= fittingPowerOfTwo 1000.5%float < 2 * 1001
    /\ forall i, 0 <= i ->
         Z.land i (fittingPowerOfTwo 1000.5%float - 1)
         = i mod fittingPowerOfTwo 1000.5%float.
Proof.
  apply (fittingPowerOfTwo_fits 1000.5%float 1001).
  - vm_compute. reflexivity.
  - vm_compute. split; discriminate.
Defined.

(** X22.  [fittingPowerOfTwo] past its range: for a ceiling from [2^30 + 1] to
    [2^31] the shift [1 << 31] overflows and the result is [-2^31]. *)
Theorem fittingPowerOfTwo_overflow (x : float) (c : Z) :
  ceilZ x = Some c -> 2 ^ 30 < c <= 2 ^ 31 ->
  fittingPowerOfTwo x = - 2 ^ 31.
Proof.
  intros Hc Hr. unfold fittingPowerOfTwo. rewrite Hc.
  assert (H30 : 2 ^ 30 = 1073741824) by reflexivity.
  assert (H31 : 2 ^ 31 = 2147483648) by reflexivity.
  assert (H32 : 2 ^ 32 = 4294967296) by reflexivity.
  unfold clz32, JS.uwrap32. rewrite Z.mod_small by lia.
  destruct (Z.eqb_spec (c - 1) 0) as [E | E]; [lia|].
  assert (Hlog : Z.log2 (c - 1) = 30).
  { apply Z.log2_unique; [lia|]. change (2 ^ Z.succ 30) with (2 ^ 31). lia. }
  rewrite Hlog. reflexivity.
Qed.

Lemma fittingPowerOfTwo_overflow_witness :
  fittingPowerOfTwo 1073741825%float = - 2 ^ 31.
Proof.
  apply (fittingPowerOfTwo_overflow 1073741825%float 1073741825).
  - vm_compute. reflexivity.
  - vm_compute. split; [reflexivity | discriminate].
Defined.

(* ================================================================== *)
(** * Theorems: the main interval of a note *)
(* ================================================================== *)

Lemma longestFlatInterval_cons (pinA pinB : NotePin.t) (rest : list NotePin.t)
  (longest m : value) :
  longestFlatInterval (pinA :: pinB :: rest) longest m
  = if strictEq (NotePin.interval pinA) (NotePin.interval pinB) then
      if JS.lt longest (JS.sub (NotePin.time pinB) (NotePin.time pinA))
      then longestFlatInterval (pinB :: rest)
             (JS.sub (NotePin.time pinB) (NotePin.time pinA)) (NotePin.interval pinA)
      else longestFlatInterval (pinB :: rest) longest m
    else longestFlatInterval (pinB :: rest) longest m.
Proof. reflexivity. Qed.





Lemma longestFlatInterval_member (pins : list NotePin.t) :
  forall longest m,
    snd (longestFlatInterval pins longest m) = m
    \/ In (snd (longestFlatInterval pins longest m)) (map NotePin.interval pins).
Proof.
  induction pins as [|pinA rest IH]; intros longest m; [left; reflexivity|].
  destruct rest as [|pinB rest']; [left; reflexivity|].
  rewrite longestFlatInterval_cons.
  destruct (strictEq (NotePin.interval pinA) (NotePin.interval pinB));
    [destruct (JS.lt longest (JS.sub (NotePin.time pinB) (NotePin.time pinA)))|].
  - destruct (IH (JS.sub (NotePin.time pinB) (NotePin.time pinA)) (NotePin.interval pinA))
      as [-> | H]; right; [left; reflexivity | right; exact H].
  - destruct (IH longest m) as [-> | H]; [left; reflexivity | right; right; exact H].
  - destruct (IH longest m) as [-> | H]; [left; reflexivity | right; right; exact H].
Qed.

Lemma loudestInterval_member (pins : list NotePin.t) :
  forall loudest m,
    snd (loudestInterval pins loudest m) = m
    \/ In (snd (loudestInterval pins loudest m)) (map NotePin.interval pins).
Proof.
  induction pins as [|pin rest IH]; intros loudest m; [left; reflexivity|].
  cbn [loudestInterval]. destruct (JS.lt loudest (NotePin.expression pin)).
  - destruct (IH (NotePin.expression pin) (NotePin.interval pin)) as [-> | H];
      right; [left; reflexivity | right; exact H].
  - destruct (IH loudest m) as [-> | H]; [left; reflexivity | right; right; exact H].
Qed.

(** X24.  [Note.pickMainInterval] returns 0 or the interval of one of the pins of
    the note, whatever the pins hold; with no pin it returns 0. *)
Theorem pickMainInterval_member (note : Note.t) :
  (pickMainInterval note = Num 0
   \/ In (pickMainInterval note) (map NotePin.interval (Note.pins note)))
  /\ pickMainInterval (Note.set_pins [] note) = Num 0.
Proof.
  split; [|reflexivity]. unfold pickMainInterval.
  pose proof (longestFlatInterval_member (Note.pins note) (Num 0) (Num 0)) as H1.
  destruct (longestFlatInterval (Note.pins note) (Num 0) (Num 0)) as [longest m].
  cbn [snd] in H1.
  destruct (JS.eqz longest 0).
  - destruct (loudestInterval_member (Note.pins note) (Num 0) m) as [-> | H];
      [|right; exact H].
    destruct H1 as [-> | H1]; [left; reflexivity | right; exact H1].
  - destruct H1 as [-> | H1]; [left; reflexivity | right; exact H1].
Qed.

(* ================================================================== *)
(** * Theorems: the default song *)
(* ================================================================== *)

Lemma fold_setAt {A : Type} (hole : A) (f : nat -> A) (n : nat) :
  forall l,
    fold_left (fun l i => setAt hole i (f i) l) (seq 0 n) l
    = map f (seq 0 n) ++ skipn n l.
Proof.
  induction n as [|n IH]; intros l; [reflexivity|].
  rewrite seq_S, fold_left_app, map_app. cbn [fold_left map Nat.add].
  rewrite IH. unfold setAt.
  assert (Hlen : List.length (map f (seq 0 n)) = n) by now rewrite length_map, length_seq.
  rewrite <- app_assoc, firstn_app, Hlen, Nat.sub_diag, firstn_all2 by lia.
  cbn [firstn]. rewrite app_nil_r, <- app_assoc. f_equal. cbn [app]. f_equal.
  rewrite skipn_app, Hlen, skipn_all2 by lia.
  replace (S n - n)%nat with 1%nat by lia. cbn [app].
  rewrite skipn_skipn. reflexivity.
Qed.

Lemma default_type (cfg : Config) (isNoiseChannel : bool) (ins ins' : Instrument.t) :
  setTypeAndReset cfg
    (Num (if isNoiseChannel then InstrumentType_noise cfg else InstrumentType_chip cfg))
    isNoiseChannel ins = Ok ins' ->
  Instrument.type ins'
  = Num (if isNoiseChannel then InstrumentType_noise cfg else InstrumentType_chip cfg).
Proof.
  unfold setTypeAndReset. cbv zeta.
  destruct isNoiseChannel.
  - destruct (eqz (Num (InstrumentType_noise cfg)) (InstrumentType_chip cfg));
      [intros [= <-]; reflexivity|].
    destruct (eqz (Num (InstrumentType_noise cfg)) (InstrumentType_fm cfg));
      [intros [= <-]; reflexivity|].
    unfold eqz at 1. rewrite Z.eqb_refl. intros [= <-]; reflexivity.
  - unfold eqz at 1. rewrite Z.eqb_refl. intros [= <-]; reflexivity.
Qed.

Lemma map_Pattern_reset (ps : list Pattern.t) :
  map Pattern_reset ps = repeat Pattern_new (List.length ps).
Proof. induction ps; cbn; [reflexivity | f_equal; assumption]. Qed.

Lemma reset_patterns (k : nat) (ps : list Pattern.t) :
  setLength k (growTo k Pattern_new (map Pattern_reset ps)) = repeat Pattern_new k.
Proof.
  unfold setLength, growTo.
  rewrite map_Pattern_reset, repeat_length, <- repeat_app.
  generalize (List.length ps) as n. intros n.
  replace (n + (k - n))%nat with (k + (n - k))%nat by lia.
  rewrite repeat_app, firstn_app, repeat_length, Nat.sub_diag.
  cbn [firstn]. rewrite app_nil_r. apply firstn_all2. now rewrite repeat_length.
Qed.

Lemma fill_bars {A : Type} (hole : A) (f : nat -> A) (n : nat) (l : list A) :
  setLength n (fold_left (fun l i => setAt hole i (f i) l) (seq 0 n) l)
  = map f (seq 0 n).
Proof.
  unfold setLength. rewrite fold_setAt.
  rewrite firstn_app, length_map, length_seq, Nat.sub_diag, firstn_all2
    by (rewrite length_map, length_seq; lia).
  cbn [firstn]. now rewrite app_nil_r.
Qed.

Lemma initChannel_shape (cfg : Config) (channelIndex : nat) (channel : Channel.t) :
  exists c ins,
    initChannel cfg channelIndex channel = Ok c
    /\ Channel.octave c = Num (3 - Z.of_nat channelIndex)
    /\ Channel.patterns c = repeat Pattern_new 8
    /\ Channel.bars c = defaultBars
    /\ Channel.instruments c = [ins]
    /\ Instrument.type ins
       = Num (if (3 <=? channelIndex)%nat then InstrumentType_noise cfg
              else InstrumentType_chip cfg)
    /\ Channel.muted c = Channel.muted channel.
Proof.
  unfold initChannel. cbv zeta.
  destruct (growTo 1 _ (Channel.instruments _)) as [|ins rest] eqn:E.
  - exfalso. unfold growTo in E. destruct channel as [o inss ps bs m]. cbn in E.
    destruct inss; discriminate E.
  - destruct (setTypeAndReset_default cfg (3 <=? channelIndex)%nat ins) as [ins' H].
    rewrite H. eexists _, ins'. split; [reflexivity|].
    destruct channel as [o inss ps bs m].
    cbn [Channel.octave Channel.patterns Channel.bars Channel.instruments Channel.muted
         Channel.set_octave Channel.set_patterns Channel.set_bars Channel.set_instruments].
    split; [reflexivity|]. split; [apply reset_patterns|].
    split; [apply (fill_bars Undefined _ 16)|].
    split; [reflexivity|]. split; [|reflexivity].
    exact (default_type cfg _ _ _ H).
Qed.

Lemma initChannels_shape (cfg : Config) (channels : list Channel.t) :
  forall channelIndex,
    exists cs,
      initChannels cfg channelIndex channels = Ok cs
      /\ List.length cs = List.length channels
      /\ forall i c,
           nth_error cs i = Some c ->
           Channel.octave c = Num (3 - Z.of_nat (channelIndex + i))
           /\ Channel.patterns c = repeat Pattern_new 8
           /\ Channel.bars c = defaultBars
           /\ exists ins,
                Channel.instruments c = [ins]
                /\ Instrument.type ins
                   = Num (if (3 <=? channelIndex + i)%nat then InstrumentType_noise cfg
                          else InstrumentType_chip cfg).
Proof.
  induction channels as [|ch rest IH]; intros channelIndex; cbn [initChannels].
  - exists []. split; [reflexivity|]. split; [reflexivity|].
    intros [|i] c'; discriminate.
  - destruct (initChannel_shape cfg channelIndex ch)
      as (c0 & ins & -> & Ho & Hp & Hb & Hi & Ht & _).
    destruct (IH (S channelIndex)) as (cs & -> & Hlen & Hcs).
    exists (c0 :: cs). split; [reflexivity|]. split; [cbn; lia|].
    intros [|i] c'; cbn [nth_error].
    + intros [= <-]. rewrite Nat.add_0_r. repeat split; try assumption.
      exists ins. split; assumption.
    + intros Hc. replace (channelIndex + S i)%nat with (S channelIndex + i)%nat by lia.
      now apply Hcs.
Qed.

(** X25.  [initToDefault(true)] on any song: it returns, and whatever the song
    held, it then has the default settings and four channels, the channel
    [i] with octave [3 - i], eight patterns without notes, the first pattern
    in its first four bars of sixteen, and one instrument, a chip wave in the
    three pitch channels and a noise in the last. *)
Theorem initToDefault_shape (cfg : Config) (this : Song.t) :
  exists s,
    initToDefault cfg true this = Ok s
    /\ (Song.scale s, Song.key s, Song.loopStart s, Song.loopLength s, Song.tempo s)
       = (Num 0, Num 0, Num 0, Num 4, Num 150)
    /\ (Song.beatsPerBar s, Song.barCount s, Song.patternsPerChannel s, Song.rhythm s,
        Song.instrumentsPerChannel s)
       = (Num 8, Num 16, Num 8, Num 1, Num 1)
    /\ (Song.pitchChannelCount s, Song.noiseChannelCount s) = (Num 3, Num 1)
    /\ List.length (Song.channels s) = 4%nat
    /\ forall i c,
         nth_error (Song.channels s) i = Some c ->
         Channel.octave c = Num (3 - Z.of_nat i)
         /\ Channel.patterns c = repeat Pattern_new 8
         /\ Channel.bars c = defaultBars
         /\ exists ins,
              Channel.instruments c = [ins]
              /\ Instrument.type ins
                 = Num (if (3 <=? i)%nat then InstrumentType_noise cfg
                        else InstrumentType_chip cfg).
Proof.
  unfold initToDefault.
  set (old := firstn 4 (growTo 4 Channel_new _)).
  assert (Hold : List.length old = 4%nat).
  { subst old. unfold growTo. rewrite length_firstn, length_app, repeat_length. lia. }
  destruct (initChannels_shape cfg old 0) as (cs & -> & Hlen & Hcs).
  eexists. split; [reflexivity|]. destruct this.
  cbn [Song.scale Song.key Song.loopStart Song.loopLength Song.tempo Song.beatsPerBar
       Song.barCount Song.patternsPerChannel Song.rhythm Song.instrumentsPerChannel
       Song.pitchChannelCount Song.noiseChannelCount Song.channels Song.set_channels
       Song.set_scale Song.set_key Song.set_loopStart Song.set_loopLength Song.set_tempo
       Song.set_beatsPerBar Song.set_barCount Song.set_patternsPerChannel Song.set_rhythm
       Song.set_instrumentsPerChannel Song.set_pitchChannelCount Song.set_noiseChannelCount].
  do 3 (split; [reflexivity|]). split; [lia|].
  intros i c Hc. exact (Hcs i c Hc).
Qed.

(* ================================================================== *)
(** * Theorems: the range of the envelopes *)
(* ================================================================== *)

Section EnvelopeRange.

Local Open Scope R_scope.

Lemma inverse_range (x : R) : 0 <= x -> 0 < 1 / (1 + x) <= 1.
Proof.
  intros Hx. assert (Hden : 0 < 1 + x) by lra. split.
  - apply Rdiv_lt_0_compat; lra.
  - apply (Rmult_le_reg_r (1 + x)); [assumption|].
    replace (1 / (1 + x) * (1 + x)) with 1 by (field; lra). lra.
Qed.

(** X26.  The envelopes other than [custom], for a positive speed and from time 0
    on (over the real numbers): every one stays between 0 and 1, but [punch],
    which stays between 1 and 2. *)
Theorem envelope_range (envelope : Envelope.t) (time beats noteExpression : R) :
  0 < Envelope.speed envelope -> 0 <= time ->
  Envelope.type envelope <> custom ->
  (Envelope.type envelope <> punch ->
   0 <= Synth.computeEnvelope envelope time beats noteExpression <= 1)
  /\ (Envelope.type envelope = punch ->
      1 <= Synth.computeEnvelope envelope time beats noteExpression <= 2).
Proof.
  intros Hs Ht Hcustom. unfold Synth.computeEnvelope.
  destruct envelope as [type speed]. cbn [Envelope.type Envelope.speed] in *.
  assert (Hts : 0 <= time * speed) by (apply Rmult_le_pos; lra).
  destruct type; (split; [intros Hpunch | intros Hpunch]);
    try discriminate Hpunch; try contradiction.
  - lra.
  - split; [apply Rmax_l|]. apply Rmax_lub; lra.
  - assert (Hsqrt : 0 < sqrt speed) by now apply sqrt_lt_R0.
    assert (Hattack : 0 < 0.25 / sqrt speed) by (apply Rdiv_lt_0_compat; lra).
    destruct (Rlt_dec time (0.25 / sqrt speed)) as [Hlt | Hge].
    + split.
      * apply Rmult_le_pos; [assumption|]. apply Rlt_le, Rinv_0_lt_compat. assumption.
      * apply (Rmult_le_reg_r (0.25 / sqrt speed)); [assumption|].
        replace (time / (0.25 / sqrt speed) * (0.25 / sqrt speed)) with time
          by (field; lra).
        lra.
    + assert (Hx : 0 <= (time - 0.25 / sqrt speed) * speed)
        by (apply Rmult_le_pos; lra).
      pose proof (inverse_range _ Hx). lra.
  - pose proof (inverse_range _ Hts). lra.
  - pose proof (inverse_range _ Hts). lra.
  - pose proof (COS_bound (beats * 2 * PI * speed)). lra.
  - pose proof (COS_bound (beats * 2 * PI * speed)). lra.
  - split.
    + apply Rlt_le. unfold Rpower. apply exp_pos.
    + rewrite <- (Rpower_O 2) by lra. apply Rle_Rpower; [lra|].
      assert (0 <= speed * time) by (apply Rmult_le_pos; lra). lra.
Qed.

End EnvelopeRange.

Lemma envelope_range_witness :
  ((Envelope.type (Envelope.mk flare 8) <> punch ->
    0 <= Synth.computeEnvelope (Envelope.mk flare 8) 1 0 0 <= 1)
   /\ (Envelope.type (Envelope.mk flare 8) = punch ->
       1 <= Synth.computeEnvelope (Envelope.mk flare 8) 1 0 0 <= 2))%R.
Proof.
  apply (envelope_range (Envelope.mk flare 8) 1 0 0).
  - cbn. lra.
  - lra.
  - discriminate.
Defined.

(* ================================================================== *)
(** * Theorems: notes, from the encoder to the decoder *)
(* ================================================================== *)

(** ** Texts *)

Lemma readerOf_nth (w : BitFieldWriter.t) :
  readerOf w
  = BitFieldReader.mk
      (map (fun p => nth p (BitFieldWriter._bits w) false)
         (seq 0 (6 * BitFieldWriter.lengthBase64 w))) 0.
Proof.
  unfold readerOf, BitFieldReader.make.
  rewrite Z.sub_0_r, Nat2Z.id. f_equal.
  change 0 with (Z.of_nat 0). rewrite collect_flat_map.
  change (seq 0 (6 * BitFieldWriter.lengthBase64 w))
    with (seq (6 * 0) (6 * BitFieldWriter.lengthBase64 w)).
  rewrite <- (nth_block (BitFieldWriter._bits w) (BitFieldWriter.lengthBase64 w) 0).
  rewrite !flat_map_concat_map. f_equal.
  apply map_ext_in. intros j Hj. apply in_seq in Hj.
  rewrite charCodeAt_fromCharCodes.
  2:{ unfold BitFieldWriter.encodeBase64. simpl. rewrite length_map, length_seq. lia. }
  unfold BitFieldWriter.encodeBase64. simpl app.
  rewrite (nth_indep _ Undefined
             (JS.index base64IntToCharCode (Num (BitFieldWriter.group w (6 * 0)))))
    by (rewrite length_map, length_seq; lia).
  rewrite (map_nth (fun j => JS.index base64IntToCharCode
                               (Num (BitFieldWriter.group w (6 * j))))).
  rewrite seq_nth by lia. simpl Nat.add.
  unfold BitFieldWriter.group. rewrite Nat.add_0_r. apply symbol_roundtrip.
Qed.

Lemma map_nth_firstn (l : list bool) (n : nat) :
  (n <= List.length l)%nat ->
  map (fun p => nth p l false) (seq 0 n) = firstn n l.
Proof.
  revert n. induction l as [|x l IH]; intros [|n] Hn; cbn in *; try reflexivity; try lia.
  f_equal. rewrite <- seq_shift, map_map. apply IH. lia.
Qed.

Lemma length_fromCharCodes (codes : list value) :
  String.length (fromCharCodes codes) = List.length codes.
Proof.
  unfold fromCharCodes. induction codes as [|c codes IH]; cbn; [reflexivity|].
  now rewrite IH.
Qed.

(** The bits of the text of a writer start with what the writer holds. *)
Lemma textBits_content (w : BitFieldWriter.t) :
  sound w ->
  exists junk,
    textBits (fromCharCodes (BitFieldWriter.encodeBase64 [] w)) = content w ++ junk.
Proof.
  intros Hs. unfold textBits, JS.length. rewrite length_fromCharCodes.
  unfold BitFieldWriter.encodeBase64 at 2. cbn [app]. rewrite length_map, length_seq.
  fold (readerOf w). rewrite readerOf_nth. cbn [BitFieldReader._bits].
  assert (Hle : (BitFieldWriter._index w <= 6 * BitFieldWriter.lengthBase64 w)%nat).
  { unfold BitFieldWriter.lengthBase64.
    pose proof (Nat.div_mod_eq (BitFieldWriter._index w + 5) 6).
    pose proof (Nat.mod_upper_bound (BitFieldWriter._index w + 5) 6). lia. }
  replace (6 * BitFieldWriter.lengthBase64 w)%nat
    with (BitFieldWriter._index w
          + (6 * BitFieldWriter.lengthBase64 w - BitFieldWriter._index w))%nat by lia.
  rewrite seq_app, map_app. eexists. f_equal.
  unfold content. apply map_nth_firstn. exact Hs.
Qed.

(** Two readings of the same bits from the same place agree. *)
Lemma readsOk_same {A : Type}
  (read : BitFieldReader.t -> Result (A * BitFieldReader.t))
  (bs1 bs2 junk1 junk2 : list bool) (a1 a2 : A) :
  bs1 ++ junk1 = bs2 ++ junk2 ->
  readsOk read bs1 a1 -> readsOk read bs2 a2 -> a1 = a2.
Proof.
  intros E H1 H2.
  destruct (H1 (BitFieldReader.mk (bs1 ++ junk1) 0) junk1) as (r1 & E1 & _);
    [exists []; reflexivity|].
  destruct (H2 (BitFieldReader.mk (bs1 ++ junk1) 0) junk2) as (r2 & E2 & _);
    [exists []; cbn; now rewrite E|].
  congruence.
Qed.

Lemma shapeText_same (cfg : Config) (rhythm : value) (text : string) (s1 s2 : Shape) :
  shapeText cfg rhythm text s1 -> shapeText cfg rhythm text s2 -> s1 = s2.
Proof.
  intros (bs1 & j1 & E1 & H1) (bs2 & j2 & E2 & H2).
  apply (readsOk_same (readShape cfg false rhythm) bs1 bs2 j1 j2 s1 s2);
    [congruence | assumption | assumption].
Qed.

(** ** The shape of a note *)

Lemma pinsOk_length (startPitch : value) (pins : list NotePin.t) :
  forall prev,
    pinsOk startPitch prev pins = true -> prev <= 2 ^ 30 ->
    Z.of_nat (List.length pins) <= 2 ^ 30 - prev.
Proof.
  induction pins as [|pin rest IH]; intros prev Hok Hprev;
    [cbn [List.length Z.of_nat]; lia|].
  destruct (pinsOk_inv _ _ _ _ Hok) as (t & e & p & Ht & Htr & He & Her & Hp & Hrest).
  specialize (IH t Hrest ltac:(lia)). cbn [List.length]. lia.
Qed.

Lemma shape_encoded (cfg : Config) (rhythm : value) (fuel : nat)
  (pitches : list value) (pin0 : NotePin.t) (pins : list NotePin.t)
  (w0 : BitFieldWriter.t) :
  (32 <= fuel)%nat -> sound w0 ->
  (1 <= List.length pitches)%nat -> Z.of_nat (List.length pitches) <= maxChordSize cfg ->
  pins <> [] -> numberIn 0 3 (NotePin.expression pin0) = true ->
  pinsOk (nth 0 pitches Undefined) 0 pins = true ->
  let startPitch := nth 0 pitches Undefined in
  let w1 := fold_left (fun w _ => BitFieldWriter.write 1 (Num 1) w)
              (seq 1 (List.length pitches - 1)) w0 in
  let w2 := if Z.of_nat (List.length pitches) <? maxChordSize cfg
            then BitFieldWriter.write 1 (Num 0) w1 else w1 in
  exists w3 w5 bs,
    BitFieldWriter.writePinCount fuel
      (Num (Z.of_nat (List.length (pin0 :: pins)) - 1)) w2 = Ok w3
    /\ encodePins fuel pins startPitch startPitch (Num 0) []
         (BitFieldWriter.write 2 (NotePin.expression pin0) w3)
       = Ok (bendPitches startPitch startPitch pins, w5)
    /\ sound w5 /\ content w5 = content w0 ++ bs
    /\ readsOk (readShape cfg false rhythm) bs
         (Build_Shape (Z.of_nat (List.length pitches)) (Z.of_nat (List.length pins))
            (NotePin.expression pin0)
            (shapePinsOf startPitch startPitch pins) (lastTime 0 pins)
            (Z.of_nat (List.length (bendPitches startPitch startPitch pins)))).
Proof.
  intros Hfuel Hw0 Hp1 Hpmax Hpins He Hok startPitch w1 w2.
  assert (H30 : 2 ^ 30 = 1073741824) by reflexivity.
  assert (H31 : 2 ^ 31 = 2147483648) by reflexivity.
  destruct (chordBits_written cfg (List.length pitches) w0 Hw0 Hp1) as (Hs2 & Hc2).
  fold w1 in Hs2, Hc2. fold w2 in Hs2, Hc2.
  pose proof (pinsOk_length _ _ _ Hok ltac:(lia)) as Hlen.
  assert (Hn : (1 <= List.length pins)%nat) by (destruct pins; [congruence | cbn; lia]).
  unfold BitFieldWriter.writePinCount.
  destruct (writeLongTail_sound fuel 1 0 (Z.of_nat (List.length pins)) w2
              ltac:(lia) ltac:(lia) ltac:(change (2 ^ 0) with 1; lia) Hfuel Hs2)
    as (w3 & bs3 & Hw3 & Hs3 & Hc3 & Hr3).
  replace (Z.of_nat (List.length (pin0 :: pins)) - 1) with (Z.of_nat (List.length pins))
    by (cbn [List.length]; lia).
  destruct (NotePin.expression pin0) as [e| |] eqn:Ee; try discriminate He.
  cbn [numberIn] in He. apply andb_prop in He as (He1 & He2).
  apply Z.leb_le in He1, He2.
  destruct (write_reads 2 e w3 ltac:(lia) ltac:(change (2 ^ 2) with 4; lia) Hs3)
    as (bs4 & Hs4 & Hc4 & _ & Hr4).
  destruct (encodePins_spec cfg rhythm fuel pins Hfuel startPitch startPitch 0 []
              (BitFieldWriter.write 2 (Num e) w3) Hok ltac:(lia) Hs4)
    as (w5 & bs5 & Hw5 & Hs5 & Hc5 & Hr5).
  exists w3, w5, (chordBits cfg (List.length pitches) ++ bs3 ++ bs4 ++ bs5).
  split; [exact Hw3|]. split; [exact Hw5|]. split; [exact Hs5|]. split.
  { rewrite Hc5, Hc4, Hc3, Hc2. now rewrite <- !app_assoc. }
  intros r rest Hpos. rewrite <- !app_assoc in Hpos. unfold readShape.
  destruct (chordBits_reads cfg (List.length pitches) Hp1 Hpmax r _ Hpos)
    as (r1 & -> & Hpos1).
  unfold BitFieldReader.readPinCount.
  destruct (Hr3 r1 _ Hpos1) as (r2 & -> & Hpos2).
  destruct (Hr4 r2 _ Hpos2) as (r3 & -> & Hpos3).
  rewrite Nat2Z.id.
  destruct (Hr5 r3 rest 0 0 [] eq_refl Hpos3) as (r4 & -> & Hpos4).
  cbn [rbind app Z.add]. exists r4. split; [reflexivity | assumption].
Qed.

(** ** The pitches of a note *)

Lemma pitchOk_inv (v : value) :
  pitchOk v = true -> exists z, v = Num z /\ - 2 ^ 29 < z < 2 ^ 29.
Proof.
  destruct v as [z| |]; try discriminate. cbn [pitchOk numberIn]. intros H.
  apply andb_prop in H as (H1 & H2). apply Z.leb_le in H1, H2.
  exists z. split; [reflexivity | lia].
Qed.

Lemma pitchOk_intro (z : Z) : - 2 ^ 29 < z < 2 ^ 29 -> pitchOk (Num z) = true.
Proof.
  intros H. cbn [pitchOk numberIn]. apply andb_true_intro.
  split; apply Z.leb_le; lia.
Qed.

Lemma length_unshiftCapped {A : Type} (limit : nat) (x : A) (l : list A) :
  (List.length l <= limit)%nat ->
  (List.length (unshiftCapped limit x l) <= limit)%nat.
Proof.
  intros H. unfold unshiftCapped.
  destruct (Nat.ltb_spec limit (List.length (x :: l))) as [Hlt | Hge].
  - rewrite removelast_firstn_len, length_firstn. cbn [List.length] in *. lia.
  - exact Hge.
Qed.

Lemma length_removeAt {A : Type} (i : nat) (l : list A) :
  (List.length (removeAt i l) <= List.length l)%nat.
Proof.
  unfold removeAt. rewrite length_app, length_firstn, length_skipn. lia.
Qed.

Lemma firstn_unshiftCapped {A : Type} (limit k : nat) (x : A) (l : list A) :
  (k <= limit)%nat ->
  firstn k (unshiftCapped limit x l) = firstn k (x :: l).
Proof.
  intros H. unfold unshiftCapped.
  destruct (Nat.ltb_spec limit (List.length (x :: l))) as [Hlt | Hge]; [|reflexivity].
  rewrite removelast_firstn_len, firstn_firstn. f_equal. lia.
Qed.

Lemma In_of_firstn {A : Type} (x : A) (k : nat) (l : list A) :
  In x (firstn k l) -> In x l.
Proof.
  revert k. induction l as [|y l IH]; intros [|k]; cbn; try tauto.
  intros [-> | H]; [left; reflexivity | right; eauto].
Qed.

Lemma nth_error_lt {A : Type} (l : list A) (p : nat) (x : A) :
  nth_error l p = Some x -> (p < List.length l)%nat.
Proof. intros H. apply nth_error_Some. congruence. Qed.

Lemma includes_head (x : Z) (l : list value) (limit : nat) :
  (1 <= limit)%nat -> includes (unshiftCapped limit (Num x) l) (Num x) = true.
Proof.
  intros H. apply includes_In.
  assert (Hin : In (Num x) (firstn 1 (unshiftCapped limit (Num x) l))).
  { rewrite firstn_unshiftCapped by assumption. left. reflexivity. }
  exact (In_of_firstn _ _ _ Hin).
Qed.

Lemma In_firstn_removeAt {A : Type} (d x : A) (k idx : nat) (l : list A) :
  In x (firstn k l) ->
  x = nth idx l d \/ In x (firstn k (removeAt idx l)).
Proof.
  intros Hin. apply In_nth_error in Hin as (p & Hp).
  assert (Hpk : (p < k)%nat).
  { pose proof (nth_error_lt _ _ _ Hp) as Hlt. rewrite length_firstn in Hlt. lia. }
  rewrite nth_error_firstn in Hp. destruct (Nat.ltb_spec p k); [|lia].
  destruct (Nat.lt_trichotomy p idx) as [Hlt | [-> | Hgt]].
  - right. apply (nth_error_In _ p). rewrite nth_error_firstn.
    destruct (Nat.ltb_spec p k); [|lia].
    unfold removeAt. rewrite nth_error_app1.
    + rewrite nth_error_firstn. destruct (Nat.ltb_spec p idx); [assumption | lia].
    + pose proof (nth_error_lt _ _ _ Hp) as Hlt'. rewrite length_firstn. lia.
  - left. symmetry. now apply nth_error_nth.
  - right. apply (nth_error_In _ (p - 1)). rewrite nth_error_firstn.
    destruct (Nat.ltb_spec (p - 1) k); [|lia].
    pose proof (nth_error_lt _ _ _ Hp) as Hlt'.
    unfold removeAt. rewrite nth_error_app2 by (rewrite length_firstn; lia).
    rewrite length_firstn, nth_error_skipn.
    replace (S idx + (p - 1 - Nat.min idx (List.length l)))%nat with p by lia.
    assumption.
Qed.

Lemma encodePitch_recent (fuel : nat) (pitch : Z) (c c' : EncodeCursor) :
  encodePitch fuel (Num pitch) c = Ok c' ->
  exists l,
    e_recentPitches c' = unshiftCapped 8 (Num pitch) l
    /\ (List.length l <= List.length (e_recentPitches c))%nat
    /\ forall x k, In x (firstn k (e_recentPitches c)) ->
                   x = Num pitch \/ In x (firstn k l).
Proof.
  unfold encodePitch.
  destruct (indexOf strictEq (e_recentPitches c) (Num pitch)) as [i|] eqn:Ei.
  - cbn [rbind]. intros [= <-]. cbn [e_recentPitches].
    exists (removeAt i (e_recentPitches c)). split; [reflexivity|].
    split; [apply length_removeAt|].
    intros x k Hin. destruct (indexOf_some _ _ _ Ei) as (_ & Hnth).
    rewrite <- Hnth. now apply In_firstn_removeAt.
  - destruct (pitchInterval _ _ _) as [interval| |]; cbn [rbind]; try discriminate.
    destruct (BitFieldWriter.writePitchInterval _ _ _) as [w| |]; cbn [rbind];
      try discriminate.
    intros [= <-]. cbn [e_recentPitches].
    exists (e_recentPitches c). split; [reflexivity|]. split; [lia|].
    intros x k Hin. right. exact Hin.
Qed.

Section PitchLoop.

Variable fuel : nat.
Variables len first : Z.
Hypothesis fuel_enough : (32 <= fuel)%nat.
Hypothesis len_range : 1 <= len <= 8.
Hypothesis first_range : - 2 ^ 29 < first < 2 ^ 29.

Lemma encodePitches_spec (all : list Z) :
  forall i e last accP accB,
    Forall (fun p => - 2 ^ 29 < p < 2 ^ 29) all -> 0 <= i ->
    sound (e_bits e) -> e_lastPitch e = Num last -> - 2 ^ 29 < last < 2 ^ 29 ->
    (List.length (e_recentPitches e) <= 8)%nat ->
    includes (e_recentPitches e) (Num last) = true ->
    (i = 0 -> accP = [] /\ exists tl, all = first :: tl) ->
    (0 < i -> exists tl, accP = Num first :: tl) ->
    (0 < i < len -> In (Num first) (firstn (Z.to_nat i) (e_recentPitches e))) ->
    exists e' bs last',
      encodePitches fuel (map Num all) i len (Num first) e = Ok e'
      /\ sound (e_bits e') /\ content (e_bits e') = content (e_bits e) ++ bs
      /\ e_shapeBits e' = e_shapeBits e /\ e_recentShapes e' = e_recentShapes e
      /\ e_lastPitch e' = Num last' /\ - 2 ^ 29 < last' < 2 ^ 29
      /\ (List.length (e_recentPitches e') <= 8)%nat
      /\ includes (e_recentPitches e') (Num last') = true
      /\ forall r rest shapes,
           positioned r (bs ++ rest) ->
           exists r',
             readPitches (List.length all) i len accP accB
               (Build_Cursor r (Num last) (e_recentPitches e) shapes)
             = Ok (accP ++ map Num (firstn (Z.to_nat (len - i)) all),
                   accB ++ map Num (skipn (Z.to_nat (len - i)) all),
                   Build_Cursor r' (Num last') (e_recentPitches e') shapes)
             /\ positioned r' rest.
Proof.
  induction all as [|p rest IH];
    intros i e last accP accB Hall Hi Hs Hlast Hlr Hlen Hin H0 Hpos Hfront.
  - exists e, [], last. cbn [map encodePitches List.length readPitches].
    rewrite app_nil_r. do 9 (split; [assumption || reflexivity|]).
    intros r rest shapes Hp. exists r. rewrite firstn_nil, skipn_nil. cbn [map].
    rewrite !app_nil_r. split; [reflexivity | assumption].
  - inversion Hall as [|? ? Hp Hrest]; subst.
    cbn [map encodePitches].
    destruct (encodePitch_spec fuel p last e fuel_enough Hs Hlast Hp Hlr Hlen Hin)
      as (c1 & bs1 & Henc & Hs1 & Hc1 & Hsb1 & Hl1 & Hsh1 & Hread1).
    rewrite Henc. cbn [rbind].
    destruct (encodePitch_recent _ _ _ _ Henc) as (l & Hrec & Hll & Hkeep).
    assert (Hlen1 : (List.length (e_recentPitches c1) <= 8)%nat).
    { rewrite Hrec. apply length_unshiftCapped. lia. }
    assert (Hhead : firstn 1 (e_recentPitches c1) = [Num p]).
    { rewrite Hrec, firstn_unshiftCapped by lia. reflexivity. }
    assert (Hstep : forall k, (k < 8)%nat ->
              In (Num first) (firstn k (e_recentPitches e)) ->
              In (Num first) (firstn (S k) (e_recentPitches c1))).
    { intros k Hk Hk'. rewrite Hrec, firstn_unshiftCapped by lia.
      cbn [firstn]. destruct (Hkeep _ _ Hk') as [-> | H']; [left | right]; auto. }
    set (last1 := if i =? len - 1 then first else p).
    set (accP1 := if i <? len then accP ++ [Num p] else accP).
    set (accB1 := if i <? len then accB else accB ++ [Num p]).
    assert (Hfirst0 : i = 0 -> p = first).
    { intros E. destruct (H0 E) as (_ & tl & [= -> _]). reflexivity. }
    assert (Hin1 : includes (e_recentPitches c1) (Num last1) = true).
    { subst last1. destruct (Z.eqb_spec i (len - 1)) as [E | E].
      - apply includes_In. destruct (Z.eq_dec i 0) as [E0 | E0].
        + rewrite <- (Hfirst0 E0). apply (In_of_firstn _ 1). rewrite Hhead. now left.
        + apply (In_of_firstn _ (S (Z.to_nat i))). apply Hstep; [lia|].
          apply Hfront. lia.
      - rewrite Hrec. apply includes_head. lia. }
    destruct (IH (i + 1)
                (Build_EncodeCursor (e_bits c1) (e_shapeBits c1) (Num last1)
                   (e_recentPitches c1) (e_recentShapes c1))
                last1 accP1 accB1 Hrest ltac:(lia) Hs1 eq_refl
                ltac:(subst last1; destruct (i =? len - 1); assumption)
                Hlen1 Hin1)
      as (e' & bs & last' & Henc' & Hs' & Hc' & Hsb' & Hsh' & Hl' & Hlr' & Hlen' & Hin'
          & Hread').
    { intros E. lia. }
    { intros _. subst accP1. destruct (Z.eq_dec i 0) as [E0 | E0].
      - destruct (H0 E0) as (-> & _). rewrite (Hfirst0 E0).
        destruct (Z.ltb_spec i len); [|lia]. exists []. reflexivity.
      - destruct (Hpos ltac:(lia)) as (tl & ->).
        destruct (i <? len); eexists; reflexivity. }
    { intros Hr. cbn [e_recentPitches].
      replace (Z.to_nat (i + 1)) with (S (Z.to_nat i)) by lia.
      destruct (Z.eq_dec i 0) as [E0 | E0].
      - rewrite E0. cbn [Z.to_nat]. rewrite Hhead, <- (Hfirst0 E0). now left.
      - apply Hstep; [lia|]. apply Hfront. lia. }
    exists e', (bs1 ++ bs), last'.
    replace (if i =? len - 1 then Num first else Num p) with (Num last1)
      by (subst last1; destruct (i =? len - 1); reflexivity).
    split; [exact Henc'|]. split; [assumption|]. split.
    { rewrite Hc'. cbn [e_bits]. rewrite Hc1. now rewrite app_assoc. }
    split; [rewrite Hsb'; exact Hsb1|]. split; [rewrite Hsh'; exact Hsh1|].
    do 4 (split; [assumption|]).
    intros r rest0 shapes Hp0. rewrite <- app_assoc in Hp0.
    destruct (Hread1 r (bs ++ rest0) shapes Hp0) as (r1 & Hr1 & Hp1).
    cbn [List.length readPitches]. rewrite Hr1. cbn [rbind bits recentPitches recentShapes].
    fold accP1. fold accB1.
    assert (Hnth : (if i =? len - 1 then nth 0 accP1 Undefined else Num p) = Num last1).
    { subst last1 accP1. destruct (Z.eqb_spec i (len - 1)) as [E | E]; [|reflexivity].
      destruct (Z.ltb_spec i len); [|lia].
      destruct (Z.eq_dec i 0) as [E0 | E0].
      - destruct (H0 E0) as (-> & _). rewrite (Hfirst0 E0). reflexivity.
      - destruct (Hpos ltac:(lia)) as (tl & ->). reflexivity. }
    rewrite Hnth.
    destruct (Hread' r1 rest0 shapes Hp1) as (r' & Hr' & Hp').
    cbn [e_recentPitches] in Hr'. rewrite Hr'.
    exists r'. split; [|assumption].
    assert (EP : accP1 ++ map Num (firstn (Z.to_nat (len - (i + 1))) rest)
                 = accP ++ map Num (firstn (Z.to_nat (len - i)) (p :: rest))).
    { subst accP1. destruct (Z.ltb_spec i len).
      - replace (Z.to_nat (len - i)) with (S (Z.to_nat (len - (i + 1)))) by lia.
        cbn [firstn map]. now rewrite <- app_assoc.
      - replace (Z.to_nat (len - i)) with 0%nat by lia.
        replace (Z.to_nat (len - (i + 1))) with 0%nat by lia. reflexivity. }
    assert (EB : accB1 ++ map Num (skipn (Z.to_nat (len - (i + 1))) rest)
                 = accB ++ map Num (skipn (Z.to_nat (len - i)) (p :: rest))).
    { subst accB1. destruct (Z.ltb_spec i len).
      - replace (Z.to_nat (len - i)) with (S (Z.to_nat (len - (i + 1)))) by lia.
        reflexivity.
      - replace (Z.to_nat (len - i)) with 0%nat by lia.
        replace (Z.to_nat (len - (i + 1))) with 0%nat by lia.
        cbn [skipn map]. now rewrite <- app_assoc. }
    now rewrite EP, EB.
Qed.

End PitchLoop.

(** ** Recent shapes *)

Lemma indexOf_eqb_some (l : list string) (x : string) :
  forall i, indexOf String.eqb l x = Some i -> nth_error l i = Some x.
Proof.
  induction l as [|y rest IH]; intros i; cbn; [discriminate|].
  destruct (String.eqb_spec y x) as [-> | Hne].
  - intros [= <-]. reflexivity.
  - destruct (indexOf String.eqb rest x) as [j|]; [|discriminate].
    intros [= <-]. cbn. now apply IH.
Qed.

Lemma Forall2_removeAt {A B : Type} (R : A -> B -> Prop) (i : nat) (l : list A)
  (l' : list B) :
  Forall2 R l l' -> Forall2 R (removeAt i l) (removeAt i l').
Proof.
  intros H. unfold removeAt. apply Forall2_app.
  - revert i. induction H; intros [|i]; cbn; constructor; auto.
  - generalize (S i) as k. induction H as [|x y l l' Hxy H IH]; intros [|k]; cbn.
    + constructor.
    + constructor.
    + constructor; assumption.
    + apply IH.
Qed.

Lemma Forall2_removelast {A B : Type} (R : A -> B -> Prop) (l : list A) (l' : list B) :
  Forall2 R l l' -> Forall2 R (removelast l) (removelast l').
Proof.
  induction 1 as [|x y l l' Hxy H IH]; [constructor|].
  cbn [removelast]. destruct H; [constructor|]. constructor; assumption.
Qed.

Lemma Forall2_unshiftCapped {A B : Type} (R : A -> B -> Prop) (limit : nat)
  (x : A) (y : B) (l : list A) (l' : list B) :
  R x y -> Forall2 R l l' ->
  Forall2 R (unshiftCapped limit x l) (unshiftCapped limit y l').
Proof.
  intros Hxy H. unfold unshiftCapped.
  pose proof (Forall2_length H) as Hlen. cbn [List.length]. rewrite Hlen.
  destruct (limit <? S (List.length l'))%nat.
  - apply Forall2_removelast. constructor; assumption.
  - constructor; assumption.
Qed.

Lemma Forall2_nth_error {A B : Type} (R : A -> B -> Prop) (l : list A) (l' : list B) :
  Forall2 R l l' ->
  forall i x, nth_error l i = Some x -> exists y, nth_error l' i = Some y /\ R x y.
Proof.
  induction 1 as [|x0 y0 l l' Hxy H IH]; intros [|i] x; cbn; try discriminate.
  - intros [= <-]. exists y0. split; [reflexivity | assumption].
  - apply IH.
Qed.

(** ** The times and bends of pins *)

Lemma lastTime_rises (startPitch : value) (pins : list NotePin.t) :
  forall prev,
    pinsOk startPitch prev pins = true ->
    prev <= lastTime prev pins <= Z.max prev (2 ^ 30)
    /\ (pins <> [] -> prev < lastTime prev pins).
Proof.
  induction pins as [|pin rest IH]; intros prev Hok.
  - cbn [lastTime]. split; [lia | congruence].
  - destruct (pinsOk_inv _ _ _ _ Hok) as (t & e & p & Ht & Htr & He & Her & Hp & Hrest).
    cbn [lastTime]. rewrite Ht. cbn [numberOf].
    destruct (IH t Hrest) as (Hle & _). split; [lia | intros _; lia].
Qed.

Lemma bendPitches_ok (startPitch : value) (pins : list NotePin.t) :
  forall current prev,
    pinsOk startPitch prev pins = true ->
    Forall (fun v => pitchOk v = true) (bendPitches startPitch current pins).
Proof.
  induction pins as [|pin rest IH]; intros current prev Hok; [constructor|].
  cbn [pinsOk] in Hok.
  apply andb_prop in Hok as (H & Hrest). apply andb_prop in H as (H & Hp).
  cbn [bendPitches].
  destruct (negb (strictEq current (JS.add startPitch (NotePin.interval pin)))).
  - constructor; [assumption|]. eapply IH; eassumption.
  - eapply IH; eassumption.
Qed.

Lemma pitches_numbers (l : list value) :
  Forall (fun v => pitchOk v = true) l ->
  exists zs, l = map Num zs /\ Forall (fun p => - 2 ^ 29 < p < 2 ^ 29) zs.
Proof.
  induction 1 as [|v l Hv H (zs & -> & Hzs)].
  - exists []. split; [reflexivity | constructor].
  - destruct (pitchOk_inv _ Hv) as (z & -> & Hz).
    exists (z :: zs). split; [reflexivity | constructor; assumption].
Qed.

(** ** Rests and notes *)

Lemma write2_sound (v : Z) (w : BitFieldWriter.t) :
  sound w -> 0 <= v < 4 ->
  sound (BitFieldWriter.write 2 (Num v) w)
  /\ content (BitFieldWriter.write 2 (Num v) w)
     = content w ++ [Z.testbit v 1; Z.testbit v 0].
Proof.
  intros Hs Hv. destruct (write_sound 2 v w Hs ltac:(lia) ltac:(lia)) as (H1 & H2).
  split; [assumption|]. rewrite H2. reflexivity.
Qed.

Lemma setAt_middle {A : Type} (hole x y : A) (pre post : list A) :
  setAt hole (List.length pre) x (pre ++ y :: post) = pre ++ x :: post.
Proof.
  unfold setAt. rewrite length_app. cbn [List.length].
  replace (List.length pre - (List.length pre + S (List.length post)))%nat with 0%nat by lia.
  cbn [repeat]. rewrite app_nil_r, firstn_app, Nat.sub_diag, firstn_all.
  cbn [firstn]. rewrite app_nil_r. f_equal. f_equal.
  change (S (List.length pre)) with (1 + List.length pre)%nat.
  rewrite <- skipn_skipn, skipn_app_length. reflexivity.
Qed.

Lemma numberIn_inv (lo hi : Z) (v : value) :
  numberIn lo hi v = true -> exists z, v = Num z /\ lo <= z <= hi.
Proof.
  destruct v as [z| |]; cbn; try discriminate. intros H.
  apply andb_prop in H as (H1 & H2). apply Z.leb_le in H1, H2.
  exists z. split; [reflexivity | lia].
Qed.

Section NoteCodec.

Variable cfg : Config.
Variable rhythm : value.
Variable fuel : nat.
Variable maxPart : Z.
Hypothesis fuel_enough : (32 <= fuel)%nat.
Hypothesis chord_range : 1 <= maxChordSize cfg <= 8.
Hypothesis maxPart_range : maxPart <= 2 ^ 30.

(** A rest from [curPart] to [start], if there is one. *)
Lemma rest_spec (start curPart : Z) (w : BitFieldWriter.t) :
  sound w -> 0 <= curPart <= start -> start <= maxPart -> curPart < maxPart ->
  exists w0 bs0,
    (if JS.gt (Num start) (Num curPart)
     then BitFieldWriter.writePartDuration fuel (JS.sub (Num start) (Num curPart))
            (BitFieldWriter.write 2 (Num 0) w)
     else Ok w) = Ok w0
    /\ sound w0 /\ content w0 = content w ++ bs0
    /\ forall c rest acc,
         positioned (bits c) (bs0 ++ rest) ->
         exists t0 r0,
           (t0 <= 1)%nat
           /\ (forall f,
                 readNotes cfg false (t0 + f) rhythm (Num maxPart) curPart acc c
                 = readNotes cfg false f rhythm (Num maxPart) start acc
                     (Build_Cursor r0 (lastPitch c) (recentPitches c) (recentShapes c)))
           /\ positioned r0 rest.
Proof.
  intros Hs Hcur Hstart Hlt.
  assert (H30 : 2 ^ 30 = 1073741824) by reflexivity.
  assert (H31 : 2 ^ 31 = 2147483648) by reflexivity.
  cbn [JS.gt JS.lt JS.sub].
  destruct (Z.ltb_spec curPart start) as [Hrest | Hnone].
  - destruct (write2_sound 0 w Hs ltac:(lia)) as (Hs1 & Hc1).
    unfold BitFieldWriter.writePartDuration.
    destruct (writeLongTail_sound fuel 1 3 (start - curPart) _ ltac:(lia) ltac:(lia)
                ltac:(change (2 ^ 3) with 8; lia) fuel_enough Hs1)
      as (w0 & bs & Hw & Hs0 & Hc0 & Hr).
    exists w0, ([false; false] ++ bs). split; [exact Hw|]. split; [assumption|].
    split. { rewrite Hc0, Hc1. now rewrite <- app_assoc. }
    intros c rest acc Hpos.
    change (([false; false] ++ bs) ++ rest) with ([false] ++ [false] ++ bs ++ rest) in Hpos.
    destruct (read1_reads false _ _ Hpos) as (r1 & E1 & Hpos1).
    destruct (read1_reads false _ _ Hpos1) as (r2 & E2 & Hpos2).
    destruct (Hr r2 rest Hpos2) as (r3 & E3 & Hpos3).
    exists 1%nat, r3. split; [lia|]. split; [|assumption]. intros f.
    cbn [Nat.add readNotes JS.lt]. destruct (Z.ltb_spec curPart maxPart); [|lia].
    rewrite E1. cbn [Z.b2z JS.eqz Z.eqb]. rewrite E2.
    cbn [Z.b2z JS.eqz Z.eqb negb]. unfold readDuration, BitFieldReader.readPartDuration.
    rewrite E3. cbn [rbind].
    replace (curPart + (start - curPart)) with start by lia. reflexivity.
  - assert (start = curPart) by lia. subst start.
    exists w, []. split; [reflexivity|]. split; [assumption|].
    split; [now rewrite app_nil_r|].
    intros c rest acc Hpos. exists 0%nat, (bits c).
    split; [lia|]. split; [|assumption]. intros f. destruct c; reflexivity.
Qed.

(** The shape of a note, new or met before, and the decoder's turn up to
    the pitches. *)
Lemma shape_turn (shapeBits bits0 : BitFieldWriter.t) (bsS : list bool) (shape : Shape)
  (texts : list string) :
  sound shapeBits -> content shapeBits = bsS ->
  readsOk (readShape cfg false rhythm) bsS shape ->
  sound bits0 -> (List.length texts <= 10)%nat ->
  let shapeString := fromCharCodes (BitFieldWriter.encodeBase64 [] shapeBits) in
  exists bits1 texts1 bs1,
    match indexOf String.eqb texts shapeString with
    | None =>
        Ok (BitFieldWriter.concat shapeBits (BitFieldWriter.write 2 (Num 1) bits0), texts)
    | Some shapeIndex =>
        let* bits :=
          BitFieldWriter.writeLongTail fuel 0 0 (Num (Z.of_nat shapeIndex))
            (BitFieldWriter.write 1 (Num 1) bits0) in
        Ok (bits, removeAt shapeIndex texts)
    end = Ok (bits1, texts1)
    /\ sound bits1 /\ content bits1 = content bits0 ++ bs1
    /\ (List.length (unshiftCapped 10 shapeString texts1) <= 10)%nat
    /\ forall c rest acc curPart,
         curPart < maxPart ->
         Forall2 (shapeText cfg rhythm) texts (recentShapes c) ->
         positioned (bits c) (bs1 ++ rest) ->
         exists r1 shapes1,
           (forall f,
              readNotes cfg false (S f) rhythm (Num maxPart) curPart acc c
              = (let* (note, c') :=
                   readNote shape curPart
                     (Build_Cursor r1 (lastPitch c) (recentPitches c) shapes1) in
                 let* curPart' := validateRange (Num 0) (Num maxPart) (Note.end_ note) in
                 readNotes cfg false f rhythm (Num maxPart) (curPart0 curPart')
                   (acc ++ [note]) c'))
           /\ positioned r1 rest
           /\ Forall2 (shapeText cfg rhythm) (unshiftCapped 10 shapeString texts1) shapes1.
Proof.
  intros Hss Hcs Hshape Hs0 Hlen shapeString.
  assert (H31 : 2 ^ 31 = 2147483648) by reflexivity.
  assert (Htext : shapeText cfg rhythm shapeString shape).
  { destruct (textBits_content shapeBits Hss) as (junk & Hj).
    exists bsS, junk. split; [now rewrite <- Hcs | assumption]. }
  destruct (indexOf String.eqb texts shapeString) as [idx|] eqn:Ei.
  - (* a shape met before *)
    pose proof (indexOf_eqb_some _ _ _ Ei) as Hnth.
    pose proof (nth_error_lt _ _ _ Hnth) as Hidx.
    destruct (write1_sound true _ Hs0) as (Hs1 & Hc1). cbn [Z.b2z] in Hs1, Hc1.
    destruct (writeLongTail_sound fuel 0 0 (Z.of_nat idx) _ ltac:(lia) ltac:(lia)
                ltac:(change (2 ^ 0) with 1; lia) fuel_enough Hs1)
      as (w & bs & Hw & Hsw & Hcw & Hr).
    rewrite Hw. cbn [rbind].
    exists w, (removeAt idx texts), (true :: bs).
    split; [reflexivity|]. split; [assumption|].
    split. { rewrite Hcw, Hc1. now rewrite <- app_assoc. }
    split.
    { apply length_unshiftCapped. pose proof (length_removeAt idx texts). lia. }
    intros c rest acc curPart Hcur Hrel Hpos.
    destruct (Forall2_nth_error _ _ _ Hrel _ _ Hnth) as (shape' & Hnth' & Htext').
    assert (shape' = shape) by (eapply shapeText_same; eassumption). subst shape'.
    pose proof (Forall2_length Hrel) as Hlen2.
    change ((true :: bs) ++ rest) with ([true] ++ bs ++ rest) in Hpos.
    destruct (read1_reads true _ _ Hpos) as (r1 & E1 & Hpos1).
    destruct (Hr r1 rest Hpos1) as (r2 & E2 & Hpos2).
    exists r2, (unshiftCapped 10 shape (removeAt idx (recentShapes c))).
    split; [|split; [assumption|]].
    2:{ apply Forall2_unshiftCapped; [assumption|]. now apply Forall2_removeAt. }
    intros f.
    cbn [readNotes JS.lt]. destruct (Z.ltb_spec curPart maxPart); [|lia].
    rewrite E1. cbn [Z.b2z JS.eqz Z.eqb Pos.eqb]. rewrite E2.
    unfold validateRange at 1. cbn [JS.le].
    destruct (Z.leb_spec 0 (Z.of_nat idx)); [|lia].
    destruct (Z.leb_spec (Z.of_nat idx) (Z.of_nat (List.length (recentShapes c)) - 1));
      [|lia].
    cbn [andb rbind turns]. rewrite Nat2Z.id, Hnth'. reflexivity.
  - (* a new shape *)
    destruct (write2_sound 1 _ Hs0 ltac:(lia)) as (Hs1 & Hc1).
    destruct (concat_sound shapeBits _ Hs1 Hss) as (Hs2 & Hc2).
    eexists _, texts, ([false; true] ++ bsS).
    split; [reflexivity|]. split; [assumption|].
    split. { rewrite Hc2, Hc1, Hcs. now rewrite <- app_assoc. }
    split; [now apply length_unshiftCapped|].
    intros c rest acc curPart Hcur Hrel Hpos.
    change (([false; true] ++ bsS) ++ rest) with ([false] ++ [true] ++ bsS ++ rest) in Hpos.
    destruct (read1_reads false _ _ Hpos) as (r1 & E1 & Hpos1).
    destruct (read1_reads true _ _ Hpos1) as (r2 & E2 & Hpos2).
    destruct (Hshape r2 rest Hpos2) as (r3 & E3 & Hpos3).
    exists r3, (unshiftCapped 10 shape (recentShapes c)).
    split; [|split; [assumption|]].
    2:{ apply Forall2_unshiftCapped; assumption. }
    intros f.
    cbn [readNotes JS.lt]. destruct (Z.ltb_spec curPart maxPart); [|lia].
    rewrite E1. cbn [Z.b2z JS.eqz Z.eqb]. rewrite E2.
    cbn [Z.b2z JS.eqz Z.eqb Pos.eqb negb]. rewrite E3. cbn [rbind]. reflexivity.
Qed.

Lemma strictEq_Num (v : value) (z : Z) : strictEq v (Num z) = true -> v = Num z.
Proof.
  destruct v as [x| |]; cbn; try discriminate. intros H. apply Z.eqb_eq in H. now subst.
Qed.

(** One note: from [encodeNote] to the turns of the decoder's loop that read
    it. *)
Lemma encodeNote_spec (note : Note.t) (curPart : Z) (e : EncodeCursor) :
  0 <= curPart -> noteWf cfg curPart maxPart note = true ->
  pitchesWf e -> (List.length (e_recentShapes e) <= 10)%nat ->
  exists e' bs endPart,
    encodeNote cfg fuel note (Num curPart) e = Ok e'
    /\ Note.end_ note = Num endPart /\ curPart < endPart <= maxPart
    /\ pitchesWf e' /\ (List.length (e_recentShapes e') <= 10)%nat
    /\ content (e_bits e') = content (e_bits e) ++ bs
    /\ forall c rest acc,
         inStep cfg rhythm e c -> positioned (bits c) (bs ++ rest) ->
         exists t c',
           (t <= 2)%nat
           /\ (forall f,
                 readNotes cfg false (t + f) rhythm (Num maxPart) curPart acc c
                 = readNotes cfg false f rhythm (Num maxPart) endPart (acc ++ [note]) c')
           /\ inStep cfg rhythm e' c' /\ positioned (bits c') rest.
Proof.
  intros Hcur Hwf (Hsound & Hlast & Hrecent & Hincl) Hshapes.
  destruct note as [pitches pins start end_].
  unfold noteWf in Hwf. cbn [Note.pitches Note.pins Note.start Note.end_] in Hwf.
  destruct pitches as [|sp ptl]; [discriminate|].
  destruct pins as [|pin0 pins]; [discriminate|].
  repeat match type of Hwf with
         | (_ && _) = true => let H := fresh "W" in apply andb_prop in Hwf as (Hwf & H)
         end.
  rename W into Wend2, W0 into Wend, W1 into Wstart, W2 into Wpins, W3 into We0,
         W4 into Wt0, W5 into Wi0, W6 into Wchord, W7 into Wpitches.
  assert (Hpne : pins <> []) by (destruct pins; [discriminate | congruence]).
  apply Z.leb_le in Wchord.
  destruct (pitches_numbers (sp :: ptl)) as (pz & Hpz & Hpzr).
  { apply Forall_forall. intros v Hv. exact (proj1 (forallb_forall _ _) Wpitches v Hv). }
  destruct pz as [|spz pz]; [discriminate|]. injection Hpz as -> ->.
  inversion Hpzr as [|? ? Hspz Hpzr']; subst.
  apply strictEq_Num in Wi0, Wt0, Wend.
  destruct (numberIn_inv _ _ _ Wstart) as (s & -> & Hs). cbn [numberOf] in Wend.
  subst end_. destruct (numberIn_inv _ _ _ Wend2) as (endPart & Eend & Hend).
  injection Eend as Eend.
  destruct (lastTime_rises _ _ _ Wpins) as (_ & Hrise). specialize (Hrise Hpne).
  destruct (pitches_numbers _ (bendPitches_ok (Num spz) pins (Num spz) 0 Wpins))
    as (bz & Hbz & Hbzr).
  destruct (pitchOk_inv _ Hlast) as (last & Elast & Hlastr).
  (* the encoder *)
  unfold encodeNote. cbn [Note.pitches Note.pins Note.start Note.end_].
  destruct (rest_spec s curPart (e_bits e) Hsound ltac:(lia) ltac:(lia) ltac:(lia))
    as (w0 & bs0 & -> & Hs0 & Hc0 & Hr0).
  cbn [rbind].
  destruct (clear_sound (e_shapeBits e)) as (Hsc & Hcc).
  pose proof (shape_encoded cfg rhythm fuel (map Num (spz :: pz)) pin0 pins
                (BitFieldWriter.clear (e_shapeBits e)) fuel_enough Hsc
                ltac:(cbn; lia) Wchord Hpne We0 Wpins) as Hsh.
  cbv zeta in Hsh. destruct Hsh as (w3 & w5 & bsS & Hpc & Hpins & Hs5 & Hc5 & Hshape).
  cbn [map] in Hpc, Hpins, Hc5, Hshape |- *.
  rewrite Hpc. cbn [rbind]. rewrite Hpins. cbn [rbind].
  rewrite Hcc in Hc5. cbn [app] in Hc5.
  pose proof (shape_turn w5 w0 bsS _ (e_recentShapes e) Hs5 Hc5 Hshape Hs0 Hshapes)
    as Hturn.
  cbv zeta in Hturn.
  destruct Hturn as (bits1 & texts1 & bs1 & -> & Hs1 & Hc1 & Hlen1 & Hr1).
  cbn [rbind]. cbn [nth] in Hr1 |- *.
  rewrite Hbz. change (Num spz :: map Num pz) with (map Num (spz :: pz)).
  rewrite <- map_app. cbn [nth map].
  assert (Hlenr : 1 <= Z.of_nat (List.length (Num spz :: map Num pz)) <= 8)
    by (split; [cbn [List.length]; lia | lia]).
  destruct (encodePitches_spec fuel (Z.of_nat (List.length (Num spz :: map Num pz))) spz
              fuel_enough Hlenr Hspz
              ((spz :: pz) ++ bz) 0
              (Build_EncodeCursor bits1 w5 (e_lastPitch e) (e_recentPitches e)
                 (unshiftCapped 10
                    (fromCharCodes (BitFieldWriter.encodeBase64 [] w5)) texts1))
              last [] [])
    as (e' & bs2 & last' & Henc & Hs' & Hc' & Hsb' & Hsh' & Hl' & Hlr' & Hlen' & Hin' & Hr2);
    try assumption; try lia.
  { apply Forall_app. split; [constructor|]; assumption. }
  { rewrite Elast in Hincl. exact Hincl. }
  { intros _. split; [reflexivity|]. eexists. reflexivity. }
  exists e', (bs0 ++ bs1 ++ bs2), endPart.
  split; [exact Henc|]. split; [f_equal; exact Eend|]. split; [lia|].
  split.
  { split; [assumption|]. split; [rewrite Hl'; now apply pitchOk_intro|].
    split; [assumption|]. rewrite Hl'. assumption. }
  split; [rewrite Hsh'; exact Hlen1|].
  split. { rewrite Hc'. cbn [e_bits]. rewrite Hc1, Hc0. now rewrite <- !app_assoc. }
  (* the decoder *)
  intros c rest acc (Erel1 & Erel2 & Erel3) Hpos. rewrite <- !app_assoc in Hpos.
  destruct (Hr0 c _ acc Hpos) as (t0 & r0 & Ht0 & Hread0 & Hpos0).
  destruct (Hr1 (Build_Cursor r0 (lastPitch c) (recentPitches c) (recentShapes c))
              _ acc s ltac:(lia) Erel3 Hpos0) as (r1 & shapes1 & Hread1 & Hpos1 & Hrel1).
  destruct (Hr2 r1 rest shapes1 Hpos1) as (r2 & Hread2 & Hpos2).
  cbn [e_recentPitches] in Hread2.
  exists (t0 + 1)%nat, (Build_Cursor r2 (Num last') (e_recentPitches e') shapes1).
  split; [lia|]. split.
  2:{ split; [|exact Hpos2].
      split; [cbn [lastPitch]; now rewrite Hl'|].
      split; [reflexivity|]. cbn [recentShapes]. rewrite Hsh'. exact Hrel1. }
  intros f. specialize (Hread0 (S f)). specialize (Hread1 f).
  cbn [lastPitch recentPitches recentShapes] in Hread1.
  rewrite Erel1, Erel2, Elast in Hread1. rewrite Erel1, Erel2, Elast in Hread0.
  unfold readNote in Hread1.
  cbn [pitchCount bendCount shape_pins shape_length initialExpression] in Hread1.
  assert (Ecount : Z.to_nat (Z.of_nat (List.length (Num spz :: map Num pz))
                             + Z.of_nat (List.length (bendPitches (Num spz) (Num spz) pins)))
                   = List.length ((spz :: pz) ++ bz)).
  { rewrite Hbz, length_app. cbn [List.length]. rewrite !length_map. lia. }
  rewrite Ecount, Hread2 in Hread1.
  assert (Efirst : firstn (Z.to_nat (Z.of_nat (List.length (Num spz :: map Num pz)) - 0))
                     ((spz :: pz) ++ bz) = spz :: pz).
  { replace (Z.to_nat (Z.of_nat (List.length (Num spz :: map Num pz)) - 0))
      with (List.length (spz :: pz) + 0)%nat
      by (cbn [List.length]; rewrite length_map; lia).
    rewrite firstn_app_2. cbn [firstn]. now rewrite app_nil_r. }
  assert (Eskip : skipn (Z.to_nat (Z.of_nat (List.length (Num spz :: map Num pz)) - 0))
                    ((spz :: pz) ++ bz) = bz).
  { replace (Z.to_nat (Z.of_nat (List.length (Num spz :: map Num pz)) - 0))
      with (List.length (spz :: pz))
      by (cbn [List.length]; rewrite length_map; lia).
    apply skipn_app_length. }
  rewrite Efirst, Eskip in Hread1. cbn [rbind app] in Hread1.
  cbn [map nth] in Hread1.
  rewrite <- Hbz in Hread1.
  rewrite (makePins_inverse spz pins spz 0 Wpins) in Hread1.
  cbn [Note.end_] in Hread1.
  unfold validateRange in Hread1. cbn [JS.le] in Hread1.
  destruct (Z.leb_spec 0 (s + lastTime 0 pins)); [|lia].
  destruct (Z.leb_spec (s + lastTime 0 pins) maxPart); [|lia].
  cbn [andb rbind curPart0] in Hread1.
  assert (Epin0 : NotePin.mk (Num 0) (Num 0) (NotePin.expression pin0) = pin0).
  { destruct pin0 as [i0 t0' e0]. cbn in Wi0, Wt0 |- *. now subst. }
  rewrite Epin0 in Hread1.
  replace (t0 + 1 + f)%nat with (t0 + S f)%nat by lia.
  rewrite Hread0, Hread1. rewrite <- Eend. reflexivity.
Qed.

(** The notes of a pattern in order. *)
Lemma encodeNotes_spec (notes : list Note.t) :
  forall curPart e,
    0 <= curPart <= maxPart -> notesWf cfg curPart maxPart notes = true ->
    pitchesWf e -> (List.length (e_recentShapes e) <= 10)%nat ->
    exists e' bs endPart,
      encodeNotes cfg fuel notes (Num curPart) e = Ok (Num endPart, e')
      /\ curPart <= endPart <= maxPart /\ (notes <> [] -> curPart < endPart)
      /\ pitchesWf e' /\ (List.length (e_recentShapes e') <= 10)%nat
      /\ content (e_bits e') = content (e_bits e) ++ bs
      /\ forall c rest acc,
           inStep cfg rhythm e c -> positioned (bits c) (bs ++ rest) ->
           exists t c',
             (t <= 2 * List.length notes)%nat
             /\ (forall f,
                   readNotes cfg false (t + f) rhythm (Num maxPart) curPart acc c
                   = readNotes cfg false f rhythm (Num maxPart) endPart (acc ++ notes) c')
             /\ inStep cfg rhythm e' c' /\ positioned (bits c') rest.
Proof.
  induction notes as [|note notes IH]; intros curPart e Hcur Hwf Hp Hshapes.
  - exists e, [], curPart. cbn [encodeNotes]. rewrite app_nil_r.
    split; [reflexivity|]. split; [lia|]. split; [congruence|].
    do 3 (split; [assumption || reflexivity|]).
    intros c rest acc Hrel Hpos. exists 0%nat, c.
    split; [cbn; lia|]. split; [intros f; now rewrite app_nil_r|]. split; assumption.
  - cbn [notesWf] in Hwf. apply andb_prop in Hwf as (Hnote & Hrest).
    destruct (encodeNote_spec note curPart e ltac:(lia) Hnote Hp Hshapes)
      as (e1 & bs1 & mid & Henc1 & Hend & Hmid & Hp1 & Hsh1 & Hc1 & Hr1).
    rewrite Hend in Hrest. cbn [numberOf] in Hrest.
    destruct (IH mid e1 ltac:(lia) Hrest Hp1 Hsh1)
      as (e' & bs2 & endPart & Henc2 & Hle & _ & Hp' & Hsh' & Hc' & Hr2).
    exists e', (bs1 ++ bs2), endPart. cbn [encodeNotes]. rewrite Henc1. cbn [rbind].
    rewrite Hend, Henc2.
    split; [reflexivity|]. split; [lia|]. split; [intros _; lia|].
    do 2 (split; [assumption|]).
    split. { rewrite Hc', Hc1. now rewrite app_assoc. }
    intros c rest acc Hrel Hpos. rewrite <- app_assoc in Hpos.
    destruct (Hr1 c (bs2 ++ rest) acc Hrel Hpos) as (t1 & c1 & Ht1 & Hread1 & Hrel1 & Hpos1).
    destruct (Hr2 c1 rest (acc ++ [note]) Hrel1 Hpos1)
      as (t2 & c2 & Ht2 & Hread2 & Hrel2 & Hpos2).
    exists (t1 + t2)%nat, c2. split; [cbn [List.length]; lia|].
    split; [|split; assumption].
    intros f. rewrite <- Nat.add_assoc, Hread1, Hread2, <- app_assoc. reflexivity.
Qed.

(** ** Patterns *)

Variable neededInstrumentBits : Z.
Variable dfuel : nat.
Hypothesis bits_range : 0 <= neededInstrumentBits <= 30.
Hypothesis maxPart_pos : 0 <= maxPart.

Lemma encodePattern_spec (pattern : Pattern.t) (e : EncodeCursor) :
  patternFits cfg maxPart neededInstrumentBits dfuel pattern -> pitchesWf e -> (List.length (e_recentShapes e) <= 10)%nat ->
  exists e' bs,
    encodePattern cfg fuel neededInstrumentBits (Num maxPart) pattern e = Ok e'
    /\ pitchesWf e' /\ (List.length (e_recentShapes e') <= 10)%nat
    /\ content (e_bits e') = content (e_bits e) ++ bs
    /\ forall c rest n (pre post : list Pattern.t) (old : Pattern.t),
         inStep cfg rhythm e c -> positioned (bits c) (bs ++ rest) ->
         exists c',
           readPatterns cfg false false dfuel (S n) (List.length pre)
             neededInstrumentBits rhythm (Num maxPart) (pre ++ old :: post) c
           = readPatterns cfg false false dfuel n (S (List.length pre))
               neededInstrumentBits rhythm (Num maxPart) (pre ++ pattern :: post) c'
           /\ inStep cfg rhythm e' c' /\ positioned (bits c') rest.
Proof.
  intros (Hins & Hnotes & Hfuel) Hp Hshapes.
  destruct Hp as (Hsound & Hp2).
  destruct (numberIn_inv _ _ _ Hins) as (ins & Eins & Hir).
  destruct (write_reads neededInstrumentBits ins (e_bits e) ltac:(lia) ltac:(lia) Hsound)
    as (bsI & HsI & HcI & _ & HrI).
  destruct pattern as [notes instrument]. cbn [Pattern.notes Pattern.instrument] in *.
  subst instrument. unfold encodePattern. cbn [Pattern.notes Pattern.instrument].
  destruct notes as [|note notes].
  - (* no notes *)
    destruct (write1_sound false _ HsI) as (Hs1 & Hc1). cbn [Z.b2z] in Hs1, Hc1.
    eexists _, (bsI ++ [false]). split; [reflexivity|].
    cbn [e_bits e_recentShapes].
    split; [split; assumption|]. split; [assumption|].
    split. { rewrite Hc1, HcI. now rewrite <- app_assoc. }
    intros c rest n pre post old (E1 & E2 & E3) Hpos. rewrite <- app_assoc in Hpos.
    destruct (HrI _ _ Hpos) as (r1 & Er1 & Hpos1).
    destruct (read1_reads false _ _ Hpos1) as (r2 & Er2 & Hpos2).
    exists (Build_Cursor r2 (lastPitch c) (recentPitches c) (recentShapes c)).
    split; [|split; [split; [|split]; assumption | assumption]].
    cbn [readPatterns]. rewrite nth_error_app2, Nat.sub_diag by lia. cbn [nth_error].
    rewrite Er1, Er2. cbn [Z.b2z JS.eqz Z.eqb rbind].
    rewrite setAt_middle. reflexivity.
  - (* notes *)
    destruct (write1_sound true _ HsI) as (Hs1 & Hc1). cbn [Z.b2z] in Hs1, Hc1.
    destruct (encodeNotes_spec (note :: notes) 0
                (Build_EncodeCursor
                   (BitFieldWriter.write 1 (Num 1)
                      (BitFieldWriter.write neededInstrumentBits (Num ins) (e_bits e)))
                   (e_shapeBits e) (e_lastPitch e) (e_recentPitches e) (e_recentShapes e))
                ltac:(lia) Hnotes ltac:(split; assumption) Hshapes)
      as (e1 & bsN & endPart & -> & Hend & Hgt & (Hs' & Hp') & Hsh' & Hc' & HrN).
    specialize (Hgt ltac:(discriminate)).
    cbn [rbind]. change (JS.lt (Num endPart) (Num maxPart))
      with (JS.gt (Num maxPart) (Num endPart)).
    assert (Hdec : forall w' bsR,
              sound w' -> content w' = content (e_bits e1) ++ bsR ->
              (forall c rest acc,
                 positioned (bits c) (bsR ++ rest) ->
                 exists t0 r0,
                   (t0 <= 1)%nat
                   /\ (forall f,
                         readNotes cfg false (t0 + S f) rhythm (Num maxPart) endPart acc c
                         = Ok (acc, Build_Cursor r0 (lastPitch c) (recentPitches c)
                                      (recentShapes c)))
                   /\ positioned r0 rest) ->
              exists bs,
                pitchesWf (Build_EncodeCursor w' (e_shapeBits e1) (e_lastPitch e1)
                             (e_recentPitches e1) (e_recentShapes e1))
                /\ (List.length (e_recentShapes e1) <= 10)%nat
                /\ content w' = content (e_bits e) ++ bs
                /\ forall c rest n (pre post : list Pattern.t) (old : Pattern.t),
                     inStep cfg rhythm e c -> positioned (bits c) (bs ++ rest) ->
                     exists c',
                       readPatterns cfg false false dfuel (S n) (List.length pre)
                         neededInstrumentBits rhythm (Num maxPart) (pre ++ old :: post) c
                       = readPatterns cfg false false dfuel n (S (List.length pre))
                           neededInstrumentBits rhythm (Num maxPart)
                           (pre ++ Pattern.mk (note :: notes) (Num ins) :: post) c'
                       /\ inStep cfg rhythm
                            (Build_EncodeCursor w' (e_shapeBits e1) (e_lastPitch e1)
                               (e_recentPitches e1) (e_recentShapes e1)) c'
                       /\ positioned (bits c') rest).
    { intros w' bsR Hsw Hcw Hrw.
      exists (bsI ++ [true] ++ bsN ++ bsR).
      split; [split; assumption|]. split; [assumption|].
      split. { rewrite Hcw, Hc'. cbn [e_bits]. rewrite Hc1, HcI. now rewrite <- !app_assoc. }
      intros c rest n pre post old (E1 & E2 & E3) Hpos. rewrite <- !app_assoc in Hpos.
      destruct (HrI _ _ Hpos) as (r1 & Er1 & Hpos1).
      destruct (read1_reads true _ _ Hpos1) as (r2 & Er2 & Hpos2).
      destruct (HrN (Build_Cursor r2 (lastPitch c) (recentPitches c) (recentShapes c))
                  (bsR ++ rest) []) as (t & c1 & Ht & Hread & (F1 & F2 & F3) & Hpos3).
      { split; [|split]; assumption. }
      { exact Hpos2. }
      destruct (Hrw c1 rest ([] ++ note :: notes) Hpos3) as (t0 & r0 & Ht0 & Hread0 & Hpos0).
      exists (Build_Cursor r0 (lastPitch c1) (recentPitches c1) (recentShapes c1)).
      split; [|split; [split; [|split]; assumption | assumption]].
      cbn [readPatterns]. rewrite nth_error_app2, Nat.sub_diag by lia. cbn [nth_error].
      rewrite Er1, Er2. cbn [Z.b2z JS.eqz Z.eqb Pos.eqb].
      cbn [List.length] in Ht, Hfuel.
      replace dfuel with (t + (t0 + S (dfuel - t - t0 - 1)))%nat by lia.
      rewrite Hread, Hread0. cbn [rbind app].
      replace (t + (t0 + S (dfuel - t - t0 - 1)))%nat with dfuel by lia.
      rewrite setAt_middle. reflexivity. }
    destruct (Z.ltb_spec endPart maxPart) as [Hlt | Hge].
    + (* a rest up to the end of the bar *)
      destruct (rest_spec maxPart endPart (e_bits e1) Hs' ltac:(lia) ltac:(lia) Hlt)
        as (w0 & bs0 & Hw0 & Hs0 & Hc0 & Hr0).
      cbn [JS.gt JS.lt] in Hw0 |- *. destruct (Z.ltb_spec endPart maxPart); [|lia].
      rewrite Hw0. cbn [rbind].
      destruct (Hdec w0 bs0 Hs0 Hc0) as (bs & H1 & H2 & H3 & H4).
      { intros c rest acc Hpos. destruct (Hr0 c rest acc Hpos) as (t0 & r0 & Ht0 & Hrd & Hp0).
        exists t0, r0. split; [assumption|]. split; [|assumption].
        intros f. rewrite Hrd. cbn [readNotes JS.lt].
        destruct (Z.ltb_spec maxPart maxPart); [lia | reflexivity]. }
      eexists _, bs. split; [reflexivity|]. cbn [e_bits e_recentShapes].
      split; [exact H1|]. split; [exact H2|]. split; [exact H3 | exact H4].
    + cbn [JS.gt JS.lt]. destruct (Z.ltb_spec endPart maxPart); [lia|].
      destruct (Hdec (e_bits e1) [] Hs' ltac:(now rewrite app_nil_r))
        as (bs & H1 & H2 & H3 & H4).
      { intros c rest acc Hpos. exists 0%nat, (bits c).
        split; [lia|]. split; [|exact Hpos].
        intros f. cbn [Nat.add readNotes JS.lt].
        destruct (Z.ltb_spec endPart maxPart); [lia|]. destruct c; reflexivity. }
      exists e1, bs. split; [reflexivity|].
      destruct e1 as [b1 sb1 l1 rp1 rs1]. cbn [e_bits e_shapeBits e_lastPitch
        e_recentPitches e_recentShapes] in *.
      split; [exact H1|]. split; [exact H2|]. split; [exact H3 | exact H4].
Qed.

Lemma encodePatterns_spec (patterns : list Pattern.t) :
  forall e,
    Forall (patternFits cfg maxPart neededInstrumentBits dfuel) patterns ->
    pitchesWf e -> (List.length (e_recentShapes e) <= 10)%nat ->
    exists e' bs,
      encodePatterns cfg fuel neededInstrumentBits (Num maxPart) patterns e = Ok e'
      /\ sound (e_bits e') /\ content (e_bits e') = content (e_bits e) ++ bs
      /\ forall c rest (pre olds post : list Pattern.t),
           inStep cfg rhythm e c -> positioned (bits c) (bs ++ rest) ->
           List.length olds = List.length patterns ->
           exists c',
             readPatterns cfg false false dfuel (List.length patterns) (List.length pre)
               neededInstrumentBits rhythm (Num maxPart) (pre ++ olds ++ post) c
             = Ok (pre ++ patterns ++ post, c')
             /\ positioned (bits c') rest.
Proof.
  induction patterns as [|pattern patterns IH]; intros e Hall Hp Hshapes.
  - exists e, []. cbn [encodePatterns]. rewrite app_nil_r.
    split; [reflexivity|]. split; [apply Hp|]. split; [reflexivity|].
    intros c rest pre olds post Hrel Hpos Hlen.
    destruct olds; [|discriminate]. exists c. split; [reflexivity | assumption].
  - inversion Hall as [|? ? Hfit Hrest]; subst.
    destruct (encodePattern_spec pattern e Hfit Hp Hshapes)
      as (e1 & bs1 & Henc1 & Hp1 & Hsh1 & Hc1 & Hr1).
    destruct (IH e1 Hrest Hp1 Hsh1) as (e' & bs2 & Henc2 & Hs' & Hc' & Hr2).
    exists e', (bs1 ++ bs2). cbn [encodePatterns]. rewrite Henc1. cbn [rbind].
    split; [exact Henc2|]. split; [assumption|].
    split. { rewrite Hc', Hc1. now rewrite app_assoc. }
    intros c rest pre olds post Hrel Hpos Hlen. rewrite <- app_assoc in Hpos.
    destruct olds as [|old olds]; [discriminate|]. cbn [List.length] in Hlen.
    destruct (Hr1 c (bs2 ++ rest) (List.length patterns) pre (olds ++ post) old Hrel Hpos)
      as (c1 & Hread1 & Hrel1 & Hpos1).
    destruct (Hr2 c1 rest (pre ++ [pattern]) olds post Hrel1 Hpos1 ltac:(lia))
      as (c2 & Hread2 & Hpos2).
    exists c2. split; [|assumption].
    cbn [List.length app]. rewrite Hread1.
    rewrite length_app in Hread2. cbn [List.length] in Hread2.
    replace (List.length pre + 1)%nat with (S (List.length pre)) in Hread2 by lia.
    rewrite <- !app_assoc in Hread2. cbn [app] in Hread2. exact Hread2.
Qed.

End NoteCodec.

(** ** Channels *)

Lemma readerOf_content (w : BitFieldWriter.t) :
  sound w -> exists junk, readerOf w = BitFieldReader.mk (content w ++ junk) 0.
Proof.
  intros Hs. rewrite readerOf_nth.
  assert (Hle : (BitFieldWriter._index w <= 6 * BitFieldWriter.lengthBase64 w)%nat).
  { unfold BitFieldWriter.lengthBase64.
    pose proof (Nat.div_mod_eq (BitFieldWriter._index w + 5) 6).
    pose proof (Nat.mod_upper_bound (BitFieldWriter._index w + 5) 6). lia. }
  replace (6 * BitFieldWriter.lengthBase64 w)%nat
    with (BitFieldWriter._index w
          + (6 * BitFieldWriter.lengthBase64 w - BitFieldWriter._index w))%nat by lia.
  rewrite seq_app, map_app. eexists. f_equal. f_equal.
  unfold content. apply map_nth_firstn. exact Hs.
Qed.

Lemma set_channels_twice (x y : list Channel.t) (s : Song.t) :
  Song.set_channels x (Song.set_channels y s) = Song.set_channels x s.
Proof. destruct s; reflexivity. Qed.

(** The cursor a channel starts with. *)
Lemma start_wf (bits shapeBits : BitFieldWriter.t) (isNoiseChannel : bool) (octave : Z) :
  sound bits -> - 2 ^ 20 <= octave <= 2 ^ 20 ->
  let octaveOffset := if isNoiseChannel then Num 0 else JS.mul (Num octave) (Num 12) in
  pitchesWf
    (Build_EncodeCursor bits shapeBits
       (JS.add (Num (if isNoiseChannel then 4 else 12)) octaveOffset)
       (map (fun p => JS.add (Num p) octaveOffset)
          (if isNoiseChannel then [4; 6; 7; 2; 3; 8; 0; 10]
           else [12; 19; 24; 31; 36; 7; 0])) []).
Proof.
  intros Hs Ho octaveOffset. unfold pitchesWf.
  cbn [e_bits e_lastPitch e_recentPitches].
  assert (H20 : 2 ^ 20 = 1048576) by reflexivity.
  assert (H29 : 2 ^ 29 = 536870912) by reflexivity.
  split; [assumption|]. subst octaveOffset.
  destruct isNoiseChannel; cbn [JS.add JS.mul map List.length].
  - split; [apply pitchOk_intro; lia|]. split; [lia|].
    reflexivity.
  - split; [apply pitchOk_intro; lia|]. split; [lia|].
    cbn [includes existsb strictEq]. now rewrite Z.eqb_refl.
Qed.

Section ChannelCodec.

Variable cfg : Config.
Variable fuel dfuel : nat.
Variable neededInstrumentBits : Z.
Variables song s0 : Song.t.
Variables pitchChannels noiseChannels beats patternCount : Z.

Hypothesis fuel_enough : (32 <= fuel)%nat.
Hypothesis chord_range : 1 <= maxChordSize cfg <= 8.
Hypothesis bits_range : 0 <= neededInstrumentBits <= 30.
Hypothesis pitch_count : Song.pitchChannelCount song = Num pitchChannels.
Hypothesis noise_count : Song.noiseChannelCount song = Num noiseChannels.
Hypothesis channel_count :
  Z.of_nat (List.length (Song.channels song)) = pitchChannels + noiseChannels.
Hypothesis beats_count : Song.beatsPerBar song = Num beats.
Hypothesis bar_range : 0 <= beats * partsPerBeat cfg <= 2 ^ 30.
Hypothesis pattern_count : Song.patternsPerChannel song = Num patternCount.
Hypothesis pattern_count_pos : 1 <= patternCount.
Hypothesis channels_fit :
  Forall (channelFits cfg (beats * partsPerBeat cfg) neededInstrumentBits dfuel
            patternCount) (Song.channels song).
Hypothesis plan : samePlan s0 song.


Lemma state_fields (k : nat) :
  Song.pitchChannelCount (channelsRead song s0 k) = Num pitchChannels
  /\ Song.noiseChannelCount (channelsRead song s0 k) = Num noiseChannels
  /\ Song.beatsPerBar (channelsRead song s0 k) = Num beats
  /\ Song.patternsPerChannel (channelsRead song s0 k) = Num patternCount
  /\ Song.rhythm (channelsRead song s0 k) = Song.rhythm song
  /\ Song.channels (channelsRead song s0 k)
     = firstn k (Song.channels song) ++ skipn k (Song.channels s0).
Proof.
  destruct plan as (Hsong & _). unfold channelsRead.
  rewrite <- pitch_count, <- noise_count, <- beats_count, <- pattern_count.
  rewrite <- Hsong at 2 4 6 8 10. destruct s0; repeat split; reflexivity.
Qed.

Lemma state_all : channelsRead song s0 (List.length (Song.channels song)) = song.
Proof.
  destruct plan as (Hsong & Hall). unfold channelsRead.
  rewrite firstn_all, skipn_all2, app_nil_r; [exact Hsong|].
  rewrite (Forall2_length Hall). lia.
Qed.

Lemma channel_turn (k : nat) (ck : Channel.t) (w shapeBits : BitFieldWriter.t) :
  nth_error (Song.channels song) k = Some ck -> sound w ->
  let isNoiseChannel := getChannelIsNoise song (Num (Z.of_nat k)) in
  let octaveOffset :=
    if isNoiseChannel then Num 0 else JS.mul (Channel.octave ck) (Num 12) in
  exists e' bs,
    encodePatterns cfg fuel neededInstrumentBits
      (JS.mul (Song.beatsPerBar song) (Num (partsPerBeat cfg))) (Channel.patterns ck)
      (Build_EncodeCursor w shapeBits
         (JS.add (Num (if isNoiseChannel then 4 else 12)) octaveOffset)
         (map (fun p => JS.add (Num p) octaveOffset)
            (if isNoiseChannel then [4; 6; 7; 2; 3; 8; 0; 10]
             else [12; 19; 24; 31; 36; 7; 0])) []) = Ok e'
    /\ sound (e_bits e') /\ content (e_bits e') = content w ++ bs
    /\ forall r rest t,
         positioned r (bs ++ rest) ->
         exists r',
           positioned r' rest
           /\ readChannels cfg false false dfuel (S t) neededInstrumentBits
                (Num (Z.of_nat k)) r (channelsRead song s0 k)
              = if pitchChannels + noiseChannels <=? Z.of_nat (S k)
                then Ok (channelsRead song s0 (S k))
                else readChannels cfg false false dfuel t neededInstrumentBits
                       (Num (Z.of_nat (S k))) r' (channelsRead song s0 (S k)).
Proof.
  intros Hck Hs isNoiseChannel octaveOffset.
  destruct plan as (Hsong & Hall).
  pose proof (proj1 (Forall_forall _ _) channels_fit ck (nth_error_In _ _ Hck))
    as (Hoct & Hcount & Hfit).
  destruct (numberIn_inv _ _ _ Hoct) as (o & Eo & Ho).
  assert (Hk : (k < List.length (Song.channels song))%nat)
    by (apply nth_error_Some; congruence).
  pose proof (Forall2_length Hall) as Hlen.
  destruct (nth_error (Song.channels s0) k) as [c0|] eqn:Hc0.
  2:{ apply nth_error_None in Hc0. lia. }
  assert (Hpair : Channel.set_patterns (Channel.patterns ck) c0 = ck
                  /\ List.length (Channel.patterns c0) = List.length (Channel.patterns ck)).
  { clear - Hall Hck Hc0. revert k Hck Hc0.
    induction Hall as [|x y l l' Hxy H IH]; intros [|k]; cbn; try discriminate.
    - intros [= <-] [= <-]. exact Hxy.
    - apply IH. }
  destruct Hpair as (Hset & Hplen).
  assert (Hoct0 : Channel.octave c0 = Num o).
  { rewrite <- Eo, <- Hset. destruct c0; reflexivity. }
  subst octaveOffset. rewrite Eo, beats_count. cbn [JS.mul].
  pose proof (start_wf w shapeBits isNoiseChannel o Hs Ho) as Hwf. cbv zeta in Hwf.
  cbn [JS.mul] in Hwf.
  destruct (encodePatterns_spec cfg (Song.rhythm song) fuel (beats * partsPerBeat cfg)
              fuel_enough chord_range ltac:(lia) neededInstrumentBits dfuel bits_range
              ltac:(lia) (Channel.patterns ck) _ Hfit Hwf ltac:(cbn; lia))
    as (e' & bs & Henc & Hs' & Hc' & Hr).
  exists e', bs. split; [exact Henc|]. split; [assumption|]. split; [exact Hc'|].
  intros r rest t Hpos.
  destruct (state_fields k) as (F1 & F2 & F3 & F4 & F5 & F6).
  assert (Hskip : skipn k (Song.channels s0) = c0 :: skipn (S k) (Song.channels s0)).
  { clear - Hc0. revert k Hc0. induction (Song.channels s0) as [|x l IH]; intros [|k];
      cbn; try discriminate.
    - intros [= <-]. reflexivity.
    - apply IH. }
  assert (Hfk : List.length (firstn k (Song.channels song)) = k)
    by (rewrite length_firstn; lia).
  assert (Hat : at_ (Song.channels (channelsRead song s0 k)) (Num (Z.of_nat k)) = Some c0).
  { unfold at_. destruct (Z.ltb_spec (Z.of_nat k) 0); [lia|].
    rewrite Nat2Z.id, F6, nth_error_app2 by lia.
    rewrite Hfk, Nat.sub_diag, Hskip. reflexivity. }
  destruct (Hr (Build_Cursor r
                  (JS.add (Num (if isNoiseChannel then 4 else 12))
                     (if isNoiseChannel then Num 0 else Num (o * 12)))
                  (map (fun p => JS.add (Num p)
                                   (if isNoiseChannel then Num 0 else Num (o * 12)))
                     (if isNoiseChannel then [4; 6; 7; 2; 3; 8; 0; 10]
                      else [12; 19; 24; 31; 36; 7; 0])) [])
              rest [] (Channel.patterns c0) [])
    as (c' & Hread & Hpos').
  { split; [reflexivity|]. split; [reflexivity|]. constructor. }
  { exact Hpos. }
  { exact Hplen. }
  exists (bits c'). split; [exact Hpos'|].
  cbn [readChannels].
  assert (Hnoise : getChannelIsNoise (channelsRead song s0 k) (Num (Z.of_nat k)) = isNoiseChannel).
  { subst isNoiseChannel. unfold getChannelIsNoise. now rewrite F1, pitch_count. }
  rewrite Hnoise, Hat, Hoct0, F3, F4, F5. cbn [JS.mul turns].
  assert (Hturns : Z.to_nat patternCount = List.length (Channel.patterns ck)) by lia.
  rewrite Hturns.
  destruct (Nat.eqb_spec (List.length (Channel.patterns ck)) 0) as [E0 | _]; [lia|].
  cbn [List.length app] in Hread. rewrite !app_nil_r in Hread.
  assert (Hstate : updChannel (Num (Z.of_nat k))
                     (fun ch => Ok (Channel.set_patterns (Channel.patterns ck) ch))
                     (channelsRead song s0 k) = Ok (channelsRead song s0 (S k))).
  { unfold updChannel. rewrite Hat. cbn [rbind turns]. rewrite Hset, Nat2Z.id, F6, Hskip.
    rewrite <- Hfk at 1. rewrite setAt_middle.
    unfold channelsRead. rewrite set_channels_twice.
    rewrite (firstn_succ _ ck _ k Hk), (nth_error_nth _ _ _ Hck), <- app_assoc.
    reflexivity. }
  assert (Hcount' : getChannelCount (channelsRead song s0 (S k)) = Num (pitchChannels + noiseChannels)).
  { destruct (state_fields (S k)) as (G1 & G2 & _). unfold getChannelCount.
    now rewrite G1, G2. }
  destruct isNoiseChannel; cbn [rbind JS.add] in Hread |- *;
    rewrite Hread; cbn [rbind]; rewrite Hstate; cbn [rbind];
    rewrite Hcount'; unfold JS.ge, JS.le;
    replace (Z.of_nat k + 1) with (Z.of_nat (S k)) by lia;
    destruct (pitchChannels + noiseChannels <=? Z.of_nat (S k)); reflexivity.
Qed.

Lemma channels_spec (m k : nat) (w shapeBits : BitFieldWriter.t) :
  (k + m = List.length (Song.channels song))%nat -> sound w ->
  exists w' bs,
    encodeChannels cfg fuel neededInstrumentBits song (map Z.of_nat (seq k m)) w shapeBits
    = Ok w'
    /\ sound w' /\ content w' = content w ++ bs
    /\ forall r rest t,
         (1 <= m)%nat -> (m <= t)%nat -> positioned r (bs ++ rest) ->
         readChannels cfg false false dfuel t neededInstrumentBits (Num (Z.of_nat k)) r
           (channelsRead song s0 k) = Ok song.
Proof.
  revert k w shapeBits. induction m as [|m IH]; intros k w shapeBits Hk Hs.
  - exists w, []. cbn [seq map encodeChannels]. rewrite app_nil_r.
    repeat split; try assumption. intros; lia.
  - destruct (nth_error (Song.channels song) k) as [ck|] eqn:Hck.
    2:{ apply nth_error_None in Hck. lia. }
    destruct (channel_turn k ck w shapeBits Hck Hs) as (e' & bs & Henc & Hs' & Hc' & Hr).
    destruct (IH (S k) (e_bits e') (e_shapeBits e') ltac:(lia) Hs')
      as (w' & bs' & Henc' & Hs'' & Hc'' & Hr').
    exists w', (bs ++ bs').
    split.
    { cbn [seq map encodeChannels]. unfold at_.
      destruct (Z.ltb_spec (Z.of_nat k) 0); [lia|]. rewrite Nat2Z.id, Hck.
      rewrite Henc. cbn [rbind]. exact Henc'. }
    split; [assumption|]. split; [rewrite Hc'', Hc', app_assoc; reflexivity|].
    intros r rest [|t] _ Ht Hpos; [lia|].
    rewrite <- app_assoc in Hpos.
    destruct (Hr r (bs' ++ rest) t Hpos) as (r' & Hpos' & Eq). rewrite Eq.
    destruct (Z.leb_spec (pitchChannels + noiseChannels) (Z.of_nat (S k))) as [Hend|Hmore].
    + assert (S k = List.length (Song.channels song)) as -> by lia. now rewrite state_all.
    + apply (Hr' r' rest t); [lia | lia | exact Hpos'].
Qed.

End ChannelCodec.

(** X27.  The patterns of a song, from the loop over the channels of
    [toBase64String] to the [while (true)] loop of the [patterns] case of
    [fromBase64String] in the current format: the encoder's loop runs to its
    end without an error, and the decoder, reading the base64 symbols of the
    bits written into a song that differs from the encoded one in what its
    patterns hold only, gives the encoded song back, with every instrument,
    note, pitch, pin, start and end of every pattern.  The song has one
    channel or more, as many as its two counts say, a bar of at most [2^30]
    parts and one pattern or more in every channel; its octaves are within
    [2^20] of 0, its instruments fit [neededInstrumentBits] bits, and its
    notes are in order within the bar, each with 1..[maxChordSize] pitches
    within [2^29] of 0, a first pin of interval 0 at time 0 and later pins
    of rising times with expressions 0..3. *)
Theorem patterns_roundtrip (cfg : Config) (neededInstrumentBits : Z) (fuel dfuel tfuel : nat)
  (song s0 : Song.t) :
  1 <= maxChordSize cfg <= 8 -> 0 <= neededInstrumentBits <= 30 -> (32 <= fuel)%nat ->
  songFits cfg neededInstrumentBits dfuel song -> samePlan s0 song ->
  (List.length (Song.channels song) <= tfuel)%nat ->
  exists w,
    encodeChannels cfg fuel neededInstrumentBits song (range (getChannelCount song))
      BitFieldWriter.empty BitFieldWriter.empty = Ok w
    /\ readChannels cfg false false dfuel tfuel neededInstrumentBits (Num 0) (readerOf w) s0
       = Ok song.
Proof.
  intros Hchord Hbits Hfuel (pc & nc & beats & count & Epc & Enc & Hpc & Hnc & Hone & Hlen
                             & Ebeats & Hbar & Ecount & Hcount & Hfit) Hplan Ht.
  destruct (channels_spec cfg fuel dfuel neededInstrumentBits song s0 pc nc beats count
              Hfuel Hchord Hbits Epc Enc Hlen Ebeats Hbar Ecount Hcount Hfit Hplan
              (List.length (Song.channels song)) 0%nat BitFieldWriter.empty
              BitFieldWriter.empty ltac:(lia) (proj1 empty_sound))
    as (w & bs & Henc & Hs & Hc & Hr).
  exists w. split.
  { unfold range, getChannelCount. rewrite Epc, Enc. cbn [JS.add turns].
    rewrite <- Hlen, Nat2Z.id. exact Henc. }
  destruct (readerOf_content w Hs) as (junk & ->).
  rewrite (proj2 empty_sound) in Hc. cbn [app] in Hc.
  specialize (Hr (BitFieldReader.mk (content w ++ junk) 0) junk tfuel ltac:(lia) Ht).
  assert (E0 : channelsRead song s0 0 = s0) by (unfold channelsRead; destruct s0; reflexivity).
  rewrite E0 in Hr. apply Hr. exists []. rewrite Hc. reflexivity.
Qed.

Lemma patterns_roundtrip_witness :
  exists w,
    encodeChannels referenceConfig 32 1 sampleSong (range (getChannelCount sampleSong))
      BitFieldWriter.empty BitFieldWriter.empty = Ok w
    /\ readChannels referenceConfig false false 10 2 1 (Num 0) (readerOf w) sampleStart
       = Ok sampleSong.
Proof.
  apply (patterns_roundtrip referenceConfig 1 32 10 2 sampleSong sampleStart).
  - cbn. lia.
  - lia.
  - lia.
  - exists 1, 1, 8, 2.
    split; [reflexivity|]. split; [reflexivity|]. split; [lia|]. split; [lia|].
    split; [lia|]. split; [reflexivity|]. split; [reflexivity|].
    split; [vm_compute; split; discriminate|]. split; [reflexivity|]. split; [lia|].
    repeat constructor; vm_compute; try reflexivity; try discriminate; lia.
  - split; [reflexivity|]. repeat constructor.
  - cbn. lia.
Defined.
